(** * A segregated-free-list allocator (mm.c): model and verification

    The allocator of [mm.c] manages one contiguous heap obtained from
    [mem_sbrk].  Blocks carry an 8-byte header [(size | prev_alloc | alloc)],
    free blocks carry a footer and two link words, and fifteen doubly linked
    lists index the free blocks by size class.

    The development is in two parts: first the embedding of the C code
    (flat byte-addressed memory, 64-bit unsigned arithmetic with explicit
    wrap-around, explicit state passing), then the theorems:
    - the size classes, the size adjustment and the fit search;
    - requests whose size adjustment wraps, run on a concrete machine;
    - the invariant [inv] of the heap and of the segregated lists, kept by
      the list operations, [coalesce_block], [free], [extend_heap],
      [split_block], [malloc], [realloc], [calloc] and built by [mm_init];
    - the states of a run: their sentinels, the payloads they keep, and the
      answer of the checker on them;
    - further properties, function by function: tag words and sizes, the
      list operations, the public calls seen from the live blocks, and
      what an answer of the checker says about the heap. *)

From Stdlib Require Import ZArith List Bool Lia Permutation.
Import ListNotations.
Local Open Scope Z_scope.

(* ===================================================================== *)
(** * Part I: the embedding                                              *)
(* ===================================================================== *)

(** ** Machine words *)

Definition two64 : Z := 2 ^ 64.

(** [size_t] and [word_t] arithmetic is modulo 2^64. *)
Definition wrap64 (x : Z) : Z := x mod two64.

(** [(intptr_t) x] for a 64-bit unsigned [x]. *)
Definition to_signed (x : Z) : Z := if x <? 2 ^ 63 then x else x - two64.

Definition NULL : Z := 0.

(** ** Flat memory: one byte per address, little-endian words *)

Definition memory := Z -> Z.

Definition byte_at (m : memory) (a : Z) : Z := m a mod 256.

Definition load64 (m : memory) (a : Z) : Z :=
  byte_at m a + 256 * (byte_at m (a + 1) + 256 * (byte_at m (a + 2) +
  256 * (byte_at m (a + 3) + 256 * (byte_at m (a + 4) + 256 * (byte_at m (a + 5) +
  256 * (byte_at m (a + 6) + 256 * byte_at m (a + 7))))))).

Definition store64 (m : memory) (a v : Z) : memory :=
  fun x => if (a <=? x) && (x <? a + 8) then (v / 2 ^ (8 * (x - a))) mod 256 else m x.

(** [memcpy(dst, src, n)] and [memset(dst, c, n)] on the flat memory.  In C
    a call is defined for ranges of mapped memory, and [memcpy] for ranges
    that do not overlap; a range that leaves the heap faults.  The flat
    memory has no end, so these two functions give the effect of a call
    only for ranges inside the heap (disjoint ones for [memcpy]).  The
    theorems on the results of [realloc] and [calloc] are stated for such
    calls; for a call whose range leaves the heap the theorem states the
    range, not a result. *)
Definition memcpy (m : memory) (dst src n : Z) : memory :=
  fun x => if (dst <=? x) && (x <? dst + n) then m (src + (x - dst)) else m x.

Definition memset (m : memory) (dst c n : Z) : memory :=
  fun x => if (dst <=? x) && (x <? dst + n) then c mod 256 else m x.

(** ** Basic constants (mm.c lines 74-105) *)

Definition wsize : Z := 8.
Definition dsize : Z := 2 * wsize.
Definition min_block_size : Z := 2 * dsize.
Definition chunksize : Z := 2 ^ 12.
Definition alloc_mask : Z := 1.
Definition prev_alloc_mask : Z := 2.
Definition size_mask : Z := two64 - 16.   (* ~(word_t)0xF *)

(** ** The allocator state: the heap image, the memlib break, the globals *)

Record state : Type := mkState {
  mem : memory;
  seg_list : list Z;      (* static block_t *seg_list[15] *)
  heap_start : Z;         (* static block_t *heap_start *)
  heap_lo : Z;            (* mem_heap_lo() *)
  brk : Z;                (* memlib break: mem_heap_hi() = brk - 1 *)
  mem_max : Z             (* memlib limit of the break *)
}.

Definition set_mem (s : state) (m : memory) : state :=
  mkState m (seg_list s) (heap_start s) (heap_lo s) (brk s) (mem_max s).

Definition set_heap_start (s : state) (p : Z) : state :=
  mkState (mem s) (seg_list s) p (heap_lo s) (brk s) (mem_max s).

Definition set_seg_list (s : state) (l : list Z) : state :=
  mkState (mem s) l (heap_start s) (heap_lo s) (brk s) (mem_max s).

Fixpoint upd_nth (i : nat) (v : Z) (l : list Z) : list Z :=
  match l, i with
  | [], _ => []
  | _ :: r, O => v :: r
  | x :: r, S j => x :: upd_nth j v r
  end.

(** [seg_list[index] = v] *)
Definition set_seg (s : state) (index : nat) (v : Z) : state :=
  set_seg_list s (upd_nth index v (seg_list s)).

(** [seg_list[index]] *)
Definition seg (s : state) (index : nat) : Z := nth index (seg_list s) NULL.

(** [*(word_t * )a = v] *)
Definition store (s : state) (a v : Z) : state := set_mem s (store64 (mem s) a v).

(** [*(word_t * )a] *)
Definition load (s : state) (a : Z) : Z := load64 (mem s) a.

(** Modelled from the spec: [mem_heap_lo], [mem_heap_hi] and [mem_sbrk] come
    from memlib, which is not part of the source.  Section 6 of the
    specification gives them: inclusive bounds of the heap, and an [sbrk]
    that grows the heap by [delta] bytes and returns the old break on
    success, a sentinel value otherwise (here [None]); a failing call leaves
    the heap as it was.  The request fails when [delta] is negative or the
    new break would pass the limit [mem_max]. *)
Definition mem_heap_lo (s : state) : Z := heap_lo s.

Definition mem_heap_hi (s : state) : Z := brk s - 1.

Definition mem_sbrk (s : state) (incr : Z) : option (Z * state) :=
  if (incr <? 0) || (mem_max s <? brk s + incr) then None
  else Some (brk s,
             mkState (mem s) (seg_list s) (heap_start s) (heap_lo s)
                     (brk s + incr) (mem_max s)).

(** ** Short helper functions (mm.c lines 151-421) *)

Definition max (x y : Z) : Z := if x >? y then x else y.

Definition round_up (size n : Z) : Z :=
  let asize := wrap64 (n * (wrap64 (size + wrap64 (n - 1)) / n)) in
  if asize <? min_block_size then min_block_size else asize.

Definition pack (size : Z) (alloc prev_alloc : bool) : Z :=
  let word := size in
  if alloc then
    if prev_alloc then Z.lor (Z.lor word prev_alloc_mask) alloc_mask
    else Z.lor word alloc_mask
  else
    if prev_alloc then Z.lor word prev_alloc_mask else word.

Definition extract_size (word : Z) : Z := Z.land word size_mask.

Definition get_size (s : state) (block : Z) : Z := extract_size (load s block).

(** [offsetof(block_t, payload)] is 8: the header word. *)
Definition payload_to_header (bp : Z) : Z := bp - 8.

Definition header_to_payload (block : Z) : Z := block + 8.

Definition header_to_footer (s : state) (block : Z) : Z :=
  block + 8 + get_size s block - dsize.

Definition footer_to_header (s : state) (footer : Z) : Z :=
  let size := extract_size (load s footer) in
  footer + wsize - size.

Definition get_payload_size (s : state) (block : Z) : Z :=
  let asize := get_size s block in
  wrap64 (asize - wsize).

Definition extract_alloc (word : Z) : bool :=
  negb (Z.land word alloc_mask =? 0).

Definition get_alloc (s : state) (block : Z) : bool := extract_alloc (load s block).

Definition extract_prev_alloc (word : Z) : bool :=
  negb (Z.land word prev_alloc_mask =? 0).

Definition get_prev_alloc (s : state) (block : Z) : bool :=
  extract_prev_alloc (load s block).

Definition write_epilogue (s : state) (block : Z) : state :=
  store s block (pack 0 true false).

Definition write_block (s : state) (block size : Z) (alloc prev_alloc : bool) : state :=
  let word := pack size alloc prev_alloc in
  let s1 := store s block word in
  if negb alloc then
    let footerp := header_to_footer s1 block in
    store s1 footerp word
  else s1.

Definition find_next (s : state) (block : Z) : Z := block + get_size s block.

Definition update_next_prev_alloc (s : state) (block : Z) (next_prev_alloc : bool) : state :=
  let next_block := find_next s block in
  let word := pack (get_size s next_block) (get_alloc s next_block) next_prev_alloc in
  store s next_block word.

Definition find_prev_footer (block : Z) : Z := block - 8.

Definition find_prev (s : state) (block : Z) : Z :=
  let footerp := find_prev_footer block in
  if extract_size (load s footerp) =? 0 then NULL
  else footer_to_header s footerp.

(** The link words of a free block: [block->next] at offset 8 and
    [block->prev] at offset 16. *)
Definition get_next (s : state) (block : Z) : Z := load s (block + 8).
Definition get_prev (s : state) (block : Z) : Z := load s (block + 16).
Definition set_next (s : state) (block v : Z) : state := store s (block + 8) v.
Definition set_prev (s : state) (block v : Z) : state := store s (block + 16) v.

(** ** The segregated lists (mm.c lines 430-533) *)

Definition list_length : nat := 15.

Definition list0 : Z := 32.
Definition list1 : Z := 64.
Definition list2 : Z := 96.
Definition list3 : Z := 128.
Definition list4 : Z := 160.
Definition list5 : Z := 192.
Definition list6 : Z := 256.
Definition list7 : Z := 512.
Definition list8 : Z := 1024.
Definition list9 : Z := 2048.
Definition list10 : Z := 4096.
Definition list11 : Z := 8192.
Definition list12 : Z := 16384.
Definition list13 : Z := 32768.
Definition list14 : Z := 65536.

Definition find_index (size : Z) : nat :=
  if (list0 <=? size) && (size <? list1) then 0%nat
  else if (list1 <=? size) && (size <? list2) then 1%nat
  else if (list2 <=? size) && (size <? list3) then 2%nat
  else if (list3 <=? size) && (size <? list4) then 3%nat
  else if (list4 <=? size) && (size <? list5) then 4%nat
  else if (list5 <=? size) && (size <? list6) then 5%nat
  else if (list6 <=? size) && (size <? list7) then 6%nat
  else if (list7 <=? size) && (size <? list8) then 7%nat
  else if (list8 <=? size) && (size <? list9) then 8%nat
  else if (list9 <=? size) && (size <? list10) then 9%nat
  else if (list10 <=? size) && (size <? list11) then 10%nat
  else if (list11 <=? size) && (size <? list12) then 11%nat
  else if (list12 <=? size) && (size <? list13) then 12%nat
  else if (list13 <=? size) && (size <? list14) then 13%nat
  else 14%nat.

Definition remove_from_list (s : state) (block : Z) : state :=
  let size := get_size s block in
  let index := find_index size in
  let block_prev := get_prev s block in
  let block_next := get_next s block in
  if (block_prev =? NULL) && (block_next =? NULL) then
    set_seg s index NULL
  else if negb (block_prev =? NULL) && (block_next =? NULL) then
    set_next s block_prev NULL
  else if (block_prev =? NULL) && negb (block_next =? NULL) then
    let s1 := set_seg s index block_next in
    set_prev s1 block_next NULL
  else
    let s1 := set_next s block_prev block_next in
    set_prev s1 block_next block_prev.

Definition add_to_list (s : state) (block : Z) : state :=
  let size := get_size s block in
  let index := find_index size in
  if seg s index =? NULL then
    let s1 := set_next s block NULL in
    let s2 := set_prev s1 block NULL in
    set_seg s2 index block
  else
    let s1 := set_prev s block NULL in
    let s2 := set_next s1 block (seg s1 index) in
    let s3 := set_prev s2 (seg s2 index) block in
    set_seg s3 index block.

(** ** Coalescing (mm.c lines 1193-1248) *)

Definition coalesce_block (s : state) (block : Z) : Z * state :=
  let prev := find_prev s block in
  if negb (block =? NULL) then
    let prev_alloc := if prev =? NULL then true else get_prev_alloc s block in
    let next_alloc := get_alloc s (find_next s block) in
    let size := get_size s block in
    if prev_alloc && next_alloc then
      (block, update_next_prev_alloc s block false)
    else if prev_alloc && negb next_alloc then
      let size := wrap64 (size + get_size s (find_next s block)) in
      let s1 := remove_from_list s (find_next s block) in
      let s2 := write_block s1 block size false true in
      (block, update_next_prev_alloc s2 block false)
    else if negb prev_alloc && next_alloc then
      let size := wrap64 (size + get_size s prev) in
      let s1 := remove_from_list s prev in
      let s2 := write_block s1 prev size false (get_prev_alloc s1 prev) in
      (prev, update_next_prev_alloc s2 prev false)
    else
      let size :=
        wrap64 (size + wrap64 (get_size s prev + get_size s (find_next s block))) in
      let s1 := remove_from_list s prev in
      let s2 := remove_from_list s1 (find_next s1 block) in
      let s3 := write_block s2 prev size false (get_prev_alloc s2 prev) in
      (prev, update_next_prev_alloc s3 prev false)
  else
    (block, update_next_prev_alloc s block false).

(** ** Heap extension, splitting, fit search (mm.c lines 546-630) *)

Definition extend_heap (s : state) (size : Z) : Z * state :=
  let size := round_up size dsize in
  match mem_sbrk s (to_signed size) with
  | None => (NULL, s)
  | Some (bp, s0) =>
      let block := payload_to_header bp in
      let s1 := write_block s0 block size false (get_prev_alloc s0 block) in
      let block_next := find_next s1 block in
      let s2 := write_epilogue s1 block_next in
      let (block', s3) := coalesce_block s2 block in
      let s4 := add_to_list s3 block' in
      (block', s4)
  end.

Definition split_block (s : state) (block asize : Z) : state :=
  let s1 := remove_from_list s block in
  let block_size := get_size s1 block in
  if min_block_size <=? wrap64 (block_size - asize) then
    let s2 := write_block s1 block asize true (get_prev_alloc s1 block) in
    let block_next := find_next s2 block in
    let s3 := write_block s2 block_next (wrap64 (block_size - asize)) false true in
    add_to_list s3 block_next
  else
    let s2 := write_block s1 block block_size true (get_prev_alloc s1 block) in
    update_next_prev_alloc s2 block true.

(** The inner [while] of [find_fit]: walk one list from [block].  The walk
    takes one unit of [fuel] per node; [None] is an exhausted fuel,
    [Some NULL] the end of the list without a fit. *)
Fixpoint find_fit_list (fuel : nat) (s : state) (asize block : Z) : option Z :=
  match fuel with
  | O => None
  | S fuel' =>
      if block =? NULL then Some NULL
      else if negb (get_alloc s block) && (asize <=? get_size s block) then Some block
      else find_fit_list fuel' s asize (get_next s block)
  end.

(** The outer [for (index = ...; index < list_length; index++)]; [n] bounds
    the number of iterations left. *)
Fixpoint find_fit_from (n fuel : nat) (s : state) (asize : Z) (index : nat) : option Z :=
  match n with
  | O => Some NULL
  | S n' =>
      if (index <? list_length)%nat then
        match find_fit_list fuel s asize (seg s index) with
        | None => None
        | Some block =>
            if block =? NULL then find_fit_from n' fuel s asize (S index)
            else Some block
        end
      else Some NULL
  end.

Definition find_fit (fuel : nat) (s : state) (asize : Z) : option Z :=
  find_fit_from list_length fuel s asize (find_index asize).

(** ** The public functions (mm.c lines 976-1180) *)

Definition mm_init (s : state) : bool * state :=
  match mem_sbrk s (2 * wsize) with
  | None => (false, s)
  | Some (start, s0) =>
      let s1 := store s0 start (pack 0 true true) in
      let s2 := store s1 (start + 8) (pack 0 true true) in
      let s3 := set_heap_start s2 (start + 8) in
      let s4 := set_seg_list s3 (repeat NULL list_length) in
      let (block, s5) := extend_heap s4 chunksize in
      if block =? NULL then (false, s5) else (true, s5)
  end.

(** The adjusted block size of a request (line 1031), and the state after
    the lazy initialisation (lines 1020-1022) of [malloc]. *)
Definition adjusted_size (size : Z) : Z := round_up (wrap64 (size + wsize)) dsize.

Definition lazy_init (s : state) : state :=
  if heap_start s =? NULL then snd (mm_init s) else s.

Definition malloc (fuel : nat) (s : state) (size : Z) : option (Z * state) :=
  let s0 := lazy_init s in
  if size =? 0 then Some (NULL, s0)
  else
    let asize := adjusted_size size in
    match find_fit fuel s0 asize with
    | None => None
    | Some block =>
        if block =? NULL then
          let extendsize := max asize chunksize in
          let (block', s1) := extend_heap s0 extendsize in
          if block' =? NULL then Some (NULL, s1)
          else
            let s2 := split_block s1 block' asize in
            Some (header_to_payload block', s2)
        else
          let s2 := split_block s0 block asize in
          Some (header_to_payload block, s2)
    end.

Definition free (s : state) (bp : Z) : state :=
  if bp =? NULL then s
  else
    let block := payload_to_header bp in
    let size := get_size s block in
    let s1 := write_block s block size false (get_prev_alloc s block) in
    let s2 := update_next_prev_alloc s1 block false in
    let (block', s3) := coalesce_block s2 block in
    add_to_list s3 block'.

Definition realloc (fuel : nat) (s : state) (ptr size : Z) : option (Z * state) :=
  let block := payload_to_header ptr in
  if size =? 0 then Some (NULL, free s ptr)
  else if ptr =? NULL then malloc fuel s size
  else
    match malloc fuel s size with
    | None => None
    | Some (newptr, s1) =>
        if newptr =? NULL then Some (NULL, s1)
        else
          let copysize := get_payload_size s1 block in
          let copysize := if size <? copysize then size else copysize in
          let s2 := set_mem s1 (memcpy (mem s1) newptr ptr copysize) in
          Some (newptr, free s2 ptr)
    end.

Definition calloc (fuel : nat) (s : state) (elements size : Z) : option (Z * state) :=
  let asize := wrap64 (elements * size) in
  if elements =? 0 then Some (NULL, s)
  else if negb (asize / elements =? size) then Some (NULL, s)
  else
    match malloc fuel s asize with
    | None => None
    | Some (bp, s1) =>
        if bp =? NULL then Some (NULL, s1)
        else Some (bp, set_mem s1 (memset (mem s1) bp 0 asize))
    end.

(** ** The heap checker (mm.c lines 661-958)

    Every loop of the checker takes [fuel]; [None] is an exhausted fuel. *)

Definition obind {A B : Type} (c : option A) (k : A -> option B) : option B :=
  match c with
  | None => None
  | Some a => k a
  end.

Notation "x <- c ;; k" := (obind c (fun x => k))
  (at level 61, c at next level, right associativity).

Fixpoint check_payload_align_from (fuel : nat) (s : state) (block : Z) : option bool :=
  match fuel with
  | O => None
  | S fuel' =>
      if get_size s block >? 0 then
        if get_alloc s block && negb (Z.rem (header_to_payload block) 16 =? 0)
        then Some false
        else check_payload_align_from fuel' s (find_next s block)
      else Some true
  end.

Definition check_payload_align (fuel : nat) (s : state) : option bool :=
  check_payload_align_from fuel s (heap_start s).

Fixpoint check_acyclic_loop (fuel : nat) (s : state) (turtle rabbit : Z) : option bool :=
  match fuel with
  | O => None
  | S fuel' =>
      if turtle =? rabbit then Some false
      else if (rabbit =? NULL) || (get_next s rabbit =? NULL) then Some true
      else check_acyclic_loop fuel' s (get_next s turtle)
                              (get_next s (get_next s rabbit))
  end.

Definition check_acyclic (fuel : nat) (s : state) (free_list : Z) : option bool :=
  if free_list =? NULL then Some true
  else check_acyclic_loop fuel s free_list (get_next s free_list).

(** Length of one list, and number of free blocks met from [block] on. *)
Fixpoint count_list (fuel : nat) (s : state) (block1 : Z) (length : Z) : option Z :=
  match fuel with
  | O => None
  | S fuel' =>
      if block1 =? NULL then Some length
      else count_list fuel' s (get_next s block1) (wrap64 (length + 1))
  end.

Fixpoint count_lists (n fuel : nat) (s : state) (index : nat) (length : Z) : option Z :=
  match n with
  | O => Some length
  | S n' =>
      if (index <? list_length)%nat then
        length' <- count_list fuel s (seg s index) length ;;
        count_lists n' fuel s (S index) length'
      else Some length
  end.

Fixpoint count_free (fuel : nat) (s : state) (block2 : Z) (res : Z) : option Z :=
  match fuel with
  | O => None
  | S fuel' =>
      if get_size s block2 >? 0 then
        count_free fuel' s (find_next s block2)
                   (if negb (get_alloc s block2) then wrap64 (res + 1) else res)
      else Some res
  end.

Definition check_no_block_loss (fuel : nat) (s : state) : option bool :=
  length <- count_lists list_length fuel s 0%nat 0 ;;
  res <- count_free fuel s (heap_start s) 0 ;;
  Some (length =? res).

Fixpoint check_no_consecutive_from (fuel : nat) (s : state) (block : Z) : option bool :=
  match fuel with
  | O => None
  | S fuel' =>
      if get_size s block >? 0 then
        let next := find_next s block in
        if (get_size s next >? 0) && negb (get_alloc s block) && negb (get_alloc s next)
        then Some false
        else check_no_consecutive_from fuel' s (find_next s block)
      else Some true
  end.

Definition check_no_consecutive_free_blocks (fuel : nat) (s : state) : option bool :=
  check_no_consecutive_from fuel s (heap_start s).

Definition check_epi_prologue (s : state) : bool :=
  let epilogue := mem_heap_hi s - 7 in
  let epi := get_alloc s epilogue && (get_size s epilogue =? 0) in
  let prologue := mem_heap_lo s in
  let pro := get_alloc s prologue && (get_size s prologue =? 0) in
  epi && pro.

(** The range test of [check_range] and [check_free_list_pointer_range].
    The source compares the [(intptr_t)] casts of the addresses.  For a
    heap that lies below [2^63] the signed comparison is the one written
    here (lemma [out_of_range_signed]); the two differ when the heap
    reaches [2^63]. *)
Definition out_of_range (s : state) (p : Z) : bool :=
  (p <=? mem_heap_lo s) || (mem_heap_hi s - 7 <=? p).

Fixpoint check_range_from (fuel : nat) (s : state) (block : Z) : option bool :=
  match fuel with
  | O => None
  | S fuel' =>
      if get_size s block >? 0 then
        if out_of_range s block then Some false
        else check_range_from fuel' s (find_next s block)
      else Some true
  end.

Definition check_range (fuel : nat) (s : state) : option bool :=
  check_range_from fuel s (heap_start s).

(** One pass over one list with a test on each node; the three list checks
    of the source are instances of it. *)
Fixpoint check_list (fuel : nat) (s : state) (bad : state -> Z -> bool) (block : Z)
  : option bool :=
  match fuel with
  | O => None
  | S fuel' =>
      if block =? NULL then Some true
      else if bad s block then Some false
      else check_list fuel' s bad (get_next s block)
  end.

Fixpoint check_lists (n fuel : nat) (s : state) (bad : nat -> state -> Z -> bool)
         (index : nat) : option bool :=
  match n with
  | O => Some true
  | S n' =>
      if (index <? list_length)%nat then
        ok <- check_list fuel s (bad index) (seg s index) ;;
        if ok then check_lists n' fuel s bad (S index) else Some false
      else Some true
  end.

Definition check_free_list_consistent (fuel : nat) (s : state) : option bool :=
  check_lists list_length fuel s
    (fun _ s block =>
       negb (get_next s block =? NULL) &&
       negb (get_prev s (get_next s block) =? block)) 0%nat.

Definition class_lo (index : nat) : Z :=
  match index with
  | O => list0
  | 1%nat => list1
  | 2%nat => list2
  | 3%nat => list3
  | 4%nat => list4
  | 5%nat => list5
  | 6%nat => list6
  | 7%nat => list7
  | 8%nat => list8
  | 9%nat => list9
  | 10%nat => list10
  | 11%nat => list11
  | 12%nat => list12
  | 13%nat => list13
  | _ => list14
  end.

Definition class_hi (index : nat) : Z :=
  match index with
  | O => list1
  | 1%nat => list2
  | 2%nat => list3
  | 3%nat => list4
  | 4%nat => list5
  | 5%nat => list6
  | 6%nat => list7
  | 7%nat => list8
  | 8%nat => list9
  | 9%nat => list10
  | 10%nat => list11
  | 11%nat => list12
  | 12%nat => list13
  | 13%nat => list14
  | _ => two64 - 1
  end.

Definition check_free_list_size_range (fuel : nat) (s : state) : option bool :=
  check_lists list_length fuel s
    (fun index s block =>
       let size := get_size s block in
       (size <? class_lo index) || (class_hi index <=? size)) 0%nat.

Definition check_free_list_pointer_range (fuel : nat) (s : state) : option bool :=
  check_lists list_length fuel s
    (fun _ s block =>
       (negb (get_prev s block =? NULL) && out_of_range s (get_prev s block)) ||
       (negb (get_next s block =? NULL) && out_of_range s (get_next s block))) 0%nat.

Fixpoint check_curr_next_from (fuel : nat) (s : state) (block : Z) : option bool :=
  match fuel with
  | O => None
  | S fuel' =>
      if get_size s block >? 0 then
        let next := find_next s block in
        if (get_size s next >? 0) &&
           negb (Bool.eqb (get_prev_alloc s next) (get_alloc s block))
        then Some false
        else check_curr_next_from fuel' s (find_next s block)
      else Some true
  end.

Definition check_curr_next_consistency (fuel : nat) (s : state) : option bool :=
  check_curr_next_from fuel s (heap_start s).

Fixpoint check_header_footer_from (fuel : nat) (s : state) (block : Z) : option bool :=
  match fuel with
  | O => None
  | S fuel' =>
      if get_size s block >? 0 then
        if negb (get_alloc s block) &&
           negb (load s block =? load s (header_to_footer s block))
        then Some false
        else check_header_footer_from fuel' s (find_next s block)
      else Some true
  end.

Definition check_header_footer_consistency (fuel : nat) (s : state) : option bool :=
  check_header_footer_from fuel s (heap_start s).

Fixpoint check_acyclic_all (n fuel : nat) (s : state) (index : nat) (errorflag : bool)
  : option bool :=
  match n with
  | O => Some errorflag
  | S n' =>
      if (index <? list_length)%nat then
        ok <- check_acyclic fuel s (seg s index) ;;
        check_acyclic_all n' fuel s (S index) (if ok then errorflag else false)
      else Some errorflag
  end.

Definition mm_checkheap (fuel : nat) (s : state) : option bool :=
  c1 <- check_payload_align fuel s ;;
  c2 <- check_acyclic_all list_length fuel s 0%nat c1 ;;
  let c3 := check_epi_prologue s in
  c4 <- check_range fuel s ;;
  c5 <- check_free_list_consistent fuel s ;;
  c6 <- check_free_list_size_range fuel s ;;
  c7 <- check_free_list_pointer_range fuel s ;;
  c8 <- check_header_footer_consistency fuel s ;;
  c9 <- check_curr_next_consistency fuel s ;;
  c10 <- check_no_consecutive_free_blocks fuel s ;;
  c11 <- check_no_block_loss fuel s ;;
  Some (c2 && c3 && c4 && c5 && c6 && c7 && c8 && c9 && c10 && c11).

(* ===================================================================== *)
(** * Specification-level definitions                                    *)
(* ===================================================================== *)

(** The value of a flag inside a tag word. *)
Definition bit (b : bool) : Z := if b then 1 else 0.

(** ** Exact-arithmetic reading of the size adjustment *)

(** [ceil16 x] is the ceiling of [x / 16]. *)
Definition ceil16 (x : Z) : Z := (x + 15) / 16.

(** The adjusted size as the specification gives it, in unbounded integers. *)
Definition spec_asize (n : Z) : Z := Z.max 32 (16 * ceil16 (n + 8)).

(** ** Free lists as sequences of nodes *)

(** [chain s b l]: following [next] from [b] visits the nodes [l], in this
    order, and then reaches [NULL]. *)
Fixpoint chain (s : state) (b : Z) (l : list Z) : Prop :=
  match l with
  | [] => b = NULL
  | x :: r => b = x /\ x <> NULL /\ chain s (get_next s x) r
  end.

(** [ls] lists the nodes of the fifteen segregated lists of [s]. *)
Definition lists_are (s : state) (ls : list (list Z)) : Prop :=
  length ls = list_length /\
  forall i, (i < list_length)%nat -> chain s (seg s i) (nth i ls []).

(** The order in which [find_fit] meets the nodes: the list of class
    [index], then the lists of the higher classes. *)
Definition scan_order (ls : list (list Z)) (index : nat) : list Z :=
  concat (skipn index ls).

(** The first node of the scan whose block is at least [asize] bytes. *)
Definition first_fit (s : state) (asize : Z) (ls : list (list Z)) : Z :=
  match find (fun b => asize <=? get_size s b) (scan_order ls (find_index asize)) with
  | Some b => b
  | None => NULL
  end.

(** The test of [find_fit] on one node. *)
Definition fits (s : state) (asize b : Z) : bool :=
  negb (get_alloc s b) && (asize <=? get_size s b).

Definition first_of (f : Z -> bool) (l : list Z) : Z :=
  match find f l with
  | Some b => b
  | None => NULL
  end.

(** ** A concrete machine for running the model *)

Definition fresh_machine : state :=
  mkState (fun _ => 0) (repeat NULL list_length) NULL 65536 65536 (65536 + 2 ^ 20).

(** The machine after [mm_init]; its first block is at [first_block]. *)
Definition booted : state := snd (mm_init fresh_machine).

Definition first_block : Z := 65536 + 8.

(** ** Scenarios run on the concrete machine *)

(** A request of 100 bytes, then a reallocation to [2^64 - 8] bytes. *)
Definition scenario_small_realloc : option (Z * state * Z * state) :=
  match malloc 16 booted 100 with
  | None => None
  | Some (p, s1) =>
      match realloc 16 s1 p (two64 - 8) with
      | None => None
      | Some (q, s2) => Some (p, s1, q, s2)
      end
  end.

(** A request of 2024 bytes, then a reallocation to [2^64 - 8] bytes. *)
Definition scenario_large_realloc : option (Z * state * Z * state) :=
  match malloc 16 booted 2024 with
  | None => None
  | Some (p, s1) =>
      match realloc 16 s1 p (two64 - 8) with
      | None => None
      | Some (q, s2) => Some (p, s1, q, s2)
      end
  end.

(** ** The heap as a sequence of blocks

    A heap is described by the sizes and allocation flags of its blocks,
    in address order. *)

Fixpoint total (bs : list (Z * bool)) : Z :=
  match bs with
  | [] => 0
  | (sz, _) :: r => sz + total r
  end.

(** The allocation flag of the last block, [pa] for no block. *)
Fixpoint last_alloc (pa : bool) (bs : list (Z * bool)) : bool :=
  match bs with
  | [] => pa
  | (_, al) :: r => last_alloc al r
  end.

(** The blocks with their addresses, the first one at [a]. *)
Fixpoint layout (a : Z) (bs : list (Z * bool)) : list (Z * Z * bool) :=
  match bs with
  | [] => []
  | (sz, al) :: r => (a, sz, al) :: layout (a + sz) r
  end.

Definition sizes_ok (bs : list (Z * bool)) : Prop :=
  Forall (fun b => 32 <= fst b /\ fst b mod 16 = 0) bs.

(** [blocks m a pa bs]: memory [m] holds the blocks [bs] from address [a]
    on, the block before [a] having allocation flag [pa]: every header
    packs the size, the flag and the flag of the block before; a free
    block follows an allocated one and repeats its header in its footer. *)
Fixpoint blocks (m : memory) (a : Z) (pa : bool) (bs : list (Z * bool)) : Prop :=
  match bs with
  | [] => True
  | (sz, al) :: r =>
      32 <= sz /\ sz mod 16 = 0 /\
      load64 m a = pack sz al pa /\
      (al = false -> pa = true /\ load64 m (a + sz - 8) = pack sz false pa) /\
      blocks m (a + sz) al r
  end.

Record heap_ok (s : state) (bs : list (Z * bool)) : Prop := mk_heap_ok {
  ho_lo : 0 < heap_lo s /\ heap_lo s mod 16 = 0;
  ho_start : heap_start s = heap_lo s + 8;
  ho_brk : brk s = heap_start s + total bs + 8;
  ho_max : brk s <= mem_max s /\ mem_max s < two64;
  ho_pro : load s (heap_lo s) = pack 0 true true;
  ho_blocks : blocks (mem s) (heap_start s) true bs;
  ho_epi : load s (brk s - 8) = pack 0 true (last_alloc true bs)
}.

Arguments ho_lo {s bs}.
Arguments ho_start {s bs}.
Arguments ho_brk {s bs}.
Arguments ho_max {s bs}.
Arguments ho_pro {s bs}.
Arguments ho_blocks {s bs}.
Arguments ho_epi {s bs}.

(** [free_in a bs x sz]: the heap [bs] laid out from [a] has a free block of
    size [sz] at [x]. *)
Definition free_in (a : Z) (bs : list (Z * bool)) (x sz : Z) : Prop :=
  In (x, sz, false) (layout a bs).

(** [dseg m b p l e]: from the node [b], whose predecessor is [p], the
    [next] links visit the nodes [l] and arrive at [e]; every [prev] link
    points back to the node before. *)
Fixpoint dseg (m : memory) (b p : Z) (l : list Z) (e : Z) : Prop :=
  match l with
  | [] => b = e
  | x :: r => b = x /\ load64 m (x + 16) = p /\ dseg m (load64 m (x + 8)) x r e
  end.

(** The segregated lists of [s] hold exactly the blocks [F] (address and
    size), each in the list of its class; [ls i] is the list of class [i]. *)
Record lists_inv (s : state) (F : Z -> Z -> Prop) (ls : nat -> list Z) : Prop :=
  mk_lists_inv {
  li_len : length (seg_list s) = list_length;
  li_chain : forall i, (i < list_length)%nat ->
                       dseg (mem s) (seg s i) NULL (ls i) NULL;
  li_nodup : forall i, NoDup (ls i);
  li_in : forall i x, In x (ls i) -> exists sz, F x sz /\ find_index sz = i;
  li_all : forall x sz, F x sz -> In x (ls (find_index sz));
  li_sep : forall x sz y sz', F x sz -> F y sz' ->
             (x = y /\ sz = sz') \/ x + 32 <= y \/ y + 32 <= x;
  li_pos : forall x sz, F x sz -> 0 < x < two64
}.

Arguments li_len {s F ls}.
Arguments li_chain {s F ls}.
Arguments li_nodup {s F ls}.
Arguments li_in {s F ls}.
Arguments li_all {s F ls}.
Arguments li_sep {s F ls}.
Arguments li_pos {s F ls}.

(** The invariant of the allocator between public calls. *)
Definition inv (s : state) (bs : list (Z * bool)) (ls : nat -> list Z) : Prop :=
  heap_ok s bs /\ lists_inv s (free_in (heap_start s) bs) ls.

(** [m'] differs from [m] at most in the link words of the blocks [F]. *)
Definition links_frame (F : Z -> Z -> Prop) (m m' : memory) : Prop :=
  forall z, (forall y sz, F y sz -> z < y + 8 \/ y + 24 <= z) -> m' z = m z.

(** The memlib fields of two states agree. *)
Definition same_machine (s s' : state) : Prop :=
  heap_lo s' = heap_lo s /\ brk s' = brk s /\ mem_max s' = mem_max s /\
  heap_start s' = heap_start s.

(** [m'] differs from [m] at most inside [[lo, hi)] and in the link words
    of the blocks [F]. *)
Definition frame_except (F : Z -> Z -> Prop) (lo hi : Z) (m m' : memory) : Prop :=
  forall z, z < lo \/ hi <= z ->
            (forall y sz, F y sz -> z < y + 8 \/ y + 24 <= z) -> m' z = m z.

(** The link words of the block at [y] lie off the headers, and off the
    footers of the free blocks, of the heap [bs] laid out from [a]: [y] is
    one of its free blocks or lies outside of it. *)
Definition link_safe (a : Z) (bs : list (Z * bool)) (y : Z) : Prop :=
  (exists sz, In (y, sz, false) (layout a bs)) \/ y + 24 <= a \/ a + total bs <= y + 8.

(** The blocks that follow a block just marked free: the header of the
    first one already says that its predecessor is free; after it the heap
    is regular. *)
Definition blocks_tail (m : memory) (a : Z) (l2 : list (Z * bool)) : Prop :=
  match l2 with
  | [] => True
  | (nsz, nal) :: r =>
      32 <= nsz /\ nsz mod 16 = 0 /\
      load64 m a = pack nsz nal false /\
      blocks m (a + nsz) nal r
  end.

(** The state in which [coalesce_block] is called on the block at
    [heap_start s + total l1]: the block, of size [sz], has just been
    written free and is in no list; [l1] are the blocks before it and [l2]
    the blocks after it. *)
Record pre_coalesce (s : state) (l1 : list (Z * bool)) (sz : Z)
       (l2 : list (Z * bool)) (ls : nat -> list Z) : Prop := mk_pre_coalesce {
  pc_lo : 0 < heap_lo s /\ heap_lo s mod 16 = 0;
  pc_start : heap_start s = heap_lo s + 8;
  pc_brk : brk s = heap_start s + total (l1 ++ (sz, false) :: l2) + 8;
  pc_max : brk s <= mem_max s /\ mem_max s < two64;
  pc_pro : load s (heap_lo s) = pack 0 true true;
  pc_l1 : blocks (mem s) (heap_start s) true l1;
  pc_sz : 32 <= sz /\ sz mod 16 = 0;
  pc_hdr : load s (heap_start s + total l1) = pack sz false (last_alloc true l1);
  pc_ftr : load s (heap_start s + total l1 + sz - 8) =
           pack sz false (last_alloc true l1);
  pc_l2 : blocks_tail (mem s) (heap_start s + total l1 + sz) l2;
  pc_epi : load s (brk s - 8) = pack 0 true (last_alloc false l2);
  pc_lists : lists_inv s
               (fun y sz' => free_in (heap_start s) l1 y sz' \/
                             free_in (heap_start s + total l1 + sz) l2 y sz') ls
}.

Arguments pc_lo {s l1 sz l2 ls}.
Arguments pc_start {s l1 sz l2 ls}.
Arguments pc_brk {s l1 sz l2 ls}.
Arguments pc_max {s l1 sz l2 ls}.
Arguments pc_pro {s l1 sz l2 ls}.
Arguments pc_l1 {s l1 sz l2 ls}.
Arguments pc_sz {s l1 sz l2 ls}.
Arguments pc_hdr {s l1 sz l2 ls}.
Arguments pc_ftr {s l1 sz l2 ls}.
Arguments pc_l2 {s l1 sz l2 ls}.
Arguments pc_epi {s l1 sz l2 ls}.
Arguments pc_lists {s l1 sz l2 ls}.

(** The result of [coalesce_block]: the heap is regular again, with one
    free block, at [b'] and of size [sz'], between the blocks [la] and
    [lb]; this block is in no list yet. *)
Record post_coalesce (s : state) (b' : Z) (la : list (Z * bool)) (sz' : Z)
       (lb : list (Z * bool)) (ls : nat -> list Z) : Prop := mk_post_coalesce {
  qc_heap : heap_ok s (la ++ (sz', false) :: lb);
  qc_addr : b' = heap_start s + total la;
  qc_lists : lists_inv s
               (fun y sz0 => free_in (heap_start s) la y sz0 \/
                             free_in (b' + sz') lb y sz0) ls
}.

Arguments qc_heap {s b' la sz' lb ls}.
Arguments qc_addr {s b' la sz' lb ls}.
Arguments qc_lists {s b' la sz' lb ls}.

(** The allocated blocks of two heaps laid out from [a] are the same. *)
Definition same_allocated (a : Z) (bs bs' : list (Z * bool)) : Prop :=
  forall x sz, In (x, sz, true) (layout a bs') <-> In (x, sz, true) (layout a bs).

Arguments pack : simpl never.
Arguments load64 : simpl never.
Arguments store64 : simpl never.
Arguments extract_size : simpl never.
Arguments extract_alloc : simpl never.
Arguments extract_prev_alloc : simpl never.
Arguments find_index : simpl never.

(** The fixed memlib fields of two states agree (the break may differ). *)
Definition same_base (s s' : state) : Prop :=
  heap_lo s' = heap_lo s /\ mem_max s' = mem_max s /\ heap_start s' = heap_start s.

(** ** Sequences of public calls

    The pointers handed out and not yet freed are kept in a list beside the
    state. *)

(** A machine on which the allocator has not run: the heap of memlib is
    empty, begins at a 16-byte aligned address above 0 and ends below
    [2^64]. *)
Definition fresh (s : state) : Prop :=
  brk s = heap_lo s /\ 0 < heap_lo s /\ heap_lo s mod 16 = 0 /\ mem_max s < two64.

Definition after_malloc (L : list Z) (p : Z) : list Z :=
  if p =? NULL then L else p :: L.

Definition after_free (L : list Z) (p : Z) : list Z := remove Z.eq_dec p L.

Definition after_realloc (L : list Z) (p n q : Z) : list Z :=
  if n =? 0 then after_free L p
  else if p =? NULL then after_malloc L q
  else if q =? NULL then L
  else q :: after_free L p.

(** [reachable s L]: the state [s] is met at the return of a public call
    in a run that begins with a successful [mm_init]; [L] are the live
    pointers.  [free] and [realloc] are given [NULL] or a live pointer.
    The sizes are machine words; those that [realloc] and [calloc] pass
    on with a payload to fill are at most [2^64 - 24], so that the size
    adjustment of [malloc] does not wrap.  Between the calls the user
    stores bytes into the payloads of the live blocks. *)
Inductive reachable : state -> list Z -> Prop :=
| reach_init s0 :
    fresh s0 -> fst (mm_init s0) = true ->
    reachable (snd (mm_init s0)) []
| reach_malloc s L fuel n p s' :
    reachable s L -> 0 <= n < two64 ->
    malloc fuel s n = Some (p, s') ->
    reachable s' (after_malloc L p)
| reach_free s L p :
    reachable s L -> p = NULL \/ In p L ->
    reachable (free s p) (after_free L p)
| reach_realloc s L fuel p n q s' :
    reachable s L -> p = NULL \/ In p L ->
    0 <= n < two64 -> p = NULL \/ n + 23 < two64 ->
    realloc fuel s p n = Some (q, s') ->
    reachable s' (after_realloc L p n q)
| reach_calloc s L fuel c n p s' :
    reachable s L -> 0 <= c < two64 -> 0 <= n < two64 ->
    two64 <= c * n \/ c * n + 23 < two64 ->
    calloc fuel s c n = Some (p, s') ->
    reachable s' (after_malloc L p)
| reach_store s L p i v :
    reachable s L -> In p L ->
    0 <= i < get_payload_size s (payload_to_header p) ->
    reachable (set_mem s (fun z => if z =? p + i then v else mem s z)) L.

(** The live pointers [L] are the payloads of the allocated blocks of the
    heap [bs]. *)
Definition live_are (s : state) (bs : list (Z * bool)) (L : list Z) : Prop :=
  forall p, In p L <-> exists sz, In (p - 8, sz, true) (layout (heap_start s) bs).

(** The state [s] is regular and its live pointers are [L]. *)
Definition good (s : state) (L : list Z) : Prop :=
  exists bs ls, inv s bs ls /\ live_are s bs L.

(** The lists of the machine after [mm_init]: the first block alone, in
    class 10. *)
Definition booted_ls (i : nat) : list Z :=
  if Nat.eqb i 10 then [first_block] else [].

(** The fuel that lets [find_fit] walk every list of [ls] to its end. *)
Definition enough_fuel (ls : nat -> list Z) : nat :=
  S (length (concat (map ls (seq 0 list_length)))).

(** The payloads of the blocks [A] (address and size) hold the same bytes
    in [m'] as in [m]. *)
Definition keeps (A : Z -> Z -> Prop) (m m' : memory) : Prop :=
  forall y szy z, A y szy -> y + 8 <= z < y + szy -> m' z = m z.

(** The allocated blocks of the heap [bs] laid out from [a]. *)
Definition allocated_in (a : Z) (bs : list (Z * bool)) (y szy : Z) : Prop :=
  In (y, szy, true) (layout a bs).

(** ** The walks of the checker

    The five checks that walk the heap from [heap_start] to the epilogue
    share one loop; [bad] is the test that makes the check fail at a
    block. *)
Fixpoint heap_walk (bad : state -> Z -> bool) (fuel : nat) (s : state) (block : Z)
  : option bool :=
  match fuel with
  | O => None
  | S fuel' =>
      if get_size s block >? 0 then
        if bad s block then Some false
        else heap_walk bad fuel' s (find_next s block)
      else Some true
  end.

Definition bad_align (s : state) (block : Z) : bool :=
  get_alloc s block && negb (Z.rem (header_to_payload block) 16 =? 0).

Definition bad_consecutive (s : state) (block : Z) : bool :=
  let next := find_next s block in
  (get_size s next >? 0) && negb (get_alloc s block) && negb (get_alloc s next).

Definition bad_curr_next (s : state) (block : Z) : bool :=
  let next := find_next s block in
  (get_size s next >? 0) &&
  negb (Bool.eqb (get_prev_alloc s next) (get_alloc s block)).

Definition bad_header_footer (s : state) (block : Z) : bool :=
  negb (get_alloc s block) &&
  negb (load s block =? load s (header_to_footer s block)).

(** The number of free blocks of a heap. *)
Fixpoint free_count (bs : list (Z * bool)) : Z :=
  match bs with
  | [] => 0
  | (_, al) :: r => (if al then 0 else 1) + free_count r
  end.

(** The addresses of the free blocks of a heap laid out from [a]. *)
Fixpoint free_addrs (a : Z) (bs : list (Z * bool)) : list Z :=
  match bs with
  | [] => []
  | (sz, al) :: r => if al then free_addrs (a + sz) r else a :: free_addrs (a + sz) r
  end.

(** The nodes of the lists of the classes [index], ..., [index + n - 1]. *)
Fixpoint nodes_from (ls : nat -> list Z) (n index : nat) : list Z :=
  match n with
  | O => []
  | S n' => ls index ++ nodes_from ls n' (S index)
  end.

(** Fuel for every loop of the checker on the heap [bs] with lists [ls]. *)
Definition checker_fuel (bs : list (Z * bool)) (ls : nat -> list Z) : nat :=
  S (length bs + length (nodes_from ls list_length 0)).

(** The machine after [mm_init] with its one free block taken off the
    lists: every list is empty. *)
Definition unlinked : state := remove_from_list booted first_block.

(** The blocks on the lists of [unlinked]: none. *)
Definition unlinked_F (y sz : Z) : Prop :=
  free_in (heap_start booted) [(4096, false)] y sz /\ y <> first_block.

Definition unlinked_ls (j : nat) : list Z := remove Z.eq_dec first_block (booted_ls j).

(** The machine after [mm_init] and one [malloc] of 100 bytes, and after a
    second one of 200 bytes. *)
Definition one_live : state :=
  match malloc 16 booted 100 with
  | Some (_, s) => s
  | None => booted
  end.

Definition two_live : state :=
  match malloc 16 one_live 200 with
  | Some (_, s) => s
  | None => one_live
  end.

(** The live block with payload pointer [p] is the same in [s'] as in
    [s]: still allocated, of the same size, with the same payload bytes. *)
Definition live_kept (s s' : state) (p : Z) : Prop :=
  get_alloc s' (p - 8) = true /\
  get_size s' (p - 8) = get_size s (p - 8) /\
  forall i, 0 <= i < get_size s (p - 8) - 8 -> mem s' (p + i) = mem s (p + i).

(** The machine with one live block, after [realloc] has moved that block
    to 300 bytes. *)
Definition moved : state :=
  match realloc 16 one_live 65552 300 with
  | Some (_, s) => s
  | None => one_live
  end.

(** The machine with one live block, after a [calloc] of 5 elements of 8
    bytes. *)
Definition cleared : state :=
  match calloc 16 one_live 5 8 with
  | Some (_, s) => s
  | None => one_live
  end.

(** The machine after [mm_init] with the [next] link of its free block
    bent back to the block itself: the list of class 10 is a cycle. *)
Definition looped : state := set_next booted first_block first_block.

(** The machine with two live blocks, after the first one has been freed
    and a block of 100 bytes requested again. *)
Definition reused : state :=
  match malloc 16 (free two_live 65552) 100 with
  | Some (_, s) => s
  | None => two_live
  end.

(** The heap [l1 ++ (sz, allocated) :: l2] after the block of size [sz]
    has been freed: that block is merged with the block that ends [l1] and
    with the block that begins [l2], when they are free. *)
Definition merge_free (l1 : list (Z * bool)) (sz : Z) (l2 : list (Z * bool))
  : list (Z * bool) :=
  let la := if last_alloc true l1 then l1 else removelast l1 in
  let a := if last_alloc true l1 then 0 else fst (last l1 (0, true)) in
  let lb := match l2 with (_, false) :: r => r | _ => l2 end in
  let c := match l2 with (nsz, false) :: _ => nsz | _ => 0 end in
  la ++ (a + sz + c, false) :: lb.

(** The lists of [one_live]: the remainder of the first block, in class 9. *)
Definition one_live_ls (i : nat) : list Z :=
  if Nat.eqb i 9 then [65656] else [].

(** The machine after [mm_init] and a [malloc] of [2^64 - 8] bytes, the
    request that [calloc] passes on for one element of that size. *)
Definition wrapped_alloc : state :=
  match malloc 16 booted (two64 - 8) with
  | Some (_, s) => s
  | None => booted
  end.

(* ===================================================================== *)
(** * Part II: memory and tag-word lemmas                                *)
(* ===================================================================== *)

Lemma two64_val : two64 = 18446744073709551616.
Proof. reflexivity. Qed.

Lemma byte_at_range m a : 0 <= byte_at m a < 256.
Proof. unfold byte_at. apply Z.mod_pos_bound. lia. Qed.

Lemma load64_range m a : 0 <= load64 m a < two64.
Proof.
  unfold load64. rewrite two64_val.
  pose proof (byte_at_range m a). pose proof (byte_at_range m (a + 1)).
  pose proof (byte_at_range m (a + 2)). pose proof (byte_at_range m (a + 3)).
  pose proof (byte_at_range m (a + 4)). pose proof (byte_at_range m (a + 5)).
  pose proof (byte_at_range m (a + 6)). pose proof (byte_at_range m (a + 7)).
  lia.
Qed.

(** Two memories that agree on the eight bytes of a word hold the same word. *)
Lemma load64_agree m m' a :
  (forall i, 0 <= i < 8 -> m' (a + i) = m (a + i)) -> load64 m' a = load64 m a.
Proof.
  intros H. unfold load64, byte_at.
  pose proof (H 0) as H0. rewrite Z.add_0_r in H0.
  rewrite H0, !H by lia. reflexivity.
Qed.

Lemma store64_outside m a v x : x < a \/ a + 8 <= x -> store64 m a v x = m x.
Proof.
  intros H. unfold store64.
  destruct (a <=? x) eqn:E1; destruct (x <? a + 8) eqn:E2; simpl; try reflexivity.
  apply Z.leb_le in E1. apply Z.ltb_lt in E2. lia.
Qed.

Lemma store64_inside m a v i :
  0 <= i < 8 -> store64 m a v (a + i) = (v / 2 ^ (8 * i)) mod 256.
Proof.
  intros H. unfold store64.
  replace (a <=? a + i) with true by (symmetry; apply Z.leb_le; lia).
  replace (a + i <? a + 8) with true by (symmetry; apply Z.ltb_lt; lia).
  simpl. replace (a + i - a) with i by lia. reflexivity.
Qed.

Lemma load64_store64_other m a v b :
  a + 8 <= b \/ b + 8 <= a -> load64 (store64 m a v) b = load64 m b.
Proof.
  intros H. apply load64_agree. intros i Hi. apply store64_outside. lia.
Qed.

(** Little-endian decoding inverts the encoding. *)
Lemma le_digits v :
  v mod 256 + 256 * ((v / 256) mod 256 + 256 * ((v / 256 ^ 2) mod 256 +
  256 * ((v / 256 ^ 3) mod 256 + 256 * ((v / 256 ^ 4) mod 256 +
  256 * ((v / 256 ^ 5) mod 256 + 256 * ((v / 256 ^ 6) mod 256 +
  256 * ((v / 256 ^ 7) mod 256))))))) = v mod 256 ^ 8.
Proof.
  assert (step : forall k w, 0 < k -> w mod (256 * k) = w mod 256 + 256 * ((w / 256) mod k)).
  { intros k w Hk. apply Z.rem_mul_r; lia. }
  assert (dd : forall j, 0 < j -> v / j / 256 = v / (j * 256)).
  { intros j Hj. apply Z.div_div; lia. }
  change (256 ^ 8) with (256 * 256 ^ 7). rewrite step by lia.
  change (256 ^ 7) with (256 * 256 ^ 6) at 2. rewrite step by lia.
  change (256 ^ 6) with (256 * 256 ^ 5) at 2. rewrite step by lia.
  change (256 ^ 5) with (256 * 256 ^ 4) at 2. rewrite step by lia.
  change (256 ^ 4) with (256 * 256 ^ 3) at 2. rewrite step by lia.
  change (256 ^ 3) with (256 * 256 ^ 2) at 2. rewrite step by lia.
  change (256 ^ 2) with (256 * 256) at 2. rewrite step by lia.
  rewrite !dd by lia.
  reflexivity.
Qed.

Lemma load64_store64_same m a v : load64 (store64 m a v) a = v mod two64.
Proof.
  unfold load64, byte_at.
  pose proof (store64_inside m a v) as H.
  pose proof (H 0) as H0. rewrite Z.add_0_r in H0.
  rewrite H0, !H by lia. clear H H0.
  rewrite !Z.mod_mod by lia.
  change (8 * 0) with 0. change (2 ^ 0) with 1. rewrite Z.div_1_r.
  change (2 ^ (8 * 1)) with 256. change (2 ^ (8 * 2)) with (256 ^ 2).
  change (2 ^ (8 * 3)) with (256 ^ 3). change (2 ^ (8 * 4)) with (256 ^ 4).
  change (2 ^ (8 * 5)) with (256 ^ 5). change (2 ^ (8 * 6)) with (256 ^ 6).
  change (2 ^ (8 * 7)) with (256 ^ 7).
  rewrite le_digits. reflexivity.
Qed.


(** ** The tag word: [pack] and its accessors *)

Lemma land_low_zero sz c :
  sz mod 16 = 0 -> 0 <= c < 16 -> Z.land sz c = 0.
Proof.
  intros Hsz Hc.
  assert (Hc' : Z.land (Z.ones 4) c = c).
  { rewrite Z.land_comm, Z.land_ones by lia. apply Z.mod_small. simpl. lia. }
  rewrite <- Hc', Z.land_assoc, Z.land_ones by lia.
  change (2 ^ 4) with 16. rewrite Hsz. apply Z.land_0_l.
Qed.

Lemma lor_low sz c :
  sz mod 16 = 0 -> 0 <= c < 16 -> Z.lor sz c = sz + c.
Proof.
  intros Hsz Hc. pose proof (Z.add_lor_land sz c) as H.
  rewrite (land_low_zero sz c Hsz Hc) in H. lia.
Qed.

Lemma pack_add sz a p :
  sz mod 16 = 0 -> pack sz a p = sz + bit a + 2 * bit p.
Proof.
  intros Hsz. unfold pack, alloc_mask, prev_alloc_mask.
  destruct a, p; simpl bit.
  - rewrite <- Z.lor_assoc. change (Z.lor 2 1) with 3. rewrite lor_low by lia. lia.
  - rewrite lor_low by lia. lia.
  - rewrite lor_low by lia. lia.
  - lia.
Qed.

Lemma size_mask_ldiff : size_mask = Z.ldiff (Z.ones 64) (Z.ones 4).
Proof. reflexivity. Qed.

Lemma extract_size_eq w : extract_size w = 16 * ((w mod two64) / 16).
Proof.
  unfold extract_size. rewrite size_mask_ldiff, Z.ldiff_land, Z.land_assoc.
  rewrite <- Z.ldiff_land, Z.land_ones, Z.ldiff_ones_r by lia.
  rewrite Z.shiftr_div_pow2, Z.shiftl_mul_pow2 by lia.
  change (2 ^ 64) with two64. change (2 ^ 4) with 16. lia.
Qed.

Lemma extract_alloc_eq w : extract_alloc w = negb (w mod 2 =? 0).
Proof.
  unfold extract_alloc, alloc_mask. change 1 with (Z.ones 1).
  rewrite Z.land_ones by lia. reflexivity.
Qed.

Lemma extract_prev_alloc_eq w : extract_prev_alloc w = negb ((w mod 4) / 2 =? 0).
Proof.
  unfold extract_prev_alloc, prev_alloc_mask.
  change 2 with (Z.land (Z.ones 2) 2) at 1.
  rewrite Z.land_assoc, Z.land_ones by lia. change (2 ^ 2) with 4.
  pose proof (Z.mod_pos_bound w 4 ltac:(lia)) as H.
  assert (C : w mod 4 = 0 \/ w mod 4 = 1 \/ w mod 4 = 2 \/ w mod 4 = 3) by lia.
  destruct C as [C | [C | [C | C]]]; rewrite C; reflexivity.
Qed.

Lemma extract_size_range w : 0 <= extract_size w < two64.
Proof.
  rewrite extract_size_eq.
  pose proof (Z.mod_pos_bound w two64 ltac:(rewrite two64_val; lia)) as H.
  pose proof (Z.mul_div_le (w mod two64) 16 ltac:(lia)).
  pose proof (Z.div_pos (w mod two64) 16). lia.
Qed.

Lemma extract_size_mod16 w : extract_size w mod 16 = 0.
Proof.
  rewrite extract_size_eq, Z.mul_comm. apply Z.mod_mul. lia.
Qed.

Section Pack.
Variables (sz : Z) (a p : bool).
Hypothesis Hsz : sz mod 16 = 0.
Hypothesis Hrange : 0 <= sz < two64.

Lemma pack_range : 0 <= pack sz a p < two64.
  Proof.
    rewrite pack_add by assumption.
    assert (sz <= two64 - 16).
    { rewrite two64_val in *. 
      pose proof (Z.div_mod sz 16 ltac:(lia)). lia. }
    destruct a, p; simpl bit; rewrite two64_val in *; lia.
  Qed.

Lemma extract_size_pack : extract_size (pack sz a p) = sz.
  Proof.
    rewrite extract_size_eq, Z.mod_small by apply pack_range.
    rewrite pack_add by assumption.
    pose proof (Z.div_mod sz 16 ltac:(lia)) as D.
    assert (E : (sz + bit a + 2 * bit p) / 16 = sz / 16).
    { symmetry. apply Z.div_unique with (r := bit a + 2 * bit p);
        destruct a, p; simpl bit; lia. }
    rewrite E. lia.
  Qed.

Lemma pack_mod4 : pack sz a p mod 4 = bit a + 2 * bit p.
  Proof.
    rewrite pack_add by assumption.
    pose proof (Z.div_mod sz 16 ltac:(lia)) as D.
    symmetry. apply Z.mod_unique with (q := 4 * (sz / 16));
      destruct a, p; simpl bit; lia.
  Qed.

Lemma extract_alloc_pack : extract_alloc (pack sz a p) = a.
  Proof.
    rewrite extract_alloc_eq.
    assert (E : pack sz a p mod 2 = bit a).
    { rewrite pack_add by assumption.
      pose proof (Z.div_mod sz 16 ltac:(lia)) as D.
      symmetry. apply Z.mod_unique with (q := 8 * (sz / 16) + bit p);
        destruct a, p; simpl bit; lia. }
    rewrite E. destruct a; reflexivity.
  Qed.

Lemma extract_prev_alloc_pack : extract_prev_alloc (pack sz a p) = p.
  Proof.
    rewrite extract_prev_alloc_eq, pack_mod4.
    destruct a, p; reflexivity.
  Qed.
End Pack.

(** Re-packing the fields of a well-formed tag word gives the word back. *)
Lemma pack_extract sz a p :
  sz mod 16 = 0 -> 0 <= sz < two64 ->
  pack (extract_size (pack sz a p)) (extract_alloc (pack sz a p)) p = pack sz a p.
Proof.
  intros. rewrite extract_size_pack, extract_alloc_pack by assumption. reflexivity.
Qed.

(* ===================================================================== *)
(** * Size classes and size adjustment                                   *)
(* ===================================================================== *)

(** C10: every size below the 32-byte minimum block size, zero included,
    falls through the whole branch ladder of [find_index] and lands in
    class 14, the open-ended largest class. *)
Theorem find_index_below_min (size : Z) :
  size < 32 -> find_index size = 14%nat.
Proof.
  intros H. unfold find_index, list0, list1, list2, list3, list4, list5, list6,
    list7, list8, list9, list10, list11, list12, list13, list14.
  repeat match goal with
  | |- context [(?a <=? size) && (size <? ?b)] =>
      replace (a <=? size) with false by (symmetry; apply Z.leb_gt; lia);
      rewrite andb_false_l
  end.
  reflexivity.
Qed.

Lemma find_index_below_min_witness : 0 < 32 /\ find_index 0 = 14%nat.
Proof. split; [lia | apply (find_index_below_min 0); lia]. Defined.

Lemma find_index_lt size : (find_index size < list_length)%nat.
Proof.
  unfold find_index, list_length.
  repeat match goal with
  | |- context [if ?c then _ else _] => destruct c
  end; lia.
Qed.

(** The class of a size of at least 32 bytes is the one whose interval holds it. *)
Lemma find_index_class size :
  32 <= size < two64 - 1 ->
  class_lo (find_index size) <= size < class_hi (find_index size).
Proof.
  intros H. rewrite two64_val in H. unfold find_index.
  repeat match goal with
  | |- context [if ?c then _ else _] =>
      let E := fresh "E" in destruct c eqn:E;
      [ apply andb_true_iff in E; destruct E as [?E ?E];
        rewrite ?Z.leb_le, ?Z.ltb_lt in *; simpl; unfold list0, list1, list2, list3,
          list4, list5, list6, list7, list8, list9, list10, list11, list12, list13,
          list14 in *; lia
      | apply andb_false_iff in E; rewrite ?Z.leb_gt, ?Z.ltb_ge in E ]
  end.
  simpl. unfold list0, list1, list2, list3, list4, list5, list6, list7, list8, list9,
    list10, list11, list12, list13, list14 in *. rewrite ?two64_val. lia.
Qed.

Lemma ceil16_spec x : 16 * (ceil16 x - 1) < x <= 16 * ceil16 x.
Proof.
  unfold ceil16. pose proof (Z.div_mod (x + 15) 16 ltac:(lia)).
  pose proof (Z.mod_pos_bound (x + 15) 16 ltac:(lia)). lia.
Qed.

(** Where the additions do not wrap, the adjusted size is the exact one. *)
Lemma adjusted_size_exact n :
  0 <= n -> n + 23 < two64 -> adjusted_size n = spec_asize n.
Proof.
  intros H0 H1. rewrite two64_val in H1.
  unfold adjusted_size, round_up, spec_asize, ceil16, wrap64.
  change min_block_size with 32. change dsize with 16. change wsize with 8.
  rewrite two64_val. change (16 - 1) with 15.
  rewrite (Z.mod_small (n + 8)) by lia.
  rewrite (Z.mod_small 15) by lia.
  rewrite (Z.mod_small (n + 8 + 15)) by lia.
  pose proof (Z.div_mod (n + 8 + 15) 16 ltac:(lia)).
  pose proof (Z.mod_pos_bound (n + 8 + 15) 16 ltac:(lia)).
  rewrite (Z.mod_small (16 * _)) by lia.
  destruct (16 * ((n + 8 + 15) / 16) <? 32) eqn:E.
  - apply Z.ltb_lt in E. lia.
  - apply Z.ltb_ge in E. lia.
Qed.

Example adjusted_size_56 : adjusted_size 56 = 64.
Proof. reflexivity. Qed.

Example adjusted_size_57 : adjusted_size 57 = 80.
Proof. reflexivity. Qed.

(** C3: on requests of 56 and 57 bytes the adjusted size is 64 and 80, as
    the exact formula says; but at the request [2^64 - 8] the sum
    [size + wsize] wraps to 0 and the code computes 32, where the exact
    formula [max(32, 16 * ceil((n + 8) / 16))] gives [2^64]. *)
Theorem adjusted_size_wraps :
  adjusted_size 56 = 64 /\ spec_asize 56 = 64 /\
  adjusted_size 57 = 80 /\ spec_asize 57 = 80 /\
  adjusted_size (two64 - 8) = 32 /\ spec_asize (two64 - 8) = two64.
Proof. repeat split; reflexivity. Qed.

(** The adjusted size is a multiple of 16, at least 32. *)
Lemma round_up_16 size :
  32 <= round_up size dsize < two64 /\ round_up size dsize mod 16 = 0.
Proof.
  unfold round_up, wrap64. change min_block_size with 32. change dsize with 16.
  set (k := (size + (16 - 1) mod two64) mod two64 / 16).
  pose proof (Z.mod_pos_bound (16 * k) two64 ltac:(rewrite two64_val; lia)) as B.
  destruct (_ <? 32) eqn:E.
  - rewrite two64_val. split; [lia | reflexivity].
  - apply Z.ltb_ge in E. split; [lia |].
    rewrite two64_val. change 18446744073709551616 with (16 * 1152921504606846976).
    rewrite Z.rem_mul_r by lia. rewrite Z.mul_comm, Z.mod_mul by lia.
    rewrite Z.add_0_l, Z.mul_comm. apply Z.mod_mul. lia.
Qed.

(* ===================================================================== *)
(** * Failure of [sbrk] inside [extend_heap]                             *)
(* ===================================================================== *)

(** C9: when the [mem_sbrk] call of [extend_heap] fails, [extend_heap]
    returns [NULL] and the whole state (every heap word, the epilogue, the
    fifteen list heads, the break) is the one before the call. *)
Theorem extend_heap_sbrk_fails (s : state) (size : Z) :
  mem_sbrk s (to_signed (round_up size dsize)) = None ->
  extend_heap s size = (NULL, s).
Proof.
  intros H. unfold extend_heap. rewrite H. reflexivity.
Qed.

Lemma extend_heap_sbrk_fails_witness :
  mem_sbrk booted (to_signed (round_up (2 ^ 20) dsize)) = None /\
  extend_heap booted (2 ^ 20) = (NULL, booted).
Proof.
  split; [reflexivity | apply (extend_heap_sbrk_fails booted (2 ^ 20)); reflexivity].
Defined.

(* ===================================================================== *)
(** * The fit search                                                     *)
(* ===================================================================== *)

Lemma chain_not_null s b l x : chain s b l -> In x l -> x <> NULL.
Proof.
  revert b. induction l as [|y r IH]; simpl; intros b H Hin; [contradiction|].
  destruct H as (-> & Hy & Hr). destruct Hin as [<- | Hin]; [assumption|].
  eapply IH; eassumption.
Qed.

Lemma first_of_not_null f l :
  (forall x, In x l -> x <> NULL) ->
  first_of f l = NULL -> find f l = None.
Proof.
  unfold first_of. intros Hl. destruct (find f l) as [b|] eqn:E; [|reflexivity].
  intros ->. apply find_some in E. destruct E as [E _]. apply Hl in E. congruence.
Qed.

Lemma first_of_app f l1 l2 :
  first_of f (l1 ++ l2) =
  match find f l1 with
  | Some b => b
  | None => first_of f l2
  end.
Proof.
  unfold first_of. induction l1 as [|x r IH]; simpl; [reflexivity|].
  destruct (f x); [reflexivity | apply IH].
Qed.

(** The inner loop returns the first fitting node of the list it walks. *)
Lemma find_fit_list_chain s asize l : forall fuel b,
  chain s b l -> (length l < fuel)%nat ->
  find_fit_list fuel s asize b = Some (first_of (fits s asize) l).
Proof.
  induction l as [|x r IH]; intros fuel b H Hf.
  - simpl in H. subst b. destruct fuel; [simpl in Hf; lia|]. reflexivity.
  - simpl in H. destruct H as (-> & Hx & Hr).
    destruct fuel as [|fuel]; [simpl in Hf; lia|]. simpl in Hf.
    cbn [find_fit_list]. 
    replace (x =? NULL) with false by (symmetry; apply Z.eqb_neq; assumption).
    unfold first_of. cbn [find]. fold (fits s asize x).
    destruct (fits s asize x); [reflexivity|].
    apply IH; [assumption | lia].
Qed.

Lemma skipn_nth_cons (A : Type) (d : A) : forall (l : list A) i,
  (i < length l)%nat -> skipn i l = nth i l d :: skipn (S i) l.
Proof.
  induction l as [|x r IH]; intros i H; simpl in H; [lia|].
  destruct i; [reflexivity|]. simpl. apply IH. lia.
Qed.

(** The outer loop returns the first fitting node in scan order. *)
Lemma find_fit_from_scan s asize ls fuel :
  lists_are s ls ->
  (forall l, In l ls -> (length l < fuel)%nat) ->
  forall n index, (list_length <= index + n)%nat ->
  find_fit_from n fuel s asize index =
  Some (first_of (fits s asize) (scan_order ls index)).
Proof.
  intros [Hlen Hch] Hfuel. induction n as [|n IH]; intros index Hn.
  - unfold scan_order. rewrite skipn_all2 by lia. reflexivity.
  - cbn [find_fit_from].
    destruct (index <? list_length)%nat eqn:Hi.
    2:{ apply Nat.ltb_ge in Hi. unfold scan_order.
        rewrite skipn_all2 by lia. reflexivity. }
    apply Nat.ltb_lt in Hi.
    rewrite (find_fit_list_chain s asize (nth index ls []));
      [| apply Hch; assumption | apply Hfuel, nth_In; lia].
    unfold scan_order. rewrite (skipn_nth_cons (list Z) [] ls) by lia.
    cbn [concat]. rewrite first_of_app.
    destruct (find (fits s asize) (nth index ls [])) as [b|] eqn:E.
    + unfold first_of. rewrite E.
      assert (b <> NULL).
      { apply find_some in E. destruct E as [E _].
        eapply chain_not_null; [apply (Hch index Hi) | exact E]. }
      replace (b =? NULL) with false by (symmetry; apply Z.eqb_neq; assumption).
      reflexivity.
    + unfold first_of at 1. rewrite E. rewrite Z.eqb_refl.
      apply IH. lia.
Qed.

Lemma find_ext_in (f g : Z -> bool) l :
  (forall x, In x l -> f x = g x) -> find f l = find g l.
Proof.
  induction l as [|x r IH]; intros H; [reflexivity|]. simpl.
  rewrite (H x) by (left; reflexivity). destruct (g x); [reflexivity|].
  apply IH. intros y Hy. apply H. right. assumption.
Qed.

Lemma in_scan_order ls index b :
  In b (scan_order ls index) -> In b (concat ls).
Proof.
  unfold scan_order. rewrite !in_concat. intros (l & Hl & Hb).
  exists l. split; [|assumption].
  rewrite <- (firstn_skipn index ls). apply in_or_app. right. assumption.
Qed.

(** C5: on lists that hold free blocks only, [find_fit asize] returns the
    first block of size at least [asize] met when the list of class
    [find_index asize] and then the lists of the higher classes are walked
    from their heads; it returns [NULL] exactly when no block of these lists
    has size at least [asize].  Enough fuel is one unit more than the
    longest list. *)
Theorem find_fit_first_fit (s : state) (asize : Z) (ls : list (list Z)) (fuel : nat) :
  lists_are s ls ->
  (forall b, In b (concat ls) -> get_alloc s b = false) ->
  (forall l, In l ls -> (length l < fuel)%nat) ->
  find_fit fuel s asize = Some (first_fit s asize ls) /\
  (first_fit s asize ls = NULL <->
   forall b, In b (scan_order ls (find_index asize)) -> get_size s b < asize).
Proof.
  intros Hls Hfree Hfuel.
  assert (Hnn : forall x, In x (scan_order ls (find_index asize)) -> x <> NULL).
  { intros x Hx. apply in_scan_order in Hx. apply in_concat in Hx.
    destruct Hx as (l & Hl & Hx). destruct Hls as [Hlen Hch].
    apply In_nth with (d := []) in Hl. destruct Hl as (i & Hi & <-).
    eapply chain_not_null; [apply (Hch i); lia | exact Hx]. }
  assert (E : first_of (fits s asize) (scan_order ls (find_index asize)) =
              first_fit s asize ls).
  { unfold first_of, first_fit. erewrite find_ext_in; [reflexivity|].
    intros x Hx. unfold fits. rewrite Hfree by (eapply in_scan_order; eassumption).
    reflexivity. }
  split.
  - unfold find_fit. rewrite (find_fit_from_scan s asize ls fuel Hls Hfuel).
    + rewrite E. reflexivity.
    + lia.
  - split.
    + intros H b Hb. fold (first_of (fun b => asize <=? get_size s b)
                                    (scan_order ls (find_index asize))) in H.
      apply first_of_not_null in H; [|assumption].
      pose proof (find_none _ _ H b Hb) as N. simpl in N.
      apply Z.leb_gt in N. assumption.
    + intros H. unfold first_fit.
      destruct (find _ _) as [b|] eqn:F; [|reflexivity].
      apply find_some in F. destruct F as [Hb F]. apply Z.leb_le in F.
      specialize (H b Hb). lia.
Qed.

Lemma booted_lists :
  lists_are booted
    [[]; []; []; []; []; []; []; []; []; []; [first_block]; []; []; []; []].
Proof.
  split; [reflexivity|]. intros i Hi. unfold list_length in Hi.
  do 15 (destruct i as [|i]; [vm_compute; repeat split; discriminate|]).
  lia.
Qed.

Lemma find_fit_first_fit_witness :
  find_fit 2 booted 32 = Some first_block.
Proof.
  refine (proj1 (find_fit_first_fit booted 32
    [[]; []; []; []; []; []; []; []; []; []; [first_block]; []; []; []; []] 2
    booted_lists _ _)).
  - intros b Hb. simpl in Hb. destruct Hb as [<- | []]. reflexivity.
  - intros l Hl. simpl in Hl.
    repeat (destruct Hl as [<- | Hl]; [simpl; lia|]). contradiction.
Defined.

(* ===================================================================== *)
(** * Requests whose size adjustment wraps                               *)
(* ===================================================================== *)

(** C2: on the machine just initialised, a request of [2^64 - 8] bytes is
    answered with a non-null pointer into a block of 32 bytes: the payload
    capacity is 24 bytes, far below the request.  (The pointer is 16-byte
    aligned and inside the heap.) *)
Theorem malloc_wrapped_request_too_small :
  fst (mm_init fresh_machine) = true /\
  match malloc 16 booted (two64 - 8) with
  | Some (p, s') =>
      p = first_block + 8 /\ p mod 16 = 0 /\
      mem_heap_lo s' < p < mem_heap_hi s' /\
      get_size s' (payload_to_header p) = 32 /\
      get_payload_size s' (payload_to_header p) = 24
  | None => False
  end.
Proof. vm_compute. repeat split; discriminate. Qed.

(** C1: on the machine just initialised, [malloc(100)] followed by
    [realloc(p, 2^64 - 8)] leaves a heap on which [mm_checkheap] returns
    false; the heap passed the check before the [realloc]. *)
Theorem realloc_wrapped_request_breaks_checkheap :
  fst (mm_init fresh_machine) = true /\
  mm_checkheap 16 booted = Some true /\
  match scenario_small_realloc with
  | Some (p, s1, q, s2) =>
      p <> NULL /\ mm_checkheap 16 s1 = Some true /\
      q <> NULL /\ mm_checkheap 16 s2 = Some false
  | None => False
  end.
Proof. vm_compute. repeat split; discriminate. Qed.

(** C7: on the machine just initialised, after [p = malloc(2024)] the call
    [realloc(p, 2^64 - 8)] returns a non-null [q]; the old payload holds
    2024 bytes, all of them zero before the call, yet the byte at offset 40
    of [q] is not zero after it. *)
Theorem realloc_wrapped_request_loses_bytes :
  match scenario_large_realloc with
  | Some (p, s1, q, s2) =>
      p <> NULL /\ q <> NULL /\
      get_payload_size s1 (payload_to_header p) = 2024 /\
      byte_at (mem s1) (p + 40) = 0 /\
      byte_at (mem s2) (q + 40) = 8
  | None => False
  end.
Proof. vm_compute. repeat split; discriminate. Qed.

(* ===================================================================== *)
(** * State updates                                                      *)
(* ===================================================================== *)

Lemma length_upd_nth i v l : length (upd_nth i v l) = length l.
Proof.
  revert i. induction l as [|x r IH]; intros [|i]; simpl; try reflexivity.
  rewrite IH. reflexivity.
Qed.

Lemma nth_upd_nth_eq i v l d : (i < length l)%nat -> nth i (upd_nth i v l) d = v.
Proof.
  revert i. induction l as [|x r IH]; intros [|i] H; simpl in *; try lia; try reflexivity.
  apply IH. lia.
Qed.

Lemma nth_upd_nth_neq i j v l d : i <> j -> nth j (upd_nth i v l) d = nth j l d.
Proof.
  revert i j. induction l as [|x r IH]; intros [|i] [|j] H; simpl; try reflexivity;
    try congruence.
  apply IH. congruence.
Qed.

Lemma seg_set_seg_eq s i v : (i < length (seg_list s))%nat -> seg (set_seg s i v) i = v.
Proof. intros H. unfold seg, set_seg. simpl. apply nth_upd_nth_eq. assumption. Qed.

Lemma seg_set_seg_neq s i j v : i <> j -> seg (set_seg s i v) j = seg s j.
Proof. intros H. unfold seg, set_seg. simpl. apply nth_upd_nth_neq. assumption. Qed.

Lemma seg_store s a v i : seg (store s a v) i = seg s i.
Proof. reflexivity. Qed.

Lemma load_set_seg s i v a : load (set_seg s i v) a = load s a.
Proof. reflexivity. Qed.

Lemma load_store_eq s a v b :
  a = b -> 0 <= v < two64 -> load (store s a v) b = v.
Proof.
  intros <- H. unfold load, store. simpl. rewrite load64_store64_same.
  apply Z.mod_small. assumption.
Qed.

Lemma load_store_other s a v b :
  a + 8 <= b \/ b + 8 <= a -> load (store s a v) b = load s b.
Proof. intros H. unfold load, store. simpl. apply load64_store64_other. assumption. Qed.

Lemma load_range s a : 0 <= load s a < two64.
Proof. apply load64_range. Qed.

Lemma same_machine_refl s : same_machine s s.
Proof. repeat split. Qed.

Lemma same_machine_trans s1 s2 s3 :
  same_machine s1 s2 -> same_machine s2 s3 -> same_machine s1 s3.
Proof. unfold same_machine. intros (?&?&?&?) (?&?&?&?). repeat split; congruence. Qed.

Lemma same_machine_store s a v : same_machine s (store s a v).
Proof. repeat split. Qed.

Lemma same_machine_set_seg s i v : same_machine s (set_seg s i v).
Proof. repeat split. Qed.

(* ===================================================================== *)
(** * Layouts                                                            *)
(* ===================================================================== *)

Lemma total_app l1 l2 : total (l1 ++ l2) = total l1 + total l2.
Proof. induction l1 as [|[sz al] r IH]; simpl; lia. Qed.

Lemma last_alloc_app pa l1 l2 :
  last_alloc pa (l1 ++ l2) = last_alloc (last_alloc pa l1) l2.
Proof. revert pa. induction l1 as [|[sz al] r IH]; intros pa; simpl; auto. Qed.

Lemma layout_app a l1 l2 :
  layout a (l1 ++ l2) = layout a l1 ++ layout (a + total l1) l2.
Proof.
  revert a. induction l1 as [|[sz al] r IH]; intros a; simpl.
  - rewrite Z.add_0_r. reflexivity.
  - rewrite IH. replace (a + sz + total r) with (a + (sz + total r)) by lia.
    reflexivity.
Qed.

Lemma blocks_app m a pa l1 l2 :
  blocks m a pa (l1 ++ l2) <->
  blocks m a pa l1 /\ blocks m (a + total l1) (last_alloc pa l1) l2.
Proof.
  revert a pa. induction l1 as [|[sz al] r IH]; intros a pa; simpl.
  - rewrite Z.add_0_r. tauto.
  - rewrite IH. replace (a + sz + total r) with (a + (sz + total r)) by lia. tauto.
Qed.

Lemma blocks_sizes m a pa bs : blocks m a pa bs -> sizes_ok bs.
Proof.
  revert a pa. induction bs as [|[sz al] r IH]; intros a pa H; constructor.
  - simpl in *. tauto.
  - simpl in H. eapply IH. apply H.
Qed.

Lemma sizes_ok_app l1 l2 : sizes_ok (l1 ++ l2) <-> sizes_ok l1 /\ sizes_ok l2.
Proof. apply Forall_app. Qed.

Lemma total_nonneg bs : sizes_ok bs -> 0 <= total bs.
Proof.
  induction 1 as [|[sz al] r H _ IH]; simpl in *; lia.
Qed.

Lemma total_pos bs : sizes_ok bs -> bs <> [] -> 32 <= total bs.
Proof.
  intros H Hne. destruct H as [|[sz al] r H Hr]; [congruence|].
  apply total_nonneg in Hr. simpl in *. lia.
Qed.

Lemma layout_range a bs x sz al :
  sizes_ok bs -> In (x, sz, al) (layout a bs) ->
  a <= x /\ x + sz <= a + total bs /\ 32 <= sz /\ sz mod 16 = 0.
Proof.
  intros H. revert a. induction H as [|[sz' al'] r H Hr IH]; intros a Hin; simpl in *.
  - contradiction.
  - pose proof (total_nonneg r Hr). destruct Hin as [E | Hin].
    + inversion E; subst. lia.
    + apply IH in Hin. lia.
Qed.

(** Two blocks of a layout are the same block or do not overlap. *)
Lemma layout_sep a bs x sz al y sz' al' :
  sizes_ok bs ->
  In (x, sz, al) (layout a bs) -> In (y, sz', al') (layout a bs) ->
  (x = y /\ sz = sz' /\ al = al') \/ x + sz <= y \/ y + sz' <= x.
Proof.
  intros H. revert a. induction H as [|[s0 a0] r H Hr IH]; intros a Hx Hy; simpl in *.
  - contradiction.
  - destruct Hx as [Ex | Hx], Hy as [Ey | Hy].
    + inversion Ex; inversion Ey; subst. left. auto.
    + inversion Ex; subst. apply (layout_range _ _ _ _ _ Hr) in Hy. lia.
    + inversion Ey; subst. apply (layout_range _ _ _ _ _ Hr) in Hx. lia.
    + eapply IH; eassumption.
Qed.

(** A block of a layout splits the heap around it. *)
Lemma layout_split a bs x sz al :
  In (x, sz, al) (layout a bs) ->
  exists l1 l2, bs = l1 ++ (sz, al) :: l2 /\ x = a + total l1.
Proof.
  revert a. induction bs as [|[s0 a0] r IH]; intros a Hin; simpl in *.
  - contradiction.
  - destruct Hin as [E | Hin].
    + inversion E; subst. exists [], r. simpl. split; [reflexivity | lia].
    + apply IH in Hin. destruct Hin as (l1 & l2 & -> & ->).
      exists ((s0, a0) :: l1), l2. simpl. split; [reflexivity | lia].
Qed.

Lemma layout_mid a l1 sz al l2 :
  In (a + total l1, sz, al) (layout a (l1 ++ (sz, al) :: l2)).
Proof. rewrite layout_app. apply in_or_app. right. left. reflexivity. Qed.

(** Memories that agree on the headers, and on the footers of the free
    blocks, hold the same heap. *)
Lemma blocks_frame m m' bs : forall a pa,
  blocks m a pa bs ->
  (forall x sz al, In (x, sz, al) (layout a bs) ->
     load64 m' x = load64 m x /\
     (al = false -> load64 m' (x + sz - 8) = load64 m (x + sz - 8))) ->
  blocks m' a pa bs.
Proof.
  induction bs as [|[sz al] r IH]; intros a pa H Hf; simpl in *; [exact I|].
  destruct H as (H1 & H2 & H3 & H4 & H5).
  destruct (Hf a sz al (or_introl eq_refl)) as [E1 E2].
  repeat split; try assumption.
  - congruence.
  - apply H4; assumption.
  - rewrite E2 by assumption. apply H4. assumption.
  - apply IH; [assumption|]. intros x sz' al' Hin. apply Hf. right. assumption.
Qed.

(* ===================================================================== *)
(** * Doubly linked segments                                             *)
(* ===================================================================== *)

Lemma last_cons (x : Z) r p : last (x :: r) p = last r x.
Proof.
  revert x p. induction r as [|y r IH]; intros x p; [reflexivity|].
  change (last (x :: y :: r) p) with (last (y :: r) p). rewrite !IH.
  reflexivity.
Qed.

Lemma dseg_app m l1 : forall b p l2 e,
  dseg m b p (l1 ++ l2) e <->
  exists mid, dseg m b p l1 mid /\ dseg m mid (last l1 p) l2 e.
Proof.
  induction l1 as [|x r IH]; intros b p l2 e.
  - simpl. split.
    + intros H. exists b. split; [reflexivity | assumption].
    + intros (mid & -> & H). assumption.
  - rewrite last_cons. cbn [app dseg]. split.
    + intros (Hb & Hp & H). apply IH in H. destruct H as (mid & H1 & H2).
      exists mid. repeat split; assumption.
    + intros (mid & (Hb & Hp & H1) & H2). repeat split; try assumption.
      apply IH. exists mid. split; assumption.
Qed.

Lemma dseg_frame m m' l : forall b p e,
  dseg m b p l e ->
  (forall x, In x l -> load64 m' (x + 8) = load64 m (x + 8) /\
                       load64 m' (x + 16) = load64 m (x + 16)) ->
  dseg m' b p l e.
Proof.
  induction l as [|x r IH]; intros b p e H Hf; simpl in *; [assumption|].
  destruct H as (Hb & Hp & H). destruct (Hf x (or_introl eq_refl)) as [E1 E2].
  repeat split; try congruence.
  rewrite E1. apply IH; [assumption|]. intros y Hy. apply Hf. right. assumption.
Qed.

(** A store off the link words of the nodes keeps the segment. *)
Lemma dseg_store_far m l b p e w v :
  dseg m b p l e ->
  (forall z, In z l -> w + 8 <= z + 8 \/ z + 24 <= w) ->
  dseg (store64 m w v) b p l e.
Proof.
  intros H Hz. eapply dseg_frame; [eassumption|]. intros x Hx.
  specialize (Hz x Hx). split; apply load64_store64_other; lia.
Qed.

(** Redirecting the [next] link of the last node. *)
Lemma dseg_set_last_next m l y b p e v :
  dseg m b p (l ++ [y]) e ->
  (forall z, In z l -> z + 32 <= y \/ y + 32 <= z) ->
  0 <= v < two64 ->
  dseg (store64 m (y + 8) v) b p (l ++ [y]) v.
Proof.
  intros H Hz Hv. apply dseg_app in H. destruct H as (mid & H1 & H2).
  apply dseg_app. exists mid. split.
  - apply dseg_store_far; [assumption|]. intros z Hin. specialize (Hz z Hin). lia.
  - simpl in *. destruct H2 as (E1 & E2 & E3). repeat split.
    + assumption.
    + rewrite load64_store64_other by lia. assumption.
    + rewrite load64_store64_same. apply Z.mod_small. assumption.
Qed.

(** Redirecting the [prev] link of the first node. *)
Lemma dseg_set_first_prev m n r b p e v :
  dseg m b p (n :: r) e ->
  (forall z, In z r -> z + 32 <= n \/ n + 32 <= z) ->
  0 <= v < two64 ->
  dseg (store64 m (n + 16) v) b v (n :: r) e.
Proof.
  intros H Hz Hv. simpl in *. destruct H as (E1 & E2 & E3). repeat split.
  - assumption.
  - rewrite load64_store64_same. apply Z.mod_small. assumption.
  - rewrite load64_store64_other by lia.
    apply dseg_store_far; [assumption|]. intros z Hin. specialize (Hz z Hin). lia.
Qed.

Lemma dseg_head m b p l e : dseg m b p l e -> l <> [] -> b = hd NULL l.
Proof. destruct l; simpl; [congruence | intros (-> & _) _; reflexivity]. Qed.

Lemma dseg_nil_end m b p l : dseg m b p l NULL -> b = NULL -> (forall x, In x l -> x <> NULL) -> l = [].
Proof.
  destruct l as [|x r]; [reflexivity|]. simpl. intros (-> & _) -> H.
  exfalso. apply (H NULL); [left |]; reflexivity.
Qed.

(** A segment with the [prev] links forgotten is a chain. *)
Lemma dseg_chain s l : forall b p,
  dseg (mem s) b p l NULL -> (forall x, In x l -> x <> NULL) -> chain s b l.
Proof.
  induction l as [|x r IH]; intros b p H Hn; simpl in *; [assumption|].
  destruct H as (-> & _ & H). repeat split.
  - apply Hn. left. reflexivity.
  - eapply IH; [exact H|]. intros y Hy. apply Hn. right. assumption.
Qed.

(** ** Removing occurrences from a duplicate-free list *)

Lemma remove_notin (x : Z) l : ~ In x l -> remove Z.eq_dec x l = l.
Proof. apply notin_remove. Qed.

Lemma remove_mid (x : Z) l1 l2 :
  ~ In x l1 -> ~ In x l2 -> remove Z.eq_dec x (l1 ++ x :: l2) = l1 ++ l2.
Proof.
  intros H1 H2. rewrite remove_app, remove_cons.
  rewrite !remove_notin by assumption. reflexivity.
Qed.

Lemma NoDup_remove_all (x : Z) l : NoDup l -> NoDup (remove Z.eq_dec x l).
Proof.
  induction 1 as [|y r Hy Hr IH]; simpl; [constructor|].
  destruct (Z.eq_dec x y); [assumption|]. constructor; [|assumption].
  intros Hin. apply in_remove in Hin. tauto.
Qed.

Lemma NoDup_mid (x : Z) l1 l2 :
  NoDup (l1 ++ x :: l2) -> ~ In x l1 /\ ~ In x l2 /\ NoDup (l1 ++ l2).
Proof.
  intros H. pose proof (NoDup_remove_1 _ _ _ H) as H1.
  pose proof (NoDup_remove_2 _ _ _ H) as H2.
  rewrite in_app_iff in H2. tauto.
Qed.

Lemma NoDup_app_disj (l1 l2 : list Z) z :
  NoDup (l1 ++ l2) -> In z l1 -> In z l2 -> False.
Proof.
  induction l1 as [|a r IH]; simpl; intros H H1 H2; [contradiction|].
  apply NoDup_cons_iff in H. destruct H as [Ha Hr]. destruct H1 as [-> | H1].
  - apply Ha. apply in_or_app. right. assumption.
  - apply IH; assumption.
Qed.

Lemma list_end (l : list Z) : l = [] \/ exists l' y, l = l' ++ [y].
Proof.
  destruct l as [|x r]; [left; reflexivity | right].
  destruct (exists_last (l := x :: r)) as (l' & y & E); [discriminate|].
  exists l', y. assumption.
Qed.

(* ===================================================================== *)
(** * The segregated lists: removal and insertion                        *)
(* ===================================================================== *)

Section ListsFacts.
Variables (s : state) (F : Z -> Z -> Prop) (ls : nat -> list Z).
Hypothesis HL : lists_inv s F ls.

Lemma li_fun x sz sz' : F x sz -> F x sz' -> sz = sz'.
  Proof. intros H H'. destruct (li_sep HL _ _ _ _ H H') as [[_ E] | [E | E]]; lia. Qed.

Lemma li_node_pos i x : In x (ls i) -> 0 < x < two64.
  Proof. intros H. destruct (li_in HL _ _ H) as (sz & HF & _). eapply li_pos; eassumption. Qed.

Lemma li_node_sep i x j y :
    In x (ls i) -> In y (ls j) -> x = y \/ x + 32 <= y \/ y + 32 <= x.
  Proof.
    intros Hx Hy. destruct (li_in HL _ _ Hx) as (sz & HFx & _).
    destruct (li_in HL _ _ Hy) as (sz' & HFy & _).
    destruct (li_sep HL _ _ _ _ HFx HFy) as [[E _] | E]; [left; assumption | right; assumption].
  Qed.

Lemma li_class i x sz : In x (ls i) -> F x sz -> i = find_index sz.
  Proof.
    intros Hx HF. destruct (li_in HL _ _ Hx) as (sz' & HF' & <-).
    f_equal. eapply li_fun; eassumption.
  Qed.

Lemma li_index_lt i x : In x (ls i) -> (i < list_length)%nat.
  Proof.
    intros Hx. destruct (li_in HL _ _ Hx) as (sz' & HF' & <-). apply find_index_lt.
  Qed.
End ListsFacts.

Arguments li_fun {s F ls}.
Arguments li_node_pos {s F ls}.
Arguments li_node_sep {s F ls}.
Arguments li_class {s F ls}.
Arguments li_index_lt {s F ls}.

Section Remove.
Variables (s : state) (F : Z -> Z -> Prop) (ls : nat -> list Z) (x sz : Z).
Hypothesis HL : lists_inv s F ls.
Hypothesis HF : F x sz.
Hypothesis Hsz : get_size s x = sz.

Let F' : Z -> Z -> Prop := fun y sz' => F y sz' /\ y <> x.
Let ls' : nat -> list Z := fun j => remove Z.eq_dec x (ls j).

Lemma remove_from_list_spec :
    lists_inv (remove_from_list s x) F' ls' /\
    links_frame F' (mem s) (mem (remove_from_list s x)) /\
    same_machine s (remove_from_list s x).
  Proof.
    set (i := find_index sz).
    assert (Hi : (i < length (seg_list s))%nat).
    { rewrite (li_len HL). apply find_index_lt. }
    pose proof (li_all HL _ _ HF) as Hin. fold i in Hin.
    destruct (in_split _ _ Hin) as (l1 & l2 & El).
    pose proof (li_nodup HL i) as Hnd. rewrite El in Hnd.
    destruct (NoDup_mid _ _ _ Hnd) as (Hx1 & Hx2 & Hnd').
    pose proof (li_chain HL i (find_index_lt sz)) as Hch. rewrite El in Hch.
    apply dseg_app in Hch. destruct Hch as (mid & HA & HB).
    cbn [dseg] in HB. destruct HB as (-> & HP & HC).
    set (P := last l1 NULL) in *. set (N := load64 (mem s) (x + 8)) in *.
    assert (HNr : 0 <= N < two64) by apply load64_range.
    assert (HPr : 0 <= P < two64) by (rewrite <- HP; apply load64_range).
    (* the neighbours *)
    assert (Hnode : forall y, In y l1 \/ In y l2 ->
                              In y (ls i) /\ y <> x /\ 0 < y < two64).
    { intros y Hy. assert (In y (ls i)).
      { rewrite El. apply in_or_app. destruct Hy; [left | right; right]; assumption. }
      split; [assumption|]. split; [intros ->; tauto|].
      eapply (li_node_pos HL); eassumption. }
    assert (HPin : P <> NULL -> In P l1).
    { unfold P. destruct (list_end l1) as [-> | (l' & y & ->)]; [simpl; congruence|].
      rewrite last_last. intros _. apply in_or_app. right. left. reflexivity. }
    assert (HP0 : P = NULL -> l1 = []).
    { unfold P. destruct (list_end l1) as [-> | (l' & y & ->)]; [reflexivity|].
      rewrite last_last. intros ->.
      destruct (Hnode NULL) as (_ & _ & H0); [|unfold NULL in H0; lia].
      left. apply in_or_app. right. left. reflexivity. }
    assert (HNin : N <> NULL -> In N l2).
    { intros HN. destruct l2 as [|n r]; simpl in HC; [congruence|].
      destruct HC as (E & _). left. symmetry. exact E. }
    assert (HN0 : N = NULL -> l2 = []).
    { destruct l2 as [|n r]; [reflexivity|]. simpl in HC. destruct HC as (E & _).
      intros E0. destruct (Hnode n) as (_ & _ & H0); [right; left; reflexivity|].
      unfold NULL in *. lia. }
    (* the state after the removal *)
    set (patchP := fun m : memory => if P =? NULL then m else store64 m (P + 8) N).
    set (patchN := fun m : memory => if N =? NULL then m else store64 m (N + 16) P).
    assert (Hmem : mem (remove_from_list s x) = patchN (patchP (mem s))).
    { unfold remove_from_list, get_prev, get_next, load. rewrite HP. fold N.
      unfold patchP, patchN.
      destruct (P =? NULL) eqn:EP, (N =? NULL) eqn:EN; simpl; try reflexivity.
      - apply Z.eqb_eq in EP. rewrite EP. reflexivity.
      - apply Z.eqb_eq in EN. rewrite EN. reflexivity. }
    assert (Hseg : seg_list (remove_from_list s x) =
                   if P =? NULL then upd_nth i N (seg_list s) else seg_list s).
    { unfold remove_from_list, get_prev, get_next, load. rewrite HP, Hsz. fold N. fold i.
      destruct (P =? NULL) eqn:EP, (N =? NULL) eqn:EN; try reflexivity.
      simpl. apply Z.eqb_eq in EN. rewrite EN. reflexivity. }
    assert (Hsame : same_machine s (remove_from_list s x)).
    { unfold remove_from_list.
      repeat match goal with |- context [if ?c then _ else _] => destruct c end;
        repeat split. }
    (* frames *)
    assert (HfP : forall m b p l e,
               dseg m b p l e ->
               (forall z, In z l -> P <> NULL -> z + 32 <= P \/ P + 32 <= z) ->
               dseg (patchP m) b p l e).
    { intros m b p l e H Hz. unfold patchP. destruct (P =? NULL) eqn:EP; [assumption|].
      apply Z.eqb_neq in EP. apply dseg_store_far; [assumption|].
      intros z Hzl. specialize (Hz z Hzl EP). lia. }
    assert (HfN : forall m b p l e,
               dseg m b p l e ->
               (forall z, In z l -> N <> NULL -> z + 32 <= N \/ N + 32 <= z) ->
               dseg (patchN m) b p l e).
    { intros m b p l e H Hz. unfold patchN. destruct (N =? NULL) eqn:EN; [assumption|].
      apply Z.eqb_neq in EN. apply dseg_store_far; [assumption|].
      intros z Hzl. specialize (Hz z Hzl EN). lia. }
    assert (Hfar : forall j z w, In z (ls j) -> In w (ls i) -> z <> w ->
                                 z + 32 <= w \/ w + 32 <= z).
    { intros j z w Hz Hw Hne. destruct (li_node_sep HL _ _ _ _ Hz Hw); tauto. }
    split; [|split; [|exact Hsame]].
    - constructor.
      + rewrite Hseg. destruct (P =? NULL); [rewrite length_upd_nth|]; apply (li_len HL).
      + intros j Hj. unfold seg. rewrite Hseg, Hmem. unfold ls'.
        destruct (Nat.eq_dec j i) as [-> | Hne].
        * (* the list of the removed block *)
          rewrite El, remove_mid by assumption.
          apply dseg_app. exists N. split.
          -- apply HfN.
             ++ destruct (list_end l1) as [-> | (l' & y & ->)].
                ** unfold patchP. replace (P =? NULL) with true by reflexivity.
                   simpl. rewrite nth_upd_nth_eq by assumption. reflexivity.
                ** assert (Py : P = y) by (unfold P; apply last_last).
                   destruct (Hnode y) as (Hy1 & Hy2 & Hy3);
                     [left; apply in_or_app; right; left; reflexivity|].
                   unfold patchP. replace (P =? NULL) with false
                     by (symmetry; apply Z.eqb_neq; unfold NULL; lia).
                   rewrite Py. eapply dseg_set_last_next; [exact HA | | assumption].
                   intros z Hz. apply (Hfar i); try assumption.
                   --- rewrite El. apply in_or_app. left. apply in_or_app. left. assumption.
                   --- intros ->. apply NoDup_app_remove_r in Hnd'.
                       apply (NoDup_app_disj _ _ y Hnd'); [assumption | left; reflexivity].
             ++ intros z Hz HN. apply (Hfar i); try assumption.
                ** apply Hnode. left. assumption.
                ** apply Hnode. right. apply HNin. assumption.
                ** intros ->. apply HNin in HN.
                   apply (NoDup_app_disj _ _ N Hnd'); assumption.
          -- fold P. destruct l2 as [|n r].
             ++ simpl in *. assumption.
             ++ assert (Nn : N = n) by (simpl in HC; tauto).
                destruct (Hnode n) as (Hn1 & Hn2 & Hn3); [right; left; reflexivity|].
                unfold patchN. replace (N =? NULL) with false
                  by (symmetry; apply Z.eqb_neq; unfold NULL; lia).
                rewrite Nn. rewrite Nn in HC.
                eapply dseg_set_first_prev with (p := x); [ | | assumption].
                ** apply HfP; [assumption|].
                   intros z Hz HPn. apply (Hfar i); try assumption.
                   --- apply Hnode. right. assumption.
                   --- apply Hnode. left. apply HPin. assumption.
                   --- intros ->. apply HPin in HPn.
                       apply (NoDup_app_disj _ _ P Hnd'); assumption.
                ** intros z Hz. apply (Hfar i); try assumption.
                   --- apply Hnode. right. right. assumption.
                   --- intros ->. apply NoDup_app_remove_l in Hnd'.
                       apply NoDup_cons_iff in Hnd'. tauto.
        * (* the other lists *)
          assert (Hnx : ~ In x (ls j)).
          { intros Hx. apply Hne. eapply (li_class HL); eassumption. }
          rewrite remove_notin by assumption.
          replace (nth j (if P =? NULL then upd_nth i N (seg_list s) else seg_list s) NULL)
            with (seg s j).
          2:{ unfold seg. destruct (P =? NULL); [|reflexivity].
              rewrite nth_upd_nth_neq by congruence. reflexivity. }
          pose proof (li_chain HL j Hj) as Hchj.
          assert (Hdiff : forall z w, In z (ls j) -> In w (ls i) -> z <> w).
          { intros z w Hz Hw ->. apply Hne.
            destruct (li_in HL _ _ Hz) as (sz1 & HF1 & <-).
            symmetry. eapply (li_class HL); eassumption. }
          apply HfN; [apply HfP; [assumption|]|].
          -- intros z Hz HPn. apply (Hfar j); try assumption.
             ++ apply Hnode. left. apply HPin. assumption.
             ++ apply Hdiff; [assumption|]. apply Hnode. left. apply HPin. assumption.
          -- intros z Hz HNn. apply (Hfar j); try assumption.
             ++ apply Hnode. right. apply HNin. assumption.
             ++ apply Hdiff; [assumption|]. apply Hnode. right. apply HNin. assumption.
      + intros j. apply NoDup_remove_all. apply (li_nodup HL).
      + intros j y Hy. unfold ls' in Hy. apply in_remove in Hy. destruct Hy as [Hy Hne].
        destruct (li_in HL _ _ Hy) as (sz' & HF' & E). exists sz'. unfold F'. tauto.
      + intros y sz' [HF' Hne]. unfold ls'. apply in_in_remove; [assumption|].
        apply (li_all HL). assumption.
      + intros y sz1 z sz2 [H1 _] [H2 _]. eapply (li_sep HL); eassumption.
      + intros y sz' [H1 _]. eapply (li_pos HL); eassumption.
    - intros z Hz. rewrite Hmem. unfold patchN, patchP.
      assert (HzP : P <> NULL -> z < P + 8 \/ P + 24 <= z).
      { intros HPn. destruct (Hnode P) as (Hp1 & Hp2 & Hp3); [left; apply HPin; assumption|].
        destruct (li_in HL _ _ Hp1) as (szp & HFp & _). apply (Hz P szp). split; assumption. }
      assert (HzN : N <> NULL -> z < N + 8 \/ N + 24 <= z).
      { intros HNn. destruct (Hnode N) as (Hp1 & Hp2 & Hp3); [right; apply HNin; assumption|].
        destruct (li_in HL _ _ Hp1) as (szp & HFp & _). apply (Hz N szp). split; assumption. }
      destruct (N =? NULL) eqn:EN, (P =? NULL) eqn:EP;
        rewrite ?Z.eqb_neq in *; rewrite ?store64_outside; try reflexivity;
        try (specialize (HzP EP)); try (specialize (HzN EN)); lia.
  Qed.
End Remove.

Arguments remove_from_list_spec {s F ls x sz}.

Section Add.
Variables (s : state) (F : Z -> Z -> Prop) (ls : nat -> list Z) (x sz : Z).
Hypothesis HL : lists_inv s F ls.
Hypothesis Hnew : forall y sz', F y sz' -> x + 32 <= y \/ y + 32 <= x.
Hypothesis Hpos : 0 < x < two64.
Hypothesis Hsz : get_size s x = sz.

Let F' : Z -> Z -> Prop := fun y sz' => F y sz' \/ (y = x /\ sz' = sz).
Let ls' : nat -> list Z :=
    fun j => if Nat.eqb j (find_index sz) then x :: ls j else ls j.

Lemma add_to_list_spec :
    lists_inv (add_to_list s x) F' ls' /\
    links_frame F' (mem s) (mem (add_to_list s x)) /\
    same_machine s (add_to_list s x).
  Proof.
    set (i := find_index sz).
    assert (Hi : (i < length (seg_list s))%nat).
    { rewrite (li_len HL). apply find_index_lt. }
    pose proof (li_chain HL i (find_index_lt sz)) as Hch.
    set (h := seg s i) in *.
    assert (Hxfar : forall j z, In z (ls j) -> x + 32 <= z \/ z + 32 <= x).
    { intros j z Hz. destruct (li_in HL _ _ Hz) as (sz' & HF & _). eapply Hnew; eassumption. }
    assert (Hxnot : forall j, ~ In x (ls j)).
    { intros j Hx. apply Hxfar in Hx. lia. }
    assert (Hh : h = NULL /\ ls i = [] \/
                 exists r, ls i = h :: r /\ 0 < h < two64 /\ h <> NULL).
    { destruct (ls i) as [|n r] eqn:El.
      - left. simpl in Hch. split; [assumption | reflexivity].
      - right. simpl in Hch. destruct Hch as (E & _). rewrite E. exists r.
        assert (Hn : 0 < n < two64).
        { apply (li_node_pos HL i). rewrite El. left. reflexivity. }
        split; [reflexivity|]. split; [assumption|]. unfold NULL. lia. }
    assert (Hmem : mem (add_to_list s x) =
                   if h =? NULL then store64 (store64 (mem s) (x + 8) NULL) (x + 16) NULL
                   else store64 (store64 (store64 (mem s) (x + 16) NULL) (x + 8) h)
                                (h + 16) x).
    { unfold add_to_list. rewrite Hsz. fold i. fold h.
      destruct (h =? NULL); reflexivity. }
    assert (Hseg : seg_list (add_to_list s x) = upd_nth i x (seg_list s)).
    { unfold add_to_list. rewrite Hsz. fold i. fold h.
      destruct (h =? NULL); reflexivity. }
    assert (Hsame : same_machine s (add_to_list s x)).
    { unfold add_to_list.
      match goal with |- context [if ?c then _ else _] => destruct c end; repeat split. }
    assert (Hframe : forall j b p l e, j <> i -> (forall z, In z l -> In z (ls j)) ->
               dseg (mem s) b p l e -> dseg (mem (add_to_list s x)) b p l e).
    { intros j b p l e Hj Hl H. rewrite Hmem.
      destruct Hh as [[Eh El] | (r & El & Hhr & Hhn)].
      - rewrite Eh. simpl. apply dseg_store_far; [apply dseg_store_far; [assumption|]|];
          intros z Hz; apply Hl, Hxfar in Hz; lia.
      - replace (h =? NULL) with false by (symmetry; apply Z.eqb_neq; assumption).
        assert (Hhz : forall z, In z l -> z + 32 <= h \/ h + 32 <= z).
        { intros z Hz. apply Hl in Hz.
          destruct (li_node_sep HL j z i h Hz) as [E | E]; [rewrite El; left; reflexivity | | assumption].
          subst z. exfalso. apply Hj.
          destruct (li_in HL _ _ Hz) as (sz1 & HF1 & <-).
          symmetry. apply (li_class HL) with (x := h); [rewrite El; left; reflexivity | assumption]. }
        apply dseg_store_far; [apply dseg_store_far; [apply dseg_store_far; [assumption|]|]|];
          intros z Hz; pose proof (Hhz z Hz); apply Hl, Hxfar in Hz; lia. }
    split; [|split; [|exact Hsame]].
    - constructor.
      + rewrite Hseg, length_upd_nth. apply (li_len HL).
      + intros j Hj. unfold seg, ls'. fold i. rewrite Hseg.
        destruct (Nat.eqb_spec j i) as [-> | Hne].
        * rewrite nth_upd_nth_eq by assumption. rewrite Hmem.
          destruct Hh as [[Eh El] | (r & El & Hhr & Hhn)].
          -- rewrite Eh, El. simpl. repeat split.
             ++ rewrite load64_store64_same. reflexivity.
             ++ rewrite load64_store64_other by lia. rewrite load64_store64_same. reflexivity.
          -- replace (h =? NULL) with false by (symmetry; apply Z.eqb_neq; assumption).
             assert (Hhin : In h (ls i)) by (rewrite El; left; reflexivity).
             pose proof (Hxfar i h Hhin) as Hxh.
             rewrite El in *. cbn [dseg]. split; [reflexivity|]. split.
             ++ rewrite load64_store64_other by lia.
                rewrite load64_store64_other by lia.
                rewrite load64_store64_same. reflexivity.
             ++ rewrite load64_store64_other by lia.
                rewrite load64_store64_same, Z.mod_small by lia.
                eapply dseg_set_first_prev with (p := NULL); [ | | lia].
                ** apply dseg_store_far; [apply dseg_store_far; [assumption|]|];
                     intros z Hz; rewrite <- El in Hz; specialize (Hxfar i z Hz); lia.
                ** intros z Hz. pose proof (li_nodup HL i) as Hnd. rewrite El in Hnd.
                   apply NoDup_cons_iff in Hnd.
                   destruct (li_node_sep HL i z i h) as [E | E];
                     [rewrite El; right; assumption | rewrite El; left; reflexivity
                      | | assumption].
                   subst z. tauto.
        * rewrite nth_upd_nth_neq by congruence.
          apply (Hframe j); [assumption | auto |]. apply (li_chain HL j Hj).
      + intros j. unfold ls'. fold i. destruct (Nat.eqb j i); [|apply (li_nodup HL)].
        constructor; [apply Hxnot | apply (li_nodup HL)].
      + intros j y Hy. unfold ls' in Hy. fold i in Hy. unfold F'.
        destruct (Nat.eqb_spec j i) as [-> | Hne].
        * destruct Hy as [<- | Hy].
          -- exists sz. split; [right; split; reflexivity | reflexivity].
          -- destruct (li_in HL _ _ Hy) as (sz' & HF' & E). exists sz'. tauto.
        * destruct (li_in HL _ _ Hy) as (sz' & HF' & E). exists sz'. tauto.
      + intros y sz' [HF' | [-> ->]]; unfold ls'.
        * destruct (Nat.eqb _ _); [right|]; apply (li_all HL); assumption.
        * rewrite Nat.eqb_refl. left. reflexivity.
      + intros y sz1 z sz2 [H1 | [-> ->]] [H2 | [-> ->]].
        * eapply (li_sep HL); eassumption.
        * specialize (Hnew _ _ H1). lia.
        * specialize (Hnew _ _ H2). lia.
        * left. split; reflexivity.
      + intros y sz' [H1 | [-> ->]]; [eapply (li_pos HL); eassumption | assumption].
    - intros z Hz. rewrite Hmem.
      assert (Hzx : z < x + 8 \/ x + 24 <= z).
      { apply (Hz x sz). right. split; reflexivity. }
      destruct Hh as [[Eh El] | (r & El & Hhr & Hhn)].
      + rewrite Eh. simpl. rewrite !store64_outside by lia. reflexivity.
      + replace (h =? NULL) with false by (symmetry; apply Z.eqb_neq; assumption).
        assert (Hzh : z < h + 8 \/ h + 24 <= z).
        { destruct (li_in HL i h) as (szh & HFh & _); [rewrite El; left; reflexivity|].
          apply (Hz h szh). left. assumption. }
        rewrite !store64_outside by lia. reflexivity.
  Qed.
End Add.

Arguments add_to_list_spec {s F ls x sz}.

(* ===================================================================== *)
(** * Frames                                                             *)
(* ===================================================================== *)

Lemma frame_except_refl F lo hi m : frame_except F lo hi m m.
Proof. intros z _ _. reflexivity. Qed.

Lemma frame_except_trans F lo hi m1 m2 m3 :
  frame_except F lo hi m1 m2 -> frame_except F lo hi m2 m3 ->
  frame_except F lo hi m1 m3.
Proof. intros H1 H2 z Hz HF. rewrite H2, H1 by assumption. reflexivity. Qed.

Lemma frame_except_weaken (F F' : Z -> Z -> Prop) lo hi lo' hi' m m' :
  frame_except F lo hi m m' ->
  (forall y sz, F y sz -> F' y sz) -> lo' <= lo -> hi <= hi' ->
  frame_except F' lo' hi' m m'.
Proof.
  intros H HF Hlo Hhi z Hz HF'. apply H; [lia|].
  intros y sz Hy. apply (HF' y sz). apply HF. assumption.
Qed.

Lemma frame_except_store F lo hi m w v :
  lo <= w -> w + 8 <= hi -> frame_except F lo hi m (store64 m w v).
Proof. intros H1 H2 z Hz _. apply store64_outside. lia. Qed.

Lemma frame_except_links (F : Z -> Z -> Prop) lo hi m m' :
  links_frame F m m' -> frame_except F lo hi m m'.
Proof. intros H z _ HF. apply H. assumption. Qed.

Lemma load64_frame_except F lo hi m m' w :
  frame_except F lo hi m m' ->
  w + 8 <= lo \/ hi <= w ->
  (forall y sz, F y sz -> w + 8 <= y + 8 \/ y + 24 <= w) ->
  load64 m' w = load64 m w.
Proof.
  intros H Hw HF. apply load64_agree. intros i Hi. apply H; [lia|].
  intros y sz Hy. specialize (HF y sz Hy). lia.
Qed.

Lemma load64_links_frame (F : Z -> Z -> Prop) m m' w :
  links_frame F m m' ->
  (forall y sz, F y sz -> w + 8 <= y + 8 \/ y + 24 <= w) ->
  load64 m' w = load64 m w.
Proof.
  intros H HF. apply load64_agree. intros i Hi. apply H.
  intros y sz Hy. specialize (HF y sz Hy). lia.
Qed.

(** A heap keeps its headers and footers under a change that stays off its
    range, apart from link words of blocks that are safe for it. *)
Lemma blocks_frame_except F lo hi m m' a pa bs :
  blocks m a pa bs -> frame_except F lo hi m m' ->
  a + total bs <= lo \/ hi <= a ->
  (forall y sz, F y sz -> link_safe a bs y) ->
  blocks m' a pa bs.
Proof.
  intros Hb Hf Hr Hs. pose proof (blocks_sizes _ _ _ _ Hb) as Hsz.
  apply (blocks_frame m); [assumption|].
  intros x sz al Hin. pose proof (layout_range _ _ _ _ _ Hsz Hin) as Hx.
  assert (Hy : forall y sz', F y sz' ->
             (x + 8 <= y + 8 \/ y + 24 <= x) /\
             (x + sz <= y + 8 \/ y + 24 <= x + sz - 8)).
  { intros y sz' HF. destruct (Hs y sz' HF) as [(sy & Hyin) | Hout].
    - pose proof (layout_range _ _ _ _ _ Hsz Hyin).
      destruct (layout_sep _ _ _ _ _ _ _ _ Hsz Hin Hyin) as [(E1 & E2 & E3) | E]; lia.
    - lia. }
  split.
  - eapply load64_frame_except; [eassumption | lia |].
    intros y sz' HF. apply (Hy y sz' HF).
  - intros _. eapply load64_frame_except; [eassumption | lia |].
    intros y sz' HF. destruct (Hy y sz' HF). lia.
Qed.

Lemma blocks_store_outside m a pa bs w v :
  blocks m a pa bs -> w + 8 <= a \/ a + total bs <= w ->
  blocks (store64 m w v) a pa bs.
Proof.
  intros Hb Hw. pose proof (blocks_sizes _ _ _ _ Hb) as Hsz.
  apply (blocks_frame m); [assumption|].
  intros x sz al Hin. pose proof (layout_range _ _ _ _ _ Hsz Hin) as Hx.
  split; [|intros _]; apply load64_store64_other; lia.
Qed.

(** The lists do not depend on the set of blocks beyond its extension. *)
Lemma lists_inv_ext s (F F' : Z -> Z -> Prop) ls :
  lists_inv s F ls -> (forall y sz, F y sz <-> F' y sz) -> lists_inv s F' ls.
Proof.
  intros H E. constructor.
  - apply (li_len H).
  - apply (li_chain H).
  - apply (li_nodup H).
  - intros i x Hx. destruct (li_in H _ _ Hx) as (sz & HF & Hi). exists sz.
    split; [apply E|]; assumption.
  - intros x sz HF. apply (li_all H). apply E. assumption.
  - intros x sz y sz' H1 H2. apply (li_sep H); apply E; assumption.
  - intros x sz HF. apply (li_pos H x sz). apply E. assumption.
Qed.

(** The lists are kept by a change of memory off the link words. *)
Lemma lists_inv_frame s s' (F : Z -> Z -> Prop) ls :
  lists_inv s F ls -> seg_list s' = seg_list s ->
  (forall y sz, F y sz ->
     load64 (mem s') (y + 8) = load64 (mem s) (y + 8) /\
     load64 (mem s') (y + 16) = load64 (mem s) (y + 16)) ->
  lists_inv s' F ls.
Proof.
  intros H Hseg Hm. constructor.
  - rewrite Hseg. apply (li_len H).
  - intros i Hi. unfold seg. rewrite Hseg.
    eapply dseg_frame; [apply (li_chain H i Hi)|].
    intros x Hx. destruct (li_in H _ _ Hx) as (sz & HF & _). eapply Hm. eassumption.
  - apply (li_nodup H).
  - apply (li_in H).
  - apply (li_all H).
  - apply (li_sep H).
  - apply (li_pos H).
Qed.

Lemma lists_inv_store s (F : Z -> Z -> Prop) ls w v :
  lists_inv s F ls ->
  (forall y sz, F y sz -> w + 8 <= y + 8 \/ y + 24 <= w) ->
  lists_inv (store s w v) F ls.
Proof.
  intros H Hw. apply (lists_inv_frame s); [assumption | reflexivity |].
  intros y sz HF. specialize (Hw y sz HF).
  split; apply load64_store64_other; lia.
Qed.

(* ===================================================================== *)
(** * Tag words in the state                                             *)
(* ===================================================================== *)

Lemma tag_fields s a sz al pa :
  load s a = pack sz al pa -> sz mod 16 = 0 -> 0 <= sz < two64 ->
  get_size s a = sz /\ get_alloc s a = al /\ get_prev_alloc s a = pa.
Proof.
  intros H Hm Hr. unfold get_size, get_alloc, get_prev_alloc. rewrite H.
  rewrite extract_size_pack, extract_alloc_pack, extract_prev_alloc_pack by assumption.
  auto.
Qed.

Lemma update_next_eq s b sz nsz nal pa0 pa' :
  get_size s b = sz -> load s (b + sz) = pack nsz nal pa0 ->
  nsz mod 16 = 0 -> 0 <= nsz < two64 ->
  update_next_prev_alloc s b pa' = store s (b + sz) (pack nsz nal pa').
Proof.
  intros Hsz Hn Hm Hr. unfold update_next_prev_alloc, find_next. rewrite Hsz.
  destruct (tag_fields _ _ _ _ _ Hn Hm Hr) as (-> & -> & _). reflexivity.
Qed.

Lemma write_block_free_eq s b sz pa :
  sz mod 16 = 0 -> 0 <= sz < two64 ->
  write_block s b sz false pa =
  store (store s b (pack sz false pa)) (b + sz - 8) (pack sz false pa).
Proof.
  intros Hm Hr. unfold write_block. cbn [negb]. unfold header_to_footer.
  assert (E : get_size (store s b (pack sz false pa)) b = sz).
  { unfold get_size. rewrite load_store_eq; [| reflexivity | apply pack_range; assumption].
    apply extract_size_pack; assumption. }
  rewrite E. change dsize with 16. f_equal. lia.
Qed.

Lemma write_block_alloc_eq s b sz pa :
  write_block s b sz true pa = store s b (pack sz true pa).
Proof. reflexivity. Qed.

Lemma blocks_tail_sizes m a l2 : blocks_tail m a l2 -> sizes_ok l2.
Proof.
  destruct l2 as [|[nsz nal] r]; [constructor|]. simpl. intros (H1 & H2 & _ & H4).
  constructor; [simpl; auto | eapply blocks_sizes; eassumption].
Qed.

(** The last block of a heap that ends with a free block. *)
Lemma last_alloc_false l pa :
  last_alloc pa l = false -> pa = true ->
  exists l' psz, l = l' ++ [(psz, false)].
Proof.
  intros H Hpa. destruct l as [|x r]; [simpl in H; congruence|].
  destruct (exists_last (l := x :: r)) as (l' & [psz pal] & E); [discriminate|].
  rewrite E in *. rewrite last_alloc_app in H. simpl in H. subst pal.
  exists l', psz. reflexivity.
Qed.

(* ===================================================================== *)
(** * Coalescing                                                         *)
(* ===================================================================== *)

Lemma mem_store s a v : mem (store s a v) = store64 (mem s) a v.
Proof. reflexivity. Qed.

Lemma heap_start_store s a v : heap_start (store s a v) = heap_start s.
Proof. reflexivity. Qed.

Lemma brk_store s a v : brk (store s a v) = brk s.
Proof. reflexivity. Qed.

Lemma heap_lo_store s a v : heap_lo (store s a v) = heap_lo s.
Proof. reflexivity. Qed.

Lemma same_allocated_refl a bs : same_allocated a bs bs.
Proof. intros x sz. tauto. Qed.

Lemma same_allocated_trans a bs1 bs2 bs3 :
  same_allocated a bs1 bs2 -> same_allocated a bs2 bs3 -> same_allocated a bs1 bs3.
Proof.
  intros H1 H2 x sz. specialize (H1 x sz). specialize (H2 x sz). tauto.
Qed.

(** Merging two free neighbours keeps the allocated blocks. *)
Lemma same_allocated_merge a l1 s1 s2 l2 :
  same_allocated a (l1 ++ (s1, false) :: (s2, false) :: l2)
                   (l1 ++ (s1 + s2, false) :: l2).
Proof.
  intros x sz. rewrite !layout_app, !in_app_iff. simpl.
  replace (a + total l1 + s1 + s2) with (a + total l1 + (s1 + s2)) by lia.
  split; intros [H | [H | H]]; try (inversion H; fail); auto.
  destruct H as [H | H]; [inversion H | auto].
Qed.

Lemma links_frame_weaken (F F' : Z -> Z -> Prop) m m' :
  (forall y sz, F y sz -> F' y sz) -> links_frame F m m' -> links_frame F' m m'.
Proof.
  intros HF H z Hz. apply H. intros y sz Hy. apply (Hz y sz). apply HF. assumption.
Qed.

Lemma links_frame_trans (F : Z -> Z -> Prop) m1 m2 m3 :
  links_frame F m1 m2 -> links_frame F m2 m3 -> links_frame F m1 m3.
Proof. intros H1 H2 z Hz. rewrite H2, H1 by assumption. reflexivity. Qed.

Lemma links_frame_refl (F : Z -> Z -> Prop) m : links_frame F m m.
Proof. intros z _. reflexivity. Qed.

Section Coalesce.
Variables (s : state) (l1 : list (Z * bool)) (sz : Z) (l2 : list (Z * bool)).
Variable ls : nat -> list Z.
Hypothesis PC : pre_coalesce s l1 sz l2 ls.

Let hs := heap_start s.
Let b := hs + total l1.
Let nb := b + sz.
Let pal := last_alloc true l1.
Let F0 : Z -> Z -> Prop := fun y sz' => free_in hs l1 y sz' \/ free_in nb l2 y sz'.

Lemma pc_sizes1 : sizes_ok l1.
  Proof. eapply blocks_sizes. apply (pc_l1 PC). Qed.

Lemma pc_sizes2 : sizes_ok l2.
  Proof. eapply blocks_tail_sizes. apply (pc_l2 PC). Qed.

Lemma pc_geometry :
    0 < heap_lo s /\ hs = heap_lo s + 8 /\ 0 <= total l1 /\ 0 <= total l2 /\
    brk s = nb + total l2 + 8 /\ brk s <= mem_max s /\ mem_max s < two64 /\
    32 <= sz /\ sz mod 16 = 0.
  Proof.
    pose proof (pc_lo PC). pose proof (pc_start PC). pose proof (pc_brk PC) as Hb.
    pose proof (pc_max PC). pose proof (pc_sz PC).
    pose proof (total_nonneg _ pc_sizes1). pose proof (total_nonneg _ pc_sizes2).
    rewrite total_app in Hb. simpl in Hb. unfold nb, b, hs. repeat split; lia.
  Qed.

Lemma pc_block : get_size s b = sz /\ get_alloc s b = false /\ get_prev_alloc s b = pal.
  Proof.
    destruct pc_geometry as (?&?&?&?&?&?&?&?&?).
    apply tag_fields; [apply (pc_hdr PC) | assumption | lia].
  Qed.

  (** The word that follows the block: a header or the epilogue. *)
Lemma pc_next :
    exists nsz nal,
      load s nb = pack nsz nal false /\ nsz mod 16 = 0 /\ 0 <= nsz < two64 /\
      ((l2 = [] /\ nsz = 0 /\ nal = true /\ nb = brk s - 8) \/
       (exists r, l2 = (nsz, nal) :: r /\ 32 <= nsz /\
                  blocks (mem s) (nb + nsz) nal r)).
  Proof.
    destruct pc_geometry as (?&?&?&?&Hbrk&?&?&?&?).
    pose proof (pc_l2 PC) as Htl. pose proof (pc_epi PC) as He.
    destruct l2 as [|[nsz nal] r].
    - exists 0, true. simpl in *. replace nb with (brk s - 8) by lia.
      repeat split; try assumption; try (rewrite two64_val; lia).
      left. repeat split.
    - exists nsz, nal. simpl in Htl. destruct Htl as (A & B & C & D).
      pose proof (total_nonneg _ (blocks_sizes _ _ _ _ D)). simpl in Hbrk.
      repeat split; try assumption; try lia.
      right. exists r. repeat split; assumption.
  Qed.

  (** The block before: allocated (or the prologue), or a free block whose
      footer is the word before [b]. *)
Lemma pc_prev :
    (pal = true /\ (if find_prev s b =? NULL then true else get_prev_alloc s b) = true) \/
    (exists l1' psz,
        pal = false /\ l1 = l1' ++ [(psz, false)] /\
        (if find_prev s b =? NULL then true else get_prev_alloc s b) = false /\
        find_prev s b = b - psz /\ b - psz = hs + total l1' /\
        32 <= psz /\ psz mod 16 = 0 /\
        load s (b - psz) = pack psz false true /\
        blocks (mem s) hs true l1' /\ last_alloc true l1' = true).
  Proof.
    destruct pc_geometry as (?&?&?&?&Hbrk&?&?&?&?).
    destruct pc_block as (Hb1 & Hb2 & Hb3).
    destruct pal eqn:Epal.
    - left. split; [reflexivity|]. rewrite Hb3. destruct (_ =? NULL); reflexivity.
    - right. destruct (last_alloc_false l1 true Epal eq_refl) as (l1' & psz & E).
      exists l1', psz. pose proof (pc_l1 PC) as Hl1. rewrite E in Hl1.
      apply blocks_app in Hl1. destruct Hl1 as [Hl1' Hp]. cbn [blocks] in Hp.
      destruct Hp as (P1 & P2 & P3 & P4 & _). destruct (P4 eq_refl) as [P5 P6].
      pose proof (total_nonneg _ (blocks_sizes _ _ _ _ Hl1')) as Ht.
      assert (Eb : b = hs + total l1' + psz).
      { unfold b. rewrite E, total_app. simpl. lia. }
      assert (Hf : load s (b - 8) = pack psz false true).
      { rewrite P5 in P6. unfold load. rewrite <- P6. f_equal. fold hs. lia. }
      assert (Hsz : extract_size (load s (b - 8)) = psz).
      { rewrite Hf. apply extract_size_pack; [assumption | lia]. }
      assert (Hfp : find_prev s b = b - psz).
      { unfold find_prev, find_prev_footer, footer_to_header. rewrite Hsz.
        replace (psz =? 0) with false by (symmetry; apply Z.eqb_neq; lia).
        change wsize with 8. lia. }
      rewrite Hfp. replace (b - psz =? NULL) with false
        by (symmetry; apply Z.eqb_neq; unfold NULL; lia).
      repeat split; try assumption; try lia.
      rewrite P5 in P3. unfold load. rewrite <- P3. f_equal. fold hs. lia.
  Qed.

  (** The blocks in the lists lie before [b] or after [nb]. *)
Lemma pc_free_range y szy :
    F0 y szy ->
    32 <= szy /\ szy mod 16 = 0 /\
    ((hs <= y /\ y + szy <= b) \/ (nb <= y /\ y + szy <= brk s - 8)).
  Proof.
    destruct pc_geometry as (?&?&?&?&Hbrk&?&?&?&?).
    intros [Hy | Hy].
    - apply (layout_range _ _ _ _ _ pc_sizes1) in Hy. unfold b. lia.
    - apply (layout_range _ _ _ _ _ pc_sizes2) in Hy. lia.
  Qed.

  (** A free block of a regular heap whose predecessor is free is not its
      first block. *)
Lemma tail_first_alloc m e lb y szy :
    blocks m e false lb -> In (y, szy, false) (layout e lb) -> e + 32 <= y.
  Proof.
    intros Hb Hin. pose proof (blocks_sizes _ _ _ _ Hb) as Hsz.
    destruct lb as [|[esz eal] r]; [contradiction|].
    cbn [blocks] in Hb. destruct Hb as (A & B & C & D & E).
    destruct eal; [|destruct (D eq_refl); discriminate].
    simpl in Hin. destruct Hin as [Hin | Hin]; [inversion Hin|].
    apply sizes_ok_app with (l1 := [(esz, true)]) in Hsz. destruct Hsz as [_ Hr].
    apply (layout_range _ _ _ _ _ Hr) in Hin. lia.
  Qed.

  (** Assembling the result of [coalesce_block] from the effect on memory. *)
Lemma coalesce_post (s' : state) (la lb : list (Z * bool)) (b' sz' : Z)
        (ls' : nat -> list Z) :
    b' = hs + total la ->
    b' + sz' + total lb = nb + total l2 ->
    32 <= sz' -> sz' mod 16 = 0 ->
    blocks (mem s) hs true la -> last_alloc true la = true ->
    blocks (mem s) (b' + sz') false lb ->
    load s (brk s - 8) = pack 0 true (last_alloc false lb) ->
    (forall y szy, F0 y szy ->
       free_in hs la y szy \/ free_in (b' + sz') lb y szy \/
       (b' <= y /\ y + szy <= b' + sz')) ->
    same_machine s s' ->
    frame_except F0 b' (b' + sz' + 8) (mem s) (mem s') ->
    load s' b' = pack sz' false true ->
    load s' (b' + sz' - 8) = pack sz' false true ->
    load s' (b' + sz') = load s (b' + sz') ->
    lists_inv s' (fun y szy => free_in hs la y szy \/ free_in (b' + sz') lb y szy) ls' ->
    post_coalesce s' b' la sz' lb ls'.
  Proof.
    intros Hb' Hend Hsz1 Hsz2 Hla Hlast Hlb Hepi HF Hsame Hfr Hh Hf He Hlists.
    destruct pc_geometry as (G1&G2&G3&G4&G5&G6&G7&G8&G9).
    destruct Hsame as (S1 & S2 & S3 & S4).
    pose proof (blocks_sizes _ _ _ _ Hla) as Sa. pose proof (blocks_sizes _ _ _ _ Hlb) as Sb.
    pose proof (total_nonneg _ Sa) as Ta. pose proof (total_nonneg _ Sb) as Tb.
    assert (HFr : forall y szy, F0 y szy -> 32 <= szy /\ hs <= y /\ y + szy <= brk s - 8).
    { intros y szy Hy. destruct (pc_free_range y szy Hy) as (A & B & C).
      unfold b, nb in *. lia. }
    assert (Hsafe_a : forall y szy, F0 y szy -> link_safe hs la y).
    { intros y szy Hy. destruct (HF y szy Hy) as [Hc | [Hc | Hc]].
      - left. exists szy. exact Hc.
      - apply (layout_range _ _ _ _ _ Sb) in Hc. right. right. lia.
      - right. right. lia. }
    assert (Hsafe_b : forall y szy, F0 y szy -> link_safe (b' + sz') lb y).
    { intros y szy Hy. pose proof (HFr y szy Hy). destruct (HF y szy Hy) as [Hc | [Hc | Hc]].
      - apply (layout_range _ _ _ _ _ Sa) in Hc. right. left. lia.
      - left. exists szy. exact Hc.
      - right. left. lia. }
    constructor.
    - constructor.
      + rewrite S1. apply (pc_lo PC).
      + rewrite S4, S1. apply (pc_start PC).
      + rewrite S2, S4, total_app. cbn [total]. fold hs. lia.
      + rewrite S2, S3. apply (pc_max PC).
      + rewrite S1. unfold load. rewrite <- (pc_pro PC). unfold load.
        eapply load64_frame_except; [exact Hfr | lia |].
        intros y szy Hy. pose proof (HFr y szy Hy). lia.
      + rewrite S4. fold hs. apply blocks_app. split.
        * eapply blocks_frame_except; [exact Hla | exact Hfr | lia | exact Hsafe_a].
        * rewrite Hlast, <- Hb'. cbn [blocks]. repeat split; try assumption.
          apply (blocks_frame (mem s)); [assumption|].
          intros x szx alx Hin.
          pose proof (layout_range _ _ _ _ _ Sb Hin) as Hx.
          assert (Hy : forall y szy, F0 y szy ->
                     (x + 8 <= y + 8 \/ y + 24 <= x) /\
                     (x + szx <= y + 8 \/ y + 24 <= x + szx - 8)).
          { intros y szy Hy. pose proof (HFr y szy Hy).
            destruct (HF y szy Hy) as [Hc | [Hc | Hc]].
            - apply (layout_range _ _ _ _ _ Sa) in Hc. lia.
            - destruct (layout_sep _ _ _ _ _ _ _ _ Sb Hin Hc) as [(E1 & E2 & E3) | E]; lia.
            - lia. }
          destruct (Z.eq_dec x (b' + sz')) as [-> | Hne].
          -- split; [exact He|]. intros _.
             eapply load64_frame_except; [exact Hfr | lia |].
             intros y szy Hy0. destruct (Hy y szy Hy0). lia.
          -- assert (b' + sz' + 32 <= x).
             { destruct lb as [|[esz eal] r]; [contradiction|]. simpl in Hin.
               destruct Hin as [Hin | Hin]; [inversion Hin; congruence|].
               apply sizes_ok_app with (l1 := [(esz, eal)]) in Sb. destruct Sb as [Sb1 Sb2].
               apply (layout_range _ _ _ _ _ Sb2) in Hin.
               apply Forall_inv in Sb1. simpl in Sb1. lia. }
             split; [|intros _]; (eapply load64_frame_except; [exact Hfr | lia |]);
               intros y szy Hy0; destruct (Hy y szy Hy0); lia.
      + rewrite S2. rewrite last_alloc_app. cbn [last_alloc].
        destruct lb as [|[esz eal] r].
        * simpl in Hend. cbn [last_alloc] in *.
          replace (brk s - 8) with (b' + sz') in * by lia.
          rewrite He. exact Hepi.
        * unfold load. rewrite <- Hepi. unfold load.
          pose proof (total_nonneg r (Forall_inv_tail Sb)) as Tr.
          apply Forall_inv in Sb. simpl in Sb. simpl in Hend, Tb.
          eapply load64_frame_except; [exact Hfr | lia |].
          intros y szy Hy. pose proof (HFr y szy Hy). lia.
    - rewrite S4. exact Hb'.
    - rewrite S4. exact Hlists.
  Qed.

  (** The three words written by a merge are off the link words. *)
Lemma coalesce_lists_stores (s1 : state) (la lb : list (Z * bool)) (b' sz' : Z)
        (ls' : nat -> list Z) v1 v2 v3 :
    b' = hs + total la -> 32 <= sz' ->
    sizes_ok la -> blocks (mem s) (b' + sz') false lb ->
    lists_inv s1 (fun y szy => free_in hs la y szy \/ free_in (b' + sz') lb y szy) ls' ->
    lists_inv (store (store (store s1 b' v1) (b' + sz' - 8) v2) (b' + sz') v3)
              (fun y szy => free_in hs la y szy \/ free_in (b' + sz') lb y szy) ls'.
  Proof.
    intros Hb' Hsz Sa Hlb Hli.
    assert (Hy : forall y szy,
               free_in hs la y szy \/ free_in (b' + sz') lb y szy ->
               y + 24 <= b' \/ b' + sz' + 8 <= y + 8).
    { intros y szy [Hy | Hy].
      - apply (layout_range _ _ _ _ _ Sa) in Hy. lia.
      - apply (tail_first_alloc _ _ _ _ _ Hlb) in Hy. lia. }
    repeat apply lists_inv_store; try assumption;
      intros y szy Hyy; specialize (Hy y szy Hyy); lia.
  Qed.

  (** The word after a regular heap that follows a free block: a header or
      the epilogue, with a clear [prev_alloc] bit. *)
Lemma next_word e lb :
    blocks (mem s) e false lb ->
    load s (brk s - 8) = pack 0 true (last_alloc false lb) ->
    e + total lb = brk s - 8 -> 0 <= e ->
    exists esz eal, load s e = pack esz eal false /\ esz mod 16 = 0 /\ 0 <= esz < two64.
  Proof.
    intros Hlb Hepi He He0. destruct pc_geometry as (G1&G2&G3&G4&G5&G6&G7&G8&G9).
    destruct lb as [|[esz eal] r].
    - exists 0, true. simpl in He. rewrite Z.add_0_r in He. rewrite He.
      cbn [last_alloc] in Hepi.
      repeat split; try assumption; try reflexivity; rewrite ?two64_val; lia.
    - exists esz, eal. pose proof (total_nonneg _ (blocks_sizes _ _ _ _ Hlb)) as Tb.
      pose proof (total_nonneg r (Forall_inv_tail (blocks_sizes _ _ _ _ Hlb))) as Tr.
      cbn [blocks] in Hlb. destruct Hlb as (A & B & C & _). simpl in He.
      repeat split; try assumption; lia.
  Qed.

  (** The tail of a merge: writing the merged block and telling its
      successor. *)
Lemma coalesce_merge (s1 : state) (la lb : list (Z * bool)) (b' sz' : Z)
        (ls' : nat -> list Z) :
    b' = hs + total la ->
    b' + sz' + total lb = nb + total l2 ->
    32 <= sz' -> sz' mod 16 = 0 ->
    blocks (mem s) hs true la -> last_alloc true la = true ->
    blocks (mem s) (b' + sz') false lb ->
    load s (brk s - 8) = pack 0 true (last_alloc false lb) ->
    (forall y szy, F0 y szy ->
       free_in hs la y szy \/ free_in (b' + sz') lb y szy \/
       (b' <= y /\ y + szy <= b' + sz')) ->
    same_machine s s1 -> links_frame F0 (mem s) (mem s1) ->
    lists_inv s1 (fun y szy => free_in hs la y szy \/ free_in (b' + sz') lb y szy) ls' ->
    let s' := update_next_prev_alloc (write_block s1 b' sz' false true) b' false in
    post_coalesce s' b' la sz' lb ls' /\ same_machine s s' /\
    frame_except F0 b' (b' + sz' + 8) (mem s) (mem s').
  Proof.
    intros Hb' Hend Hsz1 Hsz2 Hla Hlast Hlb Hepi HF Hsame Hlf Hli.
    destruct pc_geometry as (G1&G2&G3&G4&G5&G6&G7&G8&G9).
    pose proof (blocks_sizes _ _ _ _ Hla) as Sa. pose proof (blocks_sizes _ _ _ _ Hlb) as Sb.
    pose proof (total_nonneg _ Sa) as Ta. pose proof (total_nonneg _ Sb) as Tb.
    assert (Hr : 0 <= sz' < two64) by lia.
    destruct (next_word (b' + sz') lb Hlb Hepi ltac:(lia) ltac:(lia)) as (esz & eal & He & Em & Er).
    assert (He1 : load s1 (b' + sz') = pack esz eal false).
    { rewrite <- He. unfold load. eapply load64_links_frame; [exact Hlf|].
      intros y szy Hy. destruct (HF y szy Hy) as [Hc | [Hc | Hc]].
      - apply (layout_range _ _ _ _ _ Sa) in Hc. lia.
      - apply (tail_first_alloc _ _ _ _ _ Hlb) in Hc. lia.
      - destruct (pc_free_range y szy Hy). lia. }
    pose proof (pack_range sz' false true Hsz2 Hr) as Wr.
    pose proof (pack_range esz eal false Em Er) as Wer.
    intros s'.
    assert (Es' : s' = store (store (store s1 b' (pack sz' false true))
                                    (b' + sz' - 8) (pack sz' false true))
                             (b' + sz') (pack esz eal false)).
    { unfold s'. rewrite write_block_free_eq by assumption.
      apply update_next_eq with (pa0 := false); try assumption.
      - apply tag_fields with (al := false) (pa := true); try assumption.
        rewrite load_store_other by lia. apply load_store_eq; [reflexivity | assumption].
      - rewrite !load_store_other by lia. assumption. }
    assert (Hsame' : same_machine s s').
    { rewrite Es'. destruct Hsame as (S1 & S2 & S3 & S4). repeat split; assumption. }
    assert (Hfe : frame_except F0 b' (b' + sz' + 8) (mem s) (mem s')).
    { rewrite Es'. rewrite !mem_store.
      apply frame_except_trans with (m2 := mem s1);
        [apply frame_except_links; exact Hlf|].
      apply frame_except_trans with (m2 := store64 (mem s1) b' (pack sz' false true));
        [apply frame_except_store; lia|].
      apply frame_except_trans
        with (m2 := store64 (store64 (mem s1) b' (pack sz' false true))
                            (b' + sz' - 8) (pack sz' false true));
        [apply frame_except_store; lia|].
      apply frame_except_store; lia. }
    split; [|split; [exact Hsame' | exact Hfe]].
    apply coalesce_post; try assumption.
    - rewrite Es'. rewrite !load_store_other by lia.
      apply load_store_eq; [reflexivity | assumption].
    - rewrite Es'. rewrite load_store_other by lia.
      apply load_store_eq; [reflexivity | assumption].
    - rewrite Es', He. apply load_store_eq; [reflexivity | assumption].
    - rewrite Es'. apply coalesce_lists_stores; assumption.
  Qed.

Lemma pc_off_links_b y szy : F0 y szy -> b + 8 <= y + 8 \/ y + 24 <= b.
  Proof.
    intros Hy. destruct (pc_free_range y szy Hy) as (A & B & C).
    destruct pc_geometry as (G1&G2&G3&G4&G5&G6&G7&G8&G9). unfold nb in *. lia.
  Qed.

Lemma pc_off_links_nb y szy : F0 y szy -> nb + 8 <= y + 8 \/ y + 24 <= nb.
  Proof.
    intros Hy. destruct (pc_free_range y szy Hy) as (A & B & C).
    destruct pc_geometry as (G1&G2&G3&G4&G5&G6&G7&G8&G9). unfold nb in *. lia.
  Qed.

Lemma coalesce_block_spec :
    exists la sz' lb ls',
      post_coalesce (snd (coalesce_block s b)) (fst (coalesce_block s b)) la sz' lb ls' /\
      same_machine s (snd (coalesce_block s b)) /\
      sz <= sz' /\
      same_allocated hs (l1 ++ (sz, false) :: l2) (la ++ (sz', false) :: lb) /\
      frame_except F0 (fst (coalesce_block s b)) (fst (coalesce_block s b) + sz' + 8)
                   (mem s) (mem (snd (coalesce_block s b))) /\
      (fst (coalesce_block s b) <= b /\ b + sz <= fst (coalesce_block s b) + sz') /\
      la ++ (sz', false) :: lb = merge_free l1 sz l2.
  Proof.
    destruct pc_geometry as (G1&G2&G3&G4&G5&G6&G7&G8&G9).
    destruct pc_block as (B1 & B2 & B3).
    destruct pc_next as (nsz & nal & Hn & Nm & Nr & Hshape).
    destruct (tag_fields _ _ _ _ _ Hn Nm Nr) as (N1 & N2 & N3).
    assert (Hfn : find_next s b = nb) by (unfold find_next; rewrite B1; reflexivity).
    assert (Hbn : negb (b =? NULL) = true).
    { apply negb_true_iff, Z.eqb_neq. unfold b, NULL. lia. }
    pose proof (pc_lists PC) as HL. fold hs in HL. fold b in HL. fold nb in HL. fold F0 in HL.
    unfold coalesce_block. cbv zeta. rewrite Hbn, Hfn, N2, B1.
    destruct pc_prev as [(Ep & Epa) |
      (l1' & psz & Ep & El1 & Epa & Efp & Epb & P1 & P2 & P3 & P4 & P5)]; rewrite Epa.
    - (* the block before is allocated *)
      destruct nal; cbn [andb negb fst snd].
      + (* case 1: nothing to merge *)
        exists l1, sz, l2, ls.
        assert (Es' : update_next_prev_alloc s b false = store s nb (pack nsz true false)).
        { apply update_next_eq with (pa0 := false); assumption. }
        rewrite Es'. pose proof (pack_range nsz true false Nm Nr) as Wr.
        assert (Hl2 : blocks (mem s) nb false l2).
        { destruct Hshape as [(-> & _) | (r & -> & R1 & R2)]; [exact I|].
          cbn [blocks]. repeat split; try assumption; discriminate. }
        split; [|split; [apply same_machine_store |
                         split; [lia | split; [apply same_allocated_refl |
                                               split; [|split; [lia|]]]]]].
        apply coalesce_post; try assumption; try lia; try reflexivity.
        * apply (pc_l1 PC).
        * apply (pc_epi PC).
        * intros y szy [Hy | Hy]; [left | right; left]; assumption.
        * apply same_machine_store.
        * rewrite mem_store. apply frame_except_store; unfold nb; lia.
        * rewrite load_store_other by (unfold nb; lia). rewrite <- Ep. apply (pc_hdr PC).
        * rewrite load_store_other by (unfold nb; lia). rewrite <- Ep.
          pose proof (pc_ftr PC) as Hf. fold hs in Hf. fold b in Hf. exact Hf.
        * fold nb. rewrite Hn. apply load_store_eq; [reflexivity | assumption].
        * fold nb. apply lists_inv_store; [exact HL|]. apply pc_off_links_nb.
        * rewrite mem_store. apply frame_except_store; unfold nb; lia.
        * unfold merge_free. fold pal. rewrite Ep.
          replace (0 + sz + _) with sz
            by (destruct Hshape as [(-> & _) | (r & -> & _)]; cbn; lia).
          destruct Hshape as [(-> & _) | (r & -> & _)]; reflexivity.
      + (* case 2: merge with the next block *)
        destruct Hshape as [(_ & _ & Hc & _) | (r & El2 & R1 & R2)]; [discriminate|].
        assert (HFn : F0 nb nsz).
        { right. unfold free_in. rewrite El2. left. reflexivity. }
        destruct (remove_from_list_spec HL HFn N1) as (HL1 & Hlf1 & Hsm1).
        set (s1 := remove_from_list s nb) in *.
        pose proof (total_nonneg r (blocks_sizes _ _ _ _ R2)) as Tr.
        assert (G5' : brk s = nb + (nsz + total r) + 8) by (rewrite G5, El2; reflexivity).
        rewrite N1. unfold wrap64. rewrite (Z.mod_small (sz + nsz)) by lia.
        exists l1, (sz + nsz), r, (fun j => remove Z.eq_dec nb (ls j)).
        assert (Ee : b + (sz + nsz) = nb + nsz) by (unfold nb; lia).
        assert (A1 : b = hs + total l1) by reflexivity.
        assert (A2 : b + (sz + nsz) + total r = nb + total l2) by (rewrite El2; simpl; lia).
        assert (A3 : 32 <= sz + nsz) by lia.
        assert (A4 : (sz + nsz) mod 16 = 0).
        { rewrite Z.add_mod by lia. rewrite G9, Nm. reflexivity. }
        assert (A5 : blocks (mem s) (b + (sz + nsz)) false r) by (rewrite Ee; exact R2).
        assert (A6 : load s (brk s - 8) = pack 0 true (last_alloc false r)).
        { pose proof (pc_epi PC) as He. rewrite El2 in He. exact He. }
        assert (A7 : forall y szy, F0 y szy ->
                   free_in hs l1 y szy \/ free_in (b + (sz + nsz)) r y szy \/
                   (b <= y /\ y + szy <= b + (sz + nsz))).
        { intros y szy [Hy | Hy]; [left; assumption|].
          unfold free_in in Hy. rewrite El2 in Hy. simpl in Hy.
          destruct Hy as [Hy | Hy].
          - inversion Hy; subst. right. right. unfold nb. lia.
          - right. left. unfold free_in. rewrite Ee. exact Hy. }
        assert (A8 : links_frame F0 (mem s) (mem s1)).
        { eapply links_frame_weaken; [|exact Hlf1]. intros y szy [Hy _]. exact Hy. }
        assert (A9 : lists_inv s1
                   (fun y szy => free_in hs l1 y szy \/ free_in (b + (sz + nsz)) r y szy)
                   (fun j => remove Z.eq_dec nb (ls j))).
        { eapply lists_inv_ext; [exact HL1|]. intros y szy. rewrite Ee. unfold F0, free_in.
          rewrite El2. simpl. split.
          - intros [[Hy | [Hy | Hy]] Hne]; [left; assumption | | right; assumption].
            inversion Hy; subst. congruence.
          - intros [Hy | Hy].
            + split; [left; assumption|].
              apply (layout_range _ _ _ _ _ pc_sizes1) in Hy. unfold nb, b. lia.
            + split; [right; right; assumption|].
              apply (layout_range _ _ _ _ _ (blocks_sizes _ _ _ _ R2)) in Hy. lia. }
        destruct (coalesce_merge s1 l1 r b (sz + nsz) _ A1 A2 A3 A4 (pc_l1 PC) Ep A5 A6 A7
                                 Hsm1 A8 A9) as (Hpost & Hsame & Hfe).
        split; [exact Hpost | split; [exact Hsame | split; [lia | split;
          [|split; [exact Hfe | split; [try unfold pb; lia|]]]]]].
        { rewrite El2. apply same_allocated_merge. }
        unfold merge_free. fold pal. rewrite Ep, El2.
        replace (0 + sz + nsz) with (sz + nsz) by lia. reflexivity.
    - (* the block before is free *)
      rewrite Efp.
      pose proof (total_nonneg _ (blocks_sizes _ _ _ _ P4)) as Tl1'.
      assert (Pr : 0 <= psz < two64) by (unfold b in *; lia).
      set (pb := b - psz) in *.
      destruct (tag_fields _ _ _ _ _ P3 P2 Pr) as (Q1 & Q2 & Q3).
      assert (HFp : F0 pb psz).
      { left. unfold free_in. rewrite El1, layout_app. apply in_or_app. right.
        left. fold hs. rewrite <- Epb. reflexivity. }
      assert (Hl1in : forall y szy, free_in hs l1 y szy ->
                 free_in hs l1' y szy \/ (y = pb /\ szy = psz)).
      { intros y szy Hy. unfold free_in in Hy. rewrite El1, layout_app in Hy.
        apply in_app_or in Hy. destruct Hy as [Hy | Hy]; [left; exact Hy|].
        simpl in Hy. destruct Hy as [Hy | []]. injection Hy as E1 E2. right.
        split; [rewrite <- E1; symmetry; exact Epb | symmetry; exact E2]. }
      assert (Hl1' : forall y szy, free_in hs l1' y szy -> y + szy <= pb /\ 32 <= szy).
      { intros y szy Hy. apply (layout_range _ _ _ _ _ (blocks_sizes _ _ _ _ P4)) in Hy. lia. }
      assert (Hl1sub : forall y szy, free_in hs l1' y szy -> free_in hs l1 y szy).
      { intros y szy Hy. unfold free_in. rewrite El1, layout_app. apply in_or_app.
        left. exact Hy. }
      destruct (remove_from_list_spec HL HFp Q1) as (HL1 & Hlf1 & Hsm1).
      set (s1 := remove_from_list s pb) in *.
      assert (Hoff : forall w, w = pb \/ w = b \/ w = nb ->
                forall y szy, F0 y szy /\ y <> pb -> w + 8 <= y + 8 \/ y + 24 <= w).
      { intros w Hw y szy [Hy Hne]. destruct (pc_free_range y szy Hy) as (C1 & C2 & C3).
        destruct Hy as [Hy | Hy].
        - destruct (Hl1in y szy Hy) as [Hy' | [Hy' _]]; [|congruence].
          apply Hl1' in Hy'. unfold nb, pb in *. lia.
        - apply (layout_range _ _ _ _ _ pc_sizes2) in Hy. unfold nb, pb in *. lia. }
      assert (Hld1 : forall w, w = pb \/ w = b \/ w = nb -> load s1 w = load s w).
      { intros w Hw. unfold load. eapply load64_links_frame; [exact Hlf1|].
        apply Hoff. exact Hw. }
      assert (Tl1 : total l1 = total l1' + psz).
      { rewrite El1, total_app. simpl. lia. }
      destruct nal; cbn [andb negb fst snd].
      + (* case 3: merge with the block before *)
        rewrite Q1. unfold wrap64. rewrite (Z.mod_small (sz + psz)) by (unfold b, pb in *; lia).
        assert (Epa1 : get_prev_alloc s1 pb = true).
        { unfold get_prev_alloc. rewrite Hld1 by auto. exact Q3. }
        rewrite Epa1.
        exists l1', (sz + psz), l2, (fun j => remove Z.eq_dec pb (ls j)).
        assert (Ee : pb + (sz + psz) = nb) by (unfold nb, pb; lia).
        assert (A2 : pb + (sz + psz) + total l2 = nb + total l2) by lia.
        assert (A3 : 32 <= sz + psz) by lia.
        assert (A4 : (sz + psz) mod 16 = 0).
        { rewrite Z.add_mod by lia. rewrite G9, P2. reflexivity. }
        assert (A5 : blocks (mem s) (pb + (sz + psz)) false l2).
        { rewrite Ee. destruct Hshape as [(-> & _) | (r & -> & R1 & R2)]; [exact I|].
          cbn [blocks]. repeat split; try assumption; discriminate. }
        assert (A7 : forall y szy, F0 y szy ->
                   free_in hs l1' y szy \/ free_in (pb + (sz + psz)) l2 y szy \/
                   (pb <= y /\ y + szy <= pb + (sz + psz))).
        { intros y szy [Hy | Hy].
          - destruct (Hl1in y szy Hy) as [Hy' | [-> ->]]; [left; exact Hy' | right; right; lia].
          - right. left. rewrite Ee. exact Hy. }
        assert (A8 : links_frame F0 (mem s) (mem s1)).
        { eapply links_frame_weaken; [|exact Hlf1]. intros y szy [Hy _]. exact Hy. }
        assert (A9 : lists_inv s1
                   (fun y szy => free_in hs l1' y szy \/ free_in (pb + (sz + psz)) l2 y szy)
                   (fun j => remove Z.eq_dec pb (ls j))).
        { eapply lists_inv_ext; [exact HL1|]. intros y szy. rewrite Ee. split.
          - intros [[Hy | Hy] Hne]; [|right; exact Hy].
            destruct (Hl1in y szy Hy) as [Hy' | [Hy' _]]; [left; exact Hy' | congruence].
          - intros [Hy | Hy].
            + split; [left; apply Hl1sub; exact Hy|]. apply Hl1' in Hy. lia.
            + split; [right; exact Hy|].
              apply (layout_range _ _ _ _ _ pc_sizes2) in Hy. unfold nb, pb in *. lia. }
        destruct (coalesce_merge s1 l1' l2 pb (sz + psz) _ Epb A2 A3 A4 P4 P5 A5 (pc_epi PC) A7
                                 Hsm1 A8 A9) as (Hpost & Hsame & Hfe).
        split; [exact Hpost | split; [exact Hsame | split; [lia | split;
          [|split; [exact Hfe | split; [try unfold pb; lia|]]]]]].
        { rewrite El1, <- app_assoc. cbn [app]. rewrite (Z.add_comm sz psz).
          apply same_allocated_merge. }
        unfold merge_free. fold pal. rewrite Ep, El1, removelast_last, last_last.
        cbn [fst].
        replace (psz + sz + _) with (sz + psz)
          by (destruct Hshape as [(-> & _) | (r & -> & _)]; cbn; lia).
        destruct Hshape as [(-> & _) | (r & -> & _)]; reflexivity.
      + (* case 4: merge with both neighbours *)
        destruct Hshape as [(_ & _ & Hc & _) | (r & El2 & R1 & R2)]; [discriminate|].
        pose proof (total_nonneg r (blocks_sizes _ _ _ _ R2)) as Tr.
        assert (G5' : brk s = nb + (nsz + total r) + 8) by (rewrite G5, El2; reflexivity).
        assert (Efn1 : find_next s1 b = nb).
        { unfold find_next, get_size. rewrite Hld1 by auto.
          fold (get_size s b). rewrite B1. reflexivity. }
        rewrite Efn1.
        assert (HFn : F0 nb nsz /\ nb <> pb).
        { split; [|unfold nb, pb; lia]. right. unfold free_in. rewrite El2. left. reflexivity. }
        assert (N1' : get_size s1 nb = nsz).
        { unfold get_size. rewrite Hld1 by auto. exact N1. }
        destruct (remove_from_list_spec HL1 HFn N1') as (HL2 & Hlf2 & Hsm2).
        set (s2 := remove_from_list s1 nb) in *.
        assert (Hld2 : load s2 pb = load s pb).
        { rewrite <- (Hld1 pb) by auto. unfold load.
          eapply load64_links_frame; [exact Hlf2|].
          intros y szy [Hy Hne]. apply (Hoff pb) with (szy := szy); auto. }
        assert (Epa2 : get_prev_alloc s2 pb = true).
        { unfold get_prev_alloc. rewrite Hld2. exact Q3. }
        rewrite Epa2, Q1, N1. unfold wrap64.
        rewrite (Z.mod_small (psz + nsz)) by (unfold b, pb in *; lia).
        rewrite (Z.mod_small (sz + (psz + nsz))) by (unfold b, pb in *; lia).
        exists l1', (sz + (psz + nsz)), r,
          (fun j => remove Z.eq_dec nb (remove Z.eq_dec pb (ls j))).
        assert (Ee : pb + (sz + (psz + nsz)) = nb + nsz) by (unfold nb, pb; lia).
        assert (A2 : pb + (sz + (psz + nsz)) + total r = nb + total l2)
          by (rewrite El2; simpl; lia).
        assert (A3 : 32 <= sz + (psz + nsz)) by lia.
        assert (A4 : (sz + (psz + nsz)) mod 16 = 0).
        { rewrite Z.add_mod by lia. rewrite (Z.add_mod psz nsz) by lia.
          rewrite G9, P2, Nm. reflexivity. }
        assert (A5 : blocks (mem s) (pb + (sz + (psz + nsz))) false r)
          by (rewrite Ee; exact R2).
        assert (A6 : load s (brk s - 8) = pack 0 true (last_alloc false r)).
        { pose proof (pc_epi PC) as He. rewrite El2 in He. exact He. }
        assert (Hl2in : forall y szy, free_in nb l2 y szy ->
                   (y = nb /\ szy = nsz) \/ free_in (nb + nsz) r y szy).
        { intros y szy Hy. unfold free_in in Hy. rewrite El2 in Hy. simpl in Hy.
          destruct Hy as [Hy | Hy]; [|right; exact Hy].
          injection Hy as E1 E2. left. split; [symmetry; exact E1 | symmetry; exact E2]. }
        assert (A7 : forall y szy, F0 y szy ->
                   free_in hs l1' y szy \/ free_in (pb + (sz + (psz + nsz))) r y szy \/
                   (pb <= y /\ y + szy <= pb + (sz + (psz + nsz)))).
        { intros y szy [Hy | Hy].
          - destruct (Hl1in y szy Hy) as [Hy' | [-> ->]]; [left; exact Hy' | right; right; lia].
          - destruct (Hl2in y szy Hy) as [[-> ->] | Hy'].
            + right. right. unfold nb, pb. lia.
            + right. left. rewrite Ee. exact Hy'. }
        assert (A8 : links_frame F0 (mem s) (mem s2)).
        { apply links_frame_trans with (m2 := mem s1).
          - eapply links_frame_weaken; [|exact Hlf1]. intros y szy [Hy _]. exact Hy.
          - eapply links_frame_weaken; [|exact Hlf2]. intros y szy [[Hy _] _]. exact Hy. }
        assert (A9 : lists_inv s2
                   (fun y szy => free_in hs l1' y szy \/
                                 free_in (pb + (sz + (psz + nsz))) r y szy)
                   (fun j => remove Z.eq_dec nb (remove Z.eq_dec pb (ls j)))).
        { eapply lists_inv_ext; [exact HL2|]. intros y szy. rewrite Ee. split.
          - intros [[[Hy | Hy] Hne] Hne2].
            + destruct (Hl1in y szy Hy) as [Hy' | [Hy' _]]; [left; exact Hy' | congruence].
            + destruct (Hl2in y szy Hy) as [[Hy' _] | Hy']; [congruence | right; exact Hy'].
          - intros [Hy | Hy].
            + pose proof (Hl1' y szy Hy).
              split; [split; [left; apply Hl1sub; exact Hy|]|]; unfold nb, pb in *; lia.
            + assert (Hy2 : free_in nb l2 y szy).
              { unfold free_in. rewrite El2. right. exact Hy. }
              apply (layout_range _ _ _ _ _ (blocks_sizes _ _ _ _ R2)) in Hy.
              split; [split; [right; exact Hy2|]|]; unfold nb, pb in *; lia. }
        destruct (coalesce_merge s2 l1' r pb (sz + (psz + nsz)) _ Epb A2 A3 A4 P4 P5 A5 A6 A7
                                 (same_machine_trans _ _ _ Hsm1 Hsm2) A8 A9) as (Hpost & Hsame & Hfe).
        split; [exact Hpost | split; [exact Hsame | split; [lia | split;
          [|split; [exact Hfe | split; [try unfold pb; lia|]]]]]].
        { rewrite El1, El2, <- app_assoc. cbn [app].
          eapply same_allocated_trans; [apply same_allocated_merge|].
          replace (sz + (psz + nsz)) with ((psz + sz) + nsz) by lia.
          apply same_allocated_merge. }
        unfold merge_free. fold pal. rewrite Ep, El1, El2, removelast_last, last_last.
        cbn [fst].
        replace (psz + sz + nsz) with (sz + (psz + nsz)) by lia. reflexivity.
  Qed.
End Coalesce.

Arguments coalesce_block_spec {s l1 sz l2 ls}.

(* ===================================================================== *)
(** * The invariant through the list operations                          *)
(* ===================================================================== *)

Lemma heap_ok_sizes s bs : heap_ok s bs -> sizes_ok bs.
Proof. intros H. eapply blocks_sizes. apply (ho_blocks H). Qed.

Lemma heap_ok_geometry s bs :
  heap_ok s bs ->
  0 < heap_lo s /\ heap_start s = heap_lo s + 8 /\ 0 <= total bs /\
  brk s = heap_start s + total bs + 8 /\ brk s <= mem_max s /\ mem_max s < two64.
Proof.
  intros H. pose proof (ho_lo H). pose proof (ho_start H). pose proof (ho_brk H).
  pose proof (ho_max H). pose proof (total_nonneg _ (heap_ok_sizes _ _ H)).
  repeat split; lia.
Qed.

(** A change confined to link words of free blocks keeps the heap. *)
Lemma heap_ok_links_frame s s' bs (F : Z -> Z -> Prop) :
  heap_ok s bs -> same_machine s s' ->
  links_frame F (mem s) (mem s') ->
  (forall y sz, F y sz -> free_in (heap_start s) bs y sz) ->
  heap_ok s' bs.
Proof.
  intros H (S1 & S2 & S3 & S4) Hlf HF.
  destruct (heap_ok_geometry _ _ H) as (G1 & G2 & G3 & G4 & G5 & G6).
  pose proof (heap_ok_sizes _ _ H) as Hs.
  assert (HFr : forall y sz, F y sz -> heap_start s <= y /\ y + sz <= brk s - 8 /\ 32 <= sz).
  { intros y sz Hy. apply HF in Hy. apply (layout_range _ _ _ _ _ Hs) in Hy. lia. }
  constructor.
  - rewrite S1. apply (ho_lo H).
  - rewrite S4, S1. apply (ho_start H).
  - rewrite S2, S4. apply (ho_brk H).
  - rewrite S2, S3. apply (ho_max H).
  - rewrite S1. unfold load. rewrite <- (ho_pro H). unfold load.
    eapply load64_links_frame; [exact Hlf|]. intros y sz Hy. apply HFr in Hy. lia.
  - rewrite S4. eapply blocks_frame_except with (lo := 0) (hi := 0).
    + apply (ho_blocks H).
    + apply frame_except_links. exact Hlf.
    + lia.
    + intros y sz Hy. left. exists sz. apply HF. exact Hy.
  - rewrite S2. unfold load. rewrite <- (ho_epi H). unfold load.
    eapply load64_links_frame; [exact Hlf|]. intros y sz Hy. apply HFr in Hy. lia.
Qed.

(** The header of a block of the heap. *)
Lemma heap_ok_header s bs x sz al :
  heap_ok s bs -> In (x, sz, al) (layout (heap_start s) bs) ->
  exists pa, load s x = pack sz al pa /\ 32 <= sz /\ sz mod 16 = 0 /\ sz < two64 /\
             0 < x /\ x + sz <= brk s - 8 /\
             get_size s x = sz /\ get_alloc s x = al /\ get_prev_alloc s x = pa.
Proof.
  intros H Hin. destruct (heap_ok_geometry _ _ H) as (G1 & G2 & G3 & G4 & G5 & G6).
  pose proof (layout_range _ _ _ _ _ (heap_ok_sizes _ _ H) Hin) as Hr.
  destruct (layout_split _ _ _ _ _ Hin) as (l1 & l2 & E & Ex).
  pose proof (ho_blocks H) as Hb. rewrite E in Hb. apply blocks_app in Hb.
  destruct Hb as [_ Hb]. cbn [blocks] in Hb. destruct Hb as (A & B & C & _).
  rewrite <- Ex in C. exists (last_alloc true l1).
  assert (Hsz : 0 <= sz < two64) by lia.
  destruct (tag_fields s x sz al _ C B Hsz) as (T1 & T2 & T3).
  repeat split; try assumption; lia.
Qed.

(** After [coalesce_block], inserting the block restores the invariant. *)
Lemma add_after_coalesce s b' la sz' lb ls :
  post_coalesce s b' la sz' lb ls ->
  exists ls', inv (add_to_list s b') (la ++ (sz', false) :: lb) ls' /\
              same_machine s (add_to_list s b') /\
              links_frame (free_in (heap_start s) (la ++ (sz', false) :: lb))
                          (mem s) (mem (add_to_list s b')).
Proof.
  intros Q. pose proof (qc_heap Q) as H. pose proof (qc_addr Q) as Hb'.
  pose proof (qc_lists Q) as HL.
  destruct (heap_ok_geometry _ _ H) as (G1 & G2 & G3 & G4 & G5 & G6).
  pose proof (heap_ok_sizes _ _ H) as Hs.
  assert (Hin : In (b', sz', false) (layout (heap_start s) (la ++ (sz', false) :: lb))).
  { rewrite Hb'. apply layout_mid. }
  destruct (heap_ok_header _ _ _ _ _ H Hin) as (pa & _ & B1 & B2 & B3 & B4 & B5 & B6 & _).
  assert (Hsub : forall y sz, free_in (heap_start s) la y sz \/ free_in (b' + sz') lb y sz ->
                              free_in (heap_start s) (la ++ (sz', false) :: lb) y sz).
  { intros y sz [Hy | Hy]; unfold free_in; rewrite layout_app; apply in_or_app.
    - left. exact Hy.
    - right. right. rewrite <- Hb'. exact Hy. }
  assert (Hnew : forall y sz,
             free_in (heap_start s) la y sz \/ free_in (b' + sz') lb y sz ->
             b' + 32 <= y \/ y + 32 <= b').
  { intros y sz Hy. apply sizes_ok_app in Hs. destruct Hs as [Sa Sb].
    apply Forall_inv_tail in Sb. destruct Hy as [Hy | Hy].
    - apply (layout_range _ _ _ _ _ Sa) in Hy. lia.
    - apply (layout_range _ _ _ _ _ Sb) in Hy. lia. }
  destruct (add_to_list_spec HL Hnew ltac:(lia) B6) as (HL' & Hlf & Hsm).
  eexists. split; [split | split; [exact Hsm|]].
  3:{ eapply links_frame_weaken; [|exact Hlf].
      intros y sz [Hy | [-> ->]]; [apply Hsub; exact Hy | exact Hin]. }
  - eapply heap_ok_links_frame; [exact H | exact Hsm | exact Hlf |].
    intros y sz [Hy | [-> ->]]; [apply Hsub; exact Hy | exact Hin].
  - destruct Hsm as (S1 & S2 & S3 & S4). rewrite S4.
    eapply lists_inv_ext; [exact HL'|]. intros y sz. split.
    + intros [Hy | [-> ->]]; [apply Hsub; exact Hy | exact Hin].
    + intros Hy. unfold free_in in Hy. rewrite layout_app in Hy.
      apply in_app_or in Hy. destruct Hy as [Hy | [Hy | Hy]].
      * left. left. exact Hy.
      * injection Hy as E1 E2. right. split; [rewrite Hb'; symmetry; exact E1 | symmetry; exact E2].
      * left. right. rewrite Hb'. exact Hy.
Qed.

(* ===================================================================== *)
(** * [free]                                                             *)
(* ===================================================================== *)

(** The word after a regular run of blocks that ends at the epilogue. *)
Lemma next_word_gen s e pa lb :
  blocks (mem s) e pa lb ->
  load s (brk s - 8) = pack 0 true (last_alloc pa lb) ->
  e + total lb = brk s - 8 -> 0 <= e -> brk s < two64 ->
  exists nsz nal,
    load s e = pack nsz nal pa /\ nsz mod 16 = 0 /\ 0 <= nsz < two64 /\
    ((lb = [] /\ nsz = 0 /\ nal = true) \/
     (exists r, lb = (nsz, nal) :: r /\ 32 <= nsz /\ blocks (mem s) (e + nsz) nal r)).
Proof.
  intros Hlb Hepi He He0 Hbrk. destruct lb as [|[esz eal] r].
  - exists 0, true. simpl in He. rewrite Z.add_0_r in He. rewrite He.
    cbn [last_alloc] in Hepi.
    repeat split; try assumption; try reflexivity; rewrite ?two64_val; try lia.
    left. repeat split.
  - exists esz, eal. pose proof (total_nonneg r (Forall_inv_tail (blocks_sizes _ _ _ _ Hlb))) as Tr.
    cbn [blocks] in Hlb. destruct Hlb as (A & B & C & _ & D). simpl in He.
    repeat split; try assumption; try lia.
    right. exists r. repeat split; assumption.
Qed.

Lemma total_flag l1 sz al al' l2 :
  total (l1 ++ (sz, al) :: l2) = total (l1 ++ (sz, al') :: l2).
Proof. rewrite !total_app. reflexivity. Qed.

(** The free blocks around an allocated block. *)
Lemma free_in_around a l1 sz l2 y szy :
  free_in a (l1 ++ (sz, true) :: l2) y szy <->
  free_in a l1 y szy \/ free_in (a + total l1 + sz) l2 y szy.
Proof.
  unfold free_in. rewrite layout_app, in_app_iff. simpl. split.
  - intros [H | [H | H]]; [left; exact H | discriminate | right; exact H].
  - intros [H | H]; [left; exact H | right; right; exact H].
Qed.

Lemma pre_coalesce_of_free s bs ls l1 sz l2 :
  inv s bs ls -> bs = l1 ++ (sz, true) :: l2 ->
  let x := heap_start s + total l1 in
  let s2 := update_next_prev_alloc
              (write_block s x sz false (get_prev_alloc s x)) x false in
  pre_coalesce s2 l1 sz l2 ls /\ same_machine s s2 /\
  frame_except (fun _ _ => False) x (x + sz + 8) (mem s) (mem s2).
Proof.
  intros [H HL] E x s2.
  destruct (heap_ok_geometry _ _ H) as (G1 & G2 & G3 & G4 & G5 & G6).
  pose proof (heap_ok_sizes _ _ H) as Hs. rewrite E in Hs.
  apply sizes_ok_app in Hs. destruct Hs as [Sa Sb].
  pose proof (Forall_inv Sb) as Sx. apply Forall_inv_tail in Sb. simpl in Sx.
  pose proof (total_nonneg _ Sa) as Ta. pose proof (total_nonneg _ Sb) as Tb.
  pose proof (ho_blocks H) as Hb. rewrite E in Hb. apply blocks_app in Hb.
  destruct Hb as [Hb1 Hb2]. cbn [blocks] in Hb2. destruct Hb2 as (X1 & X2 & X3 & _ & X5).
  fold x in X3, X5.
  assert (Tt : total bs = total l1 + sz + total l2).
  { rewrite E, total_app. simpl. lia. }
  pose proof (ho_epi H) as Hepi. rewrite E, last_alloc_app in Hepi. cbn [last_alloc] in Hepi.
  destruct (next_word_gen s (x + sz) true l2 X5 Hepi ltac:(unfold x; lia) ltac:(unfold x; lia)
              ltac:(lia)) as (nsz & nal & Hn & Nm & Nr & Hshape).
  assert (Xr : 0 <= sz < two64) by (unfold x in *; lia).
  destruct (tag_fields s x sz true _ X3 X2 Xr) as (T1 & T2 & T3).
  set (pal := last_alloc true l1) in *.
  pose proof (pack_range sz false pal X2 Xr) as Wr.
  pose proof (pack_range nsz nal false Nm Nr) as Wnr.
  assert (Es2 : s2 = store (store (store s x (pack sz false pal)) (x + sz - 8)
                                  (pack sz false pal))
                           (x + sz) (pack nsz nal false)).
  { unfold s2. rewrite T3, write_block_free_eq by assumption.
    apply update_next_eq with (pa0 := true); try assumption.
    - apply tag_fields with (al := false) (pa := pal); try assumption.
      rewrite load_store_other by lia. apply load_store_eq; [reflexivity | assumption].
    - rewrite !load_store_other by lia. exact Hn. }
  assert (Hsm : same_machine s s2) by (rewrite Es2; repeat split).
  assert (Hfe : frame_except (fun _ _ => False) x (x + sz + 8) (mem s) (mem s2)).
  { rewrite Es2, !mem_store.
    apply frame_except_trans with (m2 := store64 (mem s) x (pack sz false pal));
      [apply frame_except_store; lia|].
    apply frame_except_trans
      with (m2 := store64 (store64 (mem s) x (pack sz false pal))
                          (x + sz - 8) (pack sz false pal));
      apply frame_except_store; lia. }
  split; [|split; [exact Hsm | exact Hfe]]. rewrite Es2. constructor; cbn [heap_lo heap_start brk mem_max store set_mem].
  - apply (ho_lo H).
  - apply (ho_start H).
  - rewrite (total_flag l1 sz false true l2), <- E. apply (ho_brk H).
  - apply (ho_max H).
  - rewrite !load_store_other by (unfold x; lia). apply (ho_pro H).
  - rewrite !mem_store. repeat apply blocks_store_outside; try assumption; unfold x; lia.
  - split; assumption.
  - fold x. rewrite !load_store_other by lia. apply load_store_eq; [reflexivity | assumption].
  - fold x. rewrite load_store_other by lia. apply load_store_eq; [reflexivity | assumption].
  - fold x. destruct Hshape as [(-> & _) | (r & -> & R1 & R2)]; [exact I|].
    cbn [blocks_tail]. repeat split; try assumption.
    + rewrite mem_store, load64_store64_same. apply Z.mod_small. assumption.
    + rewrite !mem_store. repeat apply blocks_store_outside; try assumption; lia.
  - destruct Hshape as [(-> & -> & ->) | (r & -> & R1 & R2)].
    + simpl in Tt. replace (brk s - 8) with (x + sz) by (unfold x; lia).
      apply load_store_eq; [reflexivity | assumption].
    + pose proof (total_nonneg _ (blocks_sizes _ _ _ _ R2)) as Tr. simpl in Tt.
      rewrite !load_store_other by (unfold x; lia). exact Hepi.
  - fold x. eapply lists_inv_ext with (F := free_in (heap_start s) bs).
    + repeat apply lists_inv_store; try exact HL;
        intros y szy Hy; rewrite E in Hy; apply free_in_around in Hy; fold x in Hy;
        destruct Hy as [Hy | Hy];
        [ apply (layout_range _ _ _ _ _ Sa) in Hy | apply (layout_range _ _ _ _ _ Sb) in Hy
        | apply (layout_range _ _ _ _ _ Sa) in Hy | apply (layout_range _ _ _ _ _ Sb) in Hy
        | apply (layout_range _ _ _ _ _ Sa) in Hy | apply (layout_range _ _ _ _ _ Sb) in Hy ];
        unfold x in *; lia.
    + intros y szy. rewrite E. apply free_in_around.
Qed.

(** Marking one block free removes it, and nothing else, from the
    allocated blocks. *)
Lemma allocated_flip a l1 sz l2 x sz' :
  sizes_ok (l1 ++ (sz, true) :: l2) ->
  In (x, sz', true) (layout a (l1 ++ (sz, false) :: l2)) <->
  In (x, sz', true) (layout a (l1 ++ (sz, true) :: l2)) /\ x <> a + total l1.
Proof.
  intros Hs. apply sizes_ok_app in Hs. destruct Hs as [Sa Sb].
  pose proof (Forall_inv Sb) as Sx. apply Forall_inv_tail in Sb. simpl in Sx.
  rewrite !layout_app, !in_app_iff. simpl. split.
  - intros [H | [H | H]]; [| discriminate |].
    + split; [left; exact H|]. apply (layout_range _ _ _ _ _ Sa) in H. lia.
    + split; [right; right; exact H|]. apply (layout_range _ _ _ _ _ Sb) in H. lia.
  - intros [[H | [H | H]] Hne].
    + left. exact H.
    + injection H as E1 E2. congruence.
    + right. right. exact H.
Qed.

Lemma keeps_refl A m : keeps A m m.
Proof. intros y szy z _ _. reflexivity. Qed.

Lemma keeps_trans (A : Z -> Z -> Prop) m1 m2 m3 :
  keeps A m1 m2 -> keeps A m2 m3 -> keeps A m1 m3.
Proof.
  intros H1 H2 y szy z Hy Hz. rewrite (H2 y szy z Hy Hz). apply (H1 y szy z Hy Hz).
Qed.

Lemma keeps_weaken (A A' : Z -> Z -> Prop) m m' :
  (forall y szy, A' y szy -> A y szy) -> keeps A m m' -> keeps A' m m'.
Proof. intros Hs H y szy z Hy Hz. apply (H y szy z (Hs _ _ Hy) Hz). Qed.

(** A change confined to [[lo, hi)] and to link words keeps the payloads
    that lie off both. *)
Lemma keeps_frame_except (A F : Z -> Z -> Prop) lo hi m m' :
  frame_except F lo hi m m' ->
  (forall y szy, A y szy -> y + szy <= lo \/ hi <= y + 8) ->
  (forall y szy y' sz', A y szy -> F y' sz' -> y + szy <= y' + 8 \/ y' + 24 <= y + 8) ->
  keeps A m m'.
Proof.
  intros Hf Hr Hl y szy z Hy Hz. apply Hf.
  - destruct (Hr y szy Hy); lia.
  - intros y' sz' Hy'. destruct (Hl y szy y' sz' Hy Hy'); lia.
Qed.

Lemma keeps_links_frame (A F : Z -> Z -> Prop) m m' :
  links_frame F m m' ->
  (forall y szy y' sz', A y szy -> F y' sz' -> y + szy <= y' + 8 \/ y' + 24 <= y + 8) ->
  keeps A m m'.
Proof.
  intros Hf Hl y szy z Hy Hz. apply Hf.
  intros y' sz' Hy'. destruct (Hl y szy y' sz' Hy Hy'); lia.
Qed.

(** An allocated and a free block of one heap lie apart. *)
Lemma allocated_free_apart a bs y szy y' sz' :
  sizes_ok bs -> allocated_in a bs y szy -> free_in a bs y' sz' ->
  32 <= szy /\ 32 <= sz' /\ (y + szy <= y' \/ y' + sz' <= y).
Proof.
  intros Hs Hy Hy'. unfold allocated_in, free_in in *.
  pose proof (layout_range _ _ _ _ _ Hs Hy) as (_ & _ & R1 & _).
  pose proof (layout_range _ _ _ _ _ Hs Hy') as (_ & _ & R2 & _).
  destruct (layout_sep _ _ _ _ _ _ _ _ Hs Hy Hy') as [(_ & _ & Hd) | Hd];
    [discriminate|]. split; [exact R1|]. split; [exact R2 | exact Hd].
Qed.

Theorem free_inv s bs ls p sz :
  inv s bs ls -> In (p - 8, sz, true) (layout (heap_start s) bs) ->
  exists bs' ls',
    inv (free s p) bs' ls' /\ same_machine s (free s p) /\
    (forall x sz', In (x, sz', true) (layout (heap_start s) bs') <->
                   In (x, sz', true) (layout (heap_start s) bs) /\ x <> p - 8) /\
    keeps (allocated_in (heap_start s) bs') (mem s) (mem (free s p)) /\
    (exists x sz', In (x, sz', false) (layout (heap_start s) bs') /\
                   x <= p - 8 /\ p - 8 + sz <= x + sz').
Proof.
  intros Hinv Hin. pose proof Hinv as [H HL].
  destruct (heap_ok_header _ _ _ _ _ H Hin) as (pa & _ & B1 & B2 & B3 & B4 & B5 & B6 & _).
  destruct (layout_split _ _ _ _ _ Hin) as (l1 & l2 & E & Ex).
  destruct (pre_coalesce_of_free s bs ls l1 sz l2 Hinv E) as (PC & Hsm & Hfe1).
  destruct (coalesce_block_spec PC) as (la & sz' & lb & ls1 & Q & Hsm2 & Hle & Hal & Hfe & Hcov & Hmg).
  unfold free. replace (p =? NULL) with false by (symmetry; apply Z.eqb_neq; unfold NULL; lia).
  unfold payload_to_header. rewrite B6, Ex.
  set (s2 := update_next_prev_alloc _ _ _) in *.
  change (heap_start s2) with (heap_start s) in *.
  destruct (coalesce_block s2 (heap_start s + total l1)) as [b' s3]. cbn [fst snd] in *.
  destruct (add_after_coalesce _ _ _ _ _ _ Q) as (ls' & Hinv' & Hsm3 & Hlf3).
  exists (la ++ (sz', false) :: lb), ls'.
  assert (Hsm' : same_machine s (add_to_list s3 b')).
  { eapply same_machine_trans; [exact Hsm|].
    eapply same_machine_trans; [exact Hsm2 | exact Hsm3]. }
  assert (Hs3 : heap_start s3 = heap_start s) by apply Hsm2.
  rewrite Hs3 in Hlf3.
  pose proof (heap_ok_sizes _ _ H) as Hs.
  assert (Hs0 : sizes_ok (l1 ++ (sz, false) :: l2)).
  { rewrite E in Hs. apply sizes_ok_app in Hs. apply sizes_ok_app.
    split; [apply Hs|]. destruct Hs as [_ Hs].
    constructor; [exact (Forall_inv Hs) | exact (Forall_inv_tail Hs)]. }
  pose proof (heap_ok_sizes _ _ (qc_heap Q)) as Hs'.
  pose proof (qc_addr Q) as Hb'. rewrite Hs3 in Hb'.
  assert (Hmid : free_in (heap_start s) (la ++ (sz', false) :: lb) b' sz').
  { unfold free_in. rewrite Hb'. apply layout_mid. }
  assert (Hx0 : free_in (heap_start s) (l1 ++ (sz, false) :: l2)
                        (heap_start s + total l1) sz) by apply layout_mid.
  assert (Hold : forall y szy, allocated_in (heap_start s) (la ++ (sz', false) :: lb) y szy ->
                               allocated_in (heap_start s) (l1 ++ (sz, false) :: l2) y szy).
  { intros y szy Hy. apply Hal. exact Hy. }
  split; [exact Hinv' | split; [exact Hsm' | split; [|split]]].
  3:{ exists b', sz'. split; [exact Hmid | exact Hcov]. }
  - intros x sz0. rewrite (Hal x sz0). rewrite E.
    apply allocated_flip. rewrite <- E. exact Hs.
  - apply keeps_trans with (m2 := mem s2).
    { apply keeps_frame_except with (1 := Hfe1); [|intros ? ? ? ? _ []].
      intros y szy Hy. apply Hold in Hy.
      destruct (allocated_free_apart _ _ _ _ _ _ Hs0 Hy Hx0) as (_ & _ & Hd). lia. }
    apply keeps_trans with (m2 := mem s3).
    { apply keeps_frame_except with (1 := Hfe).
      - intros y szy Hy.
        destruct (allocated_free_apart _ _ _ _ _ _ Hs' Hy Hmid) as (_ & _ & Hd). lia.
      - intros y szy y' sz0 Hy Hy'. apply Hold in Hy.
        assert (Hf : free_in (heap_start s) (l1 ++ (sz, false) :: l2) y' sz0).
        { unfold free_in. rewrite layout_app. apply in_or_app.
          destruct Hy' as [Hy' | Hy']; [left; exact Hy' | right; right; exact Hy']. }
        destruct (allocated_free_apart _ _ _ _ _ _ Hs0 Hy Hf) as (_ & ? & Hd). lia. }
    apply keeps_links_frame with (1 := Hlf3).
    intros y szy y' sz0 Hy Hy'.
    destruct (allocated_free_apart _ _ _ _ _ _ Hs' Hy Hy') as (_ & ? & Hd). lia.
Qed.

(* ===================================================================== *)
(** * [extend_heap]                                                      *)
(* ===================================================================== *)

Lemma same_machine_base s s' : same_machine s s' -> same_base s s'.
Proof. intros (A & B & C & D). repeat split; assumption. Qed.

Lemma same_base_trans s1 s2 s3 : same_base s1 s2 -> same_base s2 s3 -> same_base s1 s3.
Proof. intros (A & B & C) (A' & B' & C'). repeat split; congruence. Qed.

Lemma mem_sbrk_some s incr bp s0 :
  mem_sbrk s incr = Some (bp, s0) ->
  0 <= incr /\ brk s + incr <= mem_max s /\ bp = brk s /\
  s0 = mkState (mem s) (seg_list s) (heap_start s) (heap_lo s) (brk s + incr) (mem_max s).
Proof.
  unfold mem_sbrk. destruct (incr <? 0) eqn:E1; [discriminate|].
  destruct (mem_max s <? brk s + incr) eqn:E2; [discriminate|].
  simpl. intros E. injection E as <- <-.
  apply Z.ltb_ge in E1, E2. repeat split; lia.
Qed.

Lemma to_signed_nonneg x : 0 <= x < two64 -> 0 <= to_signed x -> to_signed x = x.
Proof.
  unfold to_signed. intros Hx. destruct (x <? 2 ^ 63); [reflexivity|]. lia.
Qed.

Lemma pre_coalesce_of_extend s bs ls size' bp s0 :
  inv s bs ls ->
  mem_sbrk s (to_signed size') = Some (bp, s0) ->
  size' mod 16 = 0 -> 32 <= size' < two64 ->
  let block := payload_to_header bp in
  let s1 := write_block s0 block size' false (get_prev_alloc s0 block) in
  let s2 := write_epilogue s1 (find_next s1 block) in
  pre_coalesce s2 bs size' [] ls /\ same_base s s2 /\
  block = heap_start s2 + total bs /\ brk s2 = brk s + size' /\
  (forall z, z < block -> mem s2 z = mem s z).
Proof.
  intros [H HL] Hsbrk Hm Hr block s1 s2.
  destruct (heap_ok_geometry _ _ H) as (G1 & G2 & G3 & G4 & G5 & G6).
  pose proof (heap_ok_sizes _ _ H) as Hs.
  destruct (mem_sbrk_some _ _ _ _ Hsbrk) as (I1 & I2 & -> & Es0).
  assert (Hr0 : 0 <= size' < two64) by lia.
  rewrite (to_signed_nonneg size' Hr0 I1) in *.
  assert (Eb : block = heap_start s + total bs) by (unfold block, payload_to_header; lia).
  set (pal := last_alloc true bs).
  assert (Hpa : get_prev_alloc s0 block = pal).
  { unfold get_prev_alloc. replace (load s0 block) with (load s (brk s - 8)).
    - rewrite (ho_epi H). fold pal.
      apply extract_prev_alloc_pack; rewrite ?two64_val; try reflexivity; lia.
    - rewrite Es0. reflexivity. }
  pose proof (pack_range size' false pal Hm Hr0) as Wr.
  assert (Es1 : s1 = store (store s0 block (pack size' false pal)) (block + size' - 8)
                           (pack size' false pal)).
  { unfold s1. rewrite Hpa. apply write_block_free_eq; assumption. }
  assert (Efn : find_next s1 block = block + size').
  { unfold find_next. f_equal. rewrite Es1.
    apply tag_fields with (al := false) (pa := pal); try assumption.
    rewrite load_store_other by lia. apply load_store_eq; [reflexivity | assumption]. }
  assert (Es2 : s2 = store s1 (block + size') (pack 0 true false)).
  { unfold s2, write_epilogue. rewrite Efn. reflexivity. }
  assert (Hld : forall w, w + 8 <= block -> load s2 w = load s w).
  { intros w Hw. rewrite Es2, Es1. rewrite !load_store_other by lia.
    rewrite Es0. reflexivity. }
  assert (Hf : heap_lo s2 = heap_lo s /\ heap_start s2 = heap_start s /\
               brk s2 = brk s + size' /\ mem_max s2 = mem_max s /\
               seg_list s2 = seg_list s).
  { rewrite Es2, Es1, Es0. repeat split. }
  destruct Hf as (F1 & F2 & F3 & F4 & F5).
  assert (Hlow : forall z, z < block -> mem s2 z = mem s z).
  { intros z Hz. rewrite Es2, Es1, !mem_store, Es0. cbn [mem].
    rewrite !store64_outside by lia. reflexivity. }
  split; [|split; [repeat split; assumption |
                   split; [rewrite F2; exact Eb | split; [exact F3 | exact Hlow]]]].
  constructor.
  - rewrite F1. apply (ho_lo H).
  - rewrite F1, F2. apply (ho_start H).
  - rewrite F2, F3, total_app. simpl. lia.
  - rewrite F3, F4. lia.
  - rewrite F1, Hld by lia. apply (ho_pro H).
  - rewrite F2. apply (blocks_frame (mem s)); [apply (ho_blocks H)|].
    intros x sz al Hin. pose proof (layout_range _ _ _ _ _ Hs Hin) as Hx.
    split; [|intros _]; apply (Hld _); lia.
  - split; [lia | assumption].
  - rewrite F2, <- Eb, Es2, Es1. rewrite !load_store_other by lia.
    apply load_store_eq; [reflexivity | assumption].
  - rewrite F2, <- Eb, Es2, Es1. rewrite !load_store_other by lia.
    apply load_store_eq; [reflexivity | assumption].
  - exact I.
  - rewrite F3. replace (brk s + size' - 8) with (block + size') by lia.
    rewrite Es2. apply load_store_eq; [reflexivity | rewrite two64_val; vm_compute; split; congruence].
  - rewrite F2. eapply lists_inv_ext with (F := free_in (heap_start s) bs).
    + apply (lists_inv_frame s); [exact HL | exact F5 |].
      intros y szy Hy. apply (layout_range _ _ _ _ _ Hs) in Hy.
      split; apply Hld; lia.
    + intros y szy. unfold free_in. simpl. tauto.
Qed.

Lemma same_allocated_snoc_free a bs sz :
  same_allocated a bs (bs ++ [(sz, false)]).
Proof.
  intros x sz'. rewrite layout_app, in_app_iff. simpl. split.
  - intros [H | [H | []]]; [exact H | discriminate].
  - intros H. left. exact H.
Qed.

Theorem extend_heap_inv s bs ls size :
  inv s bs ls ->
  (mem_sbrk s (to_signed (round_up size dsize)) = None /\
   extend_heap s size = (NULL, s)) \/
  exists bs' ls' b' sz' s',
    extend_heap s size = (b', s') /\ inv s' bs' ls' /\ same_base s s' /\
    In (b', sz', false) (layout (heap_start s) bs') /\
    round_up size dsize <= sz' /\
    same_allocated (heap_start s) bs bs' /\ brk s <= brk s' /\
    keeps (allocated_in (heap_start s) bs) (mem s) (mem s') /\
    brk s' = brk s + round_up size dsize /\ b' + sz' = brk s' - 8.
Proof.
  intros Hinv. unfold extend_heap.
  destruct (round_up_16 size) as [Hr Hm]. set (size' := round_up size dsize) in *.
  destruct (mem_sbrk s (to_signed size')) as [[bp s0]|] eqn:Hsbrk;
    [right | left; split; reflexivity].
  destruct (pre_coalesce_of_extend s bs ls size' bp s0 Hinv Hsbrk Hm Hr)
    as (PC & Hsb & Eb & Hbrk & Hlow).
  cbv zeta in PC, Hsb, Eb, Hbrk, Hlow.
  set (s2 := write_epilogue _ _) in *.
  destruct (coalesce_block_spec PC) as (la & sz' & lb & ls1 & Q & Hsm2 & Hle & Hal & Hfe & Hcov & Hmg).
  rewrite <- Eb in Q, Hsm2, Hfe, Hcov.
  destruct (coalesce_block s2 (payload_to_header bp)) as [b' s3]. cbn [fst snd] in *.
  destruct (add_after_coalesce _ _ _ _ _ _ Q) as (ls' & Hinv' & Hsm3 & Hlf3).
  exists (la ++ (sz', false) :: lb), ls', b', sz', (add_to_list s3 b').
  assert (Hsm23 : same_machine s2 (add_to_list s3 b')).
  { eapply same_machine_trans; eassumption. }
  destruct Hsb as (S1 & S2 & S3).
  split; [reflexivity|]. split; [exact Hinv'|]. split.
  { apply same_base_trans with (s2 := s2);
      [repeat split; assumption | apply same_machine_base; exact Hsm23]. }
  split.
  { rewrite <- S3. destruct Hsm2 as (_ & _ & _ & T4). rewrite <- T4.
    rewrite (qc_addr Q). apply layout_mid. }
  assert (Hsa : same_allocated (heap_start s) bs (la ++ (sz', false) :: lb)).
  { rewrite <- S3. eapply same_allocated_trans; [apply same_allocated_snoc_free | exact Hal]. }
  split; [exact Hle|]. split; [exact Hsa|]. split.
  { destruct Hsm23 as (_ & T2 & _). rewrite T2, Hbrk. lia. }
  pose proof (heap_ok_sizes _ _ (proj1 Hinv)) as Hs.
  pose proof (heap_ok_sizes _ _ (qc_heap Q)) as Hs'.
  assert (Hs3 : heap_start s3 = heap_start s).
  { destruct Hsm2 as (_ & _ & _ & T4). rewrite T4. exact S3. }
  rewrite Hs3 in Hlf3. pose proof (qc_addr Q) as Hb'. rewrite Hs3 in Hb'.
  assert (Hmid : free_in (heap_start s) (la ++ (sz', false) :: lb) b' sz').
  { unfold free_in. rewrite Hb'. apply layout_mid. }
  assert (Hnew : forall y szy, allocated_in (heap_start s) bs y szy ->
                               allocated_in (heap_start s) (la ++ (sz', false) :: lb) y szy).
  { intros y szy Hy. apply Hsa. exact Hy. }
  assert (Hbrk' : brk (add_to_list s3 b') = brk s + size').
  { destruct Hsm23 as (_ & T2 & _). rewrite T2, Hbrk. reflexivity. }
  split; [|split; [exact Hbrk'|]].
  2:{ destruct (heap_ok_header _ _ b' sz' false (proj1 Hinv'))
        as (pa & _ & _ & _ & _ & _ & Hend & _).
      { assert (Hs4 : heap_start (add_to_list s3 b') = heap_start s).
        { destruct Hsm23 as (_ & _ & _ & T4). rewrite T4. exact S3. }
        rewrite Hs4. exact Hmid. }
      destruct (heap_ok_geometry _ _ (proj1 Hinv)) as (_ & _ & _ & G4 & _).
      unfold payload_to_header in *. rewrite S3 in Eb. lia. }
  apply keeps_trans with (m2 := mem s2).
  { intros y szy z Hy Hz. apply Hlow.
    apply (layout_range _ _ _ _ _ Hs) in Hy. rewrite Eb, S3. lia. }
  apply keeps_trans with (m2 := mem s3).
  { apply keeps_frame_except with (1 := Hfe).
    - intros y szy Hy. apply Hnew in Hy.
      destruct (allocated_free_apart _ _ _ _ _ _ Hs' Hy Hmid) as (_ & _ & Hd). lia.
    - intros y szy y' sz0 Hy [Hy' | []]. rewrite S3 in Hy'.
      destruct (allocated_free_apart _ _ _ _ _ _ Hs Hy Hy') as (_ & ? & Hd). lia. }
  apply keeps_links_frame with (1 := Hlf3).
  intros y szy y' sz0 Hy Hy'. apply Hnew in Hy.
  destruct (allocated_free_apart _ _ _ _ _ _ Hs' Hy Hy') as (_ & ? & Hd). lia.
Qed.

(* ===================================================================== *)
(** * [split_block]                                                      *)
(* ===================================================================== *)

(** What the invariant says around a free block. *)
Lemma load_unfold s a : load s a = load64 (mem s) a.
Proof. reflexivity. Qed.

Lemma free_block_facts s bs x sz :
  heap_ok s bs -> In (x, sz, false) (layout (heap_start s) bs) ->
  exists l1 l2,
    bs = l1 ++ (sz, false) :: l2 /\ x = heap_start s + total l1 /\
    last_alloc true l1 = true /\
    load s x = pack sz false true /\ load s (x + sz - 8) = pack sz false true /\
    blocks (mem s) (heap_start s) true l1 /\
    blocks (mem s) (x + sz) false l2 /\
    load s (brk s - 8) = pack 0 true (last_alloc false l2) /\
    32 <= sz /\ sz mod 16 = 0 /\ 0 <= total l1 /\ 0 <= total l2 /\
    brk s = x + sz + total l2 + 8.
Proof.
  intros H Hin. destruct (heap_ok_geometry _ _ H) as (G1 & G2 & G3 & G4 & G5 & G6).
  destruct (layout_split _ _ _ _ _ Hin) as (l1 & l2 & E & Ex).
  exists l1, l2. pose proof (heap_ok_sizes _ _ H) as Hs. rewrite E in Hs.
  apply sizes_ok_app in Hs. destruct Hs as [Sa Sb]. apply Forall_inv_tail in Sb.
  pose proof (total_nonneg _ Sa). pose proof (total_nonneg _ Sb).
  pose proof (ho_blocks H) as Hb. rewrite E in Hb. apply blocks_app in Hb.
  destruct Hb as [Hb1 Hb2]. cbn [blocks] in Hb2. destruct Hb2 as (X1 & X2 & X3 & X4 & X5).
  destruct (X4 eq_refl) as [X6 X7]. rewrite X6 in *. rewrite <- Ex in *.
  pose proof (ho_epi H) as Hepi. rewrite E, last_alloc_app in Hepi. cbn [last_alloc] in Hepi.
  rewrite E, total_app in G4. simpl in G4.
  repeat split; try assumption; lia.
Qed.

Lemma mod16_pos a : a mod 16 = 0 -> 0 < a -> 16 <= a.
Proof.
  intros Hm Hp. pose proof (Z.div_mod a 16 ltac:(lia)) as D. rewrite Hm in D. lia.
Qed.

Lemma mod16_sub a b : a mod 16 = 0 -> b mod 16 = 0 -> (a - b) mod 16 = 0.
Proof.
  intros Ha Hb. rewrite Zminus_mod, Ha, Hb. reflexivity.
Qed.

(** Link words inside the changed region do not count against a frame. *)
Lemma frame_except_links_in (F F' : Z -> Z -> Prop) lo hi m m' :
  links_frame F' m m' ->
  (forall y sz, F' y sz -> F y sz \/ (lo <= y + 8 /\ y + 24 <= hi)) ->
  frame_except F lo hi m m'.
Proof.
  intros H HF z Hz Hoff. apply H. intros y sz Hy.
  destruct (HF y sz Hy) as [Hc | Hc]; [apply (Hoff y sz Hc) | lia].
Qed.

(** The blocks before a changed region, and the prologue, are kept. *)
Lemma heap_prefix_frame s bs l1 rest lo hi m' :
  heap_ok s bs -> bs = l1 ++ rest ->
  frame_except (free_in (heap_start s) bs) lo hi (mem s) m' ->
  heap_start s + total l1 <= lo ->
  blocks m' (heap_start s) true l1 /\ load64 m' (heap_lo s) = load64 (mem s) (heap_lo s).
Proof.
  intros H E Hfr Hlo. destruct (heap_ok_geometry _ _ H) as (G1 & G2 & G3 & G4 & G5 & G6).
  pose proof (heap_ok_sizes _ _ H) as Hs.
  pose proof (ho_blocks H) as Hb. rewrite E in Hb. apply blocks_app in Hb.
  destruct Hb as [Hb1 _]. pose proof Hs as Hs'. rewrite E in Hs'.
  apply sizes_ok_app in Hs'. destruct Hs' as [Sa Sb].
  pose proof (total_nonneg _ Sa). pose proof (total_nonneg _ Sb).
  split.
  - eapply blocks_frame_except; [exact Hb1 | exact Hfr | lia |].
    intros y sz Hy. unfold free_in in Hy. rewrite E, layout_app in Hy.
    apply in_app_or in Hy. destruct Hy as [Hy | Hy].
    + left. exists sz. exact Hy.
    + apply (layout_range _ _ _ _ _ Sb) in Hy. right. right. lia.
  - eapply load64_frame_except; [exact Hfr | lia |].
    intros y sz Hy. apply (layout_range _ _ _ _ _ Hs) in Hy. lia.
Qed.

(** The blocks after a changed region, and the epilogue, are kept. *)
Lemma heap_suffix_frame s bs pre l2 lo hi m' :
  heap_ok s bs -> bs = pre ++ l2 ->
  frame_except (free_in (heap_start s) bs) lo hi (mem s) m' ->
  hi <= heap_start s + total pre -> l2 <> [] \/ hi <= brk s - 8 ->
  blocks m' (heap_start s + total pre) (last_alloc true pre) l2 /\
  load64 m' (brk s - 8) = load64 (mem s) (brk s - 8).
Proof.
  intros H E Hfr Hhi Hne. destruct (heap_ok_geometry _ _ H) as (G1 & G2 & G3 & G4 & G5 & G6).
  pose proof (heap_ok_sizes _ _ H) as Hs.
  pose proof (ho_blocks H) as Hb. rewrite E in Hb. apply blocks_app in Hb.
  destruct Hb as [_ Hb2]. pose proof Hs as Hs'. rewrite E in Hs'.
  apply sizes_ok_app in Hs'. destruct Hs' as [Sa Sb].
  pose proof (total_nonneg _ Sa). pose proof (total_nonneg _ Sb).
  assert (Tt : total bs = total pre + total l2) by (rewrite E; apply total_app).
  split.
  - eapply blocks_frame_except; [exact Hb2 | exact Hfr | lia |].
    intros y sz Hy. unfold free_in in Hy. rewrite E, layout_app in Hy.
    apply in_app_or in Hy. destruct Hy as [Hy | Hy].
    + apply (layout_range _ _ _ _ _ Sa) in Hy. right. left. lia.
    + left. exists sz. exact Hy.
  - assert (hi <= brk s - 8).
    { destruct Hne as [Hne | Hne]; [|exact Hne].
      pose proof (total_pos _ Sb Hne). lia. }
    eapply load64_frame_except; [exact Hfr | lia |].
    intros y sz Hy. apply (layout_range _ _ _ _ _ Hs) in Hy. lia.
Qed.

Section Split.
Variables (s : state) (bs : list (Z * bool)) (ls : nat -> list Z) (x sz asize : Z).
Hypothesis Hinv : inv s bs ls.
Hypothesis Hin : In (x, sz, false) (layout (heap_start s) bs).
Hypothesis Ha16 : asize mod 16 = 0.
Hypothesis Hapos : 0 < asize.
Hypothesis Hale : asize <= sz.

Let hs := heap_start s.
Let F : Z -> Z -> Prop := free_in hs bs.
Let s1 := remove_from_list s x.

  (** The state after the removal of the block from its list. *)
Lemma split_removed :
    lists_inv s1 (fun y szy => F y szy /\ y <> x)
              (fun j => remove Z.eq_dec x (ls j)) /\
    links_frame (fun y szy => F y szy /\ y <> x) (mem s) (mem s1) /\
    same_machine s s1 /\
    get_size s1 x = sz /\ get_prev_alloc s1 x = true /\
    load s1 (x + sz) = load s (x + sz).
  Proof.
    destruct Hinv as [H HL].
    destruct (heap_ok_header _ _ _ _ _ H Hin) as (pa & B0 & B1 & B2 & B3 & B4 & B5 & B6 & _).
    destruct (free_block_facts _ _ _ _ H Hin)
      as (l1 & l2 & E & Ex & Hl & Hh & Hf & Hb1 & Hb2 & Hepi & _).
    destruct (remove_from_list_spec HL Hin B6) as (HL1 & Hlf & Hsm).
    fold s1 in HL1, Hlf, Hsm. fold hs in HL1, Hlf. fold F in HL1, Hlf.
    pose proof (heap_ok_sizes _ _ H) as Hs.
    assert (Hoff : forall w, w = x \/ w = x + sz ->
              forall y szy, F y szy /\ y <> x -> w + 8 <= y + 8 \/ y + 24 <= w).
    { intros w Hw y szy [Hy Hne]. pose proof (layout_range _ _ _ _ _ Hs Hy).
      destruct (layout_sep _ _ _ _ _ _ _ _ Hs Hin Hy) as [(E1 & _) | Hd]; [congruence | lia]. }
    assert (Hld : forall w, w = x \/ w = x + sz -> load s1 w = load s w).
    { intros w Hw. unfold load. eapply load64_links_frame; [exact Hlf | apply Hoff; exact Hw]. }
    assert (Hr : 0 <= sz < two64) by lia.
    split; [exact HL1 | split; [exact Hlf | split; [exact Hsm | split; [| split]]]].
    - unfold get_size. rewrite Hld by auto. rewrite Hh. apply extract_size_pack; assumption.
    - unfold get_prev_alloc. rewrite Hld by auto. rewrite Hh.
      apply extract_prev_alloc_pack; assumption.
    - apply Hld. auto.
  Qed.

Lemma split_case_split :
    32 <= sz - asize ->
    let s' := split_block s x asize in
    exists ls',
      load s' x = pack asize true true /\
      load s' (x + asize) = pack (sz - asize) false true /\
      load s' (x + sz - 8) = pack (sz - asize) false true /\
      load s' (x + sz) = load s (x + sz) /\
      lists_inv s' (fun y szy => (F y szy /\ y <> x) \/
                                 (y = x + asize /\ szy = sz - asize)) ls' /\
      In (x + asize) (ls' (find_index (sz - asize))) /\
      frame_except F x (x + sz) (mem s) (mem s') /\ same_machine s s'.
  Proof.
    intros Hrem s'.
    destruct split_removed as (HL1 & Hlf & Hsm & Gs & Gp & Gn).
    destruct Hinv as [H HL].
    destruct (heap_ok_header _ _ _ _ _ H Hin) as (pa & B0 & B1 & B2 & B3 & B4 & B5 & B6 & _).
    pose proof (heap_ok_sizes _ _ H) as Hs.
    destruct (heap_ok_geometry _ _ H) as (G1 & G2 & G3 & G4 & G5 & G6).
    pose proof (mod16_pos asize Ha16 Hapos) as Ha.
    set (rem := sz - asize) in *. set (tl := x + asize) in *.
    assert (Rm : rem mod 16 = 0) by (apply mod16_sub; assumption).
    assert (Rr : 0 <= rem < two64) by (unfold rem; lia).
    assert (Ar : 0 <= asize < two64) by lia.
    pose proof (pack_range asize true true Ha16 Ar) as PA.
    pose proof (pack_range rem false true Rm Rr) as PW.
    set (s3 := store (store (store s1 x (pack asize true true)) tl (pack rem false true))
                     (tl + rem - 8) (pack rem false true)).
    assert (Es' : s' = add_to_list s3 tl).
    { unfold s', split_block. fold s1. rewrite Gs, Gp. unfold wrap64.
      rewrite (Z.mod_small (sz - asize)) by exact Rr. fold rem.
      replace (min_block_size <=? rem) with true
        by (symmetry; apply Z.leb_le; change min_block_size with 32; lia).
      rewrite write_block_alloc_eq.
      assert (Efn : find_next (store s1 x (pack asize true true)) x = tl).
      { unfold find_next, tl. f_equal.
        apply tag_fields with (al := true) (pa := true); try assumption.
        apply load_store_eq; [reflexivity | assumption]. }
      rewrite Efn, write_block_free_eq by assumption. reflexivity. }
    assert (Hdis : forall y szy, F y szy /\ y <> x -> y + szy <= x \/ x + sz <= y).
    { intros y szy [Hy Hne].
      destruct (layout_sep _ _ _ _ _ _ _ _ Hs Hin Hy) as [(E1 & _) | Hd]; [congruence | lia]. }
    assert (Hysz : forall y szy, F y szy -> 32 <= szy).
    { intros y szy Hy. apply (layout_range _ _ _ _ _ Hs) in Hy. lia. }
    assert (HL3 : lists_inv s3 (fun y szy => F y szy /\ y <> x)
                            (fun j => remove Z.eq_dec x (ls j))).
    { unfold s3. repeat apply lists_inv_store; try exact HL1;
        intros y szy Hy; pose proof (Hdis y szy Hy); pose proof (Hysz y szy (proj1 Hy));
        unfold tl, rem; lia. }
    assert (Hnew : forall y szy, F y szy /\ y <> x -> tl + 32 <= y \/ y + 32 <= tl).
    { intros y szy Hy. pose proof (Hdis y szy Hy). pose proof (Hysz y szy (proj1 Hy)).
      unfold tl, rem in *. lia. }
    assert (Gt : get_size s3 tl = rem).
    { apply tag_fields with (al := false) (pa := true); try assumption.
      unfold s3. rewrite load_store_other by lia.
      apply load_store_eq; [reflexivity | assumption]. }
    destruct (add_to_list_spec HL3 Hnew ltac:(unfold tl; lia) Gt) as (HL' & Hlf' & Hsm').
    rewrite <- Es' in HL', Hlf', Hsm'.
    assert (Hld : forall w, w = x \/ w = tl \/ w = x + sz - 8 \/ w = x + sz ->
                            load s' w = load s3 w).
    { intros w Hw. unfold load. eapply load64_links_frame; [exact Hlf'|].
      intros y szy [Hy | [-> ->]].
      - pose proof (Hdis y szy Hy). pose proof (Hysz y szy (proj1 Hy)).
        unfold tl, rem in *. lia.
      - unfold tl, rem in *. lia. }
    exists (fun j => if Nat.eqb j (find_index rem)
                     then tl :: remove Z.eq_dec x (ls j)
                     else remove Z.eq_dec x (ls j)).
    split; [|split; [|split; [|split; [|split; [exact HL' | split; [|split]]]]]].
    - rewrite Hld by auto. unfold s3. rewrite !load_store_other by (unfold tl, rem; lia).
      apply load_store_eq; [reflexivity | assumption].
    - rewrite Hld by auto. unfold s3. rewrite load_store_other by (unfold tl, rem; lia).
      apply load_store_eq; [reflexivity | assumption].
    - rewrite Hld by auto. unfold s3.
      apply load_store_eq; [unfold tl, rem; lia | assumption].
    - rewrite Hld by auto. unfold s3. rewrite !load_store_other by (unfold tl, rem; lia).
      exact Gn.
    - rewrite Nat.eqb_refl. left. reflexivity.
    - apply frame_except_trans with (m2 := mem s1).
      { apply frame_except_links. eapply links_frame_weaken; [|exact Hlf].
        intros y szy [Hy _]. exact Hy. }
      apply frame_except_trans with (m2 := mem s3).
      { unfold s3. rewrite !mem_store.
        apply frame_except_trans with (m2 := store64 (mem s1) x (pack asize true true));
          [apply frame_except_store; lia|].
        apply frame_except_trans
          with (m2 := store64 (store64 (mem s1) x (pack asize true true)) tl
                              (pack rem false true));
          apply frame_except_store; unfold tl, rem; lia. }
      eapply frame_except_links_in; [exact Hlf'|].
      intros y szy [[Hy _] | [-> ->]]; [left; exact Hy | right; unfold tl, rem; lia].
    - eapply same_machine_trans; [exact Hsm|].
      eapply same_machine_trans; [|exact Hsm']. repeat split.
  Qed.

Lemma split_keeps m' :
    frame_except F x (x + sz + 8) (mem s) m' -> keeps (allocated_in hs bs) (mem s) m'.
  Proof.
    intros Hfr. pose proof (heap_ok_sizes _ _ (proj1 Hinv)) as Hs.
    apply keeps_frame_except with (1 := Hfr).
    - intros y szy Hy.
      destruct (allocated_free_apart _ _ _ _ _ _ Hs Hy Hin) as (_ & _ & Hd). lia.
    - intros y szy y' sz0 Hy Hy'.
      destruct (allocated_free_apart _ _ _ _ _ _ Hs Hy Hy') as (_ & ? & Hd). lia.
  Qed.

Lemma split_inv_split :
    32 <= asize -> 32 <= sz - asize ->
    exists bs' ls' sz',
      inv (split_block s x asize) bs' ls' /\
      same_machine s (split_block s x asize) /\
      asize <= sz' /\ sz' <= sz /\
      In (x, sz', true) (layout hs bs') /\
      (forall y szy, In (y, szy, true) (layout hs bs') <->
                     In (y, szy, true) (layout hs bs) \/ (y = x /\ szy = sz')) /\
      keeps (allocated_in hs bs) (mem s) (mem (split_block s x asize)).
  Proof.
    intros Ha32 Hrem. pose proof Hinv as [H HL].
    destruct (heap_ok_geometry _ _ H) as (G1 & G2 & G3 & G4 & G5 & G6).
    pose proof (heap_ok_sizes _ _ H) as Hs.
    destruct (free_block_facts _ _ _ _ H Hin)
      as (l1 & l2 & E & Ex & Hl & Hh & Hf & Hb1 & Hb2 & Hepi & Z1 & Z2 & Z3 & Z4 & Z5).
    fold hs in Ex, Hb1.
    assert (Hfree : forall y szy, F y szy <->
              free_in hs l1 y szy \/ (y = x /\ szy = sz) \/ free_in (x + sz) l2 y szy).
    { intros y szy. unfold F, free_in. rewrite E, layout_app, in_app_iff. simpl.
      rewrite <- Ex. split.
      - intros [Hy | [Hy | Hy]]; [left; exact Hy | | right; right; exact Hy].
        injection Hy as E1 E2. right. left. split; congruence.
      - intros [Hy | [[-> ->] | Hy]]; [left; exact Hy | right; left; reflexivity
                                      | right; right; exact Hy]. }
    pose proof Hs as Hs'. rewrite E in Hs'. apply sizes_ok_app in Hs'.
    destruct Hs' as [Sa Sb]. apply Forall_inv_tail in Sb.
    (* the block is split *)
    destruct (split_case_split Hrem)
      as (ls' & L1 & L2 & L3 & L4 & L5 & L6 & Hfr & Hsm).
    remember (split_block s x asize) as s' eqn:Edef. clear Edef.
    rewrite load_unfold in L1, L2, L3.
    destruct Hsm as (S1 & S2 & S3 & S4).
    exists (l1 ++ (asize, true) :: (sz - asize, false) :: l2), ls', asize.
    destruct (heap_prefix_frame s bs l1 _ x (x + sz) (mem s') H E Hfr ltac:(fold hs; lia))
      as [P1 P2].
    assert (E2 : bs = (l1 ++ [(sz, false)]) ++ l2) by (rewrite <- app_assoc; exact E).
    destruct (heap_suffix_frame s bs _ l2 x (x + sz) (mem s') H E2 Hfr
                ltac:(rewrite total_app; simpl; fold hs; lia) ltac:(right; lia))
      as [P3 P4].
    rewrite total_app, last_alloc_app in P3. simpl in P3. fold hs in P3.
    replace (hs + (total l1 + (sz + 0))) with (x + sz) in P3 by lia.
    split; [split|].
    + constructor.
      * rewrite S1. apply (ho_lo H).
      * rewrite S4, S1. apply (ho_start H).
      * rewrite S2, S4, total_app. simpl. rewrite E, total_app in G4. simpl in G4. lia.
      * rewrite S2, S3. apply (ho_max H).
      * rewrite S1. unfold load. rewrite P2. apply (ho_pro H).
      * rewrite S4. fold hs. apply blocks_app. split; [exact P1|].
        rewrite Hl, <- Ex. cbn [blocks].
        replace (x + asize + (sz - asize)) with (x + sz) by lia.
        split; [lia|]. split; [exact Ha16|]. split; [exact L1|]. split; [discriminate|].
        split; [lia|]. split; [apply mod16_sub; assumption|]. split; [exact L2|].
        split; [intros _; split; [reflexivity | exact L3] | exact P3].
      * rewrite S2, last_alloc_app. cbn [last_alloc]. unfold load. rewrite P4.
        exact Hepi.
    + rewrite S4. fold hs. eapply lists_inv_ext; [exact L5|]. intros y szy.
      unfold free_in at 1. rewrite layout_app, in_app_iff. simpl. rewrite <- Ex.
      replace (x + asize + (sz - asize)) with (x + sz) by lia.
      rewrite (Hfree y szy). split.
      * intros [[[Hy | [[Hy _] | Hy]] Hne] | [-> ->]].
        -- left. exact Hy.
        -- congruence.
        -- right. right. right. exact Hy.
        -- right. right. left. reflexivity.
      * intros [Hy | [Hy | [Hy | Hy]]].
        -- left. split; [left; exact Hy|].
           apply (layout_range _ _ _ _ _ Sa) in Hy. lia.
        -- discriminate.
        -- injection Hy as E1 E3. right. split; congruence.
        -- left. split; [right; right; exact Hy|].
           apply (layout_range _ _ _ _ _ Sb) in Hy. lia.
    + split; [repeat split; assumption|]. split; [lia|]. split; [lia|].
      split; [|split].
      3:{ apply split_keeps.
          apply (frame_except_weaken F F x (x + sz) x (x + sz + 8));
            [exact Hfr | auto | lia | lia]. }
      * rewrite Ex. apply layout_mid.
      * intros y szy. rewrite E, !layout_app, !in_app_iff. simpl. rewrite <- Ex.
        replace (x + asize + (sz - asize)) with (x + sz) by lia. split.
        -- intros [Hy | [Hy | [Hy | Hy]]];
             [left; left; exact Hy | | discriminate | left; right; right; exact Hy].
           injection Hy as E1 E3. right. split; congruence.
        -- intros [[Hy | [Hy | Hy]] | [-> ->]];
             [left; exact Hy | discriminate | right; right; right; exact Hy
             | right; left; reflexivity].
  Qed.

Lemma split_inv_whole :
    32 <= asize -> sz - asize < 32 ->
    exists bs' ls' sz',
      inv (split_block s x asize) bs' ls' /\
      same_machine s (split_block s x asize) /\
      asize <= sz' /\ sz' <= sz /\
      In (x, sz', true) (layout hs bs') /\
      (forall y szy, In (y, szy, true) (layout hs bs') <->
                     In (y, szy, true) (layout hs bs) \/ (y = x /\ szy = sz')) /\
      keeps (allocated_in hs bs) (mem s) (mem (split_block s x asize)).
  Proof.
    intros Ha32 Hrem. pose proof Hinv as [H HL].
    destruct (heap_ok_geometry _ _ H) as (G1 & G2 & G3 & G4 & G5 & G6).
    pose proof (heap_ok_sizes _ _ H) as Hs.
    destruct (free_block_facts _ _ _ _ H Hin)
      as (l1 & l2 & E & Ex & Hl & Hh & Hf & Hb1 & Hb2 & Hepi & Z1 & Z2 & Z3 & Z4 & Z5).
    fold hs in Ex, Hb1.
    assert (Hfree : forall y szy, F y szy <->
              free_in hs l1 y szy \/ (y = x /\ szy = sz) \/ free_in (x + sz) l2 y szy).
    { intros y szy. unfold F, free_in. rewrite E, layout_app, in_app_iff. simpl.
      rewrite <- Ex. split.
      - intros [Hy | [Hy | Hy]]; [left; exact Hy | | right; right; exact Hy].
        injection Hy as E1 E2. right. left. split; congruence.
      - intros [Hy | [[-> ->] | Hy]]; [left; exact Hy | right; left; reflexivity
                                      | right; right; exact Hy]. }
    pose proof Hs as Hs'. rewrite E in Hs'. apply sizes_ok_app in Hs'.
    destruct Hs' as [Sa Sb]. apply Forall_inv_tail in Sb.
    (* the block is taken whole *)
    destruct split_removed as (HL1 & Hlf & Hsm & Gs & Gp & Gn).
    fold s1 in HL1, Hlf, Hsm, Gs, Gp, Gn.
    destruct (next_word_gen s (x + sz) false l2 Hb2 Hepi ltac:(lia) ltac:(lia) ltac:(lia))
      as (nsz & nal & Hn & Nm & Nr & Hshape).
    assert (Xr : 0 <= sz < two64) by lia.
    pose proof (pack_range sz true true Z2 Xr) as PA.
    pose proof (pack_range nsz nal true Nm Nr) as PN.
    remember (split_block s x asize) as s' eqn:Edef.
    assert (Es' : s' = store (store s1 x (pack sz true true)) (x + sz)
                             (pack nsz nal true)).
    { rewrite Edef. unfold split_block. fold s1. rewrite Gs, Gp. unfold wrap64.
      rewrite (Z.mod_small (sz - asize)) by lia.
      replace (min_block_size <=? sz - asize) with false
        by (symmetry; apply Z.leb_gt; change min_block_size with 32; lia).
      rewrite write_block_alloc_eq.
      apply update_next_eq with (pa0 := false); try assumption.
      - apply tag_fields with (al := true) (pa := true); try assumption.
        apply load_store_eq; [reflexivity | assumption].
      - rewrite load_store_other by lia. rewrite Gn. exact Hn. }
    assert (Hsm' : same_machine s s').
    { rewrite Es'. destruct Hsm as (S1 & S2 & S3 & S4). repeat split; assumption. }
    assert (Hfr : frame_except F x (x + sz + 8) (mem s) (mem s')).
    { rewrite Es', !mem_store.
      apply frame_except_trans with (m2 := mem s1).
      { apply frame_except_links. eapply links_frame_weaken; [|exact Hlf].
        intros y szy [Hy _]. exact Hy. }
      apply frame_except_trans with (m2 := store64 (mem s1) x (pack sz true true));
        apply frame_except_store; lia. }
    assert (Lx : load s' x = pack sz true true).
    { rewrite Es'. rewrite load_store_other by lia.
      apply load_store_eq; [reflexivity | assumption]. }
    assert (Ln : load s' (x + sz) = pack nsz nal true).
    { rewrite Es'. apply load_store_eq; [reflexivity | assumption]. }
    clear Edef. rewrite load_unfold in Lx, Ln.
    assert (Hdis : forall y szy, F y szy /\ y <> x -> y + szy <= x \/ x + sz <= y).
    { intros y szy [Hy Hne].
      destruct (layout_sep _ _ _ _ _ _ _ _ Hs Hin Hy) as [(E1 & _) | Hd]; [congruence | lia]. }
    assert (Hysz : forall y szy, F y szy -> 32 <= szy).
    { intros y szy Hy. apply (layout_range _ _ _ _ _ Hs) in Hy. lia. }
    destruct Hsm' as (S1 & S2 & S3 & S4).
    exists (l1 ++ (sz, true) :: l2), (fun j => remove Z.eq_dec x (ls j)), sz.
    destruct (heap_prefix_frame s bs l1 _ x (x + sz + 8) (mem s') H E Hfr
                ltac:(fold hs; lia)) as [P1 P2].
    split; [split|].
    + constructor.
      * rewrite S1. apply (ho_lo H).
      * rewrite S4, S1. apply (ho_start H).
      * rewrite S2, S4. rewrite (total_flag l1 sz true false l2), <- E. apply (ho_brk H).
      * rewrite S2, S3. apply (ho_max H).
      * rewrite S1. unfold load. rewrite P2. apply (ho_pro H).
      * rewrite S4. fold hs. apply blocks_app. split; [exact P1|].
        rewrite Hl, <- Ex. cbn [blocks].
        split; [exact Z1|]. split; [exact Z2|]. split; [exact Lx|].
        split; [discriminate|].
        destruct Hshape as [(-> & _) | (r & El2 & R1 & R2)]; [exact I|].
        rewrite El2 in *. cbn [blocks] in Hb2. destruct Hb2 as (_ & _ & _ & Hc & _).
        destruct nal; [|destruct (Hc eq_refl); discriminate].
        cbn [blocks]. split; [exact R1|]. split; [exact Nm|]. split; [exact Ln|].
        split; [discriminate|].
        assert (E2 : bs = (l1 ++ [(sz, false); (nsz, true)]) ++ r)
          by (rewrite <- app_assoc; exact E).
        pose proof (total_nonneg r (Forall_inv_tail Sb)) as Tr. simpl in Z5.
        destruct (heap_suffix_frame s bs _ r x (x + sz + 8) (mem s') H E2 Hfr
                    ltac:(rewrite total_app; simpl; fold hs; lia) ltac:(right; lia))
          as [P3 _].
        rewrite total_app, last_alloc_app in P3. simpl in P3. fold hs in P3.
        replace (hs + (total l1 + (sz + (nsz + 0)))) with (x + sz + nsz) in P3 by lia.
        exact P3.
      * rewrite S2, last_alloc_app. cbn [last_alloc].
        destruct Hshape as [(-> & -> & ->) | (r & El2 & R1 & R2)].
        -- simpl in Z5. replace (brk s - 8) with (x + sz) by lia. exact Ln.
        -- rewrite El2 in *. cbn [blocks] in Hb2. destruct Hb2 as (_ & _ & _ & Hc & _).
           destruct nal; [|destruct (Hc eq_refl); discriminate].
           assert (E2 : bs = (l1 ++ [(sz, false); (nsz, true)]) ++ r)
             by (rewrite <- app_assoc; exact E).
           pose proof (total_nonneg r (Forall_inv_tail Sb)) as Tr. simpl in Z5.
           destruct (heap_suffix_frame s bs _ r x (x + sz + 8) (mem s') H E2 Hfr
                       ltac:(rewrite total_app; simpl; fold hs; lia) ltac:(right; lia))
             as [_ P4].
           unfold load. rewrite P4. exact Hepi.
    + rewrite S4. fold hs. eapply lists_inv_ext.
      * rewrite Es'. repeat apply lists_inv_store; try exact HL1;
          intros y szy Hy; pose proof (Hdis y szy Hy); pose proof (Hysz y szy (proj1 Hy)); lia.
      * intros y szy. cbv beta. rewrite (Hfree y szy). rewrite free_in_around, <- Ex. split.
        -- intros [[Hy | [[Hy _] | Hy]] Hne]; [left; exact Hy | congruence | right; exact Hy].
        -- intros [Hy | Hy].
           ++ split; [left; exact Hy|]. apply (layout_range _ _ _ _ _ Sa) in Hy. lia.
           ++ split; [right; right; exact Hy|].
              apply (layout_range _ _ _ _ _ Sb) in Hy. lia.
    + split; [repeat split; assumption|]. split; [lia|]. split; [lia|].
      split; [|split].
      3:{ apply split_keeps. exact Hfr. }
      * rewrite Ex. apply layout_mid.
      * intros y szy. rewrite E, !layout_app, !in_app_iff. simpl. rewrite <- Ex. split.
        -- intros [Hy | [Hy | Hy]]; [left; left; exact Hy | | left; right; right; exact Hy].
           injection Hy as E1 E3. right. split; congruence.
        -- intros [[Hy | [Hy | Hy]] | [-> ->]];
             [left; exact Hy | discriminate | right; right; exact Hy
             | right; left; reflexivity].
  Qed.

  (** The case without a remainder: the block is taken whole, and the
      header that follows it gets its [prev_alloc] bit. *)
Lemma split_case_whole :
    sz - asize < 32 ->
    let s' := split_block s x asize in
    exists nsz nal,
      nsz mod 16 = 0 /\ 0 <= nsz < two64 /\
      load s (x + sz) = pack nsz nal false /\
      load s' x = pack sz true true /\
      load s' (x + sz) = pack nsz nal true /\
      lists_inv s' (fun y szy => F y szy /\ y <> x)
                (fun j => remove Z.eq_dec x (ls j)) /\
      frame_except F x (x + sz + 8) (mem s) (mem s') /\ same_machine s s'.
  Proof.
    intros Hrem s'. pose proof Hinv as [H HL].
    destruct (heap_ok_geometry _ _ H) as (G1 & G2 & G3 & G4 & G5 & G6).
    pose proof (heap_ok_sizes _ _ H) as Hs.
    destruct (free_block_facts _ _ _ _ H Hin)
      as (l1 & l2 & E & Ex & Hl & Hh & Hf & Hb1 & Hb2 & Hepi & Z1 & Z2 & Z3 & Z4 & Z5).
    destruct split_removed as (HL1 & Hlf & Hsm & Gs & Gp & Gn).
    fold s1 in HL1, Hlf, Hsm, Gs, Gp, Gn.
    destruct (next_word_gen s (x + sz) false l2 Hb2 Hepi ltac:(lia) ltac:(lia) ltac:(lia))
      as (nsz & nal & Hn & Nm & Nr & Hshape).
    assert (Xr : 0 <= sz < two64) by lia.
    pose proof (pack_range sz true true Z2 Xr) as PA.
    pose proof (pack_range nsz nal true Nm Nr) as PN.
    assert (Es' : s' = store (store s1 x (pack sz true true)) (x + sz)
                             (pack nsz nal true)).
    { unfold s', split_block. fold s1. rewrite Gs, Gp. unfold wrap64.
      rewrite (Z.mod_small (sz - asize)) by lia.
      replace (min_block_size <=? sz - asize) with false
        by (symmetry; apply Z.leb_gt; change min_block_size with 32; lia).
      rewrite write_block_alloc_eq.
      apply update_next_eq with (pa0 := false); try assumption.
      - apply tag_fields with (al := true) (pa := true); try assumption.
        apply load_store_eq; [reflexivity | assumption].
      - rewrite load_store_other by lia. rewrite Gn. exact Hn. }
    assert (Hdis : forall y szy, F y szy /\ y <> x -> y + szy <= x \/ x + sz <= y).
    { intros y szy [Hy Hne].
      destruct (layout_sep _ _ _ _ _ _ _ _ Hs Hin Hy) as [(E1 & _) | Hd]; [congruence | lia]. }
    assert (Hysz : forall y szy, F y szy -> 32 <= szy).
    { intros y szy Hy. apply (layout_range _ _ _ _ _ Hs) in Hy. lia. }
    exists nsz, nal.
    split; [exact Nm|]. split; [exact Nr|]. split; [exact Hn|].
    split; [|split; [|split; [|split]]].
    - rewrite Es'. rewrite load_store_other by lia.
      apply load_store_eq; [reflexivity | assumption].
    - rewrite Es'. apply load_store_eq; [reflexivity | assumption].
    - rewrite Es'. repeat apply lists_inv_store; try exact HL1;
        intros y szy Hy; pose proof (Hdis y szy Hy); pose proof (Hysz y szy (proj1 Hy)); lia.
    - rewrite Es', !mem_store.
      apply frame_except_trans with (m2 := mem s1).
      { apply frame_except_links. eapply links_frame_weaken; [|exact Hlf].
        intros y szy [Hy _]. exact Hy. }
      apply frame_except_trans with (m2 := store64 (mem s1) x (pack sz true true));
        apply frame_except_store; lia.
    - rewrite Es'. destruct Hsm as (S1 & S2 & S3 & S4). repeat split; assumption.
  Qed.

Lemma split_block_inv :
    32 <= asize ->
    exists bs' ls' sz',
      inv (split_block s x asize) bs' ls' /\
      same_machine s (split_block s x asize) /\
      asize <= sz' /\ sz' <= sz /\
      In (x, sz', true) (layout hs bs') /\
      (forall y szy, In (y, szy, true) (layout hs bs') <->
                     In (y, szy, true) (layout hs bs) \/ (y = x /\ szy = sz')) /\
      keeps (allocated_in hs bs) (mem s) (mem (split_block s x asize)).
  Proof.
    intros Ha32. destruct (Z_le_gt_dec 32 (sz - asize)) as [Hrem | Hrem].
    - apply split_inv_split; assumption.
    - apply split_inv_whole; [assumption | lia].
  Qed.
End Split.

Arguments split_block_inv {s bs ls x sz asize}.
Arguments split_case_split {s bs ls x sz asize}.
Arguments split_case_whole {s bs ls x sz asize}.

(* ===================================================================== *)
(** * [find_fit] and [malloc] on a regular heap                          *)
(* ===================================================================== *)

Lemma find_fit_list_sound fuel : forall s asize b l r,
  chain s b l -> find_fit_list fuel s asize b = Some r ->
  r = NULL \/ (In r l /\ get_alloc s r = false /\ asize <= get_size s r).
Proof.
  induction fuel as [|fuel IH]; intros s asize b l r Hc Hf; [discriminate|].
  cbn [find_fit_list] in Hf.
  destruct (b =? NULL) eqn:Eb.
  - left. congruence.
  - apply Z.eqb_neq in Eb. destruct l as [|x l'].
    + simpl in Hc. contradiction.
    + destruct Hc as (-> & Hx & Hc).
      destruct (negb (get_alloc s x) && (asize <=? get_size s x)) eqn:Et.
      * injection Hf as <-. apply andb_prop in Et. destruct Et as [Ea El].
        right. split; [left; reflexivity|]. split.
        -- destruct (get_alloc s x); [discriminate | reflexivity].
        -- apply Z.leb_le. assumption.
      * destruct (IH s asize _ l' r Hc Hf) as [H | (H1 & H2)];
          [left; assumption | right; split; [right; assumption | assumption]].
Qed.

Lemma find_fit_from_sound s asize (ls : nat -> list Z) fuel :
  (forall i, (i < list_length)%nat -> chain s (seg s i) (ls i)) ->
  forall n index r,
    find_fit_from n fuel s asize index = Some r ->
    r = NULL \/ exists i, In r (ls i) /\ asize <= get_size s r.
Proof.
  intros Hch. induction n as [|n IH]; intros index r Hf.
  - left. simpl in Hf. congruence.
  - cbn [find_fit_from] in Hf.
    destruct (index <? list_length)%nat eqn:Hi; [|left; congruence].
    apply Nat.ltb_lt in Hi.
    destruct (find_fit_list fuel s asize (seg s index)) as [b|] eqn:El;
      [|discriminate].
    destruct (b =? NULL) eqn:Eb.
    + apply (IH _ _ Hf).
    + injection Hf as <-.
      destruct (find_fit_list_sound _ _ _ _ _ _ (Hch index Hi) El)
        as [H | (H1 & _ & H2)]; [left; assumption|].
      right. exists index. split; assumption.
Qed.

Lemma lists_inv_chain s F ls :
  lists_inv s F ls ->
  forall i, (i < list_length)%nat -> chain s (seg s i) (ls i).
Proof.
  intros HL i Hi. apply dseg_chain with (p := NULL).
  - apply (li_chain HL i Hi).
  - intros x Hx. pose proof (li_node_pos HL i x Hx). unfold NULL. lia.
Qed.

Lemma nth_map_seq (ls : nat -> list Z) n i :
  (i < n)%nat -> nth i (map ls (seq 0 n)) [] = ls i.
Proof.
  intros Hi. rewrite nth_indep with (d' := ls O) by (rewrite length_map, length_seq; lia).
  rewrite map_nth. rewrite seq_nth by lia. reflexivity.
Qed.

Lemma lists_inv_lists_are s F ls :
  lists_inv s F ls -> lists_are s (map ls (seq 0 list_length)).
Proof.
  intros HL. split.
  - rewrite length_map, length_seq. reflexivity.
  - intros i Hi. rewrite nth_map_seq by assumption.
    apply (lists_inv_chain s F ls HL i Hi).
Qed.

Lemma length_le_concat (l : list Z) ll :
  In l ll -> (length l <= length (concat ll))%nat.
Proof.
  induction ll as [|a r IH]; intros H; [contradiction|].
  cbn [concat]. rewrite length_app. destruct H as [-> | H]; [lia|].
  specialize (IH H). lia.
Qed.

Lemma find_fit_total s F ls asize :
  lists_inv s F ls -> find_fit (enough_fuel ls) s asize <> None.
Proof.
  intros HL. unfold find_fit.
  rewrite (find_fit_from_scan s asize (map ls (seq 0 list_length)) (enough_fuel ls)).
  - discriminate.
  - apply (lists_inv_lists_are s F ls HL).
  - intros l Hl. apply length_le_concat in Hl. unfold enough_fuel. lia.
  - lia.
Qed.

(** What [find_fit] returns on a regular heap is [NULL] or a free block of
    the heap that is large enough. *)
Lemma find_fit_inv s bs ls asize fuel b :
  inv s bs ls -> find_fit fuel s asize = Some b ->
  b = NULL \/ exists sz, In (b, sz, false) (layout (heap_start s) bs) /\ asize <= sz.
Proof.
  intros [HO HL] Hf. unfold find_fit in Hf.
  destruct (find_fit_from_sound s asize ls fuel (lists_inv_chain s _ ls HL) _ _ _ Hf)
    as [H | (i & Hi & Hsz)]; [left; assumption|].
  right. destruct (li_in HL i b Hi) as (sz & HF & _).
  exists sz. split; [exact HF|].
  destruct (heap_ok_header s bs b sz false HO HF) as (pa & _ & _ & _ & _ & _ & _ & Hs & _).
  rewrite Hs in Hsz. assumption.
Qed.

Lemma inv_heap_start s bs ls : inv s bs ls -> heap_start s <> NULL.
Proof.
  intros [HO _]. pose proof (ho_lo HO). pose proof (ho_start HO). unfold NULL. lia.
Qed.

Lemma lazy_init_inv s bs ls : inv s bs ls -> lazy_init s = s.
Proof.
  intros H. unfold lazy_init.
  replace (heap_start s =? NULL) with false; [reflexivity|].
  symmetry. apply Z.eqb_neq. apply (inv_heap_start s bs ls H).
Qed.

Lemma round_up_id x :
  x mod 16 = 0 -> 32 <= x < two64 -> round_up x dsize = x.
Proof.
  intros Hm Hx. unfold round_up, wrap64. change min_block_size with 32.
  change dsize with 16. change (16 - 1) with 15.
  rewrite two64_val in *.
  assert (Hx16 : x = 16 * (x / 16)).
  { rewrite (Z.div_mod x 16) at 1 by lia. lia. }
  rewrite (Z.mod_small 15) by lia.
  rewrite (Z.mod_small (x + 15)) by lia.
  replace ((x + 15) / 16) with (x / 16)
    by (apply (Z.div_unique (x + 15) 16 (x / 16) 15); lia).
  rewrite <- Hx16. rewrite Z.mod_small by lia.
  destruct (x <? 32) eqn:E; [apply Z.ltb_lt in E; lia | reflexivity].
Qed.

Lemma max_cases x y : (max x y = x /\ y <= x) \/ (max x y = y /\ x <= y).
Proof.
  unfold max. destruct (x >? y) eqn:E.
  - left. split; [reflexivity|]. apply Z.gtb_lt in E. lia.
  - right. split; [reflexivity|].
    destruct (Z.gtb_spec x y); [discriminate | lia].
Qed.

Lemma adjusted_size_16 n :
  32 <= adjusted_size n < two64 /\ adjusted_size n mod 16 = 0.
Proof. unfold adjusted_size. apply round_up_16. Qed.

Lemma extendsize_ok n :
  let e := max (adjusted_size n) chunksize in
  round_up e dsize = e /\ adjusted_size n <= e.
Proof.
  intros e. destruct (adjusted_size_16 n) as [R M].
  destruct (max_cases (adjusted_size n) chunksize) as [[E L] | [E L]];
    unfold e; rewrite E.
  - split; [apply round_up_id; assumption | lia].
  - split; [|assumption]. apply round_up_id; [reflexivity|].
    unfold chunksize. rewrite two64_val. lia.
Qed.

(** [malloc] keeps the heap regular.  It returns [NULL] with the state it
    was called in, or the payload of a block that was not allocated
    before, now is, and has at least the adjusted size; no other block
    changes its allocation. *)
Theorem malloc_inv fuel s bs ls n p s' :
  inv s bs ls ->
  malloc fuel s n = Some (p, s') ->
  (p = NULL /\ s' = s) \/
  exists bs' ls' sz',
    inv s' bs' ls' /\ same_base s s' /\ 0 < p - 8 /\
    In (p - 8, sz', true) (layout (heap_start s) bs') /\
    adjusted_size n <= sz' /\
    (forall sz, ~ In (p - 8, sz, true) (layout (heap_start s) bs)) /\
    (forall y szy, In (y, szy, true) (layout (heap_start s) bs') <->
                   In (y, szy, true) (layout (heap_start s) bs) \/
                   (y = p - 8 /\ szy = sz')) /\
    keeps (allocated_in (heap_start s) bs) (mem s) (mem s').
Proof.
  intros Hinv Hm. unfold malloc in Hm. rewrite (lazy_init_inv s bs ls Hinv) in Hm.
  destruct (n =? 0); [left; injection Hm as <- <-; split; reflexivity|].
  destruct (adjusted_size_16 n) as [[A32 Alt] A16].
  destruct (find_fit fuel s (adjusted_size n)) as [b|] eqn:Ef; [|discriminate].
  destruct (find_fit_inv s bs ls _ fuel b Hinv Ef) as [-> | (sz & Hin & Hle)].
  - rewrite Z.eqb_refl in Hm.
    destruct (extendsize_ok n) as [Er Ele].
    destruct (extend_heap_inv s bs ls (max (adjusted_size n) chunksize) Hinv)
      as [[_ E] | (bs1 & ls1 & b' & sz1 & s1 & E & Hinv1 & Hb & Hin & Hr & Hsa & Hbrk & Hk1 & _)];
      rewrite E in Hm.
    + rewrite Z.eqb_refl in Hm. left. injection Hm as <- <-. split; reflexivity.
    + assert (Hs1 : heap_start s1 = heap_start s) by apply Hb.
      rewrite <- Hs1 in Hin.
      destruct (heap_ok_header s1 bs1 b' sz1 false (proj1 Hinv1) Hin)
        as (pa & _ & _ & _ & _ & Hpos & _).
      replace (b' =? NULL) with false in Hm
        by (symmetry; apply Z.eqb_neq; unfold NULL; lia).
      injection Hm as <- <-.
      rewrite Er in Hr.
      destruct (split_block_inv Hinv1 Hin A16
                  ltac:(lia) ltac:(lia) A32)
        as (bs' & ls' & sz' & Hinv' & Hsm & H1 & H2 & H3 & H4 & Hk2).
      right. exists bs', ls', sz'. unfold header_to_payload.
      replace (b' + 8 - 8) with b' by lia. rewrite Hs1 in *.
      split; [exact Hinv'|].
      split; [apply same_base_trans with (s2 := s1);
              [exact Hb | apply same_machine_base; exact Hsm]|].
      split; [exact Hpos|]. split; [exact H3|]. split; [exact H1|].
      split.
      * intros sz Hal. apply (Hsa b' sz) in Hal.
        destruct (layout_sep _ _ _ _ _ _ _ _ (heap_ok_sizes _ _ (proj1 Hinv1)) Hin Hal)
          as [(_ & _ & Hd) | [Hd | Hd]]; [discriminate | |];
          apply (layout_range _ _ _ _ _ (heap_ok_sizes _ _ (proj1 Hinv1))) in Hal;
          apply (layout_range _ _ _ _ _ (heap_ok_sizes _ _ (proj1 Hinv1))) in Hin; lia.
      * split; [intros y szy; rewrite H4; rewrite (Hsa y szy); reflexivity|].
        apply keeps_trans with (m2 := mem s1); [exact Hk1|].
        apply keeps_weaken with (2 := Hk2). intros y szy Hy. apply Hsa. exact Hy.
  - destruct (heap_ok_header s bs b sz false (proj1 Hinv) Hin)
      as (pa & _ & _ & _ & _ & Hpos & _).
    replace (b =? NULL) with false in Hm
      by (symmetry; apply Z.eqb_neq; unfold NULL; lia).
    injection Hm as <- <-.
    destruct (split_block_inv Hinv Hin A16
                ltac:(lia) Hle A32)
      as (bs' & ls' & sz' & Hinv' & Hsm & H1 & H2 & H3 & H4 & Hk2).
    right. exists bs', ls', sz'. unfold header_to_payload.
    replace (b + 8 - 8) with b by lia.
    split; [exact Hinv'|].
    split; [apply same_machine_base; exact Hsm|].
    split; [exact Hpos|]. split; [exact H3|]. split; [exact H1|].
    split; [|split; [exact H4 | exact Hk2]].
    intros sz0 Hal.
    destruct (layout_sep _ _ _ _ _ _ _ _ (heap_ok_sizes _ _ (proj1 Hinv)) Hin Hal)
      as [(_ & _ & Hd) | [Hd | Hd]]; [discriminate | |];
      apply (layout_range _ _ _ _ _ (heap_ok_sizes _ _ (proj1 Hinv))) in Hal;
      apply (layout_range _ _ _ _ _ (heap_ok_sizes _ _ (proj1 Hinv))) in Hin; lia.
Qed.

(** With the fuel of the lists, [malloc] returns. *)
Lemma malloc_total s bs ls n :
  inv s bs ls -> malloc (enough_fuel ls) s n <> None.
Proof.
  intros Hinv. unfold malloc. rewrite (lazy_init_inv s bs ls Hinv).
  destruct (n =? 0); [discriminate|].
  pose proof (find_fit_total s _ ls (adjusted_size n) (proj2 Hinv)) as Hf.
  destruct (find_fit (enough_fuel ls) s (adjusted_size n)) as [b|]; [|contradiction].
  destruct (b =? NULL).
  - destruct (extend_heap s _) as [b' s1]. destruct (b' =? NULL); discriminate.
  - discriminate.
Qed.

(* ===================================================================== *)
(** * Writing into a payload                                             *)
(* ===================================================================== *)

Lemma frame_except_any (F : Z -> Z -> Prop) lo hi m m' :
  (forall z, z < lo \/ hi <= z -> m' z = m z) -> frame_except F lo hi m m'.
Proof. intros H z Hz _. apply H. assumption. Qed.

(** A write that stays inside the payload of an allocated block keeps the
    heap regular, with the same blocks and the same lists. *)
Lemma payload_write_inv s bs ls x sz m' :
  inv s bs ls -> In (x, sz, true) (layout (heap_start s) bs) ->
  (forall z, z < x + 8 \/ x + sz <= z -> m' z = mem s z) ->
  inv (set_mem s m') bs ls.
Proof.
  intros [HO HL] Hin Hm.
  pose proof (heap_ok_sizes s bs HO) as Hsz.
  destruct (heap_ok_header s bs x sz true HO Hin)
    as (pa & Hx & S32 & S16 & Slt & Xpos & Xend & _).
  destruct (layout_split _ _ _ _ _ Hin) as (l1 & l2 & Ebs & Ex).
  pose proof (ho_blocks HO) as HB. rewrite Ebs in HB.
  apply blocks_app in HB. destruct HB as [B1 B2]. cbn [blocks] in B2.
  destruct B2 as (_ & _ & Hh & _ & B2). rewrite <- Ex in Hh, B2.
  assert (Hsz1 : sizes_ok l1) by (rewrite Ebs in Hsz; apply sizes_ok_app in Hsz; tauto).
  pose proof (total_nonneg l1 Hsz1) as T1.
  assert (FE : forall F, frame_except F (x + 8) (x + sz) (mem s) m')
    by (intros F; apply frame_except_any; exact Hm).
  destruct (heap_prefix_frame s bs l1 ((sz, true) :: l2) (x + 8) (x + sz) m'
              HO Ebs (FE _) ltac:(lia)) as [P1 P2].
  destruct (heap_suffix_frame s bs (l1 ++ [(sz, true)]) l2 (x + 8) (x + sz) m'
              HO ltac:(rewrite <- app_assoc; exact Ebs) (FE _)) as [Q1 Q2].
  { rewrite total_app. cbn [total]. lia. }
  { right. lia. }
  rewrite total_app, last_alloc_app in Q1. cbn [total last_alloc] in Q1.
  replace (heap_start s + (total l1 + (sz + 0))) with (x + sz) in Q1 by lia.
  split.
  - constructor; cbn [set_mem heap_lo heap_start brk mem_max mem].
    + apply (ho_lo HO).
    + apply (ho_start HO).
    + apply (ho_brk HO).
    + apply (ho_max HO).
    + rewrite load_unfold. cbn [set_mem mem]. rewrite P2.
      rewrite <- load_unfold. apply (ho_pro HO).
    + rewrite Ebs. apply blocks_app. split; [exact P1|].
      cbn [blocks]. rewrite <- Ex.
      split; [exact S32|]. split; [exact S16|].
      split.
      { rewrite <- Hh.
        apply (load64_frame_except (fun _ _ => False) (x + 8) (x + sz));
          [apply FE | left; lia | intros ? ? []]. }
      split; [discriminate | exact Q1].
    + rewrite load_unfold. cbn [set_mem mem brk]. rewrite Q2.
      rewrite <- load_unfold. apply (ho_epi HO).
  - apply lists_inv_frame with (s := s); [exact HL | reflexivity |].
    intros y szy Hy. cbn [set_mem mem].
    assert (Hd : y + szy <= x \/ x + sz <= y).
    { destruct (layout_sep _ _ _ _ _ _ _ _ Hsz Hy Hin) as [(_ & _ & Hd) | Hd];
        [discriminate | exact Hd]. }
    apply (layout_range _ _ _ _ _ Hsz) in Hy.
    split; apply (load64_frame_except (fun _ _ => False) (x + 8) (x + sz));
      try apply FE; try (intros ? ? []); lia.
Qed.

(* ===================================================================== *)
(** * The public calls keep the heap regular                             *)
(* ===================================================================== *)

Lemma live_not_null s bs L :
  heap_ok s bs -> live_are s bs L -> ~ In NULL L.
Proof.
  intros HO HLv Hn. apply HLv in Hn. destruct Hn as (sz & Hin).
  destruct (heap_ok_header s bs _ sz true HO Hin) as (pa & _ & _ & _ & _ & Hpos & _).
  unfold NULL in Hpos. lia.
Qed.

Lemma in_after_free L p q : In q (after_free L p) <-> In q L /\ q <> p.
Proof.
  unfold after_free. split.
  - intros H. apply in_remove in H. exact H.
  - intros [H1 H2]. apply in_in_remove; [exact H2 | exact H1].
Qed.

Lemma good_malloc fuel s L n p s' :
  good s L -> malloc fuel s n = Some (p, s') -> good s' (after_malloc L p).
Proof.
  intros (bs & ls & Hinv & HLv) Hm.
  destruct (malloc_inv fuel s bs ls n p s' Hinv Hm)
    as [[-> ->] | (bs' & ls' & sz' & Hinv' & Hb & Hpos & Hin & _ & _ & Hal & _)].
  - exists bs, ls. split; [exact Hinv | exact HLv].
  - exists bs', ls'. split; [exact Hinv'|].
    assert (Hs : heap_start s' = heap_start s) by apply Hb.
    unfold after_malloc.
    replace (p =? NULL) with false by (symmetry; apply Z.eqb_neq; unfold NULL; lia).
    intros r. rewrite Hs. split.
    + intros [<- | Hr].
      * exists sz'. exact Hin.
      * apply HLv in Hr. destruct Hr as (sz & Hr). exists sz. apply Hal. left. exact Hr.
    + intros (sz & Hr). apply Hal in Hr. destruct Hr as [Hr | [Hr _]].
      * right. apply HLv. exists sz. exact Hr.
      * left. lia.
Qed.

Lemma good_free s L p :
  good s L -> p = NULL \/ In p L -> good (free s p) (after_free L p).
Proof.
  intros (bs & ls & Hinv & HLv) [-> | Hp].
  - unfold free. rewrite Z.eqb_refl. exists bs, ls. split; [exact Hinv|].
    intros r. rewrite in_after_free. rewrite <- (HLv r). split; [tauto|].
    intros H. split; [exact H|]. intros ->.
    apply (live_not_null s bs L (proj1 Hinv) HLv H).
  - pose proof Hp as Hp'. apply HLv in Hp'. destruct Hp' as (sz & Hin).
    destruct (free_inv s bs ls p sz Hinv Hin) as (bs' & ls' & Hinv' & Hsm & Hal & _ & _).
    exists bs', ls'. split; [exact Hinv'|].
    assert (Hs : heap_start (free s p) = heap_start s) by apply Hsm.
    intros r. rewrite Hs, in_after_free. split.
    + intros [Hr Hne]. apply HLv in Hr. destruct Hr as (sz0 & Hr).
      exists sz0. apply Hal. split; [exact Hr | lia].
    + intros (sz0 & Hr). apply Hal in Hr. destruct Hr as [Hr Hne].
      split; [apply HLv; exists sz0; exact Hr | lia].
Qed.

(** The adjusted size leaves room for the request and the header. *)
Lemma adjusted_size_room n :
  0 <= n -> n + 23 < two64 -> n + 8 <= adjusted_size n.
Proof.
  intros H0 H1. rewrite (adjusted_size_exact n H0 H1).
  unfold spec_asize, ceil16.
  pose proof (Z.div_mod (n + 8 + 15) 16 ltac:(lia)) as D.
  pose proof (Z.mod_pos_bound (n + 8 + 15) 16 ltac:(lia)) as B. lia.
Qed.

Lemma good_realloc fuel s L p n q s' :
  good s L -> p = NULL \/ In p L ->
  0 <= n < two64 -> p = NULL \/ n + 23 < two64 ->
  realloc fuel s p n = Some (q, s') ->
  good s' (after_realloc L p n q).
Proof.
  intros HG Hp Hn Hw Hr. unfold realloc in Hr. unfold after_realloc.
  destruct (n =? 0) eqn:En.
  { injection Hr as <- <-. apply good_free; assumption. }
  destruct (p =? NULL) eqn:Ep.
  { apply (good_malloc fuel s L n q s' HG Hr). }
  apply Z.eqb_neq in Ep. destruct Hp as [Hp | Hp]; [contradiction|].
  destruct Hw as [Hw | Hw]; [contradiction|].
  destruct (malloc fuel s n) as [[q0 s1]|] eqn:Em; [|discriminate].
  destruct HG as (bs & ls & Hinv & HLv).
  destruct (malloc_inv fuel s bs ls n q0 s1 Hinv Em)
    as [[-> ->] | (bs1 & ls1 & sz1 & Hinv1 & Hb & Hpos & Hin & Hsz & Hnew & Hal & _)].
  { rewrite Z.eqb_refl in Hr. injection Hr as <- <-. rewrite Z.eqb_refl.
    exists bs, ls. split; assumption. }
  replace (q0 =? NULL) with false in Hr
    by (symmetry; apply Z.eqb_neq; unfold NULL; lia).
  injection Hr as <- <-.
  replace (q0 =? NULL) with false
    by (symmetry; apply Z.eqb_neq; unfold NULL; lia).
  assert (Hs1 : heap_start s1 = heap_start s) by apply Hb.
  set (copysize := if n <? get_payload_size s1 (payload_to_header p)
                   then n else get_payload_size s1 (payload_to_header p)).
  assert (Hc : copysize <= n).
  { unfold copysize. destruct (n <? _) eqn:E; [lia|]. apply Z.ltb_ge in E. exact E. }
  pose proof (adjusted_size_room n ltac:(lia) Hw) as Hroom.
  set (s2 := set_mem s1 (memcpy (mem s1) q0 p copysize)).
  assert (Hinv2 : inv s2 bs1 ls1).
  { apply payload_write_inv with (x := q0 - 8) (sz := sz1).
    - exact Hinv1.
    - rewrite Hs1. exact Hin.
    - intros z Hz. unfold memcpy.
      replace ((q0 <=? z) && (z <? q0 + copysize)) with false; [reflexivity|].
      symmetry. apply andb_false_iff.
      destruct Hz as [Hz | Hz]; [left; apply Z.leb_gt; lia | right; apply Z.ltb_ge; lia]. }
  pose proof Hp as Hp'. apply HLv in Hp'. destruct Hp' as (szp & Hinp).
  assert (Hinp1 : In (p - 8, szp, true) (layout (heap_start s2) bs1)).
  { change (heap_start s2) with (heap_start s1). rewrite Hs1. apply Hal. left. exact Hinp. }
  destruct (free_inv s2 bs1 ls1 p szp Hinv2 Hinp1) as (bs' & ls' & Hinv' & Hsm & Hal' & _ & _).
  exists bs', ls'. split; [exact Hinv'|].
  assert (Hs2 : heap_start (free s2 p) = heap_start s).
  { destruct Hsm as (_ & _ & _ & Hs2). rewrite Hs2. exact Hs1. }
  change (heap_start s2) with (heap_start s1) in Hal'. rewrite Hs1 in Hal'.
  intros r. rewrite Hs2. cbn [In]. rewrite in_after_free. split.
  - intros [<- | [Hr Hne]].
    + exists sz1. apply Hal'. split; [apply Hal; right; split; reflexivity|].
      intros E. apply (Hnew szp). rewrite E. exact Hinp.
    + apply HLv in Hr. destruct Hr as (sz0 & Hr). exists sz0.
      apply Hal'. split; [apply Hal; left; exact Hr | lia].
  - intros (sz0 & Hr). apply Hal' in Hr. destruct Hr as [Hr Hne].
    apply Hal in Hr. destruct Hr as [Hr | [Hr _]].
    + right. split; [apply HLv; exists sz0; exact Hr | lia].
    + left. lia.
Qed.

(** The overflow test of [calloc]. *)
Lemma calloc_overflow_test c n :
  0 < c < two64 -> 0 <= n < two64 ->
  (wrap64 (c * n) / c =? n) = (c * n <? two64).
Proof.
  intros Hc Hn. unfold wrap64.
  destruct (c * n <? two64) eqn:E.
  - apply Z.ltb_lt in E. rewrite Z.mod_small by nia.
    apply Z.eqb_eq. rewrite Z.mul_comm. apply Z.div_mul. lia.
  - apply Z.ltb_ge in E. apply Z.eqb_neq.
    pose proof (Z.mod_pos_bound (c * n) two64 ltac:(lia)) as B.
    assert ((c * n) mod two64 / c < n); [|lia].
    apply Z.div_lt_upper_bound; lia.
Qed.

Lemma good_calloc fuel s L c n p s' :
  good s L -> 0 <= c < two64 -> 0 <= n < two64 ->
  two64 <= c * n \/ c * n + 23 < two64 ->
  calloc fuel s c n = Some (p, s') ->
  good s' (after_malloc L p).
Proof.
  intros HG Hc Hn Hw Hr. unfold calloc in Hr.
  destruct (c =? 0) eqn:Ec.
  { injection Hr as <- <-. exact HG. }
  apply Z.eqb_neq in Ec.
  rewrite calloc_overflow_test in Hr by lia.
  destruct (c * n <? two64) eqn:E; cbn [negb] in Hr.
  2:{ injection Hr as <- <-. exact HG. }
  apply Z.ltb_lt in E. destruct Hw as [Hw | Hw]; [lia|].
  assert (Ew : wrap64 (c * n) = c * n) by (unfold wrap64; apply Z.mod_small; nia).
  rewrite Ew in Hr.
  destruct (malloc fuel s (c * n)) as [[q0 s1]|] eqn:Em; [|discriminate].
  destruct HG as (bs & ls & Hinv & HLv).
  pose proof (good_malloc fuel s L (c * n) q0 s1
                (ex_intro _ bs (ex_intro _ ls (conj Hinv HLv))) Em) as HG1.
  destruct (q0 =? NULL) eqn:Eq.
  { injection Hr as <- <-. rewrite <- (proj1 (Z.eqb_eq _ _) Eq). exact HG1. }
  injection Hr as <- <-.
  destruct (malloc_inv fuel s bs ls (c * n) q0 s1 Hinv Em)
    as [[-> _] | (bs1 & ls1 & sz1 & Hinv1 & Hb & Hpos & Hin & Hsz & Hnew & Hal & _)];
    [discriminate|].
  assert (Hs1 : heap_start s1 = heap_start s) by apply Hb.
  pose proof (adjusted_size_room (c * n) ltac:(nia) Hw) as Hroom.
  exists bs1, ls1. split.
  - apply payload_write_inv with (x := q0 - 8) (sz := sz1).
    + exact Hinv1.
    + rewrite Hs1. exact Hin.
    + intros z Hz. unfold memset.
      replace ((q0 <=? z) && (z <? q0 + c * n)) with false; [reflexivity|].
      symmetry. apply andb_false_iff.
      destruct Hz as [Hz | Hz]; [left; apply Z.leb_gt; lia | right; apply Z.ltb_ge; lia].
  - unfold after_malloc. rewrite Eq. intros r.
    change (heap_start (set_mem s1 (memset (mem s1) q0 0 (c * n))))
      with (heap_start s1). rewrite Hs1. cbn [In]. split.
    + intros [<- | Hr].
      * exists sz1. exact Hin.
      * apply HLv in Hr. destruct Hr as (sz & Hr). exists sz. apply Hal. left. exact Hr.
    + intros (sz & Hr). apply Hal in Hr. destruct Hr as [Hr | [Hr _]].
      * right. apply HLv. exists sz. exact Hr.
      * left. lia.
Qed.

(* ===================================================================== *)
(** * Initialisation, and the states of a run                            *)
(* ===================================================================== *)

Lemma pack_sentinel : pack 0 true true = 3.
Proof. reflexivity. Qed.

Lemma nth_repeat_null i n : nth i (repeat NULL n) NULL = NULL.
Proof.
  revert i. induction n as [|n IH]; intros [|i]; try reflexivity. apply IH.
Qed.

(** The heap of two sentinel words that [mm_init] builds before it extends
    the heap is regular, with no block and empty lists. *)
Lemma sentinels_inv s0 start s1 :
  fresh s0 -> mem_sbrk s0 (2 * wsize) = Some (start, s1) ->
  inv (set_seg_list
         (set_heap_start
            (store (store s1 start (pack 0 true true)) (start + 8) (pack 0 true true))
            (start + 8))
         (repeat NULL list_length))
      [] (fun _ => []).
Proof.
  intros (Hb & Hlo & Hal & Hmax) Hs.
  apply mem_sbrk_some in Hs. destruct Hs as (_ & Hfit & -> & ->).
  change (2 * wsize) with 16 in *.
  split.
  - constructor; cbn [set_seg_list set_heap_start store set_mem heap_lo heap_start
                      brk mem_max mem total last_alloc blocks].
    + split; assumption.
    + lia.
    + lia.
    + split; [lia | assumption].
    + rewrite load_unfold. cbn [set_seg_list set_heap_start store set_mem mem heap_lo].
      rewrite <- Hb.
      rewrite load64_store64_other by lia.
      rewrite load64_store64_same. reflexivity.
    + exact I.
    + rewrite load_unfold. cbn [set_seg_list set_heap_start store set_mem mem brk].
      replace (brk s0 + 16 - 8) with (brk s0 + 8) by lia.
      rewrite load64_store64_same. reflexivity.
  - constructor.
    + cbn [set_seg_list seg_list]. apply repeat_length.
    + intros i Hi. cbn [dseg]. unfold seg. cbn [set_seg_list seg_list].
      apply nth_repeat_null.
    + intros i. constructor.
    + intros i x [].
    + intros x sz [].
    + intros x sz y sz' [].
    + intros x sz [].
Qed.

(** A successful [mm_init] on a fresh machine gives a regular heap with no
    allocated block. *)
Lemma good_init s0 :
  fresh s0 -> fst (mm_init s0) = true -> good (snd (mm_init s0)) [].
Proof.
  intros Hf Ht. unfold mm_init in *.
  destruct (mem_sbrk s0 (2 * wsize)) as [[start s1]|] eqn:Es; [|discriminate].
  pose proof (sentinels_inv s0 start s1 Hf Es) as Hinv.
  set (s4 := set_seg_list _ _) in *.
  destruct (extend_heap_inv s4 [] _ chunksize Hinv)
    as [[_ E] | (bs' & ls' & b' & sz' & s' & E & Hinv' & Hb & Hin & _ & Hsa & _)];
    rewrite E in *.
  - rewrite Z.eqb_refl in Ht. discriminate.
  - assert (Hs : heap_start s' = heap_start s4) by apply Hb.
    rewrite <- Hs in Hin.
    destruct (heap_ok_header s' bs' b' sz' false (proj1 Hinv') Hin)
      as (pa & _ & _ & _ & _ & Hpos & _).
    replace (b' =? NULL) with false
      by (symmetry; apply Z.eqb_neq; unfold NULL; lia).
    cbn [snd]. exists bs', ls'. split; [exact Hinv'|].
    intros p. rewrite Hs. split; [intros []|].
    intros (sz & Hp). apply Hsa in Hp. exact Hp.
Qed.

(** A store into the payload of a live block keeps the heap regular. *)
Lemma good_store s L p i v :
  good s L -> In p L ->
  0 <= i < get_payload_size s (payload_to_header p) ->
  good (set_mem s (fun z => if z =? p + i then v else mem s z)) L.
Proof.
  intros (bs & ls & Hinv & HLv) Hp Hi.
  pose proof Hp as Hp'. apply HLv in Hp'. destruct Hp' as (sz & Hin).
  destruct (heap_ok_header s bs _ sz true (proj1 Hinv) Hin)
    as (pa & _ & S32 & _ & Slt & _ & _ & Hsz & _).
  unfold get_payload_size, payload_to_header in Hi. rewrite Hsz in Hi.
  unfold wrap64 in Hi. change wsize with 8 in Hi.
  rewrite Z.mod_small in Hi by lia.
  exists bs, ls. split; [|exact HLv].
  apply payload_write_inv with (x := p - 8) (sz := sz); [exact Hinv | exact Hin |].
  intros z Hz. replace (z =? p + i) with false; [reflexivity|].
  symmetry. apply Z.eqb_neq. lia.
Qed.

(** Every state of a run is regular, and the live pointers are the payloads
    of its allocated blocks. *)
Lemma reachable_good s L : reachable s L -> good s L.
Proof.
  induction 1 as [s0 Hf Ht
                 | s L fuel n p s' _ IH Hn Hm
                 | s L p _ IH Hp
                 | s L fuel p n q s' _ IH Hp Hn Hw Hr
                 | s L fuel c n p s' _ IH Hc Hn Hw Hr
                 | s L p i v _ IH Hp Hi].
  - apply good_init; assumption.
  - apply (good_malloc fuel s L n p s' IH Hm).
  - apply good_free; assumption.
  - apply (good_realloc fuel s L p n q s' IH Hp Hn Hw Hr).
  - apply (good_calloc fuel s L c n p s' IH Hc Hn Hw Hr).
  - apply good_store; assumption.
Qed.

(** In a state of a run the public calls return, given the fuel of the
    lists: [malloc] for every size, [realloc] for [NULL] or a live pointer
    and [calloc], for the sizes of a run (a product that overflows, or a
    size to fill of at most [2^64 - 24] bytes). *)
Lemma reachable_calls_return s L :
  reachable s L ->
  exists fuel, forall p c n,
    0 <= n < two64 -> 0 <= c < two64 ->
    malloc fuel s n <> None /\
    (p = NULL \/ In p L -> p = NULL \/ n + 23 < two64 ->
     realloc fuel s p n <> None) /\
    (two64 <= c * n \/ c * n + 23 < two64 -> calloc fuel s c n <> None).
Proof.
  intros H. apply reachable_good in H. destruct H as (bs & ls & Hinv & _).
  exists (enough_fuel ls). intros p c n _ _.
  assert (Hm : forall k, malloc (enough_fuel ls) s k <> None)
    by (intros k; apply (malloc_total s bs ls k Hinv)).
  split; [apply Hm|]. split.
  - intros _ _. unfold realloc. destruct (n =? 0); [discriminate|].
    destruct (p =? NULL); [apply Hm|].
    specialize (Hm n). destruct (malloc _ s n) as [[q s1]|]; [|contradiction].
    destruct (q =? NULL); discriminate.
  - intros _. unfold calloc. destruct (c =? 0); [discriminate|].
    destruct (negb _); [discriminate|].
    specialize (Hm (wrap64 (c * n))).
    destruct (malloc _ s _) as [[q s1]|]; [|contradiction].
    destruct (q =? NULL); discriminate.
Qed.

Lemma booted_reachable : reachable booted [].
Proof.
  apply reach_init.
  - unfold fresh, fresh_machine. cbn [brk heap_lo mem_max]. rewrite two64_val.
    repeat split; try reflexivity; lia.
  - vm_compute. reflexivity.
Qed.

(** The epilogue word written by [extend_heap] has its [prev_alloc] bit
    clear: right after a successful [mm_init], a state of a run, the
    epilogue is not [(0, alloc = 1, prev_alloc = 1)]. *)
Lemma epilogue_after_init_prev_alloc_clear :
  reachable booted [] /\
  load booted (mem_heap_lo booted) = pack 0 true true /\
  load booted (mem_heap_hi booted - 7) <> pack 0 true true /\
  get_prev_alloc booted (mem_heap_hi booted - 7) = false.
Proof.
  split; [exact booted_reachable|]. vm_compute. repeat split; discriminate.
Qed.

(** C6: in every state of a run that begins with a successful [mm_init]
    (public calls and stores into live payloads, the requests that
    [realloc] and [calloc] fill being at most [2^64 - 24] bytes), the heap is a sequence of blocks [bs] between the
    two sentinels; the prologue word encodes size 0, [alloc] 1 and
    [prev_alloc] 1; the epilogue word encodes size 0 and [alloc] 1, and its
    [prev_alloc] bit is the allocation flag of the last block of the heap,
    1 only when that block is allocated or there is no block. *)
Theorem reachable_sentinels (s : state) (L : list Z) :
  reachable s L ->
  exists bs,
    heap_ok s bs /\
    load s (mem_heap_lo s) = pack 0 true true /\
    get_size s (mem_heap_lo s) = 0 /\
    get_alloc s (mem_heap_lo s) = true /\
    get_prev_alloc s (mem_heap_lo s) = true /\
    load s (mem_heap_hi s - 7) = pack 0 true (last_alloc true bs) /\
    get_size s (mem_heap_hi s - 7) = 0 /\
    get_alloc s (mem_heap_hi s - 7) = true /\
    get_prev_alloc s (mem_heap_hi s - 7) = last_alloc true bs.
Proof.
  intros H. apply reachable_good in H. destruct H as (bs & ls & [HO _] & _).
  exists bs. split; [exact HO|].
  pose proof (ho_pro HO) as Hp. pose proof (ho_epi HO) as He.
  unfold mem_heap_lo, mem_heap_hi.
  replace (brk s - 1 - 7) with (brk s - 8) by lia.
  destruct (tag_fields s _ 0 true true Hp eq_refl ltac:(rewrite two64_val; lia))
    as (P1 & P2 & P3).
  destruct (tag_fields s _ 0 true _ He eq_refl ltac:(rewrite two64_val; lia))
    as (E1 & E2 & E3).
  repeat (split; [assumption|]). assumption.
Qed.

Lemma reachable_sentinels_witness :
  exists bs,
    heap_ok booted bs /\
    load booted (mem_heap_lo booted) = pack 0 true true /\
    get_size booted (mem_heap_lo booted) = 0 /\
    get_alloc booted (mem_heap_lo booted) = true /\
    get_prev_alloc booted (mem_heap_lo booted) = true /\
    load booted (mem_heap_hi booted - 7) = pack 0 true (last_alloc true bs) /\
    get_size booted (mem_heap_hi booted - 7) = 0 /\
    get_alloc booted (mem_heap_hi booted - 7) = true /\
    get_prev_alloc booted (mem_heap_hi booted - 7) = last_alloc true bs.
Proof.
  apply (reachable_sentinels booted []).
  apply reach_init.
  - unfold fresh, fresh_machine. cbn [brk heap_lo mem_max]. rewrite two64_val.
    repeat split; try reflexivity; lia.
  - vm_compute. reflexivity.
Defined.

(* ===================================================================== *)
(** * The concrete machine after initialisation                          *)
(* ===================================================================== *)

Lemma booted_fields :
  heap_lo booted = 65536 /\ heap_start booted = 65544 /\
  brk booted = 69648 /\ mem_max booted = 1114112.
Proof. vm_compute. repeat split. Qed.

(** After [mm_init] the heap is one free block of [chunksize] bytes, the
    only node of the list of class 10. *)
Lemma booted_inv : inv booted [(4096, false)] booted_ls.
Proof.
  destruct booted_fields as (Hlo & Hst & Hbrk & Hmax).
  split.
  - constructor; rewrite ?Hlo, ?Hst, ?Hbrk, ?Hmax.
    + split; [lia | reflexivity].
    + reflexivity.
    + reflexivity.
    + rewrite two64_val. lia.
    + vm_compute. reflexivity.
    + cbn [blocks]. split; [lia|]. split; [reflexivity|].
      split; [vm_compute; reflexivity|].
      split; [|exact I]. intros _. split; [reflexivity|]. vm_compute. reflexivity.
    + vm_compute. reflexivity.
  - rewrite Hst. constructor.
    + reflexivity.
    + intros i Hi. unfold list_length in Hi.
      do 15 (destruct i as [|i]; [vm_compute; repeat split|]). lia.
    + intros i. unfold booted_ls. destruct (Nat.eqb i 10).
      * constructor; [intros [] | constructor].
      * constructor.
    + intros i x. unfold booted_ls. destruct (Nat.eqb_spec i 10) as [-> | Hne].
      * intros [<- | []]. exists 4096. split; [left; reflexivity | reflexivity].
      * intros [].
    + intros x sz [Hx | []]. injection Hx as <- <-. left. reflexivity.
    + intros x sz y sz' [Hx | []] [Hy | []].
      injection Hx as <- <-. injection Hy as <- <-. left. split; reflexivity.
    + intros x sz [Hx | []]. injection Hx as <- <-. rewrite two64_val. lia.
Qed.

(* ===================================================================== *)
(** * What a split leaves                                                *)
(* ===================================================================== *)

(** C4: on a regular heap, for a free block at [x] of size [sz] (it is in
    the list of its class) and a positive multiple [asize] of 16 (a size
    that [write_block] accepts) with [asize <= sz] and [sz - asize >= 32],
    after [split_block s x asize] the
    block at [x] is allocated, has size [asize] and the [prev_alloc] bit it
    had; the block at [x + asize] is free, of size [sz - asize], with
    [prev_alloc] set and a footer equal to its header, and is a node of the
    list of its class; the header after the tail is the one from before the
    call, whose [prev_alloc] bit is clear. *)
Theorem split_block_spec (s : state) (bs : list (Z * bool)) (ls : nat -> list Z)
        (x sz asize : Z) :
  inv s bs ls -> In (x, sz, false) (layout (heap_start s) bs) ->
  asize mod 16 = 0 -> 0 < asize -> asize <= sz -> 32 <= sz - asize ->
  let s' := split_block s x asize in
  exists ls',
    In x (ls (find_index sz)) /\
    get_alloc s' x = true /\ get_size s' x = asize /\
    get_prev_alloc s' x = get_prev_alloc s x /\
    get_alloc s' (x + asize) = false /\ get_size s' (x + asize) = sz - asize /\
    get_prev_alloc s' (x + asize) = true /\
    load s' (x + sz - 8) = load s' (x + asize) /\
    lists_inv s' (fun y szy => (free_in (heap_start s) bs y szy /\ y <> x) \/
                               (y = x + asize /\ szy = sz - asize)) ls' /\
    In (x + asize) (ls' (find_index (sz - asize))) /\
    load s' (x + sz) = load s (x + sz) /\
    get_prev_alloc s' (x + sz) = false.
Proof.
  intros Hinv Hin Ha16 Hapos Hale Hrest s'.
  destruct (split_case_split Hinv Hin Ha16 Hapos Hale Hrest)
    as (ls' & L1 & L2 & L3 & L4 & HL & Hl & _ & Hsm).
  fold s' in L1, L2, L3, L4, HL, Hl, Hsm.
  destruct (free_block_facts s bs x sz (proj1 Hinv) Hin)
    as (l1 & l2 & Ebs & Ex & _ & Hx & _ & _ & B2 & Hepi & S32 & S16 & T1 & T2 & Hbrk).
  destruct (heap_ok_geometry s bs (proj1 Hinv)) as (G1 & G2 & _ & _ & G5 & G6).
  destruct (heap_ok_header s bs x sz false (proj1 Hinv) Hin)
    as (pa & _ & _ & _ & Slt & _).
  destruct (tag_fields s x sz false true Hx S16 ltac:(lia)) as (_ & _ & Hpa).
  destruct (tag_fields s' x asize true true L1 Ha16 ltac:(lia)) as (X1 & X2 & X3).
  destruct (tag_fields s' (x + asize) (sz - asize) false true L2
              (mod16_sub _ _ S16 Ha16) ltac:(lia)) as (Y1 & Y2 & Y3).
  destruct (next_word_gen s (x + sz) false l2 B2 Hepi ltac:(lia) ltac:(lia) ltac:(lia))
    as (nsz & nal & Hn & N16 & Nr & _).
  rewrite <- L4 in Hn.
  destruct (tag_fields s' (x + sz) nsz nal false Hn N16 Nr) as (_ & _ & Z3).
  exists ls'.
  split; [apply (li_all (proj2 Hinv)); exact Hin|].
  split; [exact X2|]. split; [exact X1|]. split; [rewrite Hpa; exact X3|].
  split; [exact Y2|]. split; [exact Y1|]. split; [exact Y3|].
  split; [rewrite L3, L2; reflexivity|].
  split; [exact HL|]. split; [exact Hl|]. split; [exact L4 | exact Z3].
Qed.

Lemma split_block_spec_witness :
  let s' := split_block booted first_block 32 in
  exists ls',
    In first_block (booted_ls (find_index 4096)) /\
    get_alloc s' first_block = true /\ get_size s' first_block = 32 /\
    get_prev_alloc s' first_block = get_prev_alloc booted first_block /\
    get_alloc s' (first_block + 32) = false /\
    get_size s' (first_block + 32) = 4096 - 32 /\
    get_prev_alloc s' (first_block + 32) = true /\
    load s' (first_block + 4096 - 8) = load s' (first_block + 32) /\
    lists_inv s' (fun y szy =>
                    (free_in (heap_start booted) [(4096, false)] y szy /\
                     y <> first_block) \/
                    (y = first_block + 32 /\ szy = 4096 - 32)) ls' /\
    In (first_block + 32) (ls' (find_index (4096 - 32))) /\
    load s' (first_block + 4096) = load booted (first_block + 4096) /\
    get_prev_alloc s' (first_block + 4096) = false.
Proof.
  apply (split_block_spec booted [(4096, false)] booted_ls first_block 4096 32).
  - exact booted_inv.
  - left. reflexivity.
  - reflexivity.
  - lia.
  - lia.
  - lia.
Defined.

(* ===================================================================== *)
(** * [calloc]                                                           *)
(* ===================================================================== *)

(** [calloc] returns [NULL], and leaves the state alone, when the count
    is 0 or the product of count and size is [2^64] or more: the test
    [asize / elements != size] finds exactly these products. *)
Lemma calloc_rejects s elements size :
  0 <= elements < two64 -> 0 <= size < two64 ->
  elements = 0 \/ two64 <= elements * size ->
  forall fuel, calloc fuel s elements size = Some (NULL, s).
Proof.
  intros Hc Hn H fuel. unfold calloc.
  destruct (elements =? 0) eqn:Ec; [reflexivity|].
  apply Z.eqb_neq in Ec. destruct H as [H | H]; [contradiction|].
  rewrite calloc_overflow_test by lia.
  replace (elements * size <? two64) with false
    by (symmetry; apply Z.ltb_ge; exact H).
  reflexivity.
Qed.

(** For a product that overflows or is at most [2^64 - 24], the result of
    [calloc] is [NULL] in three cases only: a count of 0, a product that
    overflows, a [malloc] that returns [NULL]. *)
Lemma calloc_null_cases s fuel c n p s' :
  0 <= c < two64 -> 0 <= n < two64 ->
  two64 <= c * n \/ c * n + 23 < two64 ->
  calloc fuel s c n = Some (p, s') ->
  (p = NULL <->
   c = 0 \/ two64 <= c * n \/ exists s1, malloc fuel s (c * n) = Some (NULL, s1)).
Proof.
  intros Hc Hn Hw H. unfold calloc in H.
  destruct (c =? 0) eqn:Ec.
  { apply Z.eqb_eq in Ec. injection H as <- _. split; [left; exact Ec | reflexivity]. }
  apply Z.eqb_neq in Ec. rewrite calloc_overflow_test in H by lia.
  destruct (c * n <? two64) eqn:E; cbn [negb] in H.
  2:{ apply Z.ltb_ge in E. injection H as <- _.
      split; [right; left; exact E | reflexivity]. }
  apply Z.ltb_lt in E.
  assert (Ew : wrap64 (c * n) = c * n) by (unfold wrap64; apply Z.mod_small; nia).
  rewrite Ew in H.
  destruct (malloc fuel s (c * n)) as [[bp s1]|]; [|discriminate].
  destruct (bp =? NULL) eqn:Eb.
  - apply Z.eqb_eq in Eb. subst bp. injection H as <- _.
    split; [right; right; exists s1; reflexivity | reflexivity].
  - apply Z.eqb_neq in Eb. injection H as <- _. split; [contradiction|].
    intros [H | [H | (s2 & H)]]; [contradiction | lia |].
    injection H as H _. contradiction.
Qed.

Lemma wrapped_alloc_malloc :
  malloc 16 booted (two64 - 8) = Some (first_block + 8, wrapped_alloc).
Proof.
  assert (H : option_map fst (malloc 16 booted (two64 - 8)) = Some (first_block + 8))
    by (vm_compute; reflexivity).
  unfold wrapped_alloc.
  destruct (malloc 16 booted (two64 - 8)) as [[p s]|]; [|discriminate].
  cbn [option_map fst] in H. injection H as ->. reflexivity.
Qed.

(** C8: on the machine just initialised, [calloc(1, 2^64 - 8)] passes both
    of its tests: the count is not 0 and the product, [2^64 - 8], does not
    overflow.  The [malloc] it calls returns a non-null pointer into a
    block of 32 bytes, with room for 24, and [calloc] goes on to
    [memset(bp, 0, 2^64 - 8)]: the last byte of the range to clear lies
    beyond the end of the heap. *)
Theorem calloc_wrapped_product_overruns :
  fst (mm_init fresh_machine) = true /\
  (1 =? 0) = false /\ 1 * (two64 - 8) < two64 /\
  negb (wrap64 (1 * (two64 - 8)) / 1 =? two64 - 8) = false /\
  match malloc 16 booted (wrap64 (1 * (two64 - 8))) with
  | Some (bp, s1) =>
      bp = first_block + 8 /\ (bp =? NULL) = false /\
      get_size s1 (payload_to_header bp) = 32 /\
      get_payload_size s1 (payload_to_header bp) = 24 /\
      mem_heap_hi s1 < bp + wrap64 (1 * (two64 - 8)) - 1 /\
      calloc 16 booted 1 (two64 - 8) =
      Some (bp, set_mem s1 (memset (mem s1) bp 0 (wrap64 (1 * (two64 - 8)))))
  | None => False
  end.
Proof.
  assert (E : wrap64 (1 * (two64 - 8)) = two64 - 8) by reflexivity.
  split; [vm_compute; reflexivity|]. split; [reflexivity|].
  split; [rewrite two64_val; lia|]. split; [vm_compute; reflexivity|].
  unfold calloc. rewrite E, wrapped_alloc_malloc.
  split; [reflexivity|]. split; [reflexivity|].
  split; [vm_compute; reflexivity|]. split; [vm_compute; reflexivity|].
  split; [vm_compute; reflexivity|].
  change (1 =? 0) with false. cbv iota.
  replace (negb ((two64 - 8) / 1 =? two64 - 8)) with false
    by (vm_compute; reflexivity).
  cbv iota. reflexivity.
Qed.

(* ===================================================================== *)
(** * Requests whose size adjustment does not wrap                       *)
(* ===================================================================== *)

Lemma total_mod16 bs : sizes_ok bs -> total bs mod 16 = 0.
Proof.
  induction bs as [|[sz al] r IH]; intros H; [reflexivity|].
  cbn [total]. inversion H as [|? ? [_ Hm] Hr]; subst. cbn [fst] in Hm.
  rewrite Z.add_mod, Hm, (IH Hr) by lia. reflexivity.
Qed.

(** The payloads of a regular heap are 16-byte aligned. *)
Lemma payload_aligned s bs x sz al :
  heap_ok s bs -> In (x, sz, al) (layout (heap_start s) bs) -> (x + 8) mod 16 = 0.
Proof.
  intros HO Hin. destruct (layout_split _ _ _ _ _ Hin) as (l1 & l2 & E & ->).
  pose proof (heap_ok_sizes s bs HO) as Hs. rewrite E in Hs.
  apply sizes_ok_app in Hs. destruct Hs as [Hs _].
  pose proof (total_mod16 l1 Hs) as T. rewrite (ho_start HO).
  replace (heap_lo s + 8 + total l1 + 8) with (heap_lo s + total l1 + 1 * 16) by lia.
  rewrite Z.mod_add by lia.
  rewrite Z.add_mod, (proj2 (ho_lo HO)), T by lia. reflexivity.
Qed.

(** In a state of a run, a request of [n] bytes, [n] at most [2^64 - 24],
    is answered with [NULL] or with a pointer that is 16-byte aligned,
    lies inside the heap, and begins the payload of an allocated block with
    room for [n] bytes. *)
Lemma malloc_request_fits s L fuel n p s' :
  reachable s L -> 0 <= n -> n + 23 < two64 ->
  malloc fuel s n = Some (p, s') ->
  p = NULL \/
  (p mod 16 = 0 /\ mem_heap_lo s' < p < mem_heap_hi s' /\
   get_alloc s' (payload_to_header p) = true /\
   n <= get_size s' (payload_to_header p) - 8 /\
   payload_to_header p + get_size s' (payload_to_header p) <= mem_heap_hi s' - 7 /\
   ~ In p L).
Proof.
  intros Hr H0 Hn Hm. apply reachable_good in Hr.
  destruct Hr as (bs & ls & Hinv & HLv).
  destruct (malloc_inv fuel s bs ls n p s' Hinv Hm)
    as [[-> _] | (bs' & ls' & sz' & Hinv' & Hb & Hpos & Hin & Hsz & Hnew & _)];
    [left; reflexivity | right].
  assert (Hs : heap_start s' = heap_start s) by apply Hb.
  rewrite <- Hs in Hin.
  destruct (heap_ok_header s' bs' _ sz' true (proj1 Hinv') Hin)
    as (pa & _ & S32 & _ & _ & _ & Hend & Hsize & Hal & _).
  pose proof (payload_aligned s' bs' _ sz' true (proj1 Hinv') Hin) as Ha.
  replace (p - 8 + 8) with p in Ha by lia.
  pose proof (layout_range _ _ _ _ _ (heap_ok_sizes _ _ (proj1 Hinv')) Hin) as (Hlo & _).
  pose proof (ho_start (proj1 Hinv')) as Hst.
  pose proof (adjusted_size_room n H0 Hn) as Hroom.
  unfold mem_heap_lo, mem_heap_hi, payload_to_header.
  split; [exact Ha|]. split; [lia|]. split; [exact Hal|]. split; [lia|].
  split; [lia|].
  intros Hp. apply HLv in Hp. destruct Hp as (sz & Hp). apply (Hnew sz Hp).
Qed.

Lemma load_memset_before s p v k a :
  a + 8 <= p -> load (set_mem s (memset (mem s) p v k)) a = load s a.
Proof.
  intros H. rewrite !load_unfold. cbn [set_mem mem]. apply load64_agree.
  intros i Hi. unfold memset.
  replace (p <=? a + i) with false by (symmetry; apply Z.leb_gt; lia).
  reflexivity.
Qed.

(** In a state of a run, when the product [c * n] is at most [2^64 - 24],
    the bytes that [calloc] clears are the first [c * n] bytes of the
    payload of an allocated block of the heap. *)
Lemma calloc_region_fits s L fuel c n p s' :
  reachable s L -> 0 <= c < two64 -> 0 <= n < two64 -> c * n + 23 < two64 ->
  calloc fuel s c n = Some (p, s') ->
  p = NULL \/
  (p mod 16 = 0 /\ mem_heap_lo s' < p /\ p + c * n <= mem_heap_hi s' - 7 /\
   get_alloc s' (payload_to_header p) = true /\
   c * n <= get_size s' (payload_to_header p) - 8).
Proof.
  intros Hr Hc Hn Hw H. unfold calloc in H.
  destruct (c =? 0) eqn:Ec; [left; congruence|].
  apply Z.eqb_neq in Ec. rewrite calloc_overflow_test in H by lia.
  replace (c * n <? two64) with true in H by (symmetry; apply Z.ltb_lt; lia).
  cbn [negb] in H.
  assert (Ew : wrap64 (c * n) = c * n) by (unfold wrap64; apply Z.mod_small; nia).
  rewrite Ew in H.
  destruct (malloc fuel s (c * n)) as [[bp s1]|] eqn:Em; [|discriminate].
  destruct (bp =? NULL) eqn:Eb; [left; congruence|].
  apply Z.eqb_neq in Eb. injection H as <- <-. right.
  destruct (malloc_request_fits s L fuel (c * n) bp s1 Hr ltac:(nia) Hw Em)
    as [E | (A1 & A2 & A3 & A4 & A5 & _)]; [contradiction|].
  unfold get_alloc, get_size, payload_to_header in *.
  rewrite load_memset_before by lia.
  unfold mem_heap_lo, mem_heap_hi in *. cbn [set_mem heap_lo brk].
  split; [exact A1|]. split; [lia|]. split; [lia|]. split; [exact A3 | exact A4].
Qed.

(** In a state of a run, [realloc] of a live pointer to [n] bytes, [n]
    positive and at most [2^64 - 24]: when the inner [malloc] fails the
    result is [NULL] and the state is the one before the call; otherwise
    the result [q] is a new live pointer, [p] is live no more, and the
    first [min n (size - 8)] bytes at [q] are the bytes that were at [p]
    before the call, [size] being the size of the block of [p]. *)
Lemma realloc_keeps_bytes s L fuel p n q s' :
  reachable s L -> In p L -> 0 < n -> n + 23 < two64 ->
  realloc fuel s p n = Some (q, s') ->
  (q = NULL /\ s' = s) \/
  (q <> NULL /\ q <> p /\ ~ In q L /\
   ~ In p (after_realloc L p n q) /\ In q (after_realloc L p n q) /\
   forall i, 0 <= i < Z.min n (get_size s (payload_to_header p) - 8) ->
             mem s' (q + i) = mem s (p + i)).
Proof.
  intros Hr Hp Hn0 Hw H. apply reachable_good in Hr.
  destruct Hr as (bs & ls & Hinv & HLv).
  pose proof Hp as Hp'. apply HLv in Hp'. destruct Hp' as (szp & Hinp).
  destruct (heap_ok_header s bs _ szp true (proj1 Hinv) Hinp)
    as (pa & _ & P32 & _ & Plt & Ppos & _ & Psz & _).
  unfold realloc in H. unfold after_realloc.
  replace (n =? 0) with false in * by (symmetry; apply Z.eqb_neq; lia).
  replace (p =? NULL) with false in * by (symmetry; apply Z.eqb_neq; unfold NULL; lia).
  destruct (malloc fuel s n) as [[q0 s1]|] eqn:Em; [|discriminate].
  destruct (malloc_inv fuel s bs ls n q0 s1 Hinv Em)
    as [[-> ->] | (bs1 & ls1 & sz1 & Hinv1 & Hb & Hpos & Hin & Hsz & Hnew & Hal & Hk1)].
  { rewrite Z.eqb_refl in H. injection H as <- <-. left. split; reflexivity. }
  assert (Eq0 : (q0 =? NULL) = false) by (apply Z.eqb_neq; unfold NULL; lia).
  rewrite Eq0 in H. injection H as <- <-. rewrite Eq0. right.
  assert (Hs1 : heap_start s1 = heap_start s) by apply Hb.
  assert (Hqp : q0 <> p).
  { intros ->. apply (Hnew szp). exact Hinp. }
  assert (Hinp1 : In (p - 8, szp, true) (layout (heap_start s1) bs1)).
  { rewrite Hs1. apply Hal. left. exact Hinp. }
  destruct (heap_ok_header s1 bs1 _ szp true (proj1 Hinv1) Hinp1)
    as (pa1 & _ & _ & _ & _ & _ & _ & Psz1 & _).
  unfold get_payload_size, payload_to_header in *. rewrite Psz1, Psz.
  unfold wrap64. change wsize with 8. rewrite (Z.mod_small (szp - 8)) by lia.
  set (copysize := if n <? szp - 8 then n else szp - 8).
  assert (Hc : copysize = Z.min n (szp - 8)).
  { unfold copysize. destruct (n <? szp - 8) eqn:E;
      [apply Z.ltb_lt in E | apply Z.ltb_ge in E]; lia. }
  pose proof (adjusted_size_room n ltac:(lia) Hw) as Hroom.
  set (s2 := set_mem s1 (memcpy (mem s1) q0 p copysize)).
  assert (Hinv2 : inv s2 bs1 ls1).
  { apply payload_write_inv with (x := q0 - 8) (sz := sz1).
    - exact Hinv1.
    - rewrite Hs1. exact Hin.
    - intros z Hz. unfold memcpy.
      replace ((q0 <=? z) && (z <? q0 + copysize)) with false; [reflexivity|].
      symmetry. apply andb_false_iff.
      destruct Hz as [Hz | Hz]; [left; apply Z.leb_gt; lia | right; apply Z.ltb_ge; lia]. }
  destruct (free_inv s2 bs1 ls1 p szp Hinv2 Hinp1) as (bs' & ls' & Hinv' & Hsm & Hal' & Hk2 & _).
  change (heap_start s2) with (heap_start s1) in Hal', Hk2. rewrite Hs1 in Hal', Hk2.
  split; [unfold NULL; lia|]. split; [exact Hqp|].
  split.
  { intros Hq. apply HLv in Hq. destruct Hq as (sz & Hq). apply (Hnew sz Hq). }
  split.
  { cbn [In]. rewrite in_after_free. intros [E | [_ E]]; [exact (Hqp E) | exact (E eq_refl)]. }
  split; [left; reflexivity|].
  intros i Hi. rewrite <- Hc in Hi.
  rewrite (Hk2 (q0 - 8) sz1 (q0 + i)).
  - change (mem s2) with (memcpy (mem s1) q0 p copysize). unfold memcpy.
    replace ((q0 <=? q0 + i) && (q0 + i <? q0 + copysize)) with true
      by (symmetry; apply andb_true_iff; split; [apply Z.leb_le | apply Z.ltb_lt]; lia).
    replace (p + (q0 + i - q0)) with (p + i) by lia.
    apply (Hk1 (p - 8) szp (p + i)); [exact Hinp | lia].
  - apply Hal'. split; [apply Hal; right; split; reflexivity | lia].
  - lia.
Qed.

(* ===================================================================== *)
(** * The checker on a regular heap: the heap walks                      *)
(* ===================================================================== *)

Lemma check_payload_align_walk fuel s : forall b,
  check_payload_align_from fuel s b = heap_walk bad_align fuel s b.
Proof.
  induction fuel as [|fuel IH]; intros b; [reflexivity|].
  cbn [check_payload_align_from heap_walk]. unfold bad_align. rewrite IH. reflexivity.
Qed.

Lemma check_range_walk fuel s : forall b,
  check_range_from fuel s b = heap_walk out_of_range fuel s b.
Proof.
  induction fuel as [|fuel IH]; intros b; [reflexivity|].
  cbn [check_range_from heap_walk]. rewrite IH. reflexivity.
Qed.

Lemma check_no_consecutive_walk fuel s : forall b,
  check_no_consecutive_from fuel s b = heap_walk bad_consecutive fuel s b.
Proof.
  induction fuel as [|fuel IH]; intros b; [reflexivity|].
  cbn [check_no_consecutive_from heap_walk]. unfold bad_consecutive. rewrite IH.
  reflexivity.
Qed.

Lemma check_curr_next_walk fuel s : forall b,
  check_curr_next_from fuel s b = heap_walk bad_curr_next fuel s b.
Proof.
  induction fuel as [|fuel IH]; intros b; [reflexivity|].
  cbn [check_curr_next_from heap_walk]. unfold bad_curr_next. rewrite IH. reflexivity.
Qed.

Lemma check_header_footer_walk fuel s : forall b,
  check_header_footer_from fuel s b = heap_walk bad_header_footer fuel s b.
Proof.
  induction fuel as [|fuel IH]; intros b; [reflexivity|].
  cbn [check_header_footer_from heap_walk]. unfold bad_header_footer. rewrite IH.
  reflexivity.
Qed.

(** A walk over regular blocks that end at a word of size 0 finds nothing
    bad when no block is bad. *)
Lemma heap_walk_ok bad s : forall bs a pa fuel,
  blocks (mem s) a pa bs ->
  get_size s (a + total bs) = 0 ->
  0 <= a -> a + total bs < two64 ->
  (forall x sz al, In (x, sz, al) (layout a bs) -> bad s x = false) ->
  (length bs < fuel)%nat ->
  heap_walk bad fuel s a = Some true.
Proof.
  induction bs as [|[sz al] r IH]; intros a pa fuel Hb He Ha Hlt Hbad Hf.
  - destruct fuel as [|fuel]; [simpl in Hf; lia|]. cbn [heap_walk].
    cbn [total] in He. rewrite Z.add_0_r in He. rewrite He. reflexivity.
  - destruct fuel as [|fuel]; [simpl in Hf; lia|]. cbn [heap_walk].
    pose proof (blocks_sizes _ _ _ _ Hb) as Hs.
    pose proof (total_nonneg r (Forall_inv_tail Hs)) as Tr.
    cbn [blocks] in Hb. destruct Hb as (S32 & S16 & Hh & _ & Hr).
    cbn [total] in He, Hlt.
    destruct (tag_fields s a sz al pa ltac:(rewrite load_unfold; exact Hh) S16 ltac:(lia))
      as (T1 & T2 & T3).
    rewrite T1. replace (sz >? 0) with true by (symmetry; apply Z.gtb_lt; lia).
    rewrite (Hbad a sz al) by (left; reflexivity).
    unfold find_next. rewrite T1.
    apply (IH (a + sz) al fuel Hr).
    + rewrite <- Z.add_assoc. exact He.
    + lia.
    + lia.
    + intros x sz0 al0 Hx. apply (Hbad x sz0 al0). right. exact Hx.
    + simpl in Hf. lia.
Qed.

(** What the checker reads at a block of a regular heap: its own tag, the
    tag that follows, and for a free block its footer. *)
Lemma heap_block_view s bs x sz al :
  heap_ok s bs -> In (x, sz, al) (layout (heap_start s) bs) ->
  exists nsz nal,
    get_size s x = sz /\ get_alloc s x = al /\
    get_size s (x + sz) = nsz /\ get_alloc s (x + sz) = nal /\
    get_prev_alloc s (x + sz) = al /\
    (al = false -> load s (x + sz - 8) = load s x /\ (0 < nsz -> nal = true)) /\
    heap_lo s < x /\ x + sz <= brk s - 8 /\ 32 <= sz /\ (x + 8) mod 16 = 0.
Proof.
  intros HO Hin.
  destruct (heap_ok_header s bs x sz al HO Hin)
    as (pa & Hx & S32 & S16 & Slt & Xpos & Xend & T1 & T2 & _).
  pose proof (payload_aligned s bs x sz al HO Hin) as Hal.
  destruct (heap_ok_geometry s bs HO) as (G1 & G2 & G3 & G4 & G5 & G6).
  pose proof (heap_ok_sizes s bs HO) as Hs.
  pose proof (layout_range _ _ _ _ _ Hs Hin) as (Hlo & _).
  destruct (layout_split _ _ _ _ _ Hin) as (l1 & l2 & E & Ex).
  pose proof (ho_blocks HO) as HB. rewrite E in HB. apply blocks_app in HB.
  destruct HB as [_ HB]. cbn [blocks] in HB. rewrite <- Ex in HB.
  destruct HB as (_ & _ & Hh & Hfree & H2).
  pose proof (ho_epi HO) as Hepi. rewrite E, last_alloc_app in Hepi.
  cbn [last_alloc] in Hepi.
  rewrite E, total_app in G4. cbn [total] in G4.
  destruct (next_word_gen s (x + sz) al l2 H2 Hepi ltac:(lia) ltac:(lia) ltac:(lia))
    as (nsz & nal & Hn & N16 & Nr & Hshape).
  destruct (tag_fields s (x + sz) nsz nal al Hn N16 Nr) as (N1 & N2 & N3).
  exists nsz, nal.
  split; [exact T1|]. split; [exact T2|]. split; [exact N1|]. split; [exact N2|].
  split; [exact N3|]. split; [|repeat split; try assumption; lia].
  intros ->. destruct (Hfree eq_refl) as [_ Hft]. split.
  - rewrite !load_unfold, Hh. exact Hft.
  - intros Hpos. destruct Hshape as [(_ & -> & _) | (r & -> & _ & _)]; [lia|].
    cbn [blocks] in H2. destruct H2 as (_ & _ & _ & Hc & _).
    destruct nal; [reflexivity|]. destruct (Hc eq_refl). discriminate.
Qed.

Section Walks.
Variables (s : state) (bs : list (Z * bool)).
Hypothesis HO : heap_ok s bs.

Lemma walk_from_start bad fuel :
    (forall x sz al, In (x, sz, al) (layout (heap_start s) bs) -> bad s x = false) ->
    (length bs < fuel)%nat ->
    heap_walk bad fuel s (heap_start s) = Some true.
  Proof.
    intros Hbad Hf.
    destruct (heap_ok_geometry s bs HO) as (G1 & G2 & G3 & G4 & G5 & G6).
    apply (heap_walk_ok bad s bs (heap_start s) true fuel (ho_blocks HO));
      try assumption; try lia.
    replace (heap_start s + total bs) with (brk s - 8) by lia.
    apply (tag_fields s _ 0 true _ (ho_epi HO) eq_refl). rewrite two64_val. lia.
  Qed.

Lemma check_payload_align_ok fuel :
    (length bs < fuel)%nat -> check_payload_align fuel s = Some true.
  Proof.
    intros Hf. unfold check_payload_align. rewrite check_payload_align_walk.
    apply walk_from_start; [|exact Hf]. intros x sz al Hin.
    destruct (heap_block_view s bs x sz al HO Hin)
      as (nsz & nal & _ & _ & _ & _ & _ & _ & Hlo & _ & _ & Ha).
    pose proof (ho_lo HO) as [Hpos _].
    unfold bad_align, header_to_payload.
    rewrite Z.rem_mod_nonneg by lia. rewrite Ha. cbn. apply andb_false_r.
  Qed.

Lemma check_range_ok fuel :
    (length bs < fuel)%nat -> check_range fuel s = Some true.
  Proof.
    intros Hf. unfold check_range. rewrite check_range_walk.
    apply walk_from_start; [|exact Hf]. intros x sz al Hin.
    destruct (heap_block_view s bs x sz al HO Hin)
      as (nsz & nal & _ & _ & _ & _ & _ & _ & Hlo & Hhi & S32 & _).
    unfold out_of_range, mem_heap_lo, mem_heap_hi. apply orb_false_iff.
    split; [apply Z.leb_gt | apply Z.leb_gt]; lia.
  Qed.

Lemma check_no_consecutive_ok fuel :
    (length bs < fuel)%nat -> check_no_consecutive_free_blocks fuel s = Some true.
  Proof.
    intros Hf. unfold check_no_consecutive_free_blocks.
    rewrite check_no_consecutive_walk.
    apply walk_from_start; [|exact Hf]. intros x sz al Hin.
    destruct (heap_block_view s bs x sz al HO Hin)
      as (nsz & nal & T1 & T2 & N1 & N2 & N3 & Hfr & _).
    unfold bad_consecutive, find_next. rewrite T1, T2, N1, N2.
    destruct al; [cbn [negb]; rewrite andb_false_r; reflexivity|].
    destruct (Hfr eq_refl) as [_ Hn]. destruct (nsz >? 0) eqn:E; [|reflexivity].
    apply Z.gtb_lt in E. rewrite (Hn E). reflexivity.
  Qed.

Lemma check_curr_next_ok fuel :
    (length bs < fuel)%nat -> check_curr_next_consistency fuel s = Some true.
  Proof.
    intros Hf. unfold check_curr_next_consistency. rewrite check_curr_next_walk.
    apply walk_from_start; [|exact Hf]. intros x sz al Hin.
    destruct (heap_block_view s bs x sz al HO Hin)
      as (nsz & nal & T1 & T2 & N1 & N2 & N3 & Hfr & _).
    unfold bad_curr_next, find_next. rewrite T1, T2, N3.
    rewrite Bool.eqb_reflx. apply andb_false_r.
  Qed.

Lemma check_header_footer_ok fuel :
    (length bs < fuel)%nat -> check_header_footer_consistency fuel s = Some true.
  Proof.
    intros Hf. unfold check_header_footer_consistency. rewrite check_header_footer_walk.
    apply walk_from_start; [|exact Hf]. intros x sz al Hin.
    destruct (heap_block_view s bs x sz al HO Hin)
      as (nsz & nal & T1 & T2 & N1 & N2 & N3 & Hfr & _).
    unfold bad_header_footer, header_to_footer. rewrite T1, T2.
    destruct al; [reflexivity|]. destruct (Hfr eq_refl) as [Hft _].
    change dsize with 16. replace (x + 8 + sz - 16) with (x + sz - 8) by lia.
    rewrite Hft, Z.eqb_refl. reflexivity.
  Qed.

Lemma check_epi_prologue_ok : check_epi_prologue s = true.
  Proof.
    unfold check_epi_prologue, mem_heap_hi, mem_heap_lo.
    replace (brk s - 1 - 7) with (brk s - 8) by lia.
    destruct (tag_fields s _ 0 true _ (ho_epi HO) eq_refl ltac:(rewrite two64_val; lia))
      as (E1 & E2 & _).
    destruct (tag_fields s _ 0 true _ (ho_pro HO) eq_refl ltac:(rewrite two64_val; lia))
      as (P1 & P2 & _).
    rewrite E1, E2, P1, P2. reflexivity.
  Qed.
End Walks.

(* ===================================================================== *)
(** * The checker on a regular heap: the list checks                     *)
(* ===================================================================== *)

Lemma check_list_ok s bad : forall l fuel b,
  chain s b l -> (forall x, In x l -> bad s x = false) ->
  (length l < fuel)%nat ->
  check_list fuel s bad b = Some true.
Proof.
  induction l as [|x r IH]; intros fuel b Hc Hbad Hf;
    (destruct fuel as [|fuel]; [simpl in Hf; lia|]); cbn [check_list].
  - simpl in Hc. subst b. reflexivity.
  - destruct Hc as (-> & Hx & Hc).
    replace (x =? NULL) with false by (symmetry; apply Z.eqb_neq; exact Hx).
    rewrite (Hbad x) by (left; reflexivity).
    apply IH; [exact Hc | | simpl in Hf; lia].
    intros y Hy. apply Hbad. right. exact Hy.
Qed.

Lemma check_lists_ok s bad (ls : nat -> list Z) fuel :
  (forall i, (i < list_length)%nat -> chain s (seg s i) (ls i)) ->
  (forall i x, (i < list_length)%nat -> In x (ls i) -> bad i s x = false) ->
  (forall i, (i < list_length)%nat -> (length (ls i) < fuel)%nat) ->
  forall n index, check_lists n fuel s bad index = Some true.
Proof.
  intros Hch Hbad Hf. induction n as [|n IH]; intros index; [reflexivity|].
  cbn [check_lists]. destruct (index <? list_length)%nat eqn:Hi; [|reflexivity].
  apply Nat.ltb_lt in Hi.
  rewrite (check_list_ok s (bad index) (ls index) fuel (seg s index)).
  - cbn [obind]. apply IH.
  - apply Hch. exact Hi.
  - intros x Hx. apply Hbad; assumption.
  - apply Hf. exact Hi.
Qed.

(** The links of a node of a doubly linked list: [next] is [NULL] or a
    node whose [prev] points back; [prev] is the predecessor of the head
    or a node. *)
Lemma dseg_links s : forall l b p,
  dseg (mem s) b p l NULL ->
  forall x, In x l ->
    (get_next s x = NULL \/
     (In (get_next s x) l /\ get_prev s (get_next s x) = x)) /\
    (get_prev s x = p \/ In (get_prev s x) l).
Proof.
  induction l as [|a r IH]; intros b p H x Hx; [contradiction|].
  cbn [dseg] in H. destruct H as (-> & Hp & Hr).
  unfold get_next, get_prev in *. rewrite <- !load_unfold in Hp, Hr.
  destruct Hx as [<- | Hx].
  - split; [|left; exact Hp].
    destruct r as [|y r'].
    + left. exact Hr.
    + right. cbn [dseg] in Hr. destruct Hr as (Hy & Hyp & _).
      rewrite <- !load_unfold in Hyp. rewrite Hy.
      split; [right; left; reflexivity | exact Hyp].
  - rewrite load_unfold in Hr.
    destruct (IH _ _ Hr x Hx) as [Hn Hpv]. unfold get_next, get_prev in *. split.
    + destruct Hn as [Hn | [Hn1 Hn2]]; [left; exact Hn|].
      right. split; [right; exact Hn1 | exact Hn2].
    + right. destruct Hpv as [-> | Hpv]; [left; reflexivity | right; exact Hpv].
Qed.

Lemma chain_nth s : forall l b,
  chain s b l ->
  b = nth 0 l NULL /\
  forall i, (i < length l)%nat -> get_next s (nth i l NULL) = nth (S i) l NULL.
Proof.
  induction l as [|x r IH]; intros b Hc.
  - simpl in Hc. split; [exact Hc|]. intros i Hi. simpl in Hi. lia.
  - destruct Hc as (-> & Hx & Hc). destruct (IH _ Hc) as [H0 Hn].
    split; [reflexivity|]. intros [|i] Hi.
    + cbn [nth]. exact H0.
    + cbn [nth]. apply Hn. simpl in Hi. lia.
Qed.

(** The tortoise at node [k] and the hare at node [2k + 1] of a list
    without repetition: the hare leaves the list first. *)
Lemma check_acyclic_loop_ok s l :
  NoDup l -> (forall x, In x l -> x <> NULL) ->
  (forall i, (i < length l)%nat -> get_next s (nth i l NULL) = nth (S i) l NULL) ->
  forall fuel k, (k < length l)%nat -> (length l < fuel + k)%nat ->
  check_acyclic_loop fuel s (nth k l NULL) (nth (2 * k + 1) l NULL) = Some true.
Proof.
  intros Hnd Hnn Hnext. induction fuel as [|fuel IH]; intros k Hk Hf; [lia|].
  cbn [check_acyclic_loop].
  assert (Ht : nth k l NULL <> NULL) by (apply Hnn, nth_In; exact Hk).
  assert (Hne : nth k l NULL <> nth (2 * k + 1) l NULL).
  { destruct (Nat.lt_ge_cases (2 * k + 1) (length l)) as [Hr | Hr].
    - intros E. apply (proj1 (NoDup_nth l NULL) Hnd) in E; lia.
    - rewrite (nth_overflow l NULL Hr). exact Ht. }
  replace (nth k l NULL =? nth (2 * k + 1) l NULL) with false
    by (symmetry; apply Z.eqb_neq; exact Hne).
  destruct ((nth (2 * k + 1) l NULL =? NULL) ||
            (get_next s (nth (2 * k + 1) l NULL) =? NULL)) eqn:E; [reflexivity|].
  apply orb_false_iff in E. destruct E as [E1 E2].
  apply Z.eqb_neq in E1. apply Z.eqb_neq in E2.
  assert (Hr : (2 * k + 1 < length l)%nat).
  { destruct (Nat.lt_ge_cases (2 * k + 1) (length l)) as [Hr | Hr]; [exact Hr|].
    rewrite (nth_overflow l NULL Hr) in E1. contradiction. }
  rewrite (Hnext _ Hr) in E2 |- *.
  assert (Hr2 : (S (2 * k + 1) < length l)%nat).
  { destruct (Nat.lt_ge_cases (S (2 * k + 1)) (length l)) as [Hr2 | Hr2]; [exact Hr2|].
    rewrite (nth_overflow l NULL Hr2) in E2. contradiction. }
  rewrite (Hnext _ Hk), (Hnext _ Hr2).
  replace (S (S (2 * k + 1))) with (2 * S k + 1)%nat by lia.
  apply IH; lia.
Qed.

Lemma check_acyclic_ok s l b fuel :
  chain s b l -> NoDup l -> (length l < fuel)%nat ->
  check_acyclic fuel s b = Some true.
Proof.
  intros Hc Hnd Hf. unfold check_acyclic.
  destruct (b =? NULL) eqn:Eb; [reflexivity|]. apply Z.eqb_neq in Eb.
  destruct (chain_nth s l b Hc) as [H0 Hn].
  destruct l as [|x r]; [simpl in Hc; contradiction|].
  rewrite H0. rewrite (Hn 0%nat) by (simpl; lia).
  apply (check_acyclic_loop_ok s (x :: r) Hnd) with (k := 0%nat);
    [ | exact Hn | simpl; lia | lia].
  intros y Hy. apply (chain_not_null s b (x :: r) y Hc Hy).
Qed.

Lemma check_acyclic_all_ok s (ls : nat -> list Z) fuel :
  (forall i, (i < list_length)%nat -> chain s (seg s i) (ls i)) ->
  (forall i, NoDup (ls i)) ->
  (forall i, (i < list_length)%nat -> (length (ls i) < fuel)%nat) ->
  forall n index flag, check_acyclic_all n fuel s index flag = Some flag.
Proof.
  intros Hch Hnd Hf. induction n as [|n IH]; intros index flag; [reflexivity|].
  cbn [check_acyclic_all]. destruct (index <? list_length)%nat eqn:Hi; [|reflexivity].
  apply Nat.ltb_lt in Hi.
  rewrite (check_acyclic_ok s (ls index) (seg s index) fuel (Hch _ Hi) (Hnd _) (Hf _ Hi)).
  cbn [obind]. apply IH.
Qed.

Section ListChecks.
Variables (s : state) (bs : list (Z * bool)) (ls : nat -> list Z).
Hypothesis Hinv : inv s bs ls.

Lemma node_block i x :
    In x (ls i) ->
    exists sz, In (x, sz, false) (layout (heap_start s) bs) /\ find_index sz = i.
  Proof. intros Hx. apply (li_in (proj2 Hinv) i x Hx). Qed.

Lemma node_in_range i x : In x (ls i) -> out_of_range s x = false.
  Proof.
    intros Hx. destruct (node_block i x Hx) as (sz & Hin & _).
    destruct (heap_block_view s bs x sz false (proj1 Hinv) Hin)
      as (nsz & nal & _ & _ & _ & _ & _ & _ & Hlo & Hhi & S32 & _).
    unfold out_of_range, mem_heap_lo, mem_heap_hi. apply orb_false_iff.
    split; apply Z.leb_gt; lia.
  Qed.

Lemma check_free_list_consistent_ok fuel :
    (forall i, (i < list_length)%nat -> (length (ls i) < fuel)%nat) ->
    check_free_list_consistent fuel s = Some true.
  Proof.
    intros Hf. unfold check_free_list_consistent.
    apply (check_lists_ok s _ ls fuel (lists_inv_chain s _ ls (proj2 Hinv))); [|exact Hf].
    intros i x Hi Hx.
    destruct (dseg_links s (ls i) _ _ (li_chain (proj2 Hinv) i Hi) x Hx) as [Hn _].
    destruct Hn as [-> | [_ ->]].
    - rewrite Z.eqb_refl. reflexivity.
    - rewrite Z.eqb_refl. apply andb_false_r.
  Qed.

Lemma check_free_list_size_range_ok fuel :
    (forall i, (i < list_length)%nat -> (length (ls i) < fuel)%nat) ->
    check_free_list_size_range fuel s = Some true.
  Proof.
    intros Hf. unfold check_free_list_size_range.
    apply (check_lists_ok s _ ls fuel (lists_inv_chain s _ ls (proj2 Hinv))); [|exact Hf].
    intros i x Hi Hx. destruct (node_block i x Hx) as (sz & Hin & Hcl).
    destruct (heap_ok_header s bs x sz false (proj1 Hinv) Hin)
      as (pa & _ & S32 & S16 & Slt & _ & _ & Hsz & _).
    cbv zeta. rewrite Hsz.
    assert (Hr : 32 <= sz < two64 - 1).
    { split; [exact S32|].
      pose proof (Z.div_mod sz 16 ltac:(lia)) as D. rewrite S16 in D.
      rewrite two64_val in *. lia. }
    pose proof (find_index_class sz Hr) as Hc. rewrite Hcl in Hc.
    apply orb_false_iff. split; [apply Z.ltb_ge | apply Z.leb_gt]; lia.
  Qed.

Lemma check_free_list_pointer_range_ok fuel :
    (forall i, (i < list_length)%nat -> (length (ls i) < fuel)%nat) ->
    check_free_list_pointer_range fuel s = Some true.
  Proof.
    intros Hf. unfold check_free_list_pointer_range.
    apply (check_lists_ok s _ ls fuel (lists_inv_chain s _ ls (proj2 Hinv))); [|exact Hf].
    intros i x Hi Hx.
    destruct (dseg_links s (ls i) _ _ (li_chain (proj2 Hinv) i Hi) x Hx) as [Hn Hp].
    apply orb_false_iff. split.
    - destruct Hp as [-> | Hp]; [rewrite Z.eqb_refl; reflexivity|].
      rewrite (node_in_range i _ Hp). apply andb_false_r.
    - destruct Hn as [-> | [Hn _]]; [rewrite Z.eqb_refl; reflexivity|].
      rewrite (node_in_range i _ Hn). apply andb_false_r.
  Qed.

Lemma check_acyclic_lists_ok fuel flag :
    (forall i, (i < list_length)%nat -> (length (ls i) < fuel)%nat) ->
    check_acyclic_all list_length fuel s 0 flag = Some flag.
  Proof.
    intros Hf.
    apply (check_acyclic_all_ok s ls fuel (lists_inv_chain s _ ls (proj2 Hinv))
             (li_nodup (proj2 Hinv)) Hf).
  Qed.
End ListChecks.

(* ===================================================================== *)
(** * The checker on a regular heap: counting, and the whole check       *)
(* ===================================================================== *)

Lemma count_list_ok s : forall l fuel b len,
  chain s b l -> (length l < fuel)%nat ->
  0 <= len -> len + Z.of_nat (length l) < two64 ->
  count_list fuel s b len = Some (len + Z.of_nat (length l)).
Proof.
  induction l as [|x r IH]; intros fuel b len Hc Hf H0 Hlt;
    (destruct fuel as [|fuel]; [simpl in Hf; lia|]); cbn [count_list].
  - simpl in Hc. subst b. rewrite Z.eqb_refl. cbn [length]. f_equal. lia.
  - destruct Hc as (-> & Hx & Hc).
    replace (x =? NULL) with false by (symmetry; apply Z.eqb_neq; exact Hx).
    cbn [length] in Hlt |- *. rewrite Nat2Z.inj_succ in Hlt |- *.
    unfold wrap64. rewrite Z.mod_small by lia.
    rewrite (IH fuel _ (len + 1) Hc) by (simpl in Hf; lia). f_equal. lia.
Qed.

Lemma count_lists_ok s (ls : nat -> list Z) fuel :
  (forall i, (i < list_length)%nat -> chain s (seg s i) (ls i)) ->
  (forall i, (i < list_length)%nat -> (length (ls i) < fuel)%nat) ->
  forall n index len,
    (index + n <= list_length)%nat -> 0 <= len ->
    len + Z.of_nat (length (nodes_from ls n index)) < two64 ->
    count_lists n fuel s index len =
    Some (len + Z.of_nat (length (nodes_from ls n index))).
Proof.
  intros Hch Hf. induction n as [|n IH]; intros index len Hn H0 Hlt.
  - cbn [count_lists nodes_from length]. f_equal. lia.
  - cbn [count_lists nodes_from] in *. rewrite length_app, Nat2Z.inj_add in *.
    replace (index <? list_length)%nat with true by (symmetry; apply Nat.ltb_lt; lia).
    rewrite (count_list_ok s (ls index) fuel (seg s index) len)
      by (try apply Hch; try apply Hf; lia).
    cbn [obind]. rewrite IH by lia. f_equal. lia.
Qed.

Lemma free_count_bounds bs :
  sizes_ok bs -> 0 <= free_count bs /\ 32 * free_count bs <= total bs.
Proof.
  induction bs as [|[sz al] r IH]; intros Hs; [simpl; lia|].
  pose proof (Forall_inv Hs) as [H32 _]. cbn [fst] in H32.
  destruct (IH (Forall_inv_tail Hs)). cbn [free_count total]. destruct al; lia.
Qed.

Lemma count_free_ok s : forall bs a pa fuel res,
  blocks (mem s) a pa bs ->
  get_size s (a + total bs) = 0 ->
  0 <= a -> a + total bs < two64 -> 0 <= res ->
  res + free_count bs < two64 ->
  (length bs < fuel)%nat ->
  count_free fuel s a res = Some (res + free_count bs).
Proof.
  induction bs as [|[sz al] r IH]; intros a pa fuel res Hb He Ha Hlt Hres Hc Hf;
    (destruct fuel as [|fuel]; [simpl in Hf; lia|]); cbn [count_free].
  - cbn [total] in He. rewrite Z.add_0_r in He. rewrite He. cbn [free_count].
    rewrite Z.add_0_r. reflexivity.
  - pose proof (blocks_sizes _ _ _ _ Hb) as Hs.
    pose proof (total_nonneg r (Forall_inv_tail Hs)) as Tr.
    destruct (free_count_bounds r (Forall_inv_tail Hs)) as [F0 _].
    cbn [blocks] in Hb. destruct Hb as (S32 & S16 & Hh & _ & Hr).
    cbn [total free_count] in *.
    destruct (tag_fields s a sz al pa ltac:(rewrite load_unfold; exact Hh) S16 ltac:(lia))
      as (T1 & T2 & T3).
    rewrite T1, T2. replace (sz >? 0) with true by (symmetry; apply Z.gtb_lt; lia).
    unfold find_next. rewrite T1.
    rewrite (IH (a + sz) al fuel _ Hr); try lia.
    + f_equal. destruct al; cbn [negb]; [lia|].
      unfold wrap64. rewrite Z.mod_small by lia. lia.
    + rewrite <- Z.add_assoc. exact He.
    + destruct al; cbn [negb]; [lia|]. unfold wrap64. rewrite Z.mod_small by lia. lia.
    + destruct al; cbn [negb]; [lia|]. unfold wrap64. rewrite Z.mod_small by lia. lia.
    + simpl in Hf. lia.
Qed.

Lemma free_addrs_in bs : forall a x,
  In x (free_addrs a bs) <-> exists sz, In (x, sz, false) (layout a bs).
Proof.
  induction bs as [|[sz al] r IH]; intros a x; cbn [free_addrs layout].
  - split; [intros [] | intros (? & [])].
  - destruct al; cbn [In]; rewrite ?IH; split.
    + intros (sz0 & H). exists sz0. right. exact H.
    + intros (sz0 & [H | H]); [discriminate | exists sz0; exact H].
    + intros [<- | (sz0 & H)]; [exists sz; left; reflexivity | exists sz0; right; exact H].
    + intros (sz0 & [H | H]); [left; congruence | right; exists sz0; exact H].
Qed.

Lemma free_addrs_nodup bs : forall a, sizes_ok bs -> NoDup (free_addrs a bs).
Proof.
  induction bs as [|[sz al] r IH]; intros a Hs; cbn [free_addrs]; [constructor|].
  pose proof (Forall_inv Hs) as [H32 _]. cbn [fst] in H32.
  pose proof (Forall_inv_tail Hs) as Hr.
  destruct al; [apply IH; exact Hr|].
  constructor; [|apply IH; exact Hr].
  intros Hin. apply free_addrs_in in Hin. destruct Hin as (sz0 & Hin).
  apply (layout_range _ _ _ _ _ Hr) in Hin. lia.
Qed.

Lemma free_addrs_length bs : forall a,
  Z.of_nat (length (free_addrs a bs)) = free_count bs.
Proof.
  induction bs as [|[sz al] r IH]; intros a; cbn [free_addrs free_count]; [reflexivity|].
  destruct al; [rewrite IH; lia|]. cbn [length]. rewrite Nat2Z.inj_succ, IH. lia.
Qed.

Lemma nodes_from_in (ls : nat -> list Z) n : forall index x,
  In x (nodes_from ls n index) <->
  exists i, (index <= i < index + n)%nat /\ In x (ls i).
Proof.
  induction n as [|n IH]; intros index x; cbn [nodes_from].
  - split; [intros [] | intros (i & Hi & _); lia].
  - rewrite in_app_iff, IH. split.
    + intros [H | (i & Hi & H)]; [exists index; split; [lia | exact H]|].
      exists i. split; [lia | exact H].
    + intros (i & Hi & H). destruct (Nat.eq_dec i index) as [-> | Hne];
        [left; exact H | right; exists i; split; [lia | exact H]].
Qed.

Lemma nodes_from_length (ls : nat -> list Z) n : forall index i,
  (index <= i < index + n)%nat ->
  (length (ls i) <= length (nodes_from ls n index))%nat.
Proof.
  induction n as [|n IH]; intros index i Hi; [lia|].
  cbn [nodes_from]. rewrite length_app.
  destruct (Nat.eq_dec i index) as [-> | Hne]; [lia|].
  specialize (IH (S index) i ltac:(lia)). lia.
Qed.

Section Counting.
Variables (s : state) (bs : list (Z * bool)) (ls : nat -> list Z).
Hypothesis Hinv : inv s bs ls.

Lemma nodes_from_nodup n : forall index, NoDup (nodes_from ls n index).
  Proof.
    induction n as [|n IH]; intros index; cbn [nodes_from]; [constructor|].
    apply NoDup_app; [apply (li_nodup (proj2 Hinv)) | apply IH |].
    intros x Hx Hx'. apply nodes_from_in in Hx'. destruct Hx' as (i & Hi & Hxi).
    destruct (li_in (proj2 Hinv) _ _ Hx) as (sz & HF & Hc).
    destruct (li_in (proj2 Hinv) _ _ Hxi) as (sz' & HF' & Hc').
    rewrite (li_fun (proj2 Hinv) x sz sz' HF HF') in Hc. lia.
  Qed.

  (** There are as many nodes in the lists as free blocks in the heap. *)
Lemma nodes_count :
    Z.of_nat (length (nodes_from ls list_length 0)) = free_count bs.
  Proof.
    rewrite <- (free_addrs_length bs (heap_start s)). f_equal.
    apply Permutation_length. apply NoDup_Permutation.
    - apply nodes_from_nodup.
    - apply free_addrs_nodup. apply (heap_ok_sizes s bs (proj1 Hinv)).
    - intros x. rewrite nodes_from_in, free_addrs_in. split.
      + intros (i & _ & Hx). destruct (li_in (proj2 Hinv) _ _ Hx) as (sz & HF & _).
        exists sz. exact HF.
      + intros (sz & HF). exists (find_index sz). split.
        * pose proof (find_index_lt sz). lia.
        * apply (li_all (proj2 Hinv)). exact HF.
  Qed.

Lemma check_no_block_loss_ok fuel :
    (checker_fuel bs ls <= fuel)%nat -> check_no_block_loss fuel s = Some true.
  Proof.
    intros Hf. unfold checker_fuel in Hf.
    pose proof (heap_ok_sizes s bs (proj1 Hinv)) as Hs.
    destruct (free_count_bounds bs Hs) as [F0 F1].
    destruct (heap_ok_geometry s bs (proj1 Hinv)) as (G1 & G2 & G3 & G4 & G5 & G6).
    unfold check_no_block_loss.
    rewrite (count_lists_ok s ls fuel (lists_inv_chain s _ ls (proj2 Hinv))).
    - cbn [obind].
      rewrite (count_free_ok s bs (heap_start s) true fuel 0 (ho_blocks (proj1 Hinv)));
        try lia.
      + cbn [obind]. rewrite nodes_count. rewrite Z.eqb_refl. reflexivity.
      + replace (heap_start s + total bs) with (brk s - 8) by lia.
        apply (tag_fields s _ 0 true _ (ho_epi (proj1 Hinv)) eq_refl).
        rewrite two64_val. lia.
    - intros i Hi. pose proof (nodes_from_length ls list_length 0 i ltac:(lia)). lia.
    - lia.
    - lia.
    - rewrite nodes_count. lia.
  Qed.

  (** On a regular heap every one of the eleven checks passes. *)
Lemma checkheap_regular fuel :
    (checker_fuel bs ls <= fuel)%nat -> mm_checkheap fuel s = Some true.
  Proof.
    intros Hf. pose proof Hf as Hf'. unfold checker_fuel in Hf'.
    assert (Hb : (length bs < fuel)%nat) by lia.
    assert (Hl : forall i, (i < list_length)%nat -> (length (ls i) < fuel)%nat).
    { intros i Hi. pose proof (nodes_from_length ls list_length 0 i ltac:(lia)). lia. }
    destruct Hinv as [HO HL]. unfold mm_checkheap.
    rewrite (check_payload_align_ok s bs HO fuel Hb). cbn [obind].
    rewrite (check_acyclic_lists_ok s bs ls Hinv fuel true Hl). cbn [obind].
    rewrite (check_epi_prologue_ok s bs HO).
    rewrite (check_range_ok s bs HO fuel Hb). cbn [obind].
    rewrite (check_free_list_consistent_ok s bs ls Hinv fuel Hl). cbn [obind].
    rewrite (check_free_list_size_range_ok s bs ls Hinv fuel Hl). cbn [obind].
    rewrite (check_free_list_pointer_range_ok s bs ls Hinv fuel Hl). cbn [obind].
    rewrite (check_header_footer_ok s bs HO fuel Hb). cbn [obind].
    rewrite (check_curr_next_ok s bs HO fuel Hb). cbn [obind].
    rewrite (check_no_consecutive_ok s bs HO fuel Hb). cbn [obind].
    rewrite (check_no_block_loss_ok fuel Hf). cbn [obind].
    reflexivity.
  Qed.
End Counting.

(** In every state of a run (the requests that [realloc] and [calloc] fill
    being at most [2^64 - 24] bytes) the checker returns, given fuel, and
    returns true. *)
Lemma reachable_checkheap s L :
  reachable s L ->
  exists fuel0, forall fuel, (fuel0 <= fuel)%nat -> mm_checkheap fuel s = Some true.
Proof.
  intros H. apply reachable_good in H. destruct H as (bs & ls & Hinv & _).
  exists (checker_fuel bs ls). intros fuel Hf.
  apply (checkheap_regular s bs ls Hinv fuel Hf).
Qed.

(* ===================================================================== *)
(** * Further properties: tag words and sizes                            *)
(* ===================================================================== *)

(** X1: a size that is a multiple of 16 below [2^64] and the two flags are
    read back from the word that [pack] builds, and the word fits in 64
    bits: the flags use the four low bits only. *)
Theorem pack_round_trip (size : Z) (alloc prev_alloc : bool) :
  size mod 16 = 0 -> 0 <= size < two64 ->
  extract_size (pack size alloc prev_alloc) = size /\
  extract_alloc (pack size alloc prev_alloc) = alloc /\
  extract_prev_alloc (pack size alloc prev_alloc) = prev_alloc /\
  0 <= pack size alloc prev_alloc < two64.
Proof.
  intros Hm Hr.
  split; [apply extract_size_pack; assumption|].
  split; [apply extract_alloc_pack; assumption|].
  split; [apply extract_prev_alloc_pack; assumption|].
  apply pack_range; assumption.
Qed.

Lemma pack_round_trip_witness :
  extract_size (pack 4096 false true) = 4096 /\
  extract_alloc (pack 4096 false true) = false /\
  extract_prev_alloc (pack 4096 false true) = true /\
  0 <= pack 4096 false true < two64.
Proof.
  apply (pack_round_trip 4096 false true); [reflexivity | rewrite two64_val; lia].
Defined.

(** X2: after [write_block] with a size that is a positive multiple of 16,
    the header reads back the size and both flags; a free block gets a
    footer, in its last word, equal to the header; an allocated block gets
    none; no byte outside the header and that footer changes. *)
Theorem write_block_reads_back (s : state) (block size : Z) (alloc prev_alloc : bool) :
  size mod 16 = 0 -> 16 <= size < two64 ->
  let s' := write_block s block size alloc prev_alloc in
  get_size s' block = size /\ get_alloc s' block = alloc /\
  get_prev_alloc s' block = prev_alloc /\
  (alloc = false ->
   header_to_footer s' block = block + size - 8 /\
   load s' (header_to_footer s' block) = load s' block) /\
  (alloc = true -> forall z, z < block \/ block + 8 <= z -> mem s' z = mem s z) /\
  (forall z, z < block \/ block + 8 <= z < block + size - 8 \/ block + size <= z ->
             mem s' z = mem s z).
Proof.
  intros Hm Hr s'.
  pose proof (pack_range size alloc prev_alloc Hm ltac:(lia)) as Wr.
  assert (Hh : load s' block = pack size alloc prev_alloc).
  { unfold s'. destruct alloc.
    - rewrite write_block_alloc_eq. apply load_store_eq; [reflexivity | exact Wr].
    - rewrite write_block_free_eq by (try assumption; lia).
      destruct (Z.eq_dec size 16) as [-> | Hne].
      + rewrite load_store_other by lia. apply load_store_eq; [reflexivity | exact Wr].
      + rewrite load_store_other by lia. apply load_store_eq; [reflexivity | exact Wr]. }
  destruct (tag_fields s' block size alloc prev_alloc Hh Hm ltac:(lia)) as (T1 & T2 & T3).
  split; [exact T1|]. split; [exact T2|]. split; [exact T3|].
  split; [|split].
  - intros ->. unfold header_to_footer. rewrite T1. change dsize with 16.
    split; [lia|]. replace (block + 8 + size - 16) with (block + size - 8) by lia.
    rewrite Hh. unfold s'. rewrite write_block_free_eq by (try assumption; lia).
    apply load_store_eq; [reflexivity | exact Wr].
  - intros -> z Hz. unfold s'. rewrite write_block_alloc_eq, mem_store.
    apply store64_outside. exact Hz.
  - intros z Hz. unfold s'. destruct alloc.
    + rewrite write_block_alloc_eq, mem_store. apply store64_outside. lia.
    + rewrite write_block_free_eq by (try assumption; lia). rewrite !mem_store.
      rewrite !store64_outside by lia. reflexivity.
Qed.

Lemma write_block_reads_back_witness :
  let s' := write_block booted first_block 64 false true in
  get_size s' first_block = 64 /\ get_alloc s' first_block = false /\
  get_prev_alloc s' first_block = true /\
  (false = false ->
   header_to_footer s' first_block = first_block + 64 - 8 /\
   load s' (header_to_footer s' first_block) = load s' first_block) /\
  (false = true ->
   forall z, z < first_block \/ first_block + 8 <= z -> mem s' z = mem booted z) /\
  (forall z, z < first_block \/ first_block + 8 <= z < first_block + 64 - 8 \/
             first_block + 64 <= z -> mem s' z = mem booted z).
Proof.
  apply (write_block_reads_back booted first_block 64 false true);
    [reflexivity | rewrite two64_val; lia].
Defined.

(** X3: [update_next_prev_alloc] changes one thing: the [prev_alloc] flag
    in the header that follows the block.  The size and the [alloc] flag of
    that header are the ones from before, and no byte outside that header
    changes. *)
Theorem update_next_prev_alloc_flag_only (s : state) (block : Z) (v : bool) :
  let next := find_next s block in
  let s' := update_next_prev_alloc s block v in
  get_size s' next = get_size s next /\
  get_alloc s' next = get_alloc s next /\
  get_prev_alloc s' next = v /\
  (forall z, z < next \/ next + 8 <= z -> mem s' z = mem s z).
Proof.
  intros next s'. unfold s', update_next_prev_alloc. fold next.
  pose proof (extract_size_mod16 (load s next)) as Hm.
  pose proof (extract_size_range (load s next)) as Hr.
  fold (get_size s next) in Hm, Hr.
  pose proof (pack_range (get_size s next) (get_alloc s next) v Hm Hr) as Wr.
  destruct (tag_fields (store s next (pack (get_size s next) (get_alloc s next) v)) next
              (get_size s next) (get_alloc s next) v
              (load_store_eq _ _ _ _ eq_refl Wr) Hm Hr) as (T1 & T2 & T3).
  split; [exact T1|]. split; [exact T2|]. split; [exact T3|].
  intros z Hz. rewrite mem_store. apply store64_outside. exact Hz.
Qed.

(** The class table of the checker grows with the class. *)
Lemma class_hi_lo i j :
  (i < j)%nat -> (j < list_length)%nat -> class_hi i <= class_lo j.
Proof.
  unfold list_length. intros Hij Hj.
  do 15 (destruct j as [|j]; [
    do 15 (destruct i as [|i]; [try lia; vm_compute; discriminate|]); lia |]).
  lia.
Qed.

Lemma find_index_top size : 65536 <= size -> find_index size = 14%nat.
Proof.
  intros H. unfold find_index, list0, list1, list2, list3, list4, list5, list6,
    list7, list8, list9, list10, list11, list12, list13, list14.
  repeat match goal with
  | |- context [(?a <=? size) && (size <? ?b)] =>
      replace (size <? b) with false by (symmetry; apply Z.ltb_ge; lia);
      rewrite andb_false_r
  end.
  reflexivity.
Qed.

(** X4: for a size of at least 32 bytes below [2^64 - 1], the class that
    the branch ladder of [find_index] gives is the one class, among the
    fifteen, whose interval in the table of [check_free_list_size_range]
    holds the size. *)
Theorem find_index_agrees_with_table (size : Z) (i : nat) :
  32 <= size < two64 - 1 -> (i < list_length)%nat ->
  (find_index size = i <-> class_lo i <= size < class_hi i).
Proof.
  intros Hr Hi. pose proof (find_index_class size Hr) as Hc.
  pose proof (find_index_lt size) as Hlt. split.
  - intros <-. exact Hc.
  - intros Hb. destruct (Nat.lt_trichotomy (find_index size) i) as [H | [H | H]].
    + pose proof (class_hi_lo _ _ H Hi). lia.
    + exact H.
    + pose proof (class_hi_lo _ _ H Hlt). lia.
Qed.

Lemma find_index_agrees_with_table_witness :
  find_index 4096 = 10%nat <-> class_lo 10 <= 4096 < class_hi 10.
Proof.
  apply (find_index_agrees_with_table 4096 10);
    [rewrite two64_val; lia | unfold list_length; lia].
Defined.

(** [find_index] is monotone on sizes of at least 32 bytes: a larger
    block is never filed in a lower class. *)
Lemma find_index_monotone (a b : Z) :
  32 <= a -> a <= b -> (find_index a <= find_index b)%nat.
Proof.
  intros Ha Hab. pose proof (find_index_lt a) as La.
  destruct (Z_lt_le_dec b 65536) as [Hb | Hb].
  - assert (Ra : 32 <= a < two64 - 1) by (rewrite two64_val; lia).
    assert (Rb : 32 <= b < two64 - 1) by (rewrite two64_val; lia).
    pose proof (find_index_class a Ra) as Ca.
    pose proof (find_index_class b Rb) as Cb.
    destruct (Nat.le_gt_cases (find_index a) (find_index b)) as [H | H]; [exact H|].
    pose proof (class_hi_lo _ _ H La). lia.
  - rewrite (find_index_top b Hb). unfold list_length in La. lia.
Qed.

(** X5: [round_up size 16], for a size whose rounding does not pass
    [2^64], is a multiple of 16, at least 32 and at least the size; above
    the 32-byte floor it is less than 16 bytes more than the size, and a
    multiple of 16 is left as it is. *)
Theorem round_up_bounds (size : Z) :
  0 <= size -> size + 15 < two64 ->
  round_up size dsize mod 16 = 0 /\
  32 <= round_up size dsize /\ size <= round_up size dsize /\
  (32 <= size -> round_up size dsize < size + 16) /\
  (32 <= size -> size mod 16 = 0 -> round_up size dsize = size).
Proof.
  intros H0 H1. destruct (round_up_16 size) as [[R32 Rlt] R16].
  split; [exact R16|]. split; [exact R32|].
  assert (E : round_up size dsize =
              if 16 * ((size + 15) / 16) <? 32 then 32 else 16 * ((size + 15) / 16)).
  { unfold round_up, wrap64. change min_block_size with 32. change dsize with 16.
    change (16 - 1) with 15. rewrite two64_val in *.
    rewrite (Z.mod_small 15) by lia. rewrite (Z.mod_small (size + 15)) by lia.
    pose proof (Z.div_mod (size + 15) 16 ltac:(lia)) as D.
    pose proof (Z.mod_pos_bound (size + 15) 16 ltac:(lia)) as B.
    rewrite (Z.mod_small (16 * _)) by lia. reflexivity. }
  pose proof (Z.div_mod (size + 15) 16 ltac:(lia)) as D.
  pose proof (Z.mod_pos_bound (size + 15) 16 ltac:(lia)) as B.
  rewrite E. destruct (16 * ((size + 15) / 16) <? 32) eqn:El;
    [apply Z.ltb_lt in El | apply Z.ltb_ge in El].
  - split; [lia|]. split; [lia|]. lia.
  - split; [lia|]. split; [lia|]. intros _ Hm.
    pose proof (Z.div_mod size 16 ltac:(lia)) as D2. rewrite Hm in D2.
    assert ((size + 15) / 16 = size / 16); [|lia].
    symmetry. apply (Z.div_unique (size + 15) 16 (size / 16) 15); lia.
Qed.

Lemma round_up_bounds_witness :
  round_up 57 dsize mod 16 = 0 /\
  32 <= round_up 57 dsize /\ 57 <= round_up 57 dsize /\
  (32 <= 57 -> round_up 57 dsize < 57 + 16) /\
  (32 <= 57 -> 57 mod 16 = 0 -> round_up 57 dsize = 57).
Proof. apply (round_up_bounds 57); rewrite ?two64_val; lia. Defined.

(* ===================================================================== *)
(** * Further properties: the segregated lists                           *)
(* ===================================================================== *)

Lemma dseg_first m b p l : dseg m b p l NULL -> b = hd NULL l.
Proof. destruct l; simpl; [congruence | intros (-> & _); reflexivity]. Qed.

Lemma lists_inv_ext_ls s (F : Z -> Z -> Prop) ls ls' :
  lists_inv s F ls -> (forall j, ls' j = ls j) -> lists_inv s F ls'.
Proof.
  intros H E. constructor.
  - apply (li_len H).
  - intros i Hi. rewrite E. apply (li_chain H i Hi).
  - intros i. rewrite E. apply (li_nodup H).
  - intros i x Hx. rewrite E in Hx. apply (li_in H _ _ Hx).
  - intros x sz HF. rewrite E. apply (li_all H). assumption.
  - apply (li_sep H).
  - apply (li_pos H).
Qed.

Lemma unlinked_lists : lists_inv unlinked unlinked_F unlinked_ls.
Proof.
  assert (H1 : free_in (heap_start booted) [(4096, false)] first_block 4096)
    by (left; reflexivity).
  assert (H2 : get_size booted first_block = 4096) by (vm_compute; reflexivity).
  exact (proj1 (remove_from_list_spec (proj2 booted_inv) H1 H2)).
Qed.

Lemma unlinked_F_none y sz : ~ unlinked_F y sz.
Proof.
  unfold unlinked_F, free_in. destruct booted_fields as (_ & -> & _).
  cbn [layout In]. intros [[H | []] Hne]. apply Hne. injection H.
  intros _ <-. reflexivity.
Qed.

(** X6: [remove_from_list] on a block [x] that is on the lists takes
    exactly that block off: every list keeps its other blocks in their
    order, with sound forward and backward links; memory changes only in
    link words of the blocks that stay listed, and the fields of memlib do
    not change. *)
Theorem remove_from_list_unlinks (s : state) (F : Z -> Z -> Prop)
    (ls : nat -> list Z) (x sz : Z) :
  lists_inv s F ls -> F x sz -> get_size s x = sz ->
  let s' := remove_from_list s x in
  lists_inv s' (fun y sz' => F y sz' /\ y <> x)
               (fun j => remove Z.eq_dec x (ls j)) /\
  (forall j, j <> find_index sz -> ls j = remove Z.eq_dec x (ls j)) /\
  (forall z, (forall y sz', F y sz' -> y <> x -> z < y + 8 \/ y + 24 <= z) ->
             mem s' z = mem s z) /\
  same_machine s s'.
Proof.
  intros HL HF Hsz s'.
  destruct (remove_from_list_spec HL HF Hsz) as (H1 & H2 & H3).
  split; [exact H1|]. split; [|split; [|exact H3]].
  - intros j Hj. symmetry. apply remove_notin. intros Hin.
    apply Hj. apply (li_class HL _ _ _ Hin HF).
  - intros z Hz. apply H2. intros y sz' [Hy Hne]. apply (Hz y sz' Hy Hne).
Qed.

Lemma remove_from_list_unlinks_witness :
  let s' := remove_from_list booted first_block in
  lists_inv s' (fun y sz' => free_in (heap_start booted) [(4096, false)] y sz' /\
                             y <> first_block)
               (fun j => remove Z.eq_dec first_block (booted_ls j)) /\
  (forall j, j <> find_index 4096 ->
             booted_ls j = remove Z.eq_dec first_block (booted_ls j)) /\
  (forall z, (forall y sz', free_in (heap_start booted) [(4096, false)] y sz' ->
                            y <> first_block -> z < y + 8 \/ y + 24 <= z) ->
             mem s' z = mem booted z) /\
  same_machine booted s'.
Proof.
  assert (H1 : free_in (heap_start booted) [(4096, false)] first_block 4096)
    by (left; reflexivity).
  assert (H2 : get_size booted first_block = 4096) by (vm_compute; reflexivity).
  exact (remove_from_list_unlinks booted _ booted_ls first_block 4096
           (proj2 booted_inv) H1 H2).
Defined.

(** X7: [add_to_list] puts a block [x] that is not yet listed at the head
    of the list of its size class: the head of that list becomes [x], the
    [next] link of [x] is the old head, its [prev] link is [NULL], and the
    old head, when there is one, points back to [x].  The other blocks stay
    listed in their order, and memory changes only in link words of listed
    blocks. *)
Theorem add_to_list_pushes (s : state) (F : Z -> Z -> Prop)
    (ls : nat -> list Z) (x sz : Z) :
  lists_inv s F ls ->
  (forall y sz', F y sz' -> x + 32 <= y \/ y + 32 <= x) ->
  0 < x < two64 -> get_size s x = sz ->
  let s' := add_to_list s x in
  let old := seg s (find_index sz) in
  seg s' (find_index sz) = x /\ get_next s' x = old /\ get_prev s' x = NULL /\
  (old <> NULL -> get_prev s' old = x) /\
  lists_inv s' (fun y sz' => F y sz' \/ (y = x /\ sz' = sz))
               (fun j => if Nat.eqb j (find_index sz) then x :: ls j else ls j) /\
  (forall z, z < x + 8 \/ x + 24 <= z ->
             (forall y sz', F y sz' -> z < y + 8 \/ y + 24 <= z) ->
             mem s' z = mem s z) /\
  same_machine s s'.
Proof.
  intros HL Hnew Hpos Hsz s' old. subst s' old.
  destruct (add_to_list_spec HL Hnew Hpos Hsz) as (H1 & H2 & H3).
  pose proof (find_index_lt sz) as Hi.
  pose proof (li_chain H1 _ Hi) as Hc. cbv beta in Hc. rewrite Nat.eqb_refl in Hc.
  destruct Hc as (Hh & Hp & Hn).
  pose proof (dseg_first _ _ _ _ Hn) as Hn1.
  pose proof (dseg_first _ _ _ _ (li_chain HL _ Hi)) as Ho.
  split; [exact Hh|]. split; [|split; [exact Hp|]].
  { unfold get_next. rewrite load_unfold, Hn1, Ho. reflexivity. }
  split; [|split; [exact H1|split; [|exact H3]]].
  - intros Hne. destruct (ls (find_index sz)) as [|h r] eqn:El.
    + exfalso. apply Hne. exact Ho.
    + cbn [hd] in Ho. destruct Hn as (_ & Hb & _).
      unfold get_prev. rewrite load_unfold, Ho. exact Hb.
  - intros z Hzx Hz. apply H2. intros y sz' [Hy | [-> _]]; [apply (Hz y sz' Hy) | exact Hzx].
Qed.

Lemma add_to_list_pushes_witness :
  let s' := add_to_list unlinked first_block in
  let old := seg unlinked (find_index 4096) in
  seg s' (find_index 4096) = first_block /\ get_next s' first_block = old /\
  get_prev s' first_block = NULL /\
  (old <> NULL -> get_prev s' old = first_block) /\
  lists_inv s' (fun y sz' => unlinked_F y sz' \/ (y = first_block /\ sz' = 4096))
               (fun j => if Nat.eqb j (find_index 4096)
                         then first_block :: unlinked_ls j else unlinked_ls j) /\
  (forall z, z < first_block + 8 \/ first_block + 24 <= z ->
             (forall y sz', unlinked_F y sz' -> z < y + 8 \/ y + 24 <= z) ->
             mem s' z = mem unlinked z) /\
  same_machine unlinked s'.
Proof.
  assert (H1 : forall y sz', unlinked_F y sz' ->
                             first_block + 32 <= y \/ y + 32 <= first_block)
    by (intros y sz' H; destruct (unlinked_F_none y sz' H)).
  assert (H2 : 0 < first_block < two64)
    by (unfold first_block; rewrite two64_val; lia).
  assert (H3 : get_size unlinked first_block = 4096) by (vm_compute; reflexivity).
  exact (add_to_list_pushes unlinked unlinked_F unlinked_ls first_block 4096
           unlinked_lists H1 H2 H3).
Defined.

(** X8: [remove_from_list] undoes [add_to_list]: adding a block that is
    not yet listed and removing it again gives back the array of list
    heads and the lists, block for block in the same order; memory differs
    at most in the two link words of that block and in link words of
    listed blocks. *)
Theorem add_then_remove_restores (s : state) (F : Z -> Z -> Prop)
    (ls : nat -> list Z) (x sz : Z) :
  lists_inv s F ls ->
  (forall y sz', F y sz' -> x + 32 <= y \/ y + 32 <= x) ->
  0 < x < two64 -> get_size s x = sz ->
  let s' := remove_from_list (add_to_list s x) x in
  seg_list s' = seg_list s /\ lists_inv s' F ls /\
  (forall z, z < x + 8 \/ x + 24 <= z ->
             (forall y sz', F y sz' -> z < y + 8 \/ y + 24 <= z) ->
             mem s' z = mem s z) /\
  same_machine s s'.
Proof.
  intros HL Hnew Hpos Hsz s'.
  destruct (add_to_list_spec HL Hnew Hpos Hsz) as (A1 & A2 & A3).
  assert (Hsz1 : get_size (add_to_list s x) x = sz).
  { rewrite <- Hsz. unfold get_size. rewrite !load_unfold. f_equal.
    apply (load64_links_frame _ _ _ _ A2).
    intros y sz' [Hy | [-> _]]; [specialize (Hnew y sz' Hy)|]; lia. }
  destruct (remove_from_list_spec A1 (or_intror (conj eq_refl eq_refl)) Hsz1)
    as (R1 & R2 & R3).
  fold s' in R1, R2, R3.
  assert (Hx : forall j, ~ In x (ls j)).
  { intros j Hin. destruct (li_in HL _ _ Hin) as (sz' & HF & _).
    specialize (Hnew x sz' HF). lia. }
  assert (HL' : lists_inv s' F ls).
  { apply lists_inv_ext_ls
      with (ls := fun j => remove Z.eq_dec x
                     (if Nat.eqb j (find_index sz) then x :: ls j else ls j)).
    - apply (lists_inv_ext _ _ _ _ R1). intros y sz'. split.
      + intros [[Hy | [E _]] Hne]; [exact Hy | contradiction].
      + intros Hy. split; [left; exact Hy|]. intros ->.
        specialize (Hnew x sz' Hy). lia.
    - intros j. destruct (Nat.eqb j (find_index sz)).
      + cbn [remove]. destruct (Z.eq_dec x x) as [_ | N]; [|contradiction].
        symmetry. apply remove_notin. apply Hx.
      + symmetry. apply remove_notin. apply Hx. }
  split; [|split; [exact HL'|split]].
  - apply (nth_ext _ _ NULL NULL).
    + rewrite (li_len HL'), (li_len HL). reflexivity.
    + intros j Hj. rewrite (li_len HL') in Hj.
      change (seg s' j = seg s j).
      rewrite (dseg_first _ _ _ _ (li_chain HL' _ Hj)).
      rewrite (dseg_first _ _ _ _ (li_chain HL _ Hj)). reflexivity.
  - intros z Hzx Hz. rewrite R2, A2; [reflexivity | |].
    + intros y sz' [Hy | [-> _]]; [apply (Hz y sz' Hy) | exact Hzx].
    + intros y sz' [[Hy | [-> _]] _]; [apply (Hz y sz' Hy) | exact Hzx].
  - apply (same_machine_trans _ _ _ A3 R3).
Qed.

Lemma add_then_remove_restores_witness :
  let s' := remove_from_list (add_to_list unlinked first_block) first_block in
  seg_list s' = seg_list unlinked /\ lists_inv s' unlinked_F unlinked_ls /\
  (forall z, z < first_block + 8 \/ first_block + 24 <= z ->
             (forall y sz', unlinked_F y sz' -> z < y + 8 \/ y + 24 <= z) ->
             mem s' z = mem unlinked z) /\
  same_machine unlinked s'.
Proof.
  assert (H1 : forall y sz', unlinked_F y sz' ->
                             first_block + 32 <= y \/ y + 32 <= first_block)
    by (intros y sz' H; destruct (unlinked_F_none y sz' H)).
  assert (H2 : 0 < first_block < two64)
    by (unfold first_block; rewrite two64_val; lia).
  assert (H3 : get_size unlinked first_block = 4096) by (vm_compute; reflexivity).
  exact (add_then_remove_restores unlinked unlinked_F unlinked_ls first_block 4096
           unlinked_lists H1 H2 H3).
Defined.

(* ===================================================================== *)
(** * Further properties: the public calls                               *)
(* ===================================================================== *)

(** ** Two states of a run, with one and two live blocks *)

Lemma one_live_malloc : malloc 16 booted 100 = Some (65552, one_live).
Proof.
  assert (H : option_map fst (malloc 16 booted 100) = Some 65552)
    by (vm_compute; reflexivity).
  unfold one_live. destruct (malloc 16 booted 100) as [[p s]|]; [|discriminate].
  cbn [option_map fst] in H. injection H as ->. reflexivity.
Qed.

Lemma one_live_reachable : reachable one_live [65552].
Proof.
  apply (reach_malloc booted [] 16 100 65552 one_live booted_reachable).
  - rewrite two64_val. lia.
  - exact one_live_malloc.
Qed.

Lemma two_live_malloc : malloc 16 one_live 200 = Some (65664, two_live).
Proof.
  assert (H : option_map fst (malloc 16 one_live 200) = Some 65664)
    by (vm_compute; reflexivity).
  unfold two_live. destruct (malloc 16 one_live 200) as [[p s]|]; [|discriminate].
  cbn [option_map fst] in H. injection H as ->. reflexivity.
Qed.

Lemma two_live_reachable : reachable two_live [65664; 65552].
Proof.
  apply (reach_malloc one_live [65552] 16 200 65664 two_live one_live_reachable).
  - rewrite two64_val. lia.
  - exact two_live_malloc.
Qed.

Lemma fresh_machine_fresh : fresh fresh_machine.
Proof.
  unfold fresh, fresh_machine. cbn [brk heap_lo mem_max]. rewrite two64_val.
  repeat split; try reflexivity; lia.
Qed.

(** ** Initialisation *)

(** A heap without an allocated block is empty or one free block: two free
    blocks never lie side by side. *)
Lemma blocks_all_free m bs : forall a,
  blocks m a true bs ->
  (forall x sz, ~ In (x, sz, true) (layout a bs)) ->
  bs = [] \/ exists sz, bs = [(sz, false)].
Proof.
  destruct bs as [|[sz al] r]; intros a Hb Hn; [left; reflexivity | right].
  destruct al; [exfalso; apply (Hn a sz); left; reflexivity|].
  exists sz. f_equal. destruct r as [|[sz2 al2] r2]; [reflexivity | exfalso].
  cbn [blocks] in Hb. destruct Hb as (_ & _ & _ & _ & _ & _ & _ & Hf & _).
  destruct al2.
  - apply (Hn (a + sz) sz2). right. left. reflexivity.
  - destruct (Hf eq_refl) as [E _]. discriminate.
Qed.

(** X9: on a machine where the allocator has not run, [mm_init] succeeds
    exactly when memlib can give 16 bytes for the two sentinels and 4096
    bytes for the first chunk.  The heap it leaves is the prologue, one
    free block of 4096 bytes right after it, and the epilogue; that block
    is the only node of the list of class 10 and every other list is
    empty. *)
Theorem mm_init_fresh (s0 : state) :
  fresh s0 ->
  (fst (mm_init s0) = true <-> heap_lo s0 + 4112 <= mem_max s0) /\
  (fst (mm_init s0) = true ->
   let s := snd (mm_init s0) in
   heap_lo s = heap_lo s0 /\ heap_start s = heap_lo s0 + 8 /\
   brk s = heap_lo s0 + 4112 /\ mem_max s = mem_max s0 /\
   inv s [(4096, false)]
         (fun i => if Nat.eqb i 10 then [heap_lo s0 + 8] else [])).
Proof.
  intros Hf. pose proof Hf as (Hb & Hlo & Hal & Hmax).
  unfold mm_init.
  destruct (mem_sbrk s0 (2 * wsize)) as [[start s1]|] eqn:Es.
  2:{ unfold mem_sbrk in Es. change (2 * wsize) with 16 in Es.
      destruct ((16 <? 0) || (mem_max s0 <? brk s0 + 16)) eqn:E; [|discriminate].
      cbn [orb] in E. change (16 <? 0) with false in E. cbn [orb] in E.
      apply Z.ltb_lt in E. cbn [fst snd].
      split; [split; [discriminate | lia] | discriminate]. }
  pose proof (sentinels_inv s0 start s1 Hf Es) as Hinv.
  apply mem_sbrk_some in Es. destruct Es as (_ & Hfit & -> & ->).
  change (2 * wsize) with 16 in *.
  set (s4 := set_seg_list _ _) in *.
  assert (F4 : heap_lo s4 = heap_lo s0 /\ heap_start s4 = heap_lo s0 + 8 /\
               brk s4 = heap_lo s0 + 16 /\ mem_max s4 = mem_max s0).
  { unfold s4. cbn. repeat split; lia. }
  destruct F4 as (L4 & S4 & B4 & M4).
  assert (Er : round_up chunksize dsize = 4096) by reflexivity.
  destruct (extend_heap_inv s4 [] _ chunksize Hinv)
    as [[Hn E] | (bs' & ls' & b' & sz' & s' & E & Hinv' & Hsb & Hin & _ & Hsa & _ & _
                  & Hbrk & Hend)];
    rewrite E.
  - rewrite Z.eqb_refl. cbn [fst snd]. rewrite Er in Hn.
    change (to_signed 4096) with 4096 in Hn. unfold mem_sbrk in Hn.
    change (4096 <? 0) with false in Hn. cbn [orb] in Hn.
    destruct (mem_max s4 <? brk s4 + 4096) eqn:E2; [|discriminate].
    apply Z.ltb_lt in E2.
    split; [split; [discriminate | lia] | discriminate].
  - destruct Hsb as (L' & M' & S'). rewrite Er in Hbrk.
    rewrite <- S' in Hin, Hsa.
    destruct (heap_ok_header s' bs' b' sz' false (proj1 Hinv') Hin)
      as (pa & _ & _ & _ & _ & Hpos & _).
    replace (b' =? NULL) with false
      by (symmetry; apply Z.eqb_neq; unfold NULL; lia).
    cbn [fst snd].
    pose proof (ho_max (proj1 Hinv')) as [Hmx _].
    split; [split; [lia | reflexivity]|]. intros _.
    split; [lia|]. split; [lia|]. split; [lia|]. split; [lia|].
    assert (Ebs : bs' = [(4096, false)]).
    { destruct (blocks_all_free _ _ _ (ho_blocks (proj1 Hinv'))) as [-> | (sz & ->)].
      - intros x sz Hx. apply Hsa in Hx. exact Hx.
      - destruct Hin.
      - pose proof (ho_brk (proj1 Hinv')) as Hb'. cbn [total] in Hb'.
        f_equal. f_equal. lia. }
    subst bs'. destruct Hinv' as [HO HL]. split; [exact HO|].
    assert (Hst : heap_start s' = heap_lo s0 + 8) by lia.
    assert (HF : forall y sz, free_in (heap_start s') [(4096, false)] y sz <->
                              y = heap_lo s0 + 8 /\ sz = 4096).
    { intros y sz. unfold free_in. cbn [layout In]. rewrite Hst. split.
      - intros [H | []]. injection H as <- <-. split; reflexivity.
      - intros [-> ->]. left. reflexivity. }
    apply lists_inv_ext_ls with (ls := ls'); [exact HL|].
    intros j.
    assert (Hall : forall x, In x (ls' j) -> x = heap_lo s0 + 8 /\ j = 10%nat).
    { intros x Hx. destruct (li_in HL _ _ Hx) as (sz & Hsz & Hj).
      apply HF in Hsz. destruct Hsz as [-> ->]. split; [reflexivity|].
      rewrite <- Hj. reflexivity. }
    destruct (Nat.eqb j 10) eqn:Ej.
    + apply Nat.eqb_eq in Ej. subst j.
      assert (Hin10 : In (heap_lo s0 + 8) (ls' 10%nat)).
      { apply (li_all HL _ 4096). apply HF. split; reflexivity. }
      pose proof (li_nodup HL 10%nat) as Hnd.
      destruct (ls' 10%nat) as [|x r]; [destruct Hin10|].
      destruct (Hall x (or_introl eq_refl)) as [-> _].
      f_equal. destruct r as [|y r]; [reflexivity | exfalso].
      destruct (Hall y (or_intror (or_introl eq_refl))) as [-> _].
      inversion Hnd as [|? ? Hni _]. apply Hni. left. reflexivity.
    + apply Nat.eqb_neq in Ej.
      destruct (ls' j) as [|x r]; [reflexivity | exfalso].
      destruct (Hall x (or_introl eq_refl)) as [_ Hj]. contradiction.
Qed.

Lemma mm_init_fresh_witness :
  (fst (mm_init fresh_machine) = true <->
   heap_lo fresh_machine + 4112 <= mem_max fresh_machine) /\
  (fst (mm_init fresh_machine) = true ->
   let s := snd (mm_init fresh_machine) in
   heap_lo s = heap_lo fresh_machine /\ heap_start s = heap_lo fresh_machine + 8 /\
   brk s = heap_lo fresh_machine + 4112 /\ mem_max s = mem_max fresh_machine /\
   inv s [(4096, false)]
         (fun i => if Nat.eqb i 10 then [heap_lo fresh_machine + 8] else [])).
Proof. exact (mm_init_fresh fresh_machine fresh_machine_fresh). Defined.

(** ** Live blocks across a call *)

Lemma live_kept_of s s' bs bs' (A : Z -> Z -> Prop) p sz :
  heap_ok s bs -> heap_ok s' bs' -> heap_start s' = heap_start s ->
  In (p - 8, sz, true) (layout (heap_start s) bs) ->
  In (p - 8, sz, true) (layout (heap_start s) bs') ->
  keeps A (mem s) (mem s') -> A (p - 8) sz ->
  live_kept s s' p.
Proof.
  intros HO HO' Hs Hin Hin' Hk HA. rewrite <- Hs in Hin'.
  destruct (heap_ok_header s bs _ sz true HO Hin) as (pa & _ & _ & _ & _ & _ & _ & Hsz & _).
  destruct (heap_ok_header s' bs' _ sz true HO' Hin')
    as (pa' & _ & _ & _ & _ & _ & _ & Hsz' & Hal' & _).
  split; [exact Hal'|]. split; [congruence|].
  rewrite Hsz. intros i Hi. apply (Hk (p - 8) sz); [exact HA | lia].
Qed.

Lemma live_kept_refl s bs p sz :
  heap_ok s bs -> In (p - 8, sz, true) (layout (heap_start s) bs) -> live_kept s s p.
Proof.
  intros HO Hin.
  destruct (heap_ok_header s bs _ sz true HO Hin) as (pa & _ & _ & _ & _ & _ & _ & _ & Hal & _).
  split; [exact Hal|]. split; reflexivity.
Qed.

(** The neighbours of a free block of a regular heap are allocated: the
    block before it, by the [prev_alloc] bit, and the block or epilogue
    after it. *)
Lemma free_block_neighbours s bs x sz :
  heap_ok s bs -> In (x, sz, false) (layout (heap_start s) bs) ->
  get_size s x = sz /\ get_alloc s x = false /\ get_prev_alloc s x = true /\
  get_alloc s (x + sz) = true /\ get_prev_alloc s (x + sz) = false.
Proof.
  intros HO Hin.
  destruct (free_block_facts s bs x sz HO Hin)
    as (l1 & l2 & Ebs & Ex & _ & Hx & _ & _ & B2 & Hepi & S32 & S16 & T1 & T2 & Hbrk).
  destruct (heap_ok_header s bs x sz false HO Hin) as (pa & _ & _ & _ & Slt & _).
  destruct (tag_fields s x sz false true Hx S16 ltac:(lia)) as (F1 & F2 & F3).
  split; [exact F1|]. split; [exact F2|]. split; [exact F3|].
  destruct l2 as [|[sz2 al2] r2].
  - cbn [total last_alloc] in *. replace (x + sz) with (brk s - 8) by lia.
    destruct (tag_fields s _ 0 true false Hepi eq_refl ltac:(rewrite two64_val; lia))
      as (_ & E2 & E3).
    split; assumption.
  - cbn [blocks] in B2. destruct B2 as (N32 & N16 & Hn & Hf & _).
    destruct al2; [|destruct (Hf eq_refl) as [E _]; discriminate].
    assert (Hin2 : In (x + sz, sz2, true) (layout (heap_start s) bs)).
    { rewrite Ebs, layout_app. apply in_or_app. right. right. left.
      f_equal. f_equal. lia. }
    destruct (heap_ok_header s bs _ sz2 true HO Hin2) as (pa2 & _ & _ & _ & Nlt & _).
    rewrite <- load_unfold in Hn.
    destruct (tag_fields s _ sz2 true false Hn N16 ltac:(lia)) as (_ & E2 & E3).
    split; assumption.
Qed.

(** ** [extend_heap] *)

(** X10: in a state of a run, [extend_heap] returns [NULL] exactly when
    [mem_sbrk] refuses the rounded size.  Otherwise the break has moved up
    by exactly the rounded size, the block returned is free, at least that
    large (it has absorbed a free block before it, if there was one) and
    ends at the new epilogue; the heap is regular with the same live
    blocks, each with its size and payload bytes. *)
Theorem extend_heap_grows (s : state) (L : list Z) (size : Z) :
  reachable s L ->
  let b := fst (extend_heap s size) in
  let s' := snd (extend_heap s size) in
  (b = NULL <-> mem_sbrk s (to_signed (round_up size dsize)) = None) /\
  (b <> NULL ->
   brk s' = brk s + round_up size dsize /\ heap_lo s' = heap_lo s /\
   get_alloc s' b = false /\ get_prev_alloc s' b = true /\
   round_up size dsize <= get_size s' b /\
   b + get_size s' b = brk s' - 8 /\
   good s' L /\ forall p, In p L -> live_kept s s' p).
Proof.
  intros Hr b s'. subst b s'. apply reachable_good in Hr.
  destruct Hr as (bs & ls & Hinv & HLv).
  destruct (extend_heap_inv s bs ls size Hinv)
    as [[Hn E] | (bs' & ls' & b' & sz' & s' & E & Hinv' & Hsb & Hin & Hle & Hsa & _ & Hk
                  & Hbrk & Hend)];
    rewrite E; cbn [fst snd].
  - split; [split; [intros _; exact Hn | reflexivity]|]. intros H. contradiction.
  - assert (Hs : heap_start s' = heap_start s) by apply Hsb.
    rewrite <- Hs in Hin.
    destruct (heap_ok_header s' bs' b' sz' false (proj1 Hinv') Hin)
      as (pa & _ & _ & _ & _ & Hpos & _).
    destruct (free_block_neighbours s' bs' b' sz' (proj1 Hinv') Hin)
      as (N1 & N2 & N3 & _).
    split.
    + split; [intros ->; unfold NULL in Hpos; lia|].
      intros Hn. unfold extend_heap in E. rewrite Hn in E.
      injection E as <- _. unfold NULL in Hpos. lia.
    + intros _. rewrite N1.
      split; [exact Hbrk|]. split; [apply Hsb|]. split; [exact N2|].
      split; [exact N3|]. split; [exact Hle|]. split; [exact Hend|].
      split.
      * exists bs', ls'. split; [exact Hinv'|]. intros p. rewrite Hs.
        rewrite (HLv p). split; intros (sz & Hp); exists sz; apply Hsa; exact Hp.
      * intros p Hp. apply HLv in Hp. destruct Hp as (sz & Hp).
        apply (live_kept_of s s' bs bs' (allocated_in (heap_start s) bs) p sz
                 (proj1 Hinv) (proj1 Hinv') Hs Hp);
          [apply Hsa; exact Hp | exact Hk | exact Hp].
Qed.

Lemma extend_heap_grows_witness :
  let b := fst (extend_heap one_live 4096) in
  let s' := snd (extend_heap one_live 4096) in
  (b = NULL <-> mem_sbrk one_live (to_signed (round_up 4096 dsize)) = None) /\
  (b <> NULL ->
   brk s' = brk one_live + round_up 4096 dsize /\ heap_lo s' = heap_lo one_live /\
   get_alloc s' b = false /\ get_prev_alloc s' b = true /\
   round_up 4096 dsize <= get_size s' b /\
   b + get_size s' b = brk s' - 8 /\
   good s' [65552] /\ forall p, In p [65552] -> live_kept one_live s' p).
Proof. exact (extend_heap_grows one_live [65552] 4096 one_live_reachable). Defined.

(** ** [free] *)

(** X11: in a state of a run, [free] of a live pointer leaves the break
    where it was and the heap regular, with that pointer live no more.
    The bytes of the freed block lie in one free block, whose neighbours
    on both sides are allocated: it has been merged with every free
    neighbour.  Every other live block keeps its size and its payload
    bytes. *)
Theorem free_releases (s : state) (L : list Z) (p : Z) :
  reachable s L -> In p L ->
  let s' := free s p in
  brk s' = brk s /\ heap_lo s' = heap_lo s /\
  good s' (after_free L p) /\ ~ In p (after_free L p) /\
  (exists x, x <= p - 8 /\ p - 8 + get_size s (p - 8) <= x + get_size s' x /\
             get_alloc s' x = false /\ get_prev_alloc s' x = true /\
             get_alloc s' (x + get_size s' x) = true) /\
  (forall q, In q L -> q <> p -> live_kept s s' q).
Proof.
  intros Hr Hp s'. pose proof (reachable_good s L Hr) as HG.
  pose proof (good_free s L p HG (or_intror Hp)) as HG'.
  destruct HG as (bs & ls & Hinv & HLv).
  pose proof Hp as Hp'. apply HLv in Hp'. destruct Hp' as (sz & Hin).
  destruct (heap_ok_header s bs _ sz true (proj1 Hinv) Hin)
    as (pa & _ & _ & _ & _ & _ & _ & Hsz & _).
  destruct (free_inv s bs ls p sz Hinv Hin)
    as (bs' & ls' & Hinv' & Hsm & Hal & Hk & (x & sz' & Hx & Hc1 & Hc2)).
  fold s' in Hinv', Hsm, Hk.
  assert (Hs : heap_start s' = heap_start s) by apply Hsm.
  split; [apply Hsm|]. split; [apply Hsm|]. split; [exact HG'|].
  split; [rewrite in_after_free; intros [_ H]; apply H; reflexivity|].
  split.
  - rewrite <- Hs in Hx.
    destruct (free_block_neighbours s' bs' x sz' (proj1 Hinv') Hx)
      as (N1 & N2 & N3 & N4 & _).
    exists x. rewrite N1, Hsz. repeat (split; [assumption|]). assumption.
  - intros q Hq Hne. apply HLv in Hq. destruct Hq as (szq & Hq).
    assert (Hq' : In (q - 8, szq, true) (layout (heap_start s) bs')).
    { apply Hal. split; [exact Hq | lia]. }
    apply (live_kept_of s s' bs bs' (allocated_in (heap_start s) bs') q szq
             (proj1 Hinv) (proj1 Hinv') Hs Hq Hq' Hk Hq').
Qed.

Lemma free_releases_witness :
  let s' := free two_live 65552 in
  brk s' = brk two_live /\ heap_lo s' = heap_lo two_live /\
  good s' (after_free [65664; 65552] 65552) /\
  ~ In 65552 (after_free [65664; 65552] 65552) /\
  (exists x, x <= 65552 - 8 /\
             65552 - 8 + get_size two_live (65552 - 8) <= x + get_size s' x /\
             get_alloc s' x = false /\ get_prev_alloc s' x = true /\
             get_alloc s' (x + get_size s' x) = true) /\
  (forall q, In q [65664; 65552] -> q <> 65552 -> live_kept two_live s' q).
Proof.
  assert (H : In 65552 [65664; 65552]) by (right; left; reflexivity).
  exact (free_releases two_live [65664; 65552] 65552 two_live_reachable H).
Defined.

(** ** [malloc] *)

(** X12: in a state of a run, [malloc] returns [NULL] in two cases only: a
    request of 0 bytes, or no fit on the lists and a [mem_sbrk] that
    refuses [max (asize, chunksize)] bytes; the state is then the one
    before the call.  A request served from the lists leaves the break
    where it was; one served by extending the heap moves it up by exactly
    [max (asize, chunksize)]. *)
Theorem malloc_growth (s : state) (L : list Z) (fuel : nat) (n p : Z) (s' : state) :
  reachable s L -> malloc fuel s n = Some (p, s') ->
  let e := max (adjusted_size n) chunksize in
  (p = NULL <->
   n = 0 \/ (find_fit fuel s (adjusted_size n) = Some NULL /\
             mem_sbrk s (to_signed e) = None)) /\
  (p = NULL -> s' = s) /\
  (p <> NULL ->
   heap_lo s' = heap_lo s /\
   (find_fit fuel s (adjusted_size n) = Some NULL -> brk s' = brk s + e) /\
   (find_fit fuel s (adjusted_size n) <> Some NULL -> brk s' = brk s)).
Proof.
  intros Hr Hm e. subst e. apply reachable_good in Hr.
  destruct Hr as (bs & ls & Hinv & HLv).
  unfold malloc in Hm. rewrite (lazy_init_inv s bs ls Hinv) in Hm.
  destruct (n =? 0) eqn:En.
  { apply Z.eqb_eq in En. injection Hm as <- <-.
    split; [split; [intros _; left; exact En | reflexivity]|].
    split; [reflexivity|]. intros H. exfalso. apply H. reflexivity. }
  apply Z.eqb_neq in En.
  destruct (adjusted_size_16 n) as [[A32 Alt] A16].
  destruct (find_fit fuel s (adjusted_size n)) as [b|] eqn:Ef; [|discriminate].
  destruct (find_fit_inv s bs ls _ fuel b Hinv Ef) as [-> | (sz & Hin & Hle)].
  - rewrite Z.eqb_refl in Hm.
    destruct (extendsize_ok n) as [Er Ele].
    destruct (extend_heap_inv s bs ls (max (adjusted_size n) chunksize) Hinv)
      as [[Hn E] | (bs1 & ls1 & b' & sz1 & s1 & E & Hinv1 & Hb & Hin & Hle & _ & _ & _
                    & Hbrk & _)];
      rewrite E in Hm.
    + rewrite Z.eqb_refl in Hm. injection Hm as <- <-. rewrite Er in Hn.
      split; [split; [intros _; right; split; [reflexivity | exact Hn] | reflexivity]|].
      split; [reflexivity|]. intros H. exfalso. apply H. reflexivity.
    + assert (Hs1 : heap_start s1 = heap_start s) by apply Hb.
      rewrite <- Hs1 in Hin.
      destruct (heap_ok_header s1 bs1 b' sz1 false (proj1 Hinv1) Hin)
        as (pa & _ & _ & _ & _ & Hpos & _).
      replace (b' =? NULL) with false in Hm
        by (symmetry; apply Z.eqb_neq; unfold NULL; lia).
      injection Hm as <- <-. rewrite Er in Hle, Hbrk.
      destruct (split_block_inv Hinv1 Hin A16 ltac:(lia) ltac:(lia) A32)
        as (bs' & ls' & sz' & _ & Hsm & _).
      destruct Hsm as (S1 & S2 & _). destruct Hb as (B1 & _).
      assert (Hp : header_to_payload b' <> NULL)
        by (unfold header_to_payload, NULL; lia).
      split; [split; [intros H; contradiction|]|].
      { intros [H | [_ Hn]]; [contradiction|]. exfalso.
        unfold extend_heap in E. rewrite Er, Hn in E. injection E as <- _.
        unfold NULL in Hpos. lia. }
      split; [intros H; contradiction|]. intros _.
      split; [congruence|]. split; [intros _; congruence|].
      intros H. exfalso. apply H. reflexivity.
  - destruct (heap_ok_header s bs b sz false (proj1 Hinv) Hin)
      as (pa & _ & _ & _ & _ & Hpos & _).
    replace (b =? NULL) with false in Hm
      by (symmetry; apply Z.eqb_neq; unfold NULL; lia).
    injection Hm as <- <-.
    destruct (split_block_inv Hinv Hin A16 ltac:(lia) Hle A32)
      as (bs' & ls' & sz' & _ & Hsm & _).
    destruct Hsm as (S1 & S2 & _).
    assert (Hp : header_to_payload b <> NULL)
      by (unfold header_to_payload, NULL; lia).
    split; [split; [intros H; contradiction|]|].
    { intros [H | [Hf _]]; [contradiction|]. injection Hf as ->.
      unfold NULL in Hpos. lia. }
    split; [intros H; contradiction|]. intros _.
    split; [exact S1|]. split; [|intros _; exact S2].
    intros Hf. injection Hf as ->. unfold NULL in Hpos. lia.
Qed.

Lemma malloc_growth_witness :
  let e := max (adjusted_size 200) chunksize in
  (65664 = NULL <->
   200 = 0 \/ (find_fit 16 one_live (adjusted_size 200) = Some NULL /\
               mem_sbrk one_live (to_signed e) = None)) /\
  (65664 = NULL -> two_live = one_live) /\
  (65664 <> NULL ->
   heap_lo two_live = heap_lo one_live /\
   (find_fit 16 one_live (adjusted_size 200) = Some NULL ->
    brk two_live = brk one_live + e) /\
   (find_fit 16 one_live (adjusted_size 200) <> Some NULL ->
    brk two_live = brk one_live)).
Proof.
  exact (malloc_growth one_live [65552] 16 200 65664 two_live
           one_live_reachable two_live_malloc).
Defined.

(** X13: in a state of a run, a pointer that [malloc] returns is new,
    16-byte aligned, and begins the payload of an allocated block inside
    the heap that has at least the adjusted size, hence room for the
    request when the adjustment does not wrap.  That block overlaps no
    block that was live, and every live block keeps its size and its
    payload bytes. *)
Theorem malloc_keeps_live (s : state) (L : list Z) (fuel : nat) (n p : Z) (s' : state) :
  reachable s L -> malloc fuel s n = Some (p, s') -> p <> NULL ->
  ~ In p L /\ p mod 16 = 0 /\ get_alloc s' (p - 8) = true /\
  adjusted_size n <= get_size s' (p - 8) /\
  (0 <= n -> n + 23 < two64 -> n <= get_size s' (p - 8) - 8) /\
  heap_lo s' + 16 <= p /\ p - 8 + get_size s' (p - 8) <= brk s' - 8 /\
  forall q, In q L ->
    live_kept s s' q /\
    (q - 8 + get_size s (q - 8) <= p - 8 \/ p - 8 + get_size s' (p - 8) <= q - 8).
Proof.
  intros Hr Hm Hp. apply reachable_good in Hr.
  destruct Hr as (bs & ls & Hinv & HLv).
  destruct (malloc_inv fuel s bs ls n p s' Hinv Hm)
    as [[E _] | (bs' & ls' & sz' & Hinv' & Hb & Hpos & Hin & Hsz & Hnew & Hal & Hk)];
    [contradiction|].
  assert (Hs : heap_start s' = heap_start s) by apply Hb.
  pose proof Hin as Hin'. rewrite <- Hs in Hin'.
  destruct (heap_ok_header s' bs' _ sz' true (proj1 Hinv') Hin')
    as (pa & _ & S32 & _ & _ & _ & Hend & Hsize & Halloc & _).
  pose proof (payload_aligned s' bs' _ sz' true (proj1 Hinv') Hin') as Ha.
  replace (p - 8 + 8) with p in Ha by lia.
  pose proof (heap_ok_sizes _ _ (proj1 Hinv')) as Hss.
  pose proof (layout_range _ _ _ _ _ Hss Hin') as (Hlo & _).
  pose proof (ho_start (proj1 Hinv')) as Hst.
  rewrite Hsize.
  split; [intros Hi; apply HLv in Hi; destruct Hi as (sz & Hi); apply (Hnew sz Hi)|].
  split; [exact Ha|]. split; [exact Halloc|]. split; [exact Hsz|].
  split; [intros H0 Hw; pose proof (adjusted_size_room n H0 Hw); lia|].
  split; [lia|]. split; [exact Hend|].
  intros q Hq. apply HLv in Hq. destruct Hq as (szq & Hq).
  assert (Hq' : In (q - 8, szq, true) (layout (heap_start s) bs'))
    by (apply Hal; left; exact Hq).
  destruct (heap_ok_header s bs _ szq true (proj1 Hinv) Hq)
    as (pq & _ & _ & _ & _ & _ & _ & Hszq & _).
  split.
  - apply (live_kept_of s s' bs bs' (allocated_in (heap_start s) bs) q szq
             (proj1 Hinv) (proj1 Hinv') Hs Hq Hq' Hk Hq).
  - rewrite Hszq. rewrite <- Hs in Hq'.
    destruct (layout_sep _ _ _ _ _ _ _ _ Hss Hq' Hin') as [(E & E2 & _) | Hd];
      [|exact Hd].
    exfalso. apply (Hnew szq). rewrite <- E. exact Hq.
Qed.

Lemma malloc_keeps_live_witness :
  ~ In 65664 [65552] /\ 65664 mod 16 = 0 /\ get_alloc two_live (65664 - 8) = true /\
  adjusted_size 200 <= get_size two_live (65664 - 8) /\
  (0 <= 200 -> 200 + 23 < two64 -> 200 <= get_size two_live (65664 - 8) - 8) /\
  heap_lo two_live + 16 <= 65664 /\
  65664 - 8 + get_size two_live (65664 - 8) <= brk two_live - 8 /\
  forall q, In q [65552] ->
    live_kept one_live two_live q /\
    (q - 8 + get_size one_live (q - 8) <= 65664 - 8 \/
     65664 - 8 + get_size two_live (65664 - 8) <= q - 8).
Proof.
  assert (H : 65664 <> NULL) by (unfold NULL; lia).
  exact (malloc_keeps_live one_live [65552] 16 200 65664 two_live
           one_live_reachable two_live_malloc H).
Defined.

(** X14: in a state of a run every live pointer is 16-byte aligned and
    begins the payload of an allocated block that lies between the
    prologue and the epilogue, of a size that is a multiple of 16 and at
    least 32; the blocks of two different live pointers do not overlap. *)
Theorem live_blocks_apart (s : state) (L : list Z) (p q : Z) :
  reachable s L -> In p L -> In q L -> p <> q ->
  (p mod 16 = 0 /\ get_alloc s (p - 8) = true /\
   32 <= get_size s (p - 8) /\ get_size s (p - 8) mod 16 = 0 /\
   heap_lo s + 16 <= p /\ p - 8 + get_size s (p - 8) <= brk s - 8) /\
  (p - 8 + get_size s (p - 8) <= q - 8 \/ q - 8 + get_size s (q - 8) <= p - 8).
Proof.
  intros Hr Hp Hq Hne. apply reachable_good in Hr.
  destruct Hr as (bs & ls & Hinv & HLv).
  apply HLv in Hp. destruct Hp as (szp & Hp).
  apply HLv in Hq. destruct Hq as (szq & Hq).
  destruct (heap_ok_header s bs _ szp true (proj1 Hinv) Hp)
    as (pa & _ & P32 & P16 & _ & _ & Pend & Psz & Pal & _).
  destruct (heap_ok_header s bs _ szq true (proj1 Hinv) Hq)
    as (qa & _ & _ & _ & _ & _ & _ & Qsz & _).
  pose proof (payload_aligned s bs _ szp true (proj1 Hinv) Hp) as Ha.
  replace (p - 8 + 8) with p in Ha by lia.
  pose proof (heap_ok_sizes _ _ (proj1 Hinv)) as Hss.
  pose proof (layout_range _ _ _ _ _ Hss Hp) as (Hlo & _).
  pose proof (ho_start (proj1 Hinv)) as Hst.
  rewrite Psz, Qsz. split.
  - repeat (split; [assumption|]). split; [lia | exact Pend].
  - destruct (layout_sep _ _ _ _ _ _ _ _ Hss Hp Hq) as [(E & _) | Hd]; [lia | exact Hd].
Qed.

Lemma live_blocks_apart_witness :
  (65552 mod 16 = 0 /\ get_alloc two_live (65552 - 8) = true /\
   32 <= get_size two_live (65552 - 8) /\ get_size two_live (65552 - 8) mod 16 = 0 /\
   heap_lo two_live + 16 <= 65552 /\
   65552 - 8 + get_size two_live (65552 - 8) <= brk two_live - 8) /\
  (65552 - 8 + get_size two_live (65552 - 8) <= 65664 - 8 \/
   65664 - 8 + get_size two_live (65664 - 8) <= 65552 - 8).
Proof.
  assert (H1 : In 65552 [65664; 65552]) by (right; left; reflexivity).
  assert (H2 : In 65664 [65664; 65552]) by (left; reflexivity).
  assert (H3 : 65552 <> 65664) by lia.
  exact (live_blocks_apart two_live [65664; 65552] 65552 65664
           two_live_reachable H1 H2 H3).
Defined.

(** ** [realloc] and [calloc] *)

(** X15: in a state of a run, [realloc] of a live pointer [p] to [n]
    bytes, [n] positive and at most [2^64 - 24], returns [NULL] with the
    state untouched, or a new pointer [q] to an allocated block with room
    for [n] bytes whose first [min n (old payload size)] bytes are those
    that were at [p]; [p] is live no more, and every other live block
    keeps its size and its payload bytes. *)
Theorem realloc_moves_block (s : state) (L : list Z) (fuel : nat) (p n q : Z)
    (s' : state) :
  reachable s L -> In p L -> 0 < n -> n + 23 < two64 ->
  realloc fuel s p n = Some (q, s') ->
  (q = NULL /\ s' = s) \/
  (q <> NULL /\ ~ In q L /\ get_alloc s' (q - 8) = true /\
   n <= get_size s' (q - 8) - 8 /\
   (forall i, 0 <= i < Z.min n (get_size s (p - 8) - 8) ->
              mem s' (q + i) = mem s (p + i)) /\
   (forall r, In r L -> r <> p -> live_kept s s' r) /\
   good s' (q :: after_free L p)).
Proof.
  intros Hr Hp Hn0 Hw H.
  pose proof (realloc_keeps_bytes s L fuel p n q s' Hr Hp Hn0 Hw H) as Hbytes.
  pose proof (reachable_good s L Hr) as HG.
  pose proof (good_realloc fuel s L p n q s' HG (or_intror Hp)
                ltac:(lia) (or_intror Hw) H) as HG'.
  destruct HG as (bs & ls & Hinv & HLv).
  pose proof Hp as Hp'. apply HLv in Hp'. destruct Hp' as (szp & Hinp).
  destruct (heap_ok_header s bs _ szp true (proj1 Hinv) Hinp)
    as (pa & _ & P32 & _ & Plt & Ppos & _ & Psz & _).
  unfold realloc in H. unfold after_realloc in HG'.
  replace (n =? 0) with false in * by (symmetry; apply Z.eqb_neq; lia).
  replace (p =? NULL) with false in *
    by (symmetry; apply Z.eqb_neq; unfold NULL; lia).
  destruct (malloc fuel s n) as [[q0 s1]|] eqn:Em; [|discriminate].
  destruct (malloc_inv fuel s bs ls n q0 s1 Hinv Em)
    as [[-> ->] | (bs1 & ls1 & sz1 & Hinv1 & Hb & Hpos & Hin & Hsz & Hnew & Hal & Hk1)].
  { rewrite Z.eqb_refl in H. injection H as <- <-. left. split; reflexivity. }
  assert (Eq0 : (q0 =? NULL) = false) by (apply Z.eqb_neq; unfold NULL; lia).
  rewrite Eq0 in H. injection H as <- <-. rewrite Eq0 in HG'. right.
  destruct Hbytes as [[E _] | (B1 & _ & B3 & _ & _ & B6)];
    [unfold NULL in E; lia|].
  assert (Hs1 : heap_start s1 = heap_start s) by apply Hb.
  set (copysize := if n <? get_payload_size s1 (payload_to_header p)
                   then n else get_payload_size s1 (payload_to_header p)) in *.
  assert (Hc : copysize <= n).
  { unfold copysize. destruct (n <? _) eqn:E; [lia|]. apply Z.ltb_ge in E. exact E. }
  pose proof (adjusted_size_room n ltac:(lia) Hw) as Hroom.
  set (s2 := set_mem s1 (memcpy (mem s1) q0 p copysize)) in *.
  assert (Hcopy : forall z, z < q0 \/ q0 - 8 + sz1 <= z -> mem s2 z = mem s1 z).
  { intros z Hz. unfold s2. cbn [set_mem mem]. unfold memcpy.
    replace ((q0 <=? z) && (z <? q0 + copysize)) with false; [reflexivity|].
    symmetry. apply andb_false_iff.
    destruct Hz as [Hz | Hz]; [left; apply Z.leb_gt; lia | right; apply Z.ltb_ge; lia]. }
  assert (Hinv2 : inv s2 bs1 ls1).
  { apply payload_write_inv with (x := q0 - 8) (sz := sz1).
    - exact Hinv1.
    - rewrite Hs1. exact Hin.
    - intros z Hz. apply Hcopy. lia. }
  assert (Hinp1 : In (p - 8, szp, true) (layout (heap_start s2) bs1)).
  { change (heap_start s2) with (heap_start s1). rewrite Hs1. apply Hal. left. exact Hinp. }
  destruct (free_inv s2 bs1 ls1 p szp Hinv2 Hinp1)
    as (bs' & ls' & Hinv' & Hsm & Hal' & Hk' & _).
  assert (Hs2 : heap_start (free s2 p) = heap_start s).
  { destruct Hsm as (_ & _ & _ & Hs2). rewrite Hs2. exact Hs1. }
  change (heap_start s2) with (heap_start s1) in Hal', Hk'. rewrite Hs1 in Hal', Hk'.
  assert (Hqp : q0 <> p) by (intros ->; apply (Hnew szp); exact Hinp).
  assert (Hq' : In (q0 - 8, sz1, true) (layout (heap_start (free s2 p)) bs')).
  { rewrite Hs2. apply Hal'. split; [exact Hin | lia]. }
  destruct (heap_ok_header _ bs' _ sz1 true (proj1 Hinv') Hq')
    as (qa & _ & _ & _ & _ & _ & _ & Qsz & Qal & _).
  pose proof (heap_ok_sizes _ _ (proj1 Hinv1)) as Hss1.
  split; [exact B1|]. split; [exact B3|]. split; [exact Qal|].
  split; [rewrite Qsz; lia|]. split; [exact B6|]. split; [|exact HG'].
  intros r Hrr Hne. apply HLv in Hrr. destruct Hrr as (szr & Hinr).
  assert (Hinr1 : In (r - 8, szr, true) (layout (heap_start s) bs1))
    by (apply Hal; left; exact Hinr).
  assert (Hinr' : In (r - 8, szr, true) (layout (heap_start s) bs')).
  { apply Hal'. split; [exact Hinr1 | lia]. }
  apply (live_kept_of s (free s2 p) bs bs'
           (fun y szy => y = r - 8 /\ szy = szr) r szr
           (proj1 Hinv) (proj1 Hinv') Hs2 Hinr Hinr'); [|split; reflexivity].
  intros y szy z [-> ->] Hz.
  rewrite (Hk' (r - 8) szr z Hinr' Hz).
  rewrite Hcopy.
  - apply (Hk1 (r - 8) szr z Hinr Hz).
  - rewrite <- Hs1 in Hinr1, Hin.
    destruct (layout_sep _ _ _ _ _ _ _ _ Hss1 Hinr1 Hin) as [(E & _) | Hd]; [|lia].
    exfalso. apply (Hnew szr). rewrite <- E. exact Hinr.
Qed.

Lemma one_live_realloc : realloc 16 one_live 65552 300 = Some (65664, moved).
Proof.
  assert (H : option_map fst (realloc 16 one_live 65552 300) = Some 65664)
    by (vm_compute; reflexivity).
  unfold moved. destruct (realloc 16 one_live 65552 300) as [[q s']|]; [|discriminate].
  cbn [option_map fst] in H. injection H as ->. reflexivity.
Qed.

Lemma realloc_moves_block_witness :
  (65664 = NULL /\ moved = one_live) \/
  (65664 <> NULL /\ ~ In 65664 [65552] /\ get_alloc moved (65664 - 8) = true /\
   300 <= get_size moved (65664 - 8) - 8 /\
   (forall i, 0 <= i < Z.min 300 (get_size one_live (65552 - 8) - 8) ->
              mem moved (65664 + i) = mem one_live (65552 + i)) /\
   (forall r, In r [65552] -> r <> 65552 -> live_kept one_live moved r) /\
   good moved (65664 :: after_free [65552] 65552)).
Proof.
  assert (H1 : In 65552 [65552]) by (left; reflexivity).
  assert (H2 : 0 < 300) by lia.
  assert (H3 : 300 + 23 < two64) by (rewrite two64_val; lia).
  exact (realloc_moves_block one_live [65552] 16 65552 300 65664 moved
           one_live_reachable H1 H2 H3 one_live_realloc).
Defined.

(** X16: in a state of a run, when the product [c * n] is at most
    [2^64 - 24], a pointer that [calloc] returns is new and begins the
    payload of an allocated block with room for [c * n] bytes; those bytes
    are zero, and every block that was live keeps its size and its
    payload bytes. *)
Theorem calloc_keeps_live (s : state) (L : list Z) (fuel : nat) (c n p : Z)
    (s' : state) :
  reachable s L -> 0 <= c < two64 -> 0 <= n < two64 -> c * n + 23 < two64 ->
  calloc fuel s c n = Some (p, s') -> p <> NULL ->
  ~ In p L /\ get_alloc s' (p - 8) = true /\ c * n <= get_size s' (p - 8) - 8 /\
  (forall i, 0 <= i < c * n -> mem s' (p + i) = 0) /\
  (forall q, In q L -> live_kept s s' q) /\ good s' (p :: L).
Proof.
  intros Hr Hc Hn Hw H Hp.
  pose proof (reachable_good s L Hr) as HG.
  pose proof (good_calloc fuel s L c n p s' HG Hc Hn (or_intror Hw) H) as HG'.
  unfold after_malloc in HG'.
  replace (p =? NULL) with false in HG' by (symmetry; apply Z.eqb_neq; exact Hp).
  destruct HG as (bs & ls & Hinv & HLv).
  unfold calloc in H.
  destruct (c =? 0) eqn:Ec; [injection H as E _; congruence|].
  apply Z.eqb_neq in Ec. rewrite calloc_overflow_test in H by lia.
  replace (c * n <? two64) with true in H by (symmetry; apply Z.ltb_lt; lia).
  cbn [negb] in H.
  assert (Ew : wrap64 (c * n) = c * n) by (unfold wrap64; apply Z.mod_small; nia).
  rewrite Ew in H.
  destruct (malloc fuel s (c * n)) as [[bp s1]|] eqn:Em; [|discriminate].
  destruct (bp =? NULL) eqn:Eb; [injection H as E _; congruence|].
  injection H as <- <-.
  destruct (malloc_inv fuel s bs ls (c * n) bp s1 Hinv Em)
    as [[E _] | (bs1 & ls1 & sz1 & Hinv1 & Hb & Hpos & Hin & Hsz & Hnew & Hal & Hk1)];
    [contradiction|].
  assert (Hs1 : heap_start s1 = heap_start s) by apply Hb.
  pose proof (adjusted_size_room (c * n) ltac:(nia) Hw) as Hroom.
  set (s2 := set_mem s1 (memset (mem s1) bp 0 (c * n))) in *.
  assert (Hset : forall z, z < bp \/ bp - 8 + sz1 <= z -> mem s2 z = mem s1 z).
  { intros z Hz. unfold s2. cbn [set_mem mem]. unfold memset.
    replace ((bp <=? z) && (z <? bp + c * n)) with false; [reflexivity|].
    symmetry. apply andb_false_iff.
    destruct Hz as [Hz | Hz]; [left; apply Z.leb_gt; lia | right; apply Z.ltb_ge; lia]. }
  assert (Hinv2 : inv s2 bs1 ls1).
  { apply payload_write_inv with (x := bp - 8) (sz := sz1).
    - exact Hinv1.
    - rewrite Hs1. exact Hin.
    - intros z Hz. apply Hset. lia. }
  assert (Hin2 : In (bp - 8, sz1, true) (layout (heap_start s2) bs1)).
  { change (heap_start s2) with (heap_start s1). rewrite Hs1. exact Hin. }
  destruct (heap_ok_header s2 bs1 _ sz1 true (proj1 Hinv2) Hin2)
    as (qa & _ & _ & _ & _ & _ & _ & Qsz & Qal & _).
  pose proof (heap_ok_sizes _ _ (proj1 Hinv1)) as Hss1.
  split; [intros Hi; apply HLv in Hi; destruct Hi as (sz & Hi); apply (Hnew sz Hi)|].
  split; [exact Qal|]. split; [rewrite Qsz; lia|]. split; [|split; [|exact HG']].
  - intros i Hi. unfold s2. cbn [set_mem mem]. unfold memset.
    replace ((bp <=? bp + i) && (bp + i <? bp + c * n)) with true; [reflexivity|].
    symmetry. apply andb_true_iff. split; [apply Z.leb_le | apply Z.ltb_lt]; lia.
  - intros q Hq. apply HLv in Hq. destruct Hq as (szq & Hinq).
    assert (Hinq1 : In (q - 8, szq, true) (layout (heap_start s) bs1))
      by (apply Hal; left; exact Hinq).
    apply (live_kept_of s s2 bs bs1
             (fun y szy => y = q - 8 /\ szy = szq) q szq
             (proj1 Hinv) (proj1 Hinv2) Hs1 Hinq Hinq1); [|split; reflexivity].
    intros y szy z [-> ->] Hz. rewrite Hset.
    + apply (Hk1 (q - 8) szq z Hinq Hz).
    + rewrite <- Hs1 in Hinq1, Hin.
      destruct (layout_sep _ _ _ _ _ _ _ _ Hss1 Hinq1 Hin) as [(E & _) | Hd]; [|lia].
      exfalso. apply (Hnew szq). rewrite <- E. exact Hinq.
Qed.

Lemma one_live_calloc : calloc 16 one_live 5 8 = Some (65664, cleared).
Proof.
  assert (H : option_map fst (calloc 16 one_live 5 8) = Some 65664)
    by (vm_compute; reflexivity).
  unfold cleared. destruct (calloc 16 one_live 5 8) as [[q s']|]; [|discriminate].
  cbn [option_map fst] in H. injection H as ->. reflexivity.
Qed.

Lemma calloc_keeps_live_witness :
  ~ In 65664 [65552] /\ get_alloc cleared (65664 - 8) = true /\
  5 * 8 <= get_size cleared (65664 - 8) - 8 /\
  (forall i, 0 <= i < 5 * 8 -> mem cleared (65664 + i) = 0) /\
  (forall q, In q [65552] -> live_kept one_live cleared q) /\
  good cleared (65664 :: [65552]).
Proof.
  assert (H1 : 0 <= 5 < two64) by (rewrite two64_val; lia).
  assert (H2 : 0 <= 8 < two64) by (rewrite two64_val; lia).
  assert (H3 : 5 * 8 + 23 < two64) by (rewrite two64_val; lia).
  assert (H4 : 65664 <> NULL) by (unfold NULL; lia).
  exact (calloc_keeps_live one_live [65552] 16 5 8 65664 cleared
           one_live_reachable H1 H2 H3 one_live_calloc H4).
Defined.

(** ** [split_block] without a remainder, and the walk between blocks *)

(** X17: when the free block found leaves less than 32 bytes beyond the
    adjusted size, [split_block] takes it whole: the block is off its
    list and allocated with the size it had; the header that follows it
    keeps its size and [alloc] flag and has its [prev_alloc] bit set; the
    heap is regular again. *)
Theorem split_block_takes_whole (s : state) (bs : list (Z * bool))
    (ls : nat -> list Z) (x sz asize : Z) :
  inv s bs ls -> In (x, sz, false) (layout (heap_start s) bs) ->
  asize mod 16 = 0 -> 32 <= asize -> asize <= sz -> sz - asize < 32 ->
  let s' := split_block s x asize in
  get_alloc s' x = true /\ get_size s' x = sz /\ get_prev_alloc s' x = true /\
  get_size s' (x + sz) = get_size s (x + sz) /\
  get_alloc s' (x + sz) = get_alloc s (x + sz) /\
  get_prev_alloc s' (x + sz) = true /\
  lists_inv s' (fun y szy => free_in (heap_start s) bs y szy /\ y <> x)
               (fun j => remove Z.eq_dec x (ls j)) /\
  (forall z, z < x \/ x + sz + 8 <= z ->
             (forall y szy, free_in (heap_start s) bs y szy ->
                            z < y + 8 \/ y + 24 <= z) ->
             mem s' z = mem s z) /\
  exists bs' ls', inv s' bs' ls'.
Proof.
  intros Hinv Hin Ha16 Ha32 Hale Hrem s'.
  assert (Hapos : 0 < asize) by lia.
  destruct (split_case_whole Hinv Hin Hapos Hale Hrem)
    as (nsz & nal & Nm & Nr & Hn & Lx & Ln & HL & Hfr & Hsm).
  fold s' in Lx, Ln, HL, Hfr, Hsm.
  destruct (heap_ok_header s bs x sz false (proj1 Hinv) Hin)
    as (pa & _ & S32 & S16 & Slt & _).
  destruct (tag_fields s' x sz true true Lx S16 ltac:(lia)) as (X1 & X2 & X3).
  destruct (tag_fields s (x + sz) nsz nal false Hn Nm Nr) as (Y1 & Y2 & _).
  destruct (tag_fields s' (x + sz) nsz nal true Ln Nm Nr) as (Z1 & Z2 & Z3).
  split; [exact X2|]. split; [exact X1|]. split; [exact X3|].
  split; [congruence|]. split; [congruence|]. split; [exact Z3|].
  split; [exact HL|]. split; [exact Hfr|].
  destruct (split_block_inv Hinv Hin Ha16 Hapos Hale Ha32)
    as (bs' & ls' & sz' & Hinv' & _).
  exists bs', ls'. exact Hinv'.
Qed.

Lemma split_block_takes_whole_witness :
  let s' := split_block booted first_block 4080 in
  get_alloc s' first_block = true /\ get_size s' first_block = 4096 /\
  get_prev_alloc s' first_block = true /\
  get_size s' (first_block + 4096) = get_size booted (first_block + 4096) /\
  get_alloc s' (first_block + 4096) = get_alloc booted (first_block + 4096) /\
  get_prev_alloc s' (first_block + 4096) = true /\
  lists_inv s' (fun y szy => free_in (heap_start booted) [(4096, false)] y szy /\
                             y <> first_block)
               (fun j => remove Z.eq_dec first_block (booted_ls j)) /\
  (forall z, z < first_block \/ first_block + 4096 + 8 <= z ->
             (forall y szy, free_in (heap_start booted) [(4096, false)] y szy ->
                            z < y + 8 \/ y + 24 <= z) ->
             mem s' z = mem booted z) /\
  exists bs' ls', inv s' bs' ls'.
Proof.
  assert (H1 : In (first_block, 4096, false) (layout (heap_start booted) [(4096, false)]))
    by (left; reflexivity).
  assert (H2 : 4080 mod 16 = 0) by reflexivity.
  assert (H3 : 32 <= 4080) by lia.
  assert (H4 : 4080 <= 4096) by lia.
  assert (H5 : 4096 - 4080 < 32) by lia.
  exact (split_block_takes_whole booted [(4096, false)] booted_ls first_block 4096 4080
           booted_inv H1 H2 H3 H4 H5).
Defined.

(** X18: on a regular heap, [find_next] of a block is the address right
    after it.  For a free block, [header_to_footer] is its last word,
    [footer_to_header] leads back from there, and [find_prev] of the
    block that follows is the block itself; [find_prev] of the first
    block of the heap, which reads the prologue, is [NULL]. *)
Theorem block_navigation (s : state) (bs : list (Z * bool)) (x sz : Z) (al : bool) :
  heap_ok s bs -> In (x, sz, al) (layout (heap_start s) bs) ->
  find_next s x = x + sz /\
  find_prev s (heap_start s) = NULL /\
  (al = false ->
   header_to_footer s x = x + sz - 8 /\
   footer_to_header s (header_to_footer s x) = x /\
   find_prev s (find_next s x) = x).
Proof.
  intros HO Hin.
  destruct (heap_ok_header s bs x sz al HO Hin)
    as (pa & _ & S32 & S16 & Slt & _ & _ & Hsz & _).
  assert (Hn : find_next s x = x + sz) by (unfold find_next; rewrite Hsz; reflexivity).
  split; [exact Hn|]. split.
  - unfold find_prev, find_prev_footer. rewrite (ho_start HO).
    replace (heap_lo s + 8 - 8) with (heap_lo s) by lia.
    rewrite (ho_pro HO). reflexivity.
  - intros ->.
    destruct (free_block_facts s bs x sz HO Hin)
      as (_ & _ & _ & _ & _ & _ & Hf & _).
    assert (Hfo : header_to_footer s x = x + sz - 8).
    { unfold header_to_footer. rewrite Hsz. change dsize with 16. lia. }
    assert (He : extract_size (load s (x + sz - 8)) = sz).
    { rewrite Hf. apply extract_size_pack; [exact S16 | lia]. }
    split; [exact Hfo|]. split.
    + rewrite Hfo. unfold footer_to_header. rewrite He. change wsize with 8. lia.
    + rewrite Hn. unfold find_prev, find_prev_footer.
      replace (x + sz - 8) with (x + sz - 8) by lia. rewrite He.
      replace (sz =? 0) with false by (symmetry; apply Z.eqb_neq; lia).
      unfold footer_to_header. rewrite He. change wsize with 8. lia.
Qed.

Lemma block_navigation_witness :
  find_next booted first_block = first_block + 4096 /\
  find_prev booted (heap_start booted) = NULL /\
  (false = false ->
   header_to_footer booted first_block = first_block + 4096 - 8 /\
   footer_to_header booted (header_to_footer booted first_block) = first_block /\
   find_prev booted (find_next booted first_block) = first_block).
Proof.
  assert (H1 : In (first_block, 4096, false) (layout (heap_start booted) [(4096, false)]))
    by (left; reflexivity).
  exact (block_navigation booted [(4096, false)] first_block 4096 false
           (proj1 booted_inv) H1).
Defined.

(* ===================================================================== *)
(** * Further properties: the heap checker                               *)
(* ===================================================================== *)

(** ** [check_acyclic] *)

Lemma chain_unique s : forall l l' b, chain s b l -> chain s b l' -> l = l'.
Proof.
  induction l as [|x r IH]; intros [|y r'] b H H'; cbn [chain] in *.
  - reflexivity.
  - destruct H' as (E & Hn & _). congruence.
  - destruct H as (E & Hn & _). congruence.
  - destruct H as (E & _ & H). destruct H' as (E' & _ & H').
    subst b. subst y. f_equal. apply (IH r' _ H H').
Qed.

Lemma chain_suffix s : forall l1 l2 b,
  chain s b (l1 ++ l2) -> exists b', chain s b' l2.
Proof.
  induction l1 as [|x r IH]; intros l2 b H.
  - exists b. exact H.
  - cbn [app chain] in H. destruct H as (_ & _ & H). apply (IH _ _ H).
Qed.

(** A list that reaches [NULL] visits no node twice. *)
Lemma chain_nodup s : forall l b, chain s b l -> NoDup l.
Proof.
  induction l as [|x r IH]; intros b H; [constructor|].
  pose proof H as (_ & _ & Hr). constructor; [|apply (IH _ Hr)].
  intros Hin. apply in_split in Hin. destruct Hin as (r1 & r2 & E).
  rewrite E in Hr. destruct (chain_suffix s r1 (x :: r2) _ Hr) as (b' & Hs).
  assert (Hx : chain s x (x :: r)).
  { destruct H as (_ & Hn & H). split; [reflexivity | split; assumption]. }
  assert (Hb' : b' = x) by (destruct Hs as (-> & _); reflexivity).
  rewrite Hb' in Hs. pose proof (chain_unique s _ _ _ Hx Hs) as E2.
  injection E2 as E2. rewrite E in E2. apply (f_equal (@length Z)) in E2.
  rewrite length_app in E2. cbn [length] in E2. lia.
Qed.

(** X19: [check_acyclic] accepts every list whose [next] links reach
    [NULL], given fuel beyond the length of the list. *)
Theorem check_acyclic_accepts (s : state) (head : Z) (l : list Z) (fuel : nat) :
  chain s head l -> (length l < fuel)%nat ->
  check_acyclic fuel s head = Some true.
Proof.
  intros Hc Hf.
  apply (check_acyclic_ok s l head fuel Hc (chain_nodup s l head Hc) Hf).
Qed.

Lemma check_acyclic_accepts_witness : check_acyclic 2 booted first_block = Some true.
Proof.
  assert (H1 : chain booted first_block [first_block]).
  { split; [reflexivity|]. split; [unfold first_block, NULL; lia|].
    vm_compute. reflexivity. }
  assert (H2 : (length [first_block] < 2)%nat) by (cbn [length]; lia).
  exact (check_acyclic_accepts booted first_block [first_block] 2 H1 H2).
Defined.

(** The tortoise at step [k] and the hare at step [2k + 1] of a walk that
    never meets [NULL]: they meet at the latest [d] steps on, when the
    walk at [k + d] and at [2 (k + d) + 1] is at the same node. *)
Lemma check_acyclic_loop_meets s head :
  (forall i, Nat.iter i (get_next s) head <> NULL) ->
  forall d k fuel, (d < fuel)%nat ->
  Nat.iter (k + d) (get_next s) head = Nat.iter (2 * (k + d) + 1) (get_next s) head ->
  check_acyclic_loop fuel s (Nat.iter k (get_next s) head)
                     (Nat.iter (2 * k + 1) (get_next s) head) = Some false.
Proof.
  intros Hnn. induction d as [|d IH]; intros k fuel Hf Hm;
    (destruct fuel as [|fuel]; [lia|]); cbn [check_acyclic_loop].
  - rewrite Nat.add_0_r in Hm. rewrite Hm, Z.eqb_refl. reflexivity.
  - destruct (Nat.iter k (get_next s) head =? Nat.iter (2 * k + 1) (get_next s) head);
      [reflexivity|].
    replace (Nat.iter (2 * k + 1) (get_next s) head =? NULL) with false
      by (symmetry; apply Z.eqb_neq; apply Hnn).
    change (get_next s (Nat.iter (2 * k + 1) (get_next s) head))
      with (Nat.iter (S (2 * k + 1)) (get_next s) head).
    replace (Nat.iter (S (2 * k + 1)) (get_next s) head =? NULL) with false
      by (symmetry; apply Z.eqb_neq; apply Hnn).
    cbn [orb].
    change (get_next s (Nat.iter k (get_next s) head))
      with (Nat.iter (S k) (get_next s) head).
    change (get_next s (Nat.iter (S (2 * k + 1)) (get_next s) head))
      with (Nat.iter (S (S (2 * k + 1))) (get_next s) head).
    replace (S (S (2 * k + 1))) with (2 * S k + 1)%nat by lia.
    apply IH; [lia|].
    replace (S k + d)%nat with (k + S d)%nat by lia. exact Hm.
Qed.

Lemma walk_period s head m c :
  Nat.iter (m + c) (get_next s) head = Nat.iter m (get_next s) head ->
  forall j i, (m <= i)%nat ->
  Nat.iter (i + j * c) (get_next s) head = Nat.iter i (get_next s) head.
Proof.
  intros Hp.
  assert (H1 : forall t, Nat.iter (t + (m + c)) (get_next s) head =
                         Nat.iter (t + m) (get_next s) head).
  { induction t as [|t IH]; [exact Hp|].
    cbn [Nat.add Nat.iter nat_rect]. unfold Nat.iter in IH. rewrite IH. reflexivity. }
  induction j as [|j IH]; intros i Hi.
  - rewrite Nat.mul_0_l, Nat.add_0_r. reflexivity.
  - replace (i + S j * c)%nat with ((i + j * c - m) + (m + c))%nat by lia.
    rewrite H1. replace (i + j * c - m + m)%nat with (i + j * c)%nat by lia.
    apply IH. exact Hi.
Qed.

(** X20: [check_acyclic] rejects every list that runs into a cycle: when
    the walk along the [next] links from the head never meets [NULL] and
    is at the same node after [m] and after [m + c] steps, [c] positive,
    it returns false, given [(m + 1) * c] units of fuel. *)
Theorem check_acyclic_detects_cycle (s : state) (head : Z) (m c fuel : nat) :
  (forall i, Nat.iter i (get_next s) head <> NULL) ->
  (0 < c)%nat ->
  Nat.iter (m + c) (get_next s) head = Nat.iter m (get_next s) head ->
  ((m + 1) * c <= fuel)%nat ->
  check_acyclic fuel s head = Some false.
Proof.
  intros Hnn Hc Hp Hf. unfold check_acyclic.
  replace (head =? NULL) with false by (symmetry; apply Z.eqb_neq; apply (Hnn 0%nat)).
  change head with (Nat.iter 0 (get_next s) head) at 1.
  change (get_next s head) with (Nat.iter (2 * 0 + 1) (get_next s) head).
  apply (check_acyclic_loop_meets s head Hnn ((m + 1) * c - 1) 0 fuel); [lia|].
  cbn [Nat.add].
  replace (2 * ((m + 1) * c - 1) + 1)%nat
    with (((m + 1) * c - 1) + (m + 1) * c)%nat by lia.
  symmetry. apply (walk_period s head m c Hp). nia.
Qed.

Lemma looped_walk i : Nat.iter i (get_next looped) first_block = first_block.
Proof.
  induction i as [|i IH]; [reflexivity|].
  cbn [Nat.iter nat_rect]. unfold Nat.iter in IH. rewrite IH.
  vm_compute. reflexivity.
Qed.

Lemma check_acyclic_detects_cycle_witness :
  check_acyclic 1 looped first_block = Some false.
Proof.
  assert (H1 : forall i, Nat.iter i (get_next looped) first_block <> NULL).
  { intros i. rewrite looped_walk. unfold first_block, NULL. lia. }
  assert (H2 : (0 < 1)%nat) by lia.
  assert (H3 : Nat.iter (0 + 1) (get_next looped) first_block =
               Nat.iter 0 (get_next looped) first_block)
    by (rewrite !looped_walk; reflexivity).
  assert (H4 : ((0 + 1) * 1 <= 1)%nat) by (cbn; lia).
  exact (check_acyclic_detects_cycle looped first_block 0 1 1 H1 H2 H3 H4).
Defined.

(** ** What a true answer of [mm_checkheap] says *)

Lemma check_acyclic_all_flag fuel s : forall n index flag,
  check_acyclic_all n fuel s index flag = Some true -> flag = true.
Proof.
  induction n as [|n IH]; intros index flag H; cbn [check_acyclic_all] in H.
  - injection H as ->. reflexivity.
  - destruct (index <? list_length)%nat; [|injection H as ->; reflexivity].
    destruct (check_acyclic fuel s (seg s index)) as [ok|]; [|discriminate].
    cbn [obind] in H. apply IH in H. destruct ok; [exact H | discriminate].
Qed.

(** The checks behind a true answer. *)
Lemma checkheap_true_parts s fuel :
  mm_checkheap fuel s = Some true ->
  check_payload_align fuel s = Some true /\
  check_epi_prologue s = true /\
  check_range fuel s = Some true /\
  check_free_list_consistent fuel s = Some true /\
  check_free_list_size_range fuel s = Some true /\
  check_free_list_pointer_range fuel s = Some true /\
  check_header_footer_consistency fuel s = Some true /\
  check_curr_next_consistency fuel s = Some true /\
  check_no_consecutive_free_blocks fuel s = Some true /\
  check_no_block_loss fuel s = Some true.
Proof.
  unfold mm_checkheap. intros H.
  destruct (check_payload_align fuel s) as [c1|]; [|discriminate]. cbn [obind] in H.
  destruct (check_acyclic_all list_length fuel s 0 c1) as [c2|] eqn:E2; [|discriminate].
  cbn [obind] in H.
  destruct (check_range fuel s) as [c4|]; [|discriminate]. cbn [obind] in H.
  destruct (check_free_list_consistent fuel s) as [c5|]; [|discriminate].
  cbn [obind] in H.
  destruct (check_free_list_size_range fuel s) as [c6|]; [|discriminate].
  cbn [obind] in H.
  destruct (check_free_list_pointer_range fuel s) as [c7|]; [|discriminate].
  cbn [obind] in H.
  destruct (check_header_footer_consistency fuel s) as [c8|]; [|discriminate].
  cbn [obind] in H.
  destruct (check_curr_next_consistency fuel s) as [c9|]; [|discriminate].
  cbn [obind] in H.
  destruct (check_no_consecutive_free_blocks fuel s) as [c10|]; [|discriminate].
  cbn [obind] in H.
  destruct (check_no_block_loss fuel s) as [c11|]; [|discriminate].
  cbn [obind] in H. injection H as H.
  repeat (apply andb_true_iff in H; destruct H as [H ?]). subst.
  apply check_acyclic_all_flag in E2. subst. repeat split; try reflexivity; assumption.
Qed.

(** A walk of the heap that answers true has met no bad block. *)
Lemma heap_walk_true bad s : forall fuel b,
  heap_walk bad fuel s b = Some true ->
  forall k, (forall i, (i <= k)%nat -> 0 < get_size s (Nat.iter i (find_next s) b)) ->
  bad s (Nat.iter k (find_next s) b) = false.
Proof.
  induction fuel as [|fuel IH]; intros b H k Hk; [discriminate|].
  cbn [heap_walk] in H.
  pose proof (Hk 0%nat ltac:(lia)) as H0. cbn [Nat.iter nat_rect] in H0.
  replace (get_size s b >? 0) with true in H by (symmetry; apply Z.gtb_lt; lia).
  destruct (bad s b) eqn:Eb; [discriminate|].
  destruct k as [|k]; [exact Eb|].
  rewrite Nat.iter_succ_r. apply (IH _ H).
  intros i Hi. rewrite <- Nat.iter_succ_r. apply Hk. lia.
Qed.

Lemma out_of_range_false s p :
  out_of_range s p = false -> mem_heap_lo s < p < mem_heap_hi s - 7.
Proof.
  unfold out_of_range. intros H. apply orb_false_iff in H. destruct H as [H1 H2].
  apply Z.leb_gt in H1. apply Z.leb_gt in H2. lia.
Qed.

(** X21: when [mm_checkheap] returns true, the prologue and the epilogue
    are allocated words of size 0, and every block that the walk from
    [heap_start] along the sizes meets before a word of size 0 passes the
    block checks: the payload of an allocated block is 16-byte aligned,
    the block lies strictly between prologue and epilogue, a free block
    has a footer equal to its header, the [prev_alloc] bit of the block
    that follows is its allocation flag, and a free block is followed by
    an allocated one. *)
Theorem checkheap_true_blocks (s : state) (fuel k : nat) :
  mm_checkheap fuel s = Some true ->
  (forall i, (i <= k)%nat ->
             0 < get_size s (Nat.iter i (find_next s) (heap_start s))) ->
  let b := Nat.iter k (find_next s) (heap_start s) in
  (get_alloc s (mem_heap_lo s) = true /\ get_size s (mem_heap_lo s) = 0 /\
   get_alloc s (mem_heap_hi s - 7) = true /\ get_size s (mem_heap_hi s - 7) = 0) /\
  (get_alloc s b = true -> Z.rem (header_to_payload b) 16 = 0) /\
  mem_heap_lo s < b < mem_heap_hi s - 7 /\
  (get_alloc s b = false -> load s b = load s (header_to_footer s b)) /\
  (0 < get_size s (find_next s b) ->
   get_prev_alloc s (find_next s b) = get_alloc s b /\
   (get_alloc s b = false -> get_alloc s (find_next s b) = true)).
Proof.
  intros H Hk b.
  destruct (checkheap_true_parts s fuel H)
    as (P1 & P2 & P3 & _ & _ & _ & P7 & P8 & P9 & _).
  unfold check_payload_align in P1. rewrite check_payload_align_walk in P1.
  unfold check_range in P3. rewrite check_range_walk in P3.
  unfold check_header_footer_consistency in P7. rewrite check_header_footer_walk in P7.
  unfold check_curr_next_consistency in P8. rewrite check_curr_next_walk in P8.
  unfold check_no_consecutive_free_blocks in P9. rewrite check_no_consecutive_walk in P9.
  pose proof (heap_walk_true _ s fuel _ P1 k Hk) as B1.
  pose proof (heap_walk_true _ s fuel _ P3 k Hk) as B3.
  pose proof (heap_walk_true _ s fuel _ P7 k Hk) as B7.
  pose proof (heap_walk_true _ s fuel _ P8 k Hk) as B8.
  pose proof (heap_walk_true _ s fuel _ P9 k Hk) as B9.
  fold b in B1, B3, B7, B8, B9.
  split; [|split; [|split; [|split]]].
  - unfold check_epi_prologue in P2.
    apply andb_true_iff in P2. destruct P2 as [E1 E2].
    apply andb_true_iff in E1. destruct E1 as [E1 E1'].
    apply andb_true_iff in E2. destruct E2 as [E2 E2'].
    apply Z.eqb_eq in E1'. apply Z.eqb_eq in E2'.
    repeat split; assumption.
  - intros Ha. unfold bad_align in B1. rewrite Ha in B1. cbn [andb] in B1.
    apply negb_false_iff in B1. apply Z.eqb_eq in B1. exact B1.
  - apply out_of_range_false. exact B3.
  - intros Ha. unfold bad_header_footer in B7. rewrite Ha in B7. cbn [negb andb] in B7.
    apply negb_false_iff in B7. apply Z.eqb_eq in B7. exact B7.
  - intros Hn. unfold bad_curr_next in B8. unfold bad_consecutive in B9.
    replace (get_size s (find_next s b) >? 0) with true in B8, B9
      by (symmetry; apply Z.gtb_lt; lia).
    cbn [andb] in B8, B9. apply negb_false_iff in B8. apply Bool.eqb_prop in B8.
    split; [exact B8|]. intros Ha. rewrite Ha in B9. cbn [negb andb] in B9.
    apply negb_false_iff in B9. exact B9.
Qed.

Lemma booted_checkheap : mm_checkheap 20 booted = Some true.
Proof. vm_compute. reflexivity. Qed.

Lemma checkheap_true_blocks_witness :
  let b := Nat.iter 0 (find_next booted) (heap_start booted) in
  (get_alloc booted (mem_heap_lo booted) = true /\
   get_size booted (mem_heap_lo booted) = 0 /\
   get_alloc booted (mem_heap_hi booted - 7) = true /\
   get_size booted (mem_heap_hi booted - 7) = 0) /\
  (get_alloc booted b = true -> Z.rem (header_to_payload b) 16 = 0) /\
  mem_heap_lo booted < b < mem_heap_hi booted - 7 /\
  (get_alloc booted b = false -> load booted b = load booted (header_to_footer booted b)) /\
  (0 < get_size booted (find_next booted b) ->
   get_prev_alloc booted (find_next booted b) = get_alloc booted b /\
   (get_alloc booted b = false -> get_alloc booted (find_next booted b) = true)).
Proof.
  assert (H : forall i, (i <= 0)%nat ->
                0 < get_size booted (Nat.iter i (find_next booted) (heap_start booted))).
  { intros i Hi. replace i with 0%nat by lia. vm_compute. reflexivity. }
  exact (checkheap_true_blocks booted 20 0 booted_checkheap H).
Defined.

Lemma check_lists_true fuel s bad : forall n index,
  check_lists n fuel s bad index = Some true ->
  forall idx, (index <= idx < index + n)%nat -> (idx < list_length)%nat ->
  check_list fuel s (bad idx) (seg s idx) = Some true.
Proof.
  induction n as [|n IH]; intros index H idx Hr Hl; [lia|].
  cbn [check_lists] in H.
  replace (index <? list_length)%nat with true in H
    by (symmetry; apply Nat.ltb_lt; lia).
  destruct (check_list fuel s (bad index) (seg s index)) as [ok|] eqn:E; [|discriminate].
  cbn [obind] in H. destruct ok; [|discriminate].
  destruct (Nat.eq_dec idx index) as [-> | Hne]; [exact E|].
  apply (IH (S index) H); lia.
Qed.

(** A pass over a list that answers true has reached [NULL] and met no
    bad node. *)
Lemma check_list_true s bad : forall fuel b,
  check_list fuel s bad b = Some true ->
  exists l, chain s b l /\ forall x, In x l -> bad s x = false.
Proof.
  induction fuel as [|fuel IH]; intros b H; [discriminate|].
  cbn [check_list] in H. destruct (b =? NULL) eqn:Eb.
  - apply Z.eqb_eq in Eb. exists []. split; [exact Eb | intros x []].
  - apply Z.eqb_neq in Eb. destruct (bad s b) eqn:Ebad; [discriminate|].
    destruct (IH _ H) as (l & Hc & Hl). exists (b :: l). split.
    + split; [reflexivity|]. split; assumption.
    + intros x [<- | Hx]; [exact Ebad | apply Hl; exact Hx].
Qed.

(** X22: when [mm_checkheap] returns true, each of the fifteen lists
    reaches [NULL], and every node on the list of a class passes the list
    checks: the [prev] link of its successor points back to it, its size
    lies in the interval of the class, and its non-null links point
    strictly between prologue and epilogue. *)
Theorem checkheap_true_lists (s : state) (fuel index : nat) :
  mm_checkheap fuel s = Some true -> (index < list_length)%nat ->
  exists l, chain s (seg s index) l /\
    forall x, In x l ->
      (get_next s x <> NULL -> get_prev s (get_next s x) = x) /\
      class_lo index <= get_size s x < class_hi index /\
      (get_prev s x <> NULL -> mem_heap_lo s < get_prev s x < mem_heap_hi s - 7) /\
      (get_next s x <> NULL -> mem_heap_lo s < get_next s x < mem_heap_hi s - 7).
Proof.
  intros H Hi.
  destruct (checkheap_true_parts s fuel H) as (_ & _ & _ & P4 & P5 & P6 & _).
  unfold check_free_list_consistent in P4.
  unfold check_free_list_size_range in P5.
  unfold check_free_list_pointer_range in P6.
  pose proof (check_lists_true _ _ _ _ _ P4 index ltac:(unfold list_length in *; lia) Hi)
    as Q4.
  pose proof (check_lists_true _ _ _ _ _ P5 index ltac:(unfold list_length in *; lia) Hi)
    as Q5.
  pose proof (check_lists_true _ _ _ _ _ P6 index ltac:(unfold list_length in *; lia) Hi)
    as Q6.
  cbv beta in Q4, Q5, Q6.
  destruct (check_list_true _ _ _ _ Q4) as (l & Hc & B4).
  destruct (check_list_true _ _ _ _ Q5) as (l5 & Hc5 & B5).
  destruct (check_list_true _ _ _ _ Q6) as (l6 & Hc6 & B6).
  rewrite <- (chain_unique s _ _ _ Hc Hc5) in B5.
  rewrite <- (chain_unique s _ _ _ Hc Hc6) in B6.
  exists l. split; [exact Hc|]. intros x Hx.
  specialize (B4 x Hx). specialize (B5 x Hx). specialize (B6 x Hx).
  cbv beta in B4, B5, B6.
  apply orb_false_iff in B5. destruct B5 as [B5a B5b].
  apply Z.ltb_ge in B5a. apply Z.leb_gt in B5b.
  apply orb_false_iff in B6. destruct B6 as [B6a B6b].
  split; [|split; [lia|split]].
  - intros Hn. replace (get_next s x =? NULL) with false in B4
      by (symmetry; apply Z.eqb_neq; exact Hn).
    cbn [negb andb] in B4. apply negb_false_iff in B4. apply Z.eqb_eq in B4. exact B4.
  - intros Hp. replace (get_prev s x =? NULL) with false in B6a
      by (symmetry; apply Z.eqb_neq; exact Hp).
    cbn [negb andb] in B6a. apply out_of_range_false. exact B6a.
  - intros Hn. replace (get_next s x =? NULL) with false in B6b
      by (symmetry; apply Z.eqb_neq; exact Hn).
    cbn [negb andb] in B6b. apply out_of_range_false. exact B6b.
Qed.

Lemma checkheap_true_lists_witness :
  exists l, chain booted (seg booted 10) l /\
    forall x, In x l ->
      (get_next booted x <> NULL -> get_prev booted (get_next booted x) = x) /\
      class_lo 10 <= get_size booted x < class_hi 10 /\
      (get_prev booted x <> NULL ->
       mem_heap_lo booted < get_prev booted x < mem_heap_hi booted - 7) /\
      (get_next booted x <> NULL ->
       mem_heap_lo booted < get_next booted x < mem_heap_hi booted - 7).
Proof.
  assert (H : (10 < list_length)%nat) by (unfold list_length; lia).
  exact (checkheap_true_lists booted 20 10 booted_checkheap H).
Defined.

(** ** The states of a run *)

(** Below [2^63] the range test is the signed test of the source. *)
Lemma out_of_range_signed s p :
  0 <= mem_heap_lo s < 2 ^ 63 -> mem_heap_hi s < 2 ^ 63 -> 0 <= p < two64 ->
  out_of_range s p =
  (to_signed p <=? to_signed (mem_heap_lo s)) ||
  (to_signed (mem_heap_hi s) - 7 <=? to_signed p).
Proof.
  intros Hlo Hhi Hp. unfold out_of_range, to_signed. rewrite two64_val in *.
  replace (mem_heap_lo s <? 2 ^ 63) with true by (symmetry; apply Z.ltb_lt; lia).
  replace (mem_heap_hi s <? 2 ^ 63) with true by (symmetry; apply Z.ltb_lt; lia).
  destruct (p <? 2 ^ 63) eqn:E; [reflexivity|]. apply Z.ltb_ge in E.
  replace (p <=? mem_heap_lo s) with false by (symmetry; apply Z.leb_gt; lia).
  replace (mem_heap_hi s - 7 <=? p) with true by (symmetry; apply Z.leb_le; lia).
  replace (p - 18446744073709551616 <=? mem_heap_lo s) with true
    by (symmetry; apply Z.leb_le; lia).
  reflexivity.
Qed.

(** X23: in every state of a run (the requests that [realloc] and
    [calloc] fill being at most [2^64 - 24] bytes) on a machine whose
    memory ends at [2^63] or below, the checker returns true, whatever the
    fuel beyond a bound, and its range test is the signed test of the
    source.  Given the fuel of the lists, [malloc] returns for every size,
    [realloc] for [NULL] or a live pointer with a size of at most
    [2^64 - 24], and [calloc] for a product that overflows or is at most
    [2^64 - 24]. *)
Theorem run_state_sound (s : state) (L : list Z) :
  reachable s L -> mem_max s <= 2 ^ 63 ->
  (exists fuel0, forall fuel, (fuel0 <= fuel)%nat -> mm_checkheap fuel s = Some true) /\
  (forall p, 0 <= p < two64 ->
     out_of_range s p =
     (to_signed p <=? to_signed (mem_heap_lo s)) ||
     (to_signed (mem_heap_hi s) - 7 <=? to_signed p)) /\
  (exists fuel, forall p c n,
     0 <= n < two64 -> 0 <= c < two64 ->
     malloc fuel s n <> None /\
     (p = NULL \/ In p L -> p = NULL \/ n + 23 < two64 ->
      realloc fuel s p n <> None) /\
     (two64 <= c * n \/ c * n + 23 < two64 -> calloc fuel s c n <> None)).
Proof.
  intros H Hmax. split; [|split].
  - apply (reachable_checkheap s L H).
  - pose proof (reachable_good s L H) as (bs & ls & [HO _] & _).
    destruct (heap_ok_geometry s bs HO) as (G1 & G2 & G3 & G4 & G5 & G6).
    intros p Hp. apply out_of_range_signed; unfold mem_heap_lo, mem_heap_hi; lia.
  - apply (reachable_calls_return s L H).
Qed.

Lemma run_state_sound_witness :
  (exists fuel0, forall fuel, (fuel0 <= fuel)%nat ->
                              mm_checkheap fuel two_live = Some true) /\
  (forall p, 0 <= p < two64 ->
     out_of_range two_live p =
     (to_signed p <=? to_signed (mem_heap_lo two_live)) ||
     (to_signed (mem_heap_hi two_live) - 7 <=? to_signed p)) /\
  (exists fuel, forall p c n,
     0 <= n < two64 -> 0 <= c < two64 ->
     malloc fuel two_live n <> None /\
     (p = NULL \/ In p [65664; 65552] -> p = NULL \/ n + 23 < two64 ->
      realloc fuel two_live p n <> None) /\
     (two64 <= c * n \/ c * n + 23 < two64 -> calloc fuel two_live c n <> None)).
Proof.
  assert (H : mem_max two_live <= 2 ^ 63) by (vm_compute; discriminate).
  exact (run_state_sound two_live [65664; 65552] two_live_reachable H).
Defined.

(* ===================================================================== *)
(** * Further properties: freed memory is used again                     *)
(* ===================================================================== *)

(** A list walked to its end without a fit holds no fit. *)
Lemma find_fit_list_null : forall fuel s asize b l,
  chain s b l -> find_fit_list fuel s asize b = Some NULL ->
  forall x, In x l -> fits s asize x = false.
Proof.
  induction fuel as [|fuel IH]; intros s asize b l Hc Hf x Hx; [discriminate|].
  cbn [find_fit_list] in Hf. destruct l as [|y r]; [destruct Hx|].
  destruct Hc as (-> & Hy & Hc).
  replace (y =? NULL) with false in Hf by (symmetry; apply Z.eqb_neq; exact Hy).
  fold (fits s asize y) in Hf.
  destruct (fits s asize y) eqn:Et; [injection Hf as E; contradiction|].
  destruct Hx as [<- | Hx]; [exact Et|].
  apply (IH s asize _ r Hc Hf x Hx).
Qed.

(** A scan of the classes from [index] on that ends without a fit has met
    no fit on any of their lists. *)
Lemma find_fit_from_null s asize (ls : nat -> list Z) fuel :
  (forall i, (i < list_length)%nat -> chain s (seg s i) (ls i)) ->
  forall n index, (list_length <= index + n)%nat ->
  find_fit_from n fuel s asize index = Some NULL ->
  forall i, (index <= i < list_length)%nat ->
  forall x, In x (ls i) -> fits s asize x = false.
Proof.
  intros Hch. induction n as [|n IH]; intros index Hn Hf i Hi x Hx; [lia|].
  cbn [find_fit_from] in Hf.
  replace (index <? list_length)%nat with true in Hf
    by (symmetry; apply Nat.ltb_lt; lia).
  destruct (find_fit_list fuel s asize (seg s index)) as [b|] eqn:El; [|discriminate].
  destruct (b =? NULL) eqn:Eb.
  - apply Z.eqb_eq in Eb. subst b.
    destruct (Nat.eq_dec i index) as [-> | Hne].
    + apply (find_fit_list_null _ _ _ _ _ (Hch index ltac:(lia)) El x Hx).
    + apply (IH (S index) ltac:(lia) Hf i ltac:(lia) x Hx).
  - injection Hf as ->. discriminate.
Qed.

(** X24: freed memory is used again.  In a state of a run, after [free]
    of a live pointer, a [malloc] whose adjusted size is at most the size
    of the freed block is served from the lists: it does not return
    [NULL] and leaves the break where it was before the [free]. *)
Theorem free_then_malloc_reuses (s : state) (L : list Z) (fuel : nat) (p n q : Z)
    (s' : state) :
  reachable s L -> In p L -> n <> 0 ->
  adjusted_size n <= get_size s (p - 8) ->
  malloc fuel (free s p) n = Some (q, s') ->
  q <> NULL /\ brk s' = brk s /\ heap_lo s' = heap_lo s.
Proof.
  intros Hr Hp Hn Hfit Hm. apply reachable_good in Hr.
  destruct Hr as (bs & ls & Hinv & HLv).
  apply HLv in Hp. destruct Hp as (sz & Hin).
  destruct (heap_ok_header s bs _ sz true (proj1 Hinv) Hin)
    as (pa & _ & _ & _ & _ & _ & _ & Hsz & _).
  rewrite Hsz in Hfit.
  destruct (free_inv s bs ls p sz Hinv Hin)
    as (bs' & ls' & Hinv' & Hsm & _ & _ & (x & sz' & Hx & Hc1 & Hc2)).
  set (s1 := free s p) in *.
  assert (Hs1 : heap_start s1 = heap_start s) by apply Hsm.
  rewrite <- Hs1 in Hx.
  destruct (free_block_neighbours s1 bs' x sz' (proj1 Hinv') Hx) as (N1 & N2 & _).
  destruct (heap_ok_header s1 bs' x sz' false (proj1 Hinv') Hx)
    as (px & _ & _ & _ & Xlt & _).
  destruct (adjusted_size_16 n) as [[A32 Alt] A16].
  unfold malloc in Hm. rewrite (lazy_init_inv s1 bs' ls' Hinv') in Hm.
  replace (n =? 0) with false in Hm by (symmetry; apply Z.eqb_neq; exact Hn).
  destruct (find_fit fuel s1 (adjusted_size n)) as [b|] eqn:Ef; [|discriminate].
  destruct (find_fit_inv s1 bs' ls' _ fuel b Hinv' Ef) as [-> | (szb & Hinb & Hle)].
  - exfalso. unfold find_fit in Ef.
    pose proof (find_index_monotone (adjusted_size n) sz' A32 ltac:(lia)) as Hmono.
    pose proof (find_index_lt sz') as Hlt.
    pose proof (find_fit_from_null s1 (adjusted_size n) ls' fuel
                  (lists_inv_chain s1 _ ls' (proj2 Hinv')) list_length
                  (find_index (adjusted_size n)) ltac:(lia) Ef
                  (find_index sz') ltac:(lia) x
                  (li_all (proj2 Hinv') x sz' Hx)) as Hno.
    unfold fits in Hno. rewrite N1, N2 in Hno. cbn [negb andb] in Hno.
    apply Z.leb_gt in Hno. lia.
  - destruct (heap_ok_header s1 bs' b szb false (proj1 Hinv') Hinb)
      as (pb & _ & _ & _ & _ & Hpos & _).
    replace (b =? NULL) with false in Hm
      by (symmetry; apply Z.eqb_neq; unfold NULL; lia).
    injection Hm as <- <-.
    destruct (split_block_inv Hinv' Hinb A16 ltac:(lia) Hle A32)
      as (bs2 & ls2 & sz2 & _ & Hsm2 & _).
    destruct Hsm as (S1 & S2 & _). destruct Hsm2 as (T1 & T2 & _).
    split; [unfold header_to_payload, NULL; lia|]. split; congruence.
Qed.

Lemma two_live_reuse : malloc 16 (free two_live 65552) 100 = Some (65552, reused).
Proof.
  assert (H : option_map fst (malloc 16 (free two_live 65552) 100) = Some 65552)
    by (vm_compute; reflexivity).
  unfold reused.
  destruct (malloc 16 (free two_live 65552) 100) as [[q s']|]; [|discriminate].
  cbn [option_map fst] in H. injection H as ->. reflexivity.
Qed.

Lemma free_then_malloc_reuses_witness :
  65552 <> NULL /\ brk reused = brk two_live /\ heap_lo reused = heap_lo two_live.
Proof.
  assert (H1 : In 65552 [65664; 65552]) by (right; left; reflexivity).
  assert (H2 : 100 <> 0) by lia.
  assert (H3 : adjusted_size 100 <= get_size two_live (65552 - 8))
    by (vm_compute; discriminate).
  exact (free_then_malloc_reuses two_live [65664; 65552] 16 65552 100 65552 reused
           two_live_reachable H1 H2 H3 two_live_reuse).
Defined.

(** ** [free] on the list of blocks *)

Lemma one_live_fields :
  heap_lo one_live = 65536 /\ heap_start one_live = 65544 /\
  brk one_live = 69648 /\ mem_max one_live = 1114112.
Proof. vm_compute. repeat split. Qed.

Lemma one_live_heap : heap_ok one_live [(112, true); (3984, false)].
Proof.
  destruct one_live_fields as (Hlo & Hst & Hbrk & Hmax).
  constructor; rewrite ?Hlo, ?Hst, ?Hbrk, ?Hmax.
  - split; [lia | reflexivity].
  - reflexivity.
  - reflexivity.
  - rewrite two64_val. lia.
  - vm_compute. reflexivity.
  - cbn [blocks]. split; [lia|]. split; [reflexivity|].
    split; [vm_compute; reflexivity|]. split; [discriminate|].
    split; [lia|]. split; [reflexivity|].
    split; [vm_compute; reflexivity|].
    split; [|exact I]. intros _. split; [reflexivity|]. vm_compute. reflexivity.
  - vm_compute. reflexivity.
Qed.

Lemma one_live_lists :
  lists_inv one_live (free_in 65544 [(112, true); (3984, false)]) one_live_ls.
Proof.
  constructor.
  - vm_compute. reflexivity.
  - intros i Hi. unfold list_length in Hi.
    do 15 (destruct i as [|i]; [vm_compute; repeat split|]). lia.
  - intros i. unfold one_live_ls. destruct (Nat.eqb i 9).
    + constructor; [intros [] | constructor].
    + constructor.
  - intros i x. unfold one_live_ls. destruct (Nat.eqb_spec i 9) as [-> | Hne].
    + intros [<- | []]. exists 3984. split; [right; left; reflexivity | reflexivity].
    + intros [].
  - intros x sz [Hx | [Hx | []]]; [discriminate|].
    injection Hx as <- <-. left. reflexivity.
  - intros x sz y sz' [Hx | [Hx | []]] [Hy | [Hy | []]]; try discriminate.
    injection Hx as <- <-. injection Hy as <- <-. left. split; reflexivity.
  - intros x sz [Hx | [Hx | []]]; [discriminate|].
    injection Hx as <- <-. rewrite two64_val. lia.
Qed.

Lemma one_live_inv : inv one_live [(112, true); (3984, false)] one_live_ls.
Proof.
  split; [exact one_live_heap|].
  replace (heap_start one_live) with 65544 by (symmetry; apply one_live_fields).
  exact one_live_lists.
Qed.

(** X25: [free] on the list of blocks.  On a regular heap whose blocks
    are [l1], an allocated block of size [sz], and [l2], [free] of the
    payload of that block leaves a regular heap whose blocks are those of
    [merge_free l1 sz l2]: the block is free and merged with the block
    that ends [l1] and with the block that begins [l2], each when it is
    free; every other block is as before, and the lists hold exactly the
    free blocks of the new heap. *)
Theorem free_merges (s : state) (ls : nat -> list Z) (l1 : list (Z * bool))
    (sz : Z) (l2 : list (Z * bool)) :
  inv s (l1 ++ (sz, true) :: l2) ls ->
  exists ls', inv (free s (heap_start s + total l1 + 8)) (merge_free l1 sz l2) ls'.
Proof.
  intros Hinv. pose proof Hinv as [H HL].
  assert (Hin : In (heap_start s + total l1, sz, true)
                   (layout (heap_start s) (l1 ++ (sz, true) :: l2)))
    by apply layout_mid.
  destruct (heap_ok_header _ _ _ _ _ H Hin) as (pa & _ & B1 & B2 & B3 & B4 & B5 & B6 & _).
  destruct (pre_coalesce_of_free s _ ls l1 sz l2 Hinv eq_refl) as (PC & Hsm & Hfe1).
  destruct (coalesce_block_spec PC) as (la & sz' & lb & ls1 & Q & _ & _ & _ & _ & _ & Hmg).
  unfold free.
  replace (heap_start s + total l1 + 8 =? NULL) with false
    by (symmetry; apply Z.eqb_neq; unfold NULL; lia).
  unfold payload_to_header.
  replace (heap_start s + total l1 + 8 - 8) with (heap_start s + total l1) by lia.
  rewrite B6.
  set (s2 := update_next_prev_alloc _ _ _) in *.
  change (heap_start s2) with (heap_start s) in *.
  destruct (coalesce_block s2 (heap_start s + total l1)) as [b' s3]. cbn [fst snd] in *.
  destruct (add_after_coalesce _ _ _ _ _ _ Q) as (ls' & Hinv' & _).
  exists ls'. rewrite <- Hmg. exact Hinv'.
Qed.

Lemma free_merges_witness :
  exists ls', inv (free one_live (heap_start one_live + total [] + 8))
                  (merge_free [] 112 [(3984, false)]) ls'.
Proof.
  assert (H : inv one_live ([] ++ (112, true) :: [(3984, false)]) one_live_ls)
    by (cbn [app]; exact one_live_inv).
  exact (free_merges one_live one_live_ls [] 112 [(3984, false)] H).
Defined.
